(** * Graph connectivity analyses of [graph_connectivity.go]

    A shallow embedding of the Go program (graph loading from a binary
    adjacency matrix, articulation points and bridges, biconnected
    components, connected components) together with the properties its
    specification states about it.

    Conventions of the embedding:
    - Go's [int] and [int16] values are integers of [Z]; an [int16] read
      from the file is decoded from two little-endian bytes with its sign.
    - A slice is a [seq]; indexing with an index outside the slice makes
      the Go runtime panic, which the embedding records as [Panic].
    - The closures [dfs] of the three analyses call themselves; the
      embedding bounds the nesting of those calls by a natural number
      ([depth]) and answers [DepthExceeded] when the bound is reached. *)

From Stdlib Require Import ZArith Lia.
From Stdlib.Strings Require Import Byte.
From HB Require Import structures.
From mathcomp Require Import boot.

Set Implicit Arguments.
Unset Strict Implicit.
Unset Printing Implicit Defensive.

Local Open Scope Z_scope.

HB.instance Definition _ := hasDecEq.Build Z Z.eqb_spec.

(** ** Outcomes of a Go computation *)

Inductive outcome (A : Type) : Type :=
| Ok (a : A)
| Panic
| DepthExceeded.

Arguments Ok {A} a.
Arguments Panic {A}.
Arguments DepthExceeded {A}.

Definition bind {A B : Type} (m : outcome A) (f : A -> outcome B) : outcome B :=
  match m with
  | Ok a => f a
  | Panic => Panic
  | DepthExceeded => DepthExceeded
  end.

Notation "m >>= f" := (bind m f) (at level 50, left associativity).

Fixpoint foldM {A S : Type} (f : S -> A -> outcome S) (s : S) (l : seq A)
  : outcome S :=
  match l with
  | [::] => Ok s
  | x :: l' => f s x >>= fun s' => foldM f s' l'
  end.

(** ** Slices indexed by Go integers *)

Fixpoint upd {A : Type} (s : seq A) (n : nat) (x : A) : seq A :=
  match s, n with
  | [::], _ => [::]
  | _ :: t, O => x :: t
  | h :: t, S n' => h :: upd t n' x
  end.

Definition zlen {A : Type} (s : seq A) : Z := Z.of_nat (size s).

(** [inb s i]: the index [i] is within the bounds of the slice [s]. *)
Definition inb {A : Type} (s : seq A) (i : Z) : bool :=
  (0 <=? i) && (i <? zlen s).

Definition zget {A : Type} (d : A) (s : seq A) (i : Z) : A :=
  nth d s (Z.to_nat i).

Definition zset {A : Type} (s : seq A) (i : Z) (x : A) : seq A :=
  upd s (Z.to_nat i) x.

(** The integers [0, 1, ..., n-1], the values a counting loop runs through. *)
Definition zrange (n : Z) : seq Z := [seq Z.of_nat k | k <- iota 0 (Z.to_nat n)].

(** ** The graph *)

Record Graph : Type := mkGraph {
  Vertices : Z;
  AdjList : seq (seq Z)
}.

(** [make([][]int, vertices)] panics for a negative length.  It fails as
    well for a length beyond what the runtime can allocate; this is not
    modelled, and the lengths [ReadGraph] passes are at most 32767. *)
Definition NewGraph (vertices : Z) : outcome Graph :=
  if vertices <? 0 then Panic
  else Ok (mkGraph vertices (nseq (Z.to_nat vertices) [::])).

Definition AddEdge (g : Graph) (u v : Z) : outcome Graph :=
  if ~~ inb (AdjList g) u then Panic else
  let adj1 := zset (AdjList g) u (rcons (zget [::] (AdjList g) u) v) in
  if ~~ inb adj1 v then Panic else
  Ok (mkGraph (Vertices g) (zset adj1 v (rcons (zget [::] adj1 v) u))).

(** Neighbours of a vertex; a value that is no vertex has none. *)
Definition adj (g : Graph) (u : Z) : seq Z :=
  if inb (AdjList g) u then zget [::] (AdjList g) u else [::].

Definition min (a b : Z) : Z := if a <? b then a else b.

(** ** Reading the graph from a file *)

(** Go's [int16(x)] for [0 <= x < 65536]. *)
Definition int16 (x : Z) : Z := if x <? 32768 then x else x - 65536.

Definition byteZ (b : Byte.byte) : Z := Z.of_N (Byte.to_N b).

(** The [int16] that two bytes hold in little-endian order. *)
Definition le_int16 (b0 b1 : Byte.byte) : Z :=
  int16 (Z.lor (byteZ b0) (Z.shiftl (byteZ b1) 8)).

Arguments le_int16 : simpl never.

(** [binary.Read(file, binary.LittleEndian, &val)] for an [int16]: two
    bytes are consumed, fewer than two left is an error. *)
Definition read_int16 (bs : seq Byte.byte) : option (Z * seq Byte.byte) :=
  match bs with
  | b0 :: b1 :: rest => Some (le_int16 b0 b1, rest)
  | _ => None
  end.

Inductive read_error : Type :=
| InputOpenError
| SizeReadError
| InvalidGraphSize (size : Z)
| MatrixReadError (row col : Z).

(** The inner loop over [j] of the matrix reader, for row [i]. *)
Fixpoint read_row (i : Z) (js : seq Z) (bs : seq Byte.byte)
  : read_error + (seq Z * seq Byte.byte) :=
  match js with
  | [::] => inr ([::], bs)
  | j :: js' =>
      match read_int16 bs with
      | None => inl (MatrixReadError i j)
      | Some (val, bs') =>
          match read_row i js' bs' with
          | inl e => inl e
          | inr (row, bs'') => inr (val :: row, bs'')
          end
      end
  end.

(** The outer loop over [i]. *)
Fixpoint read_rows (size : Z) (rows : seq Z) (bs : seq Byte.byte)
  : read_error + seq (seq Z) :=
  match rows with
  | [::] => inr [::]
  | i :: rows' =>
      match read_row i (zrange size) bs with
      | inl e => inl e
      | inr (row, bs') =>
          match read_rows size rows' bs' with
          | inl e => inl e
          | inr m => inr (row :: m)
          end
      end
  end.

(** [adjMatrix[i][j]]; both indices are within the matrix where it is used. *)
Definition entry (adjMatrix : seq (seq Z)) (i j : Z) : Z :=
  zget 0 (zget [::] adjMatrix i) j.

(** The conversion of the matrix to adjacency lists. *)
Definition matrix_to_graph (size : Z) (adjMatrix : seq (seq Z)) : outcome Graph :=
  NewGraph size >>= fun graph =>
  foldM (fun graph i =>
    foldM (fun graph j =>
      if (entry adjMatrix i j != 0) && (i <? j) then AddEdge graph i j
      else Ok graph) graph (zrange size)) graph (zrange size).

(** [ReadGraph]: the file is [None] when it cannot be opened, otherwise
    its content. [Ok (inl e)] is the return of [(nil, err)], [Ok (inr g)]
    the return of [(graph, nil)]. *)
Definition ReadGraph (file : option (seq Byte.byte)) : outcome (read_error + Graph) :=
  match file with
  | None => Ok (inl InputOpenError)
  | Some bs =>
      match read_int16 bs with
      | None => Ok (inl SizeReadError)
      | Some (size, rest) =>
          if size <=? 0 then Ok (inl (InvalidGraphSize size))
          else match read_rows size (zrange size) rest with
               | inl e => Ok (inl e)
               | inr adjMatrix =>
                   matrix_to_graph size adjMatrix >>= fun graph => Ok (inr graph)
               end
      end
  end.

(** ** Facts on slices *)

Section Slices.
Variable A : Type.
Implicit Types (s : seq A) (i j : Z) (x d : A).

Lemma size_upd s n x : size (upd s n x) = size s.
Proof. by elim: s n => [|h t IH] [|n] //=; rewrite IH. Qed.

Lemma nth_upd d s n m x :
  nth d (upd s n x) m = if (m == n) && (n < size s)%N then x else nth d s m.
Proof.
elim: s n m => [|h t IH] [|n] [|m] //=.
by rewrite andbF.
Qed.

Lemma zlen_zset s i x : zlen (zset s i x) = zlen s.
Proof. by rewrite /zlen /zset size_upd. Qed.

Lemma inb_zset s i j x : inb (zset s i x) j = inb s j.
Proof. by rewrite /inb zlen_zset. Qed.

Lemma inbP s i : reflect (0 <= i < zlen s) (inb s i).
Proof.
rewrite /inb; apply: (iffP andP) => [[/Z.leb_le ? /Z.ltb_lt ?]|[? ?]] //.
by split; [apply/Z.leb_le | apply/Z.ltb_lt].
Qed.

Lemma inb_size s i : inb s i -> (Z.to_nat i < size s)%N.
Proof. by move/inbP; rewrite /zlen => H; apply/ltP; lia. Qed.

Lemma zget_zset_eq d s i x : inb s i -> zget d (zset s i x) i = x.
Proof. by move=> /inb_size H; rewrite /zget /zset nth_upd eqxx H. Qed.

Lemma zget_zset_ne d s i j x :
  0 <= i -> 0 <= j -> i <> j -> zget d (zset s i x) j = zget d s j.
Proof.
move=> Hi Hj Hne; rewrite /zget /zset nth_upd.
case: eqP => //= E; case: Hne; lia.
Qed.

Lemma zget_zset d s i j x :
  inb s i -> 0 <= j ->
  zget d (zset s i x) j = if j == i then x else zget d s j.
Proof.
move=> Hi Hj; case: eqP => [->|Hne]; first exact: zget_zset_eq.
by apply: zget_zset_ne => //; [case/inbP: Hi | move=> E; apply: Hne].
Qed.

Lemma zget_default d s i : zlen s <= i -> zget d s i = d.
Proof. by rewrite /zget /zlen => H; apply: nth_default; apply/leP; lia. Qed.

End Slices.

Lemma mem_zrange n i : (i \in zrange n) = (0 <=? i) && (i <? n).
Proof.
apply/mapP/andP => [[k]|[/Z.leb_le H0 /Z.ltb_lt Hn]].
  rewrite mem_iota add0n => /andP[_ /ltP Hk] ->.
  by split; [apply/Z.leb_le | apply/Z.ltb_lt]; lia.
exists (Z.to_nat i); last by rewrite Z2Nat.id.
by rewrite mem_iota add0n /=; apply/ltP; lia.
Qed.

Lemma zrangeP n i : reflect (0 <= i < n) (i \in zrange n).
Proof.
rewrite mem_zrange; apply: (iffP andP) => [[/Z.leb_le ? /Z.ltb_lt ?]|[? ?]] //.
by split; [apply/Z.leb_le | apply/Z.ltb_lt].
Qed.

Lemma size_zrange n : size (zrange n) = Z.to_nat n.
Proof. by rewrite /zrange size_map size_iota. Qed.

Lemma uniq_zrange n : uniq (zrange n).
Proof.
rewrite map_inj_uniq ?iota_uniq //.
by move=> a b /Nat2Z.inj.
Qed.

(** ** Arithmetic on [nat] through [lia] *)

Ltac nat_norm :=
  repeat match goal with
  | H : ?b = true |- _ => change (is_true b) in H
  | |- ?b = true => change (is_true b)
  | H : is_true (leq _ _) |- _ => move/leP in H
  | H : is_true (~~ leq _ _) |- _ => rewrite -ltnNge in H
  | H : is_true (@eq_op nat _ _) |- _ => move/eqP in H
  | H : is_true (~~ @eq_op nat _ _) |- _ => move/eqP in H
  | H : leq _ _ = false |- _ => move/negbT in H
  | H : context [double _] |- _ => rewrite -mul2n in H
  | H : context [addn _ _] |- _ => rewrite -plusE in H
  | H : context [subn _ _] |- _ => rewrite -minusE in H
  | H : context [muln _ _] |- _ => rewrite -multE in H
  | |- is_true (leq _ _) => apply/leP
  | |- is_true (@eq_op nat _ _) => apply/eqP
  | |- is_true (~~ leq _ _) => rewrite -ltnNge
  | |- is_true (~~ @eq_op nat _ _) => apply/eqP
  | |- leq _ _ = false => apply/negbTE
  end;
  rewrite -?mul2n -?plusE -?minusE -?multE.

Ltac nat_lia := nat_norm; lia.

(** ** Arithmetic on [Z] through [lia] *)

Ltac z_norm :=
  repeat match goal with
  | H : ?b = true |- _ => change (is_true b) in H
  | |- ?b = true => change (is_true b)
  | H : is_true (Z.leb _ _) |- _ => move/Z.leb_le in H
  | H : is_true (Z.ltb _ _) |- _ => move/Z.ltb_lt in H
  | H : Z.leb _ _ = false |- _ => move/Z.leb_gt in H
  | H : Z.ltb _ _ = false |- _ => move/Z.ltb_ge in H
  | H : is_true (~~ Z.leb _ _) |- _ => move/negbTE/Z.leb_gt in H
  | H : is_true (~~ Z.ltb _ _) |- _ => move/negbTE/Z.ltb_ge in H
  | H : is_true (_ && _) |- _ => case/andP: H => ? ?
  | H : is_true (inb _ _) |- _ => move/inbP in H
  | H : is_true (@eq_op _ ?x _) |- _ =>
      match type of x with Z => move/eqP in H end
  | H : is_true (~~ @eq_op _ ?x _) |- _ =>
      match type of x with Z => move/eqP in H end
  | H : @eq_op _ ?x _ = false |- _ =>
      match type of x with Z => move/eqP in H end
  | H : is_true (_ \in zrange _) |- _ => move/zrangeP in H
  | |- is_true (_ && _) => apply/andP; split
  | |- is_true (Z.leb _ _) => apply/Z.leb_le
  | |- is_true (Z.ltb _ _) => apply/Z.ltb_lt
  | |- Z.leb _ _ = false => apply/Z.leb_gt
  | |- Z.ltb _ _ = false => apply/Z.ltb_ge
  | |- is_true (inb _ _) => apply/inbP
  | |- is_true (_ \in zrange _) => apply/zrangeP
  | |- is_true (@eq_op _ ?x _) =>
      match type of x with Z => apply/eqP end
  | |- is_true (~~ @eq_op _ ?x _) =>
      match type of x with Z => apply/eqP end
  end.

Ltac z_lia := z_norm; unfold zlen in *; lia.
(** ** The binary format, read at random *)

(** The [k]-th 16-bit little-endian signed word of a byte sequence. *)
Definition word_at (bs : seq Byte.byte) (k : nat) : Z :=
  le_int16 (nth x00 bs k.*2) (nth x00 bs k.*2.+1).

(** The size field and the matrix entries of a file. *)
Definition file_size (bs : seq Byte.byte) : Z := word_at bs 0.

Definition file_entry (bs : seq Byte.byte) (i j : Z) : Z :=
  word_at bs (Z.to_nat (1 + i * file_size bs + j)).

Lemma word_at_cons2 b0 b1 bs k : word_at (b0 :: b1 :: bs) k.+1 = word_at bs k.
Proof. by rewrite /word_at doubleS. Qed.

Lemma word_at_drop bs n k : word_at (drop n.*2 bs) k = word_at bs (n + k).
Proof. by rewrite /word_at !nth_drop doubleD -addnS. Qed.

Lemma mkseq_cons (T : Type) (f : nat -> T) n :
  mkseq f n.+1 = f 0%N :: mkseq (fun k => f k.+1) n.
Proof.
rewrite /mkseq /= -[1%N]/(1 + 0)%N iotaDl -map_comp.
by congr (_ :: _); apply: eq_map.
Qed.

Lemma read_row_spec i a m bs :
  read_row i [seq Z.of_nat k | k <- iota a m] bs =
    if (m.*2 <= size bs)%N then inr (mkseq (word_at bs) m, drop m.*2 bs)
    else inl (MatrixReadError i (Z.of_nat (a + (size bs)./2))).
Proof.
elim: m a bs => [|m IH] a bs; first by rewrite /= drop0.
rewrite mkseq_cons.
case: bs => [|b0 [|b1 bs]]; rewrite ?[read_row _ _ _]/= ?addn0 //.
rewrite IH doubleS !ltnS; case: ifP => _; last by rewrite addSnnS.
by congr (inr (_ :: _, _)); apply: eq_map => k.
Qed.

Lemma read_rows_spec sz a r bs :
  let n := Z.to_nat sz in
  (0 < n)%N ->
  read_rows sz [seq Z.of_nat k | k <- iota a r] bs =
    if ((r * n).*2 <= size bs)%N
    then inr (mkseq (fun k => mkseq (fun j => word_at bs (k * n + j)) n) r)
    else inl (MatrixReadError (Z.of_nat (a + (size bs)./2 %/ n))
                              (Z.of_nat ((size bs)./2 %% n))).
Proof.
move=> n n0; elim: r a bs => [|r IH] a bs; first by [].
rewrite mkseq_cons [read_rows _ _ _]/= /zrange -/n read_row_spec.
case: (leqP n.*2 (size bs)) => Hn.
  rewrite IH size_drop mulSn doubleD.
  have -> : ((r * n).*2 <= size bs - n.*2)%N = (n.*2 + (r * n).*2 <= size bs)%N.
    by rewrite -(leq_add2l n.*2) subnKC.
  case: ifP => _.
    congr (inr (_ :: _)).
    apply: eq_map => k /=; apply: eq_map => j /=.
    by rewrite word_at_drop mulSn addnA.
  have E : ((size bs)./2 = n + (size bs - n.*2)./2)%N.
    by rewrite -{1}(subnKC Hn) halfD odd_double /= doubleK.
  by rewrite E divnDl ?dvdnn // divnn n0 modnDl addnA addn1 addSnnS.
have Hlt : ((size bs)./2 < n)%N.
  rewrite -(ltn_pmul2l (isT : 0 < 2)%N) !mul2n (leq_ltn_trans _ Hn) //.
  by rewrite -{2}(odd_double_half (size bs)) leq_addl.
case: leqP => [H|_]; last by rewrite divn_small // modn_small // addn0 add0n.
by exfalso; move: H; rewrite mulSn => H; nat_lia.
Qed.

(** ** The adjacency invariant *)

Record adjacency_invariant (g : Graph) : Prop := AdjacencyInvariant {
  inv_pos : 0 < Vertices g;
  inv_len : zlen (AdjList g) = Vertices g;
  inv_sym : forall u v, v \in adj g u -> u \in adj g v;
  inv_rng : forall u v, v \in adj g u -> 0 <= v < Vertices g
}.

(** No loop and no edge twice. *)
Definition simple_graph (g : Graph) : Prop :=
  forall u, uniq (adj g u) /\ u \notin adj g u.

(** What an edge adds to the neighbours of [w]. *)
Definition ends (w : Z) (p : Z * Z) : seq Z :=
  (if w == p.1 then [:: p.2] else [::]) ++ (if w == p.2 then [:: p.1] else [::]).

Definition add_edges (g : Graph) (ps : seq (Z * Z)) : outcome Graph :=
  foldM (fun g p => AddEdge g p.1 p.2) g ps.

Lemma adj_out g u : ~~ inb (AdjList g) u -> adj g u = [::].
Proof. by rewrite /adj => /negbTE->. Qed.

Lemma AddEdge_spec g u v :
  inb (AdjList g) u -> inb (AdjList g) v ->
  exists g', [/\ AddEdge g u v = Ok g', Vertices g' = Vertices g,
                 zlen (AdjList g') = zlen (AdjList g)
               & forall w, adj g' w = adj g w ++ ends w (u, v)].
Proof.
move=> Hu Hv; rewrite /AddEdge Hu /= inb_zset Hv /=.
eexists; split; [reflexivity | by [] | by rewrite /= !zlen_zset |].
move=> w; rewrite /adj /= !inb_zset /ends /=.
case Hw: (inb (AdjList g) w); last first.
  by case: eqP Hw => [->|_]; [rewrite Hu | case: eqP => [->|//]; rewrite Hv].
have [w0 v0] : 0 <= w /\ 0 <= v by z_lia.
rewrite zget_zset ?inb_zset //; case: (w =P v) => [->|_].
  rewrite zget_zset //.
  by case: (v =P u) => [->|_]; rewrite -?cats1 -?catA.
by rewrite zget_zset //; case: (w =P u) => [->|_]; rewrite ?cats0 -?cats1.
Qed.

Lemma AddEdge_Ok g u v g' :
  AddEdge g u v = Ok g' -> inb (AdjList g) u /\ inb (AdjList g) v.
Proof.
rewrite /AddEdge; case: (inb _ u) => //=; rewrite inb_zset.
by case: (inb _ v).
Qed.

Lemma add_edges_cat g ps qs :
  add_edges g (ps ++ qs) = (add_edges g ps >>= fun g' => add_edges g' qs).
Proof.
rewrite /add_edges; elim: ps g => [|p ps IH] g //=.
by case: (AddEdge g p.1 p.2) => //= g'.
Qed.

Lemma add_edges_spec g ps :
  (forall p, p \in ps -> inb (AdjList g) p.1 /\ inb (AdjList g) p.2) ->
  exists g', [/\ add_edges g ps = Ok g', Vertices g' = Vertices g,
                 zlen (AdjList g') = zlen (AdjList g)
               & forall w, adj g' w = adj g w ++ flatten [seq ends w p | p <- ps]].
Proof.
elim: ps g => [|[u v] ps IH] g Hps.
  by exists g; split=> // w; rewrite cats0.
have [Hu Hv] := Hps (u, v) (mem_head _ _).
have [g1 [E1 V1 L1 A1]] := AddEdge_spec Hu Hv.
have [|g2 [E2 V2 L2 A2]] := IH g1.
  move=> p Hp; have [] := Hps p; first by rewrite inE Hp orbT.
  by rewrite /inb L1.
exists g2; split; rewrite ?V2 ?L2 //.
  by rewrite /add_edges /= E1.
by move=> w; rewrite A2 A1 /= catA.
Qed.

(** ** The edges a matrix yields *)

(** The pairs [(i, j)] the conversion loop adds as edges, in its order. *)
Definition upper_pairs (sz : Z) (M : Z -> Z -> Z) : seq (Z * Z) :=
  [seq p <- [seq (i, j) | i <- zrange sz, j <- zrange sz]
         | (M p.1 p.2 != 0) && (p.1 <? p.2)].

Lemma foldM_add_row g (c : Z -> bool) i js :
  foldM (fun g j => if c j then AddEdge g i j else Ok g) g js =
  add_edges g [seq (i, j) | j <- js & c j].
Proof.
rewrite /add_edges; elim: js g => [|j js IH] g //=.
by case: (c j) => /=; [case: (AddEdge g i j) => //= | rewrite IH].
Qed.

Lemma foldM_add_rows g (c : Z -> Z -> bool) rows js :
  foldM (fun g i => foldM (fun g j => if c i j then AddEdge g i j else Ok g) g js)
        g rows =
  add_edges g [seq p <- [seq (i, j) | i <- rows, j <- js] | c p.1 p.2].
Proof.
elim: rows g => [|i rows IH] g //=.
rewrite filter_cat add_edges_cat foldM_add_row filter_map.
by case: (add_edges g _) => //= g'; rewrite IH.
Qed.

Lemma mem_pairs (s t : seq Z) i j :
  ((i, j) \in [seq (a, b) | a <- s, b <- t]) = (i \in s) && (j \in t).
Proof.
apply/allpairsP/andP => [[[a b] /= [Ha Hb [-> ->]]] //|[Hi Hj]].
by exists (i, j); split.
Qed.

Lemma mem_upper_pairs sz M i j :
  ((i, j) \in upper_pairs sz M) =
  [&& i \in zrange sz, j \in zrange sz, M i j != 0 & i <? j].
Proof. by rewrite mem_filter /= mem_pairs andbC -andbA. Qed.

Lemma uniq_upper_pairs sz M : uniq (upper_pairs sz M).
Proof.
apply: filter_uniq; apply: allpairs_uniq; rewrite ?uniq_zrange //.
by move=> [a b] [c d] _ _.
Qed.

Lemma mem_ends w v (p : Z * Z) :
  (v \in ends w p) = ((w, v) == p) || ((v, w) == p).
Proof.
case: p => a b; rewrite /ends mem_cat /= !xpair_eqE.
by case: (w =P a) => _; case: (w =P b) => _; rewrite /= ?inE ?andbT ?andbF ?orbF.
Qed.

Lemma mem_flatten_ends w v (ps : seq (Z * Z)) :
  (v \in flatten [seq ends w p | p <- ps]) = ((w, v) \in ps) || ((v, w) \in ps).
Proof.
elim: ps => [|p ps IH] //=.
by rewrite mem_cat IH mem_ends !inE orbACA.
Qed.

Lemma uniq_flatten_ends w (ps : seq (Z * Z)) :
  uniq ps -> (forall p, p \in ps -> p.1 < p.2) ->
  uniq (flatten [seq ends w p | p <- ps]).
Proof.
elim: ps => [|[a b] ps IH] //= /andP[Hp Hu] Hlt.
have Hab : a < b by apply: (Hlt (a, b)); rewrite mem_head.
have Hps q : q \in ps -> q.1 < q.2 by move=> Hq; apply: Hlt; rewrite inE Hq orbT.
rewrite cat_uniq IH // andbT; apply/andP; split.
  rewrite /ends /=; case: (w =P a) => [->|_]; case: eqP => [E|_] //; exfalso; lia.
apply/hasPn => v; rewrite mem_flatten_ends mem_ends !xpair_eqE.
case/orP => Hv; apply/negP => /orP[] /andP[/eqP E1 /eqP E2]; subst.
- by rewrite Hv in Hp.
- by have /= := Hps _ Hv; lia.
- by have /= := Hps _ Hv; lia.
- by rewrite Hv in Hp.
Qed.

Lemma adj_nseq n w : adj (mkGraph (Z.of_nat n) (nseq n [::])) w = [::].
Proof. by rewrite /adj; case: ifP => // _; rewrite /zget /= nth_nseq; case: ifP. Qed.

Lemma matrix_to_graph_spec sz M :
  0 < sz ->
  exists g, [/\ matrix_to_graph sz M = Ok g, Vertices g = sz,
                zlen (AdjList g) = sz
              & forall w, adj g w =
                  flatten [seq ends w p | p <- upper_pairs sz (entry M)]].
Proof.
move=> sz0; rewrite /matrix_to_graph /NewGraph.
have -> /= : (sz <? 0) = false by z_lia.
rewrite (foldM_add_rows _ (fun i j => (entry M i j != 0) && (i <? j))).
set g0 := mkGraph _ _.
have L0 : zlen (AdjList g0) = sz by rewrite /g0 /zlen /= size_nseq; lia.
have [|g [E V L Hadj]] := @add_edges_spec g0 (upper_pairs sz (entry M)).
  move=> [i j]; rewrite mem_upper_pairs /inb L0 !mem_zrange /=.
  by case/and4P=> -> ->.
exists g; split; rewrite ?V ?L //.
move=> w; rewrite Hadj.
have -> : g0 = mkGraph (Z.of_nat (Z.to_nat sz)) (nseq (Z.to_nat sz) [::]).
  by rewrite Z2Nat.id //; lia.
by rewrite adj_nseq.
Qed.

(** ** What [ReadGraph] returns *)

(** The adjacency lists of the graph loaded from a file. *)
Definition loaded_adj (bs : seq Byte.byte) (w : Z) : seq Z :=
  flatten [seq ends w p | p <- upper_pairs (file_size bs) (file_entry bs)].

Lemma upper_pairs_ext sz M M' :
  (forall i j, 0 <= i < sz -> 0 <= j < sz -> M i j = M' i j) ->
  upper_pairs sz M = upper_pairs sz M'.
Proof.
move=> E; apply: eq_in_filter => -[i j]; rewrite mem_pairs /= => /andP[Hi Hj].
by rewrite E //; z_lia.
Qed.

Lemma read_int16_spec bs :
  read_int16 bs =
  if (size bs < 2)%N then None else Some (word_at bs 0, drop 2 bs).
Proof. by case: bs => [|b0 [|b1 bs]] //=; rewrite drop0. Qed.

Lemma ReadGraph_spec bs :
  let N := file_size bs in
  let n := Z.to_nat N in
  ReadGraph (Some bs) =
    if (size bs < 2)%N then Ok (inl SizeReadError)
    else if N <=? 0 then Ok (inl (InvalidGraphSize N))
    else if (size bs < 2 + (n * n).*2)%N
         then Ok (inl (MatrixReadError (Z.of_nat ((size bs - 2)./2 %/ n))
                                       (Z.of_nat ((size bs - 2)./2 %% n))))
    else matrix_to_graph N
           (mkseq (fun k => mkseq (fun j => word_at bs (k * n + j).+1) n) n)
         >>= fun g => Ok (inr g).
Proof.
rewrite /ReadGraph read_int16_spec -/(file_size bs).
move: (file_size bs) => N; set n := Z.to_nat N => /=.
case: (ltnP (size bs) 2) => // H2.
case: (Z.leb_spec N 0) => // N0.
have n0 : (0 < n)%N by apply/ltP; rewrite /n; lia.
rewrite /zrange -/n (@read_rows_spec N 0 n (drop 2 bs) n0) -/n size_drop add0n.
have -> : (size bs < 2 + (n * n).*2)%N = ~~ ((n * n).*2 <= size bs - 2)%N.
  by rewrite -ltnNge; apply/idP/idP => H; nat_lia.
case: ifP => //= _; congr (matrix_to_graph _ _ >>= _).
apply: eq_map => k; apply: eq_map => j.
by rewrite -[drop 2 bs]/(drop 1.*2 bs) word_at_drop add1n.
Qed.

Lemma entry_loaded bs i j :
  let N := file_size bs in
  let n := Z.to_nat N in
  0 <= i < N -> 0 <= j < N ->
  entry (mkseq (fun k => mkseq (fun j => word_at bs (k * n + j).+1) n) n) i j =
  file_entry bs i j.
Proof.
move=> N n Hi Hj; rewrite /entry /zget /file_entry -/N.
have Hin : (Z.to_nat i < n)%N by apply/ltP; rewrite /n; lia.
have Hjn : (Z.to_nat j < n)%N by apply/ltP; rewrite /n; lia.
rewrite nth_mkseq // nth_mkseq //; congr (word_at bs _).
by rewrite /n -multE -plusE; lia.
Qed.

Lemma ReadGraph_inr file g :
  ReadGraph file = Ok (inr g) ->
  exists bs,
    [/\ file = Some bs, 0 < file_size bs,
        2 + 2 * file_size bs * file_size bs <= zlen bs,
        Vertices g = file_size bs /\ zlen (AdjList g) = file_size bs
      & forall w, adj g w = loaded_adj bs w].
Proof.
case: file => [bs|] //; rewrite ReadGraph_spec.
set N := file_size bs; set n := Z.to_nat N.
case: ltnP => // H2; case: Z.leb_spec => // N0; case: ltnP => // Hlen.
have [g' [-> V L A]] := @matrix_to_graph_spec N
  (mkseq (fun k => mkseq (fun j => word_at bs (k * n + j).+1) n) n) N0.
case=> <-; exists bs; split=> //.
  by move: Hlen; rewrite /zlen /n => Hlen; nat_norm; lia.
move=> w; rewrite A /loaded_adj; congr (flatten (map _ _)).
by apply: upper_pairs_ext => i j Hi Hj; rewrite entry_loaded.
Qed.

Lemma mem_loaded_adj bs u v :
  (v \in loaded_adj bs u) =
  [&& u \in zrange (file_size bs), v \in zrange (file_size bs)
    & (u <? v) && (file_entry bs u v != 0) || (v <? u) && (file_entry bs v u != 0)].
Proof.
rewrite /loaded_adj mem_flatten_ends !mem_upper_pairs.
case: (u \in zrange _); case: (v \in zrange _); rewrite /= ?andbF ?orbF //.
by rewrite ![_ && (_ <? _)]andbC.
Qed.

Lemma uniq_loaded_adj bs u : uniq (loaded_adj bs u).
Proof.
apply: uniq_flatten_ends; first exact: uniq_upper_pairs.
by move=> [i j]; rewrite mem_upper_pairs => /and4P[_ _ _ /Z.ltb_lt].
Qed.

Lemma ReadGraph_invariant file g :
  ReadGraph file = Ok (inr g) -> adjacency_invariant g.
Proof.
move=> /ReadGraph_inr[bs [_ N0 _ [V L] A]]; split; rewrite ?V //.
- by move=> u v; rewrite !A !mem_loaded_adj => /and3P[-> -> /=]; rewrite orbC.
- by move=> u v; rewrite A mem_loaded_adj => /and3P[_ /zrangeP].
Qed.

Lemma ReadGraph_simple file g :
  ReadGraph file = Ok (inr g) -> simple_graph g.
Proof.
move=> /ReadGraph_inr[bs [_ _ _ _ A]] u; rewrite A; split.
  exact: uniq_loaded_adj.
by rewrite mem_loaded_adj Z.ltb_irrefl !andbF.
Qed.

Lemma AddEdge_invariant g u v g' :
  adjacency_invariant g -> AddEdge g u v = Ok g' -> adjacency_invariant g'.
Proof.
move=> [P L S R] E; have [Hu Hv] := AddEdge_Ok E.
have [g1 [E1 V1 L1 A1]] := AddEdge_spec Hu Hv.
move: E; rewrite E1 => -[<-]; split; rewrite ?V1 ?L1 //.
- move=> a b; rewrite !A1 [b \in _]mem_cat [a \in _]mem_cat !mem_ends => /orP[/S->//|H].
  by rewrite orbC in H; rewrite H orbT.
- move=> a b; rewrite A1 mem_cat => /orP[/R//|].
  by rewrite mem_ends !xpair_eqE => /orP[] /andP[/eqP ? /eqP ?]; subst; z_lia.
Qed.

(** ** Example files *)

(** The file of a graph given by its 0/1 adjacency matrix ([n < 128]). *)
Definition example_file (n : Byte.byte) (m : seq (seq bool)) : seq Byte.byte :=
  [:: n; x00] ++
  flatten [seq flatten [seq [:: if b then x01 else x00; x00] | b <- row] | row <- m].

(** The path 0 - 1 - 2 - 3. *)
Definition path4_file : seq Byte.byte :=
  example_file x04
    [:: [:: false; true; false; false];
        [:: true; false; true; false];
        [:: false; true; false; true];
        [:: false; false; true; false]].

Definition path4_graph : Graph :=
  mkGraph 4 [:: [:: 1]; [:: 0; 2]; [:: 1; 3]; [:: 2]].

Lemma ReadGraph_path4 : ReadGraph (Some path4_file) = Ok (inr path4_graph).
Proof. by vm_compute. Qed.

(** ** Loading: the claims *)

(** C5. Every graph [ReadGraph] returns satisfies the adjacency invariant
    (one adjacency list per vertex, symmetric lists, every stored id in
    [[0, N)] with [N = Vertices > 0]), and every call of [AddEdge] that
    returns preserves it. *)
Theorem adjacency_invariant_ReadGraph_AddEdge :
  (forall file g, ReadGraph file = Ok (inr g) -> adjacency_invariant g) /\
  (forall g u v g',
     adjacency_invariant g -> AddEdge g u v = Ok g' -> adjacency_invariant g').
Proof. split; [exact: ReadGraph_invariant | exact: AddEdge_invariant]. Qed.

Lemma adjacency_invariant_path4 :
  adjacency_invariant path4_graph /\
  adjacency_invariant (mkGraph 4 [:: [:: 1; 3]; [:: 0; 2]; [:: 1; 3]; [:: 2; 0]]).
Proof.
have H := proj1 adjacency_invariant_ReadGraph_AddEdge _ _ ReadGraph_path4.
split; first exact: H.
exact: (proj2 adjacency_invariant_ReadGraph_AddEdge path4_graph 0 3 _ H erefl).
Defined.

(** C6. [ReadGraph] returns an error, and no graph, exactly when the file
    cannot be opened, or the two bytes of the size are not there, or the
    size [N] is not positive, or the stream ends inside the [N * N] matrix;
    in the last case the error carries the row and the column of the first
    entry that is not there.  On success it returns the loaded graph.  It
    never panics. *)
Theorem ReadGraph_outcome (file : option (seq Byte.byte)) :
  match ReadGraph file with
  | Ok (inl InputOpenError) => file = None
  | Ok (inl SizeReadError) => exists2 bs, file = Some bs & zlen bs < 2
  | Ok (inl (InvalidGraphSize n)) =>
      exists bs, [/\ file = Some bs, 2 <= zlen bs, n = file_size bs & n <= 0]
  | Ok (inl (MatrixReadError i j)) =>
      exists bs, let N := file_size bs in
        [/\ file = Some bs, 0 < N, 2 <= zlen bs < 2 + 2 * N * N,
            0 <= i < N /\ 0 <= j < N
          & i * N + j = (zlen bs - 2) / 2]
  | Ok (inr g) =>
      exists bs, let N := file_size bs in
        [/\ file = Some bs, 0 < N, 2 + 2 * N * N <= zlen bs,
            Vertices g = N /\ zlen (AdjList g) = N
          & forall w, adj g w = loaded_adj bs w]
  | Panic | DepthExceeded => False
  end.
Proof.
case E: (ReadGraph file) => [[e|g]| |]; first 1 last.
- exact: ReadGraph_inr.
- case: file E => [bs|] //; rewrite ReadGraph_spec.
  case: ltnP => // _; case: Z.leb_spec => // N0; case: ltnP => // _.
  by have [g [-> _ _ _]] := @matrix_to_graph_spec (file_size bs)
       (mkseq (fun k => mkseq (fun j => word_at bs (k * Z.to_nat (file_size bs) + j).+1)
          (Z.to_nat (file_size bs))) (Z.to_nat (file_size bs))) N0.
- case: file E => [bs|] //; rewrite ReadGraph_spec.
  case: ltnP => // _; case: Z.leb_spec => // N0; case: ltnP => // _.
  by have [g [-> _ _ _]] := @matrix_to_graph_spec (file_size bs)
       (mkseq (fun k => mkseq (fun j => word_at bs (k * Z.to_nat (file_size bs) + j).+1)
          (Z.to_nat (file_size bs))) (Z.to_nat (file_size bs))) N0.
case: file E => [bs|]; last by case=> <-.
rewrite ReadGraph_spec; set N := file_size bs; set n := Z.to_nat N.
case: ltnP => [H2 [<-]|H2].
  by exists bs => //; rewrite /zlen; nat_norm; lia.
case: Z.leb_spec => [N0 [<-]|N0].
  by exists bs; split=> //; rewrite /zlen; nat_norm; lia.
have n0 : (0 < n)%N by apply/ltP; rewrite /n; lia.
case: ltnP => [Hlen [<-]|Hlen]; last first.
  by have [g [-> _ _ _]] := @matrix_to_graph_spec N
       (mkseq (fun k => mkseq (fun j => word_at bs (k * n + j).+1) n) n) N0.
have Ebs := odd_double_half (size bs - 2).
set w := (size bs - 2)./2 in Ebs *.
have Hb : (odd (size bs - 2) <= 1)%N by case: odd.
move: Ebs Hb; set b := nat_of_bool _ => Ebs Hb; clearbody w b.
have Hw : (w < n * n)%N by nat_lia.
have Hdiv := divn_eq w n; have Hmod : (w %% n < n)%N by rewrite ltn_mod.
have Hq : (w %/ n < n)%N by rewrite ltn_divLR.
have Ew : Z.of_nat w = (zlen bs - 2) / 2.
  by rewrite /zlen; apply: (@Z.div_unique _ 2 _ (Z.of_nat b)); [left|]; nat_lia.
exists bs; rewrite -/N; split=> //.
- by rewrite /zlen; nat_norm; rewrite /n in Hlen; split; nia.
- by move: Hq Hmod; rewrite /n => Hq Hmod; nat_norm; lia.
by rewrite -Ew [in RHS]Hdiv -multE -plusE Nat2Z.inj_add Nat2Z.inj_mul /n Z2Nat.id //; lia.
Qed.

(** C7. For a file that loads, with size [N > 0]: the graph has an edge
    between [i] and [j], [i < j], exactly when the matrix entry at row [i],
    column [j] is not zero (the edge is stored at both of its ends), and
    the entries on or below the diagonal produce no edge. *)
Theorem ReadGraph_edges bs g :
  ReadGraph (Some bs) = Ok (inr g) ->
  let N := file_size bs in
  (forall i j, 0 <= i < j -> j < N ->
     (j \in adj g i) = (file_entry bs i j != 0) /\
     (i \in adj g j) = (file_entry bs i j != 0)) /\
  (forall u v, v \in adj g u ->
     [/\ 0 <= u < N, 0 <= v < N, u <> v
       & file_entry bs (Z.min u v) (Z.max u v) <> 0]).
Proof.
move=> /ReadGraph_inr[_ [[<-] N0 _ _ A]] N; split.
  move=> i j Hij Hj; rewrite !A !mem_loaded_adj.
  have -> : i \in zrange (file_size bs) by z_lia.
  have -> : j \in zrange (file_size bs) by z_lia.
  have -> : (i <? j) = true by z_lia.
  have -> : (j <? i) = false by z_lia.
  by rewrite /= !orbF.
move=> u v; rewrite A mem_loaded_adj => /and3P[/zrangeP Hu /zrangeP Hv].
case/orP=> /andP[/Z.ltb_lt Hlt /eqP He]; split=> //; try lia.
  by rewrite Z.min_l ?Z.max_r //; lia.
by rewrite Z.min_r ?Z.max_l //; lia.
Qed.

Lemma ReadGraph_edges_path4 :
  (2 \in adj path4_graph 1) = (file_entry path4_file 1 2 != 0) /\
  (1 \in adj path4_graph 2) = (file_entry path4_file 1 2 != 0).
Proof.
have [H _] := ReadGraph_edges ReadGraph_path4.
by apply: H.
Defined.

(** * The analyses *)

(** ** Traversal state of the low-link analyses

    [ArticulationPointsAndBridges] and [BiconnectedComponents] each
    allocate the same five variables: [visited], [discovery], [low],
    [parent] (all of length [g.Vertices]) and the clock [time]. *)

Record Traversal : Type := mkTraversal {
  visited : seq bool;
  discovery : seq Z;
  low : seq Z;
  parent : seq Z;
  time : Z
}.

(** The state both analyses start from. *)
Definition init_traversal (n : nat) : Traversal :=
  mkTraversal (nseq n false) (nseq n 0) (nseq n 0) (nseq n (-1)) 0.

(** [visited[u] = true; discovery[u] = time; low[u] = time; time++] *)
Definition visit (u : Z) (t : Traversal) : Traversal :=
  mkTraversal (zset (visited t) u true) (zset (discovery t) u (time t))
              (zset (low t) u (time t)) (parent t) (time t + 1).

(** [parent[v] = u] *)
Definition set_parent (v u : Z) (t : Traversal) : Traversal :=
  mkTraversal (visited t) (discovery t) (low t) (zset (parent t) v u) (time t).

(** [low[u] = min(low[u], x)] *)
Definition relax (u x : Z) (t : Traversal) : Traversal :=
  mkTraversal (visited t) (discovery t)
              (zset (low t) u (min (zget 0 (low t) u) x)) (parent t) (time t).

(** ** Articulation points and bridges *)

Record APBState : Type := mkAPB {
  apb_tr : Traversal;
  ap : seq Z;          (* the keys of the map [ap], in insertion order *)
  br : seq (Z * Z)
}.

(** [ap[u] = true] *)
Definition mark_ap (u : Z) (s : APBState) : APBState :=
  if u \in ap s then s else mkAPB (apb_tr s) (rcons (ap s) u) (br s).

Section APB.
Variable g : Graph.

(** The loop [for _, v := range g.AdjList[u]] of the closure [dfs];
    [rec] is the closure itself, [children] the local counter. *)
Fixpoint apb_scan (rec : Z -> APBState -> outcome APBState) (u : Z)
    (l : seq Z) (children : Z) (s : APBState) : outcome APBState :=
  match l with
  | [::] => Ok s
  | v :: l' =>
      if ~~ inb (visited (apb_tr s)) v then Panic else
      if ~~ zget false (visited (apb_tr s)) v then
        let children := children + 1 in
        let s := mkAPB (set_parent v u (apb_tr s)) (ap s) (br s) in
        rec v s >>= fun s =>
        let t := relax u (zget 0 (low (apb_tr s)) v) (apb_tr s) in
        let s := mkAPB t (ap s) (br s) in
        let s := if (zget 0 (parent t) u == -1) && (children >? 1)
                 then mark_ap u s else s in
        let s := if (zget 0 (parent t) u != -1)
                    && (zget 0 (low t) v >=? zget 0 (discovery t) u)
                 then mark_ap u s else s in
        let s := if zget 0 (low t) v >? zget 0 (discovery t) u
                 then mkAPB (apb_tr s) (ap s) (rcons (br s) (u, v)) else s in
        apb_scan rec u l' children s
      else if v != zget 0 (parent (apb_tr s)) u then
        let t := relax u (zget 0 (discovery (apb_tr s)) v) (apb_tr s) in
        apb_scan rec u l' children (mkAPB t (ap s) (br s))
      else apb_scan rec u l' children s
  end.

(** The closure [dfs]; [depth] bounds the nesting of its calls. *)
Fixpoint apb_dfs (depth : nat) (u : Z) (s : APBState) : outcome APBState :=
  match depth with
  | O => DepthExceeded
  | S d =>
      if ~~ inb (visited (apb_tr s)) u then Panic else
      let s := mkAPB (visit u (apb_tr s)) (ap s) (br s) in
      if ~~ inb (AdjList g) u then Panic else
      apb_scan (apb_dfs d) u (zget [::] (AdjList g) u) 0 s
  end.

(** The whole traversal, with the nesting of [dfs] bounded by [depth]. *)
Definition apb_run (depth : nat) : outcome APBState :=
  if Vertices g <? 0 then Panic else
  foldM (fun s u =>
           if ~~ zget false (visited (apb_tr s)) u then apb_dfs depth u s
           else Ok s)
        (mkAPB (init_traversal (Z.to_nat (Vertices g))) [::] [::])
        (zrange (Vertices g)).

End APB.

(** [ArticulationPointsAndBridges].  The order in which Go ranges over
    the map [ap] is not specified; the list returned here holds its keys
    in insertion order, and nothing below depends on the order.  The
    closure is given [g.Vertices] nested calls, which it never exceeds (see
    [apb_run_depth]).  On a stack that holds [depth] nested calls the run
    is [apb_run g depth]: it runs out of stack when the graph asks for a
    deeper nesting, and when it returns it returns what this definition
    gives (see [apb_run_any]). *)
Definition ArticulationPointsAndBridges (g : Graph) : outcome (seq Z * seq (Z * Z)) :=
  apb_run g (Z.to_nat (Vertices g)) >>= fun s => Ok (ap s, br s).

(** ** Biconnected components *)

Record BCCState : Type := mkBCC {
  bcc_tr : Traversal;
  stack : seq (Z * Z);          (* the top of the stack is the last element *)
  bcc : seq (seq (Z * Z))
}.

(** The loop that pops edges into [component] until the edge [(u, v)] has
    been popped or the stack is empty; [rstack] is the stack, top first.
    The result is the remaining stack (top first) and the component. *)
Fixpoint pop_loop (u v : Z) (rstack : seq (Z * Z)) (component : seq (Z * Z))
  : seq (Z * Z) * seq (Z * Z) :=
  match rstack with
  | [::] => ([::], component)
  | edge :: rstack' =>
      let component := rcons component edge in
      if (edge.1 == u) && (edge.2 == v) then (rstack', component)
      else pop_loop u v rstack' component
  end.

(** The new stack and the component the loop produces. *)
Definition pop_component (u v : Z) (stack : seq (Z * Z))
  : seq (Z * Z) * seq (Z * Z) :=
  let r := pop_loop u v (rev stack) [::] in (rev r.1, r.2).

Section BCC.
Variable g : Graph.

Fixpoint bcc_scan (rec : Z -> BCCState -> outcome BCCState) (u : Z)
    (l : seq Z) (s : BCCState) : outcome BCCState :=
  match l with
  | [::] => Ok s
  | v :: l' =>
      if ~~ inb (visited (bcc_tr s)) v then Panic else
      if ~~ zget false (visited (bcc_tr s)) v then
        let s := mkBCC (set_parent v u (bcc_tr s)) (rcons (stack s) (u, v)) (bcc s) in
        rec v s >>= fun s =>
        let t := relax u (zget 0 (low (bcc_tr s)) v) (bcc_tr s) in
        let s := mkBCC t (stack s) (bcc s) in
        let s := if zget 0 (low t) v >=? zget 0 (discovery t) u
                 then let r := pop_component u v (stack s) in
                      mkBCC t r.1 (rcons (bcc s) r.2)
                 else s in
        bcc_scan rec u l' s
      else if (v != zget 0 (parent (bcc_tr s)) u)
              && (zget 0 (discovery (bcc_tr s)) v <? zget 0 (discovery (bcc_tr s)) u) then
        let t := relax u (zget 0 (discovery (bcc_tr s)) v) (bcc_tr s) in
        bcc_scan rec u l' (mkBCC t (rcons (stack s) (u, v)) (bcc s))
      else bcc_scan rec u l' s
  end.

Fixpoint bcc_dfs (depth : nat) (u : Z) (s : BCCState) : outcome BCCState :=
  match depth with
  | O => DepthExceeded
  | S d =>
      if ~~ inb (visited (bcc_tr s)) u then Panic else
      let s := mkBCC (visit u (bcc_tr s)) (stack s) (bcc s) in
      if ~~ inb (AdjList g) u then Panic else
      bcc_scan (bcc_dfs d) u (zget [::] (AdjList g) u) s
  end.

(** After the [dfs] from a root: what is left on the stack becomes one
    more component and the stack is emptied. *)
Definition bcc_flush (s : BCCState) : BCCState :=
  if (0 < size (stack s))%N
  then mkBCC (bcc_tr s) [::] (rcons (bcc s) (stack s))
  else s.

(** One iteration of the loop over the roots. *)
Definition bcc_root (depth : nat) (s : BCCState) (u : Z) : outcome BCCState :=
  if ~~ zget false (visited (bcc_tr s)) u
  then bcc_dfs depth u s >>= fun s => Ok (bcc_flush s)
  else Ok s.

Definition bcc_run (depth : nat) : outcome BCCState :=
  if Vertices g <? 0 then Panic else
  foldM (bcc_root depth)
        (mkBCC (init_traversal (Z.to_nat (Vertices g))) [::] [::])
        (zrange (Vertices g)).

End BCC.

(** [BiconnectedComponents], with [g.Vertices] nested calls for the
    closure as above; on a stack that holds [depth] nested calls the run
    is [bcc_run g depth] (see [bcc_run_any]). *)
Definition BiconnectedComponents (g : Graph) : outcome (seq (seq (Z * Z))) :=
  bcc_run g (Z.to_nat (Vertices g)) >>= fun s => Ok (bcc s).

(** ** Connected components *)

Record CCState : Type := mkCC {
  cc_visited : seq bool;
  component : seq Z
}.

Section CC.
Variable g : Graph.

Fixpoint cc_scan (rec : Z -> CCState -> outcome CCState)
    (l : seq Z) (s : CCState) : outcome CCState :=
  match l with
  | [::] => Ok s
  | v :: l' =>
      if ~~ inb (cc_visited s) v then Panic else
      if ~~ zget false (cc_visited s) v
      then rec v s >>= fun s => cc_scan rec l' s
      else cc_scan rec l' s
  end.

Fixpoint cc_dfs (depth : nat) (u : Z) (s : CCState) : outcome CCState :=
  match depth with
  | O => DepthExceeded
  | S d =>
      if ~~ inb (cc_visited s) u then Panic else
      let s := mkCC (zset (cc_visited s) u true) (rcons (component s) u) in
      if ~~ inb (AdjList g) u then Panic else
      cc_scan (cc_dfs d) (zget [::] (AdjList g) u) s
  end.

(** One iteration of the loop over the roots, on [visited] and
    [components]. *)
Definition cc_root (depth : nat) (s : seq bool * seq (seq Z)) (u : Z)
  : outcome (seq bool * seq (seq Z)) :=
  if ~~ zget false s.1 u
  then cc_dfs depth u (mkCC s.1 [::]) >>= fun c =>
       Ok (cc_visited c, rcons s.2 (component c))
  else Ok s.

Definition cc_run (depth : nat) : outcome (seq bool * seq (seq Z)) :=
  if Vertices g <? 0 then Panic else
  foldM (cc_root depth) (nseq (Z.to_nat (Vertices g)) false, [::])
        (zrange (Vertices g)).

End CC.

(** [ConnectedComponents], with [g.Vertices] nested calls for the closure
    as above; on a stack that holds [depth] nested calls the run is
    [cc_run g depth] (see [cc_run_any]). *)
Definition ConnectedComponents (g : Graph) : outcome (seq (seq Z)) :=
  cc_run g (Z.to_nat (Vertices g)) >>= fun s => Ok s.2.

(** ** The examples of the specification *)

Definition isolated3_graph : Graph := mkGraph 3 [:: [::]; [::]; [::]].
Definition triangle_graph : Graph := mkGraph 3 [:: [:: 1; 2]; [:: 0; 2]; [:: 0; 1]].
Definition two_triangles_graph : Graph :=
  mkGraph 6 [:: [:: 1; 2]; [:: 0; 2]; [:: 0; 1]; [:: 4; 5]; [:: 3; 5]; [:: 3; 4]].

Example isolated3_results :
  [/\ ArticulationPointsAndBridges isolated3_graph = Ok ([::], [::]),
      BiconnectedComponents isolated3_graph = Ok [::]
    & ConnectedComponents isolated3_graph = Ok [:: [:: 0]; [:: 1]; [:: 2]]].
Proof. by split; vm_compute. Qed.

Example triangle_results :
  [/\ ArticulationPointsAndBridges triangle_graph = Ok ([::], [::]),
      BiconnectedComponents triangle_graph = Ok [:: [:: (2, 0); (1, 2); (0, 1)]]
    & ConnectedComponents triangle_graph = Ok [:: [:: 0; 1; 2]]].
Proof. by split; vm_compute. Qed.

Example path4_results :
  [/\ ArticulationPointsAndBridges path4_graph
        = Ok ([:: 2; 1], [:: (2, 3); (1, 2); (0, 1)]),
      BiconnectedComponents path4_graph
        = Ok [:: [:: (2, 3)]; [:: (1, 2)]; [:: (0, 1)]]
    & ConnectedComponents path4_graph = Ok [:: [:: 0; 1; 2; 3]]].
Proof. by split; vm_compute. Qed.

Example two_triangles_results :
  [/\ ArticulationPointsAndBridges two_triangles_graph = Ok ([::], [::]),
      BiconnectedComponents two_triangles_graph
        = Ok [:: [:: (2, 0); (1, 2); (0, 1)]; [:: (5, 3); (4, 5); (3, 4)]]
    & ConnectedComponents two_triangles_graph = Ok [:: [:: 0; 1; 2]; [:: 3; 4; 5]]].
Proof. by split; vm_compute. Qed.


(** * Connectivity *)

(** The edge relation of a graph. *)
Definition edge (g : Graph) : rel Z := [rel u v | v \in adj g u].

(** A path of [e] leads from [u] to [v]. *)
Definition connects (e : rel Z) (u v : Z) : Prop :=
  exists2 p, path e u p & last u p = v.

Section Connects.
Variable e : rel Z.

Lemma connects_refl u : connects e u u.
Proof. by exists [::]. Qed.

Lemma connects_step u v w : e u v -> connects e v w -> connects e u w.
Proof. by move=> Huv [p Hp Hl]; exists (v :: p) => //=; rewrite Huv. Qed.

Lemma connects1 u v : e u v -> connects e u v.
Proof. by move=> H; apply: connects_step H (connects_refl v). Qed.

Lemma connects_trans v u w : connects e u v -> connects e v w -> connects e u w.
Proof.
move=> [p Hp Hl] [q Hq Hm]; exists (p ++ q); first by rewrite cat_path Hp Hl.
by rewrite last_cat Hl.
Qed.

Lemma connects_ind (P : Z -> Prop) u :
  P u -> (forall x y, P x -> e x y -> P y) ->
  forall v, connects e u v -> P v.
Proof.
move=> Pu Pstep v [p Hp <-]; elim: p u Pu Hp => [|y p IH] u Pu //=.
by case/andP=> Huy /IH; apply; apply: Pstep Huy.
Qed.

Hypothesis e_sym : symmetric e.

Lemma connects_sym u v : connects e u v -> connects e v u.
Proof.
move=> H; apply: (connects_ind (P := fun x => connects e x u)) H.
  exact: connects_refl.
by move=> x y Hx Hxy; apply: connects_step Hx; rewrite e_sym.
Qed.

End Connects.

Lemma connects_sub (e e' : rel Z) u v :
  subrel e e' -> connects e u v -> connects e' u v.
Proof.
move=> Hsub; apply: connects_ind; first exact: connects_refl.
move=> x y Hx /Hsub Hxy; apply: connects_trans Hx _; exact: connects1.
Qed.

Lemma edge_sym g : adjacency_invariant g -> symmetric (edge g).
Proof. by move=> [_ _ S _] u v; apply/idP/idP; apply: S. Qed.

Lemma edge_range g u v :
  adjacency_invariant g -> edge g u v -> 0 <= u < Vertices g /\ 0 <= v < Vertices g.
Proof.
move=> Hg Huv; split; last exact: (inv_rng Hg Huv).
by apply: (inv_rng Hg (v := u) (u := v)); rewrite (inv_sym Hg).
Qed.

(** ** Marked vertices *)

(** [visited[x]] for a vertex [x]; a value that is no index is not marked. *)
Definition vis (V : seq bool) (x : Z) : bool := inb V x && zget false V x.

Lemma vis_inb V x : vis V x -> inb V x.
Proof. by case/andP. Qed.

Lemma vis_zset V u x : inb V u -> vis (zset V u true) x = (x == u) || vis V x.
Proof.
move=> Hu; rewrite /vis inb_zset; case Hx: (inb V x) => /=.
  have x0 : 0 <= x by z_lia.
  by rewrite zget_zset //; case: eqP.
by case: eqP Hx => // ->; rewrite Hu.
Qed.

Lemma vis_nseq n x : vis (nseq n false) x = false.
Proof. by rewrite /vis /zget nth_nseq; case: ifP; rewrite andbF. Qed.

(** All neighbours of [x] are marked. *)
Definition closed (g : Graph) (V : seq bool) (x : Z) : Prop :=
  forall y, y \in adj g x -> vis V y.

Lemma closed_mono g V V' x :
  (forall y, vis V y -> vis V' y) -> closed g V x -> closed g V' x.
Proof. by move=> HV Hx y /Hx/HV. Qed.

(** ** Counting the vertices not yet marked *)

Definition unmarked (V : seq bool) : nat := count negb V.

Lemma unmarked_le V V' :
  zlen V' = zlen V -> (forall x, vis V x -> vis V' x) ->
  (unmarked V' <= unmarked V)%N.
Proof.
rewrite /zlen => /Nat2Z.inj Hs H.
have {}H i : (i < size V)%N -> nth false V i -> nth false V' i.
  move=> Hi Hn; have := H (Z.of_nat i).
  rewrite /vis /inb /zget /zlen Hs Nat2Z.id Hn.
  have -> : (0 <=? Z.of_nat i) = true by z_lia.
  have -> : (Z.of_nat i <? Z.of_nat (size V)) = true by z_norm; nat_lia.
  by move/(_ isT).
rewrite /unmarked; elim: V V' Hs H => [|b V IH] [|b' V'] //= [Hs] H.
apply: leq_add; last by apply: IH => // i Hi; apply: (H i.+1).
by have /= := H 0%N isT; case: (b); case: (b') => //= /(_ isT).
Qed.

Lemma unmarked_zset V u :
  inb V u -> ~~ vis V u -> unmarked V = (unmarked (zset V u true)).+1.
Proof.
rewrite /vis => Hu; rewrite Hu /= /zget /zset /unmarked.
move/inb_size: Hu; elim: V (Z.to_nat u) => [|b V IH] [|n] //=.
  by case: b.
by rewrite ltnS => /IH H /H ->; rewrite addnS.
Qed.

(** ** Connected components: what a traversal does *)

Section CCTheory.
Variable g : Graph.
Hypothesis Hg : adjacency_invariant g.
Let N := Vertices g.

(** A run from [s] to [s'] that marked exactly the vertices [nw]. *)
Record cc_step (s s' : CCState) (nw : seq Z) : Prop := CCStep {
  cc_len : zlen (cc_visited s') = zlen (cc_visited s);
  cc_comp : component s' = component s ++ nw;
  cc_uniq : uniq nw;
  cc_vis : forall x, vis (cc_visited s') x = vis (cc_visited s) x || (x \in nw);
  cc_new : forall x, x \in nw -> ~~ vis (cc_visited s) x;
  cc_closed : forall x, x \in nw -> closed g (cc_visited s') x
}.

Lemma cc_step_refl s : cc_step s s [::].
Proof. by split=> // [|x]; rewrite ?cats0 ?orbF. Qed.

Lemma cc_step_trans s1 s2 s3 nw1 nw2 :
  cc_step s1 s2 nw1 -> cc_step s2 s3 nw2 -> cc_step s1 s3 (nw1 ++ nw2).
Proof.
move=> [L1 C1 U1 V1 W1 K1] [L2 C2 U2 V2 W2 K2]; split.
- by rewrite L2.
- by rewrite C2 C1 catA.
- rewrite cat_uniq U1 U2 andbT /=; apply/hasPn => x /W2.
  by rewrite V1 negb_or => /andP[].
- by move=> x; rewrite V2 V1 mem_cat orbA.
- move=> x; rewrite mem_cat => /orP[/W1 //|/W2].
  by rewrite V1 negb_or => /andP[].
- move=> x; rewrite mem_cat => /orP[/K1|/K2 //].
  by apply: closed_mono => y; rewrite V2 => ->.
Qed.

Lemma cc_step_unmarked s s' nw :
  cc_step s s' nw -> (unmarked (cc_visited s') <= unmarked (cc_visited s))%N.
Proof. by move=> [L _ _ V _ _]; apply: unmarked_le => // x; rewrite V => ->. Qed.

Lemma cc_scan_spec (rec : Z -> CCState -> outcome CCState) (d : nat) :
  (forall v s, zlen (cc_visited s) = N -> ~~ vis (cc_visited s) v ->
     inb (cc_visited s) v -> (unmarked (cc_visited s) <= d)%N ->
     exists s' nw, [/\ rec v s = Ok s', cc_step s s' nw, v \in nw
                     & forall x, x \in nw -> connects (edge g) v x]) ->
  forall l s, zlen (cc_visited s) = N ->
    (forall v, v \in l -> 0 <= v < N) -> (unmarked (cc_visited s) <= d)%N ->
    exists s' nw, [/\ cc_scan rec l s = Ok s', cc_step s s' nw,
                      forall v, v \in l -> vis (cc_visited s') v
                    & forall x, x \in nw ->
                        exists2 v, v \in l & connects (edge g) v x].
Proof.
move=> Hrec; elim=> [|v l IH] s Hs Hl Hd.
  by exists s, [::]; split=> //; exact: cc_step_refl.
have Hv : inb (cc_visited s) v.
  by have := Hl v (mem_head _ _); rewrite /inb Hs => ?; z_lia.
have Hl' w : w \in l -> 0 <= w < N by move=> Hw; apply: Hl; rewrite inE Hw orbT.
rewrite /= Hv /=; case Hvis: (zget false (cc_visited s) v) => /=.
  have [s' [nw [E St Hall Hnw]]] := IH s Hs Hl' Hd.
  exists s', nw; split=> //.
    move=> w; rewrite inE => /orP[/eqP->|/Hall //].
    by rewrite (cc_vis St) /vis Hv Hvis.
  by move=> x /Hnw[w Hw Hc]; exists w => //; rewrite inE Hw orbT.
have [|s1 [nw1 [E1 St1 Hv1 Hc1]]] := Hrec v s Hs _ Hv Hd.
  by rewrite /vis Hv Hvis.
have [||s' [nw2 [E2 St2 Hall Hc2]]] := IH s1 _ Hl'.
- by rewrite (cc_len St1).
- exact: leq_trans (cc_step_unmarked St1) Hd.
exists s', (nw1 ++ nw2); split.
- by rewrite E1.
- exact: cc_step_trans St1 St2.
- move=> w; rewrite inE => /orP[/eqP->|/Hall //].
  by rewrite (cc_vis St2) (cc_vis St1) Hv1 orbT.
- move=> x; rewrite mem_cat => /orP[/Hc1 H|/Hc2[w Hw H]].
    by exists v => //; rewrite mem_head.
  by exists w => //; rewrite inE Hw orbT.
Qed.

Lemma cc_dfs_spec d u s :
  zlen (cc_visited s) = N -> ~~ vis (cc_visited s) u ->
  inb (cc_visited s) u -> (unmarked (cc_visited s) <= d)%N ->
  exists s' nw, [/\ cc_dfs g d u s = Ok s', cc_step s s' nw, u \in nw
                  & forall x, x \in nw -> connects (edge g) u x].
Proof.
elim: d u s => [|d IH] u s Hs Hu Hin Hd.
  by move: Hd; rewrite (unmarked_zset Hin Hu).
have HA : inb (AdjList g) u by rewrite /inb (inv_len Hg) -/N -Hs.
rewrite /= Hin HA /=.
set s1 := mkCC _ _.
have [|||s' [nw [E St Hall Hc]]] := @cc_scan_spec _ d IH (zget [::] (AdjList g) u) s1.
- by rewrite /= zlen_zset.
- by move=> v Hv; apply: (inv_rng Hg (u := u)); rewrite /adj HA.
- by move: Hd; rewrite (unmarked_zset Hin Hu) ltnS.
have Hu1 : vis (cc_visited s1) u by rewrite /= vis_zset // eqxx.
exists s', (u :: nw); split=> //; last first.
- move=> x; rewrite inE => /orP[/eqP->|/Hc[v Hv Hvx]]; first exact: connects_refl.
  by apply: connects_step Hvx; rewrite /edge /= /adj HA.
- exact: mem_head.
case: St => L C U V W K; split.
- by rewrite L /= zlen_zset.
- by rewrite C /= cat_rcons.
- by rewrite /= U andbT; apply/negP => /W; rewrite Hu1.
- by move=> x; rewrite V /= vis_zset // inE orbAC orbC.
- move=> x; rewrite inE => /orP[/eqP-> //|/W].
  by rewrite /= vis_zset // negb_or => /andP[].
- move=> x; rewrite inE => /orP[/eqP->|/K //].
  by move=> y; rewrite /adj HA => /Hall.
Qed.

(** The state of the loop over the roots. *)
Record cc_inv (V : seq bool) (comps : seq (seq Z)) : Prop := CCInv {
  cci_len : zlen V = N;
  cci_uniq : uniq (flatten comps);
  cci_vis : forall x, vis V x = (x \in flatten comps);
  cci_adj : forall c x y, c \in comps -> x \in c -> y \in adj g x -> y \in c;
  cci_conn : forall c x y, c \in comps -> x \in c -> y \in c ->
             connects (edge g) x y;
  cci_ne : [::] \notin comps
}.

Lemma unmarked_size V : (unmarked V <= size V)%N.
Proof. exact: count_size. Qed.

Lemma cc_root_spec depth V comps u :
  (Z.to_nat N <= depth)%N -> cc_inv V comps -> 0 <= u < N ->
  exists V' comps',
    [/\ cc_root g depth (V, comps) u = Ok (V', comps'), cc_inv V' comps',
        vis V' u & forall x, vis V x -> vis V' x].
Proof.
move=> Hd Hi Hu; case: (Hi) => L U HV A C NE.
have Hin : inb V u by rewrite /inb L; z_lia.
rewrite /cc_root /=; case Hvu: (zget false V u) => /=.
  by exists V, comps; split=> //; rewrite /vis Hin.
have Hnv : ~~ vis V u by rewrite /vis Hin Hvu.
have [|s' [nw [-> St Hunw Hc]]] := @cc_dfs_spec depth u (mkCC V [::]) L Hnv Hin.
  apply: leq_trans (unmarked_size V) _; apply: leq_trans Hd.
  by move: L; rewrite /zlen => <-; rewrite Nat2Z.id.
case: St => /= L' C' U' V' W' K'; rewrite C' /=.
exists (cc_visited s'), (rcons comps nw); split=> //; last first.
- by move=> x; rewrite V' => ->.
- by rewrite V' Hunw orbT.
have Hfl : flatten (rcons comps nw) = flatten comps ++ nw.
  by rewrite -cats1 flatten_cat /= cats0.
have Hsym := inv_sym Hg.
split.
- by rewrite L'.
- rewrite Hfl cat_uniq U U' andbT /=; apply/hasPn => x /W'.
  by rewrite HV.
- by move=> x; rewrite V' HV Hfl mem_cat.
- move=> c x y; rewrite mem_rcons inE => /orP[/eqP->|Hc'] Hx Hy; last first.
    exact: A Hc' Hx Hy.
  have := K' x Hx y Hy; rewrite V' => /orP[|//].
  rewrite HV => /flattenP[c' Hc' Hyc'].
  have Hxc' := A c' y x Hc' Hyc' (Hsym _ _ Hy).
  have : x \in flatten comps by apply/flattenP; exists c'.
  by rewrite -HV (negbTE (W' x Hx)).
- move=> c x y; rewrite mem_rcons inE => /orP[/eqP->|Hc'] Hx Hy; last first.
    exact: C Hc' Hx Hy.
  apply: connects_trans (Hc y Hy).
  by apply: connects_sym (Hc x Hx); apply: edge_sym.
- rewrite mem_rcons inE negb_or NE andbT.
  by apply/eqP => E; rewrite -E in Hunw.
Qed.

Lemma cc_fold_spec depth l V comps :
  (Z.to_nat N <= depth)%N -> cc_inv V comps -> (forall u, u \in l -> 0 <= u < N) ->
  exists V' comps',
    [/\ foldM (cc_root g depth) (V, comps) l = Ok (V', comps'), cc_inv V' comps',
        forall u, u \in l -> vis V' u & forall x, vis V x -> vis V' x].
Proof.
move=> Hd; elim: l V comps => [|u l IH] V comps Hi Hl.
  by exists V, comps; split.
have [|V1 [comps1 [E1 Hi1 Hu1 Hm1]]] := cc_root_spec Hd Hi (u := u).
  by apply: Hl; rewrite mem_head.
have [|V2 [comps2 [E2 Hi2 Hu2 Hm2]]] := IH V1 comps1 Hi1.
  by move=> w Hw; apply: Hl; rewrite inE Hw orbT.
exists V2, comps2; split=> //.
- by rewrite /= E1.
- by move=> w; rewrite inE => /orP[/eqP->|/Hu2 //]; apply: Hm2.
- by move=> x /Hm1/Hm2.
Qed.

Lemma cc_inv_init : cc_inv (nseq (Z.to_nat N) false) [::].
Proof.
split=> //; first by rewrite /zlen size_nseq Z2Nat.id //; have := inv_pos Hg; rewrite -/N; lia.
by move=> x; rewrite vis_nseq.
Qed.

Lemma ConnectedComponents_spec :
  exists comps,
    [/\ ConnectedComponents g = Ok comps,
        perm_eq (flatten comps) (zrange N),
        [::] \notin comps
      & forall u v, 0 <= u < N -> 0 <= v < N ->
          (exists c, [/\ c \in comps, u \in c & v \in c]) <->
          connects (edge g) u v].
Proof.
have [|V [comps [E Hi Hall _]]] :=
  @cc_fold_spec (Z.to_nat N) (zrange N) _ _ (leqnn _) cc_inv_init.
  by move=> u /zrangeP.
case: (Hi) => L U HV A C NE.
have Hmem x : (x \in flatten comps) = (x \in zrange N).
  rewrite -HV; apply/idP/idP => [/vis_inb|/Hall //].
  by rewrite /inb L => H; z_lia.
exists comps; split=> //.
- rewrite /ConnectedComponents /cc_run -/N E /=.
  by have -> : (N <? 0) = false by have := inv_pos Hg; rewrite -/N => ?; z_lia.
- by apply: uniq_perm => //; exact: uniq_zrange.
move=> u v Hu Hv; split=> [[c [Hc Huc Hvc]]|Huv]; first exact: C Hc Huc Hvc.
have : u \in flatten comps by rewrite Hmem; z_lia.
case/flattenP=> c Hc Huc; exists c; split=> //.
apply: (connects_ind (P := fun x => x \in c)) Huv => // x y Hx Hxy.
exact: A Hc Hx Hxy.
Qed.

End CCTheory.

(** C4. For a graph loaded from a file, the components returned by
    [ConnectedComponents] partition the vertices [[0, N)]: their
    concatenation is a permutation of the vertices, so every vertex occurs
    in exactly one component and once; and two vertices lie in one returned
    component exactly when a path of the graph connects them. *)
Theorem ConnectedComponents_partition file g :
  ReadGraph file = Ok (inr g) ->
  exists comps,
    [/\ ConnectedComponents g = Ok comps,
        perm_eq (flatten comps) (zrange (Vertices g))
      & forall u v, 0 <= u < Vertices g -> 0 <= v < Vertices g ->
          (exists c, [/\ c \in comps, u \in c & v \in c]) <->
          connects (edge g) u v].
Proof.
move=> /ReadGraph_invariant Hg.
by have [comps [E P _ H]] := ConnectedComponents_spec Hg; exists comps.
Qed.

Lemma ConnectedComponents_partition_path4 :
  exists comps,
    [/\ ConnectedComponents path4_graph = Ok comps,
        perm_eq (flatten comps) (zrange 4)
      & forall u v, 0 <= u < 4 -> 0 <= v < 4 ->
          (exists c, [/\ c \in comps, u \in c & v \in c]) <->
          connects (edge path4_graph) u v].
Proof. exact: (ConnectedComponents_partition ReadGraph_path4). Defined.

(** * The low-link traversal, once

    The closures [dfs] of [ArticulationPointsAndBridges] and of
    [BiconnectedComponents] update [visited], [discovery], [low],
    [parent] and [time] in the same way, up to the test that guards the
    update of [low] on an edge to a marked vertex ([strict] is that of
    [BiconnectedComponents]).  [ll_dfs] is that common part; it is not a
    function of the program, the two lemmas below relate it to the
    closures. *)

Definition omap {A B : Type} (f : A -> B) (o : outcome A) : outcome B :=
  match o with
  | Ok a => Ok (f a)
  | Panic => Panic
  | DepthExceeded => DepthExceeded
  end.

Section LowLink.
Variable g : Graph.
Variable strict : bool.

Fixpoint ll_scan (rec : Z -> Traversal -> outcome Traversal) (u : Z)
    (l : seq Z) (t : Traversal) : outcome Traversal :=
  match l with
  | [::] => Ok t
  | v :: l' =>
      if ~~ inb (visited t) v then Panic else
      if ~~ zget false (visited t) v then
        rec v (set_parent v u t) >>= fun t =>
        ll_scan rec u l' (relax u (zget 0 (low t) v) t)
      else if (v != zget 0 (parent t) u)
              && (~~ strict || (zget 0 (discovery t) v <? zget 0 (discovery t) u)) then
        ll_scan rec u l' (relax u (zget 0 (discovery t) v) t)
      else ll_scan rec u l' t
  end.

Fixpoint ll_dfs (depth : nat) (u : Z) (t : Traversal) : outcome Traversal :=
  match depth with
  | O => DepthExceeded
  | S d =>
      if ~~ inb (visited t) u then Panic else
      if ~~ inb (AdjList g) u then Panic else
      ll_scan (ll_dfs d) u (zget [::] (AdjList g) u) (visit u t)
  end.

End LowLink.

Lemma apb_tr_mark_ap u s : apb_tr (mark_ap u s) = apb_tr s.
Proof. by rewrite /mark_ap; case: ifP. Qed.

Lemma apb_scan_ll rec rec' u l c s :
  (forall v s, omap apb_tr (rec v s) = rec' v (apb_tr s)) ->
  omap apb_tr (apb_scan rec u l c s) = ll_scan false rec' u l (apb_tr s).
Proof.
move=> Hrec; elim: l c s => [|v l IH] c s //=.
case: (inb _ v) => //=; case: (zget false _ v) => /=; last first.
  rewrite -(Hrec v (mkAPB (set_parent v u (apb_tr s)) (ap s) (br s))).
  case: (rec v _) => //= s1; rewrite IH /=.
  by repeat (case: ifP => _ /=; rewrite ?apb_tr_mark_ap //=).
by case: eqP => _ /=; rewrite IH.
Qed.

Lemma apb_dfs_ll g d u s :
  omap apb_tr (apb_dfs g d u s) = ll_dfs g false d u (apb_tr s).
Proof.
elim: d u s => [|d IH] u s //=.
case: (inb _ u) => //=; case: (inb _ u) => //=.
by rewrite (apb_scan_ll _ _ _ _ IH).
Qed.

Lemma bcc_scan_ll rec rec' u l s :
  (forall v s, omap bcc_tr (rec v s) = rec' v (bcc_tr s)) ->
  omap bcc_tr (bcc_scan rec u l s) = ll_scan true rec' u l (bcc_tr s).
Proof.
move=> Hrec; elim: l s => [|v l IH] s //=.
case: (inb _ v) => //=; case: (zget false _ v) => /=; last first.
  rewrite -(Hrec v (mkBCC (set_parent v u (bcc_tr s)) (rcons (stack s) (u, v)) (bcc s))).
  case: (rec v _) => //= s1; rewrite IH /=.
  by case: ifP.
by case: ifP => _ /=; rewrite IH.
Qed.

Lemma bcc_dfs_ll g d u s :
  omap bcc_tr (bcc_dfs g d u s) = ll_dfs g true d u (bcc_tr s).
Proof.
elim: d u s => [|d IH] u s //=.
case: (inb _ u) => //=; case: (inb _ u) => //=.
by rewrite (bcc_scan_ll _ _ _ IH).
Qed.

(** ** Reading the traversal state *)

(** [s[x]] when [x] is an index of [s], and [d] otherwise. *)
Definition getd {A : Type} (d : A) (s : seq A) (x : Z) : A :=
  if inb s x then zget d s x else d.

Lemma getd_zset (A : Type) (d : A) s u a x :
  inb s u -> getd d (zset s u a) x = if x == u then a else getd d s x.
Proof.
move=> Hu; rewrite /getd inb_zset; case Hx: (inb s x).
  by rewrite zget_zset //; z_lia.
by case: eqP Hx => // ->; rewrite Hu.
Qed.

Lemma zget_getd (A : Type) (d d' : A) s x : inb s x -> zget d' s x = getd d s x.
Proof. by move=> H; rewrite /getd H /zget; apply: set_nth_default; exact: inb_size. Qed.

Lemma getd_nseq (A : Type) (d a : A) n x :
  getd d (nseq n a) x = if inb (nseq n a) x then a else d.
Proof.
rewrite /getd; case: ifP => // H; rewrite /zget nth_nseq.
by move/inb_size: H; rewrite size_nseq => ->.
Qed.

Definition tvis (t : Traversal) (x : Z) : bool := vis (visited t) x.
Definition disc (t : Traversal) (x : Z) : Z := getd 0 (discovery t) x.
Definition lowv (t : Traversal) (x : Z) : Z := getd 0 (low t) x.
Definition par (t : Traversal) (x : Z) : Z := getd (-1) (parent t) x.

(** The four slices have the length [n]. *)
Definition sized (n : Z) (t : Traversal) : Prop :=
  [/\ zlen (visited t) = n, zlen (discovery t) = n, zlen (low t) = n
    & zlen (parent t) = n].

Lemma min_le a b : min a b <= a /\ min a b <= b.
Proof. by rewrite /min; case: Z.ltb_spec; lia. Qed.

Lemma min_cases a b : min a b = a \/ min a b = b.
Proof. by rewrite /min; case: ifP; [left | right]. Qed.

Section Steps.
Variables (n : Z) (t : Traversal).
Hypothesis Ht : sized n t.

Lemma sized_inb u : 0 <= u < n ->
  [/\ inb (visited t) u, inb (discovery t) u, inb (low t) u & inb (parent t) u].
Proof. by case: Ht => H1 H2 H3 H4 Hu; rewrite /inb H1 H2 H3 H4; split; z_lia. Qed.

Lemma tvis_range x : tvis t x -> 0 <= x < n.
Proof. by case: Ht => H1 _ _ _ /vis_inb; rewrite /inb H1 => H; z_lia. Qed.

Lemma sized_visit u : sized n (visit u t).
Proof. by case: Ht => H1 H2 H3 H4; split; rewrite /= ?zlen_zset. Qed.

Lemma sized_set_parent v p : sized n (set_parent v p t).
Proof. by case: Ht => H1 H2 H3 H4; split; rewrite /= ?zlen_zset. Qed.

Lemma sized_relax u a : sized n (relax u a t).
Proof. by case: Ht => H1 H2 H3 H4; split; rewrite /= ?zlen_zset. Qed.

Lemma tvis_visit u x : 0 <= u < n -> tvis (visit u t) x = (x == u) || tvis t x.
Proof. by case/sized_inb=> H _ _ _; rewrite /tvis /= vis_zset. Qed.

Lemma disc_visit u x : 0 <= u < n ->
  disc (visit u t) x = if x == u then time t else disc t x.
Proof. by case/sized_inb=> _ H _ _; rewrite /disc /= getd_zset. Qed.

Lemma lowv_visit u x : 0 <= u < n ->
  lowv (visit u t) x = if x == u then time t else lowv t x.
Proof. by case/sized_inb=> _ _ H _; rewrite /lowv /= getd_zset. Qed.

Lemma par_set_parent v p x : 0 <= v < n ->
  par (set_parent v p t) x = if x == v then p else par t x.
Proof. by case/sized_inb=> _ _ _ H; rewrite /par /= getd_zset. Qed.

Lemma lowv_relax u a x : 0 <= u < n ->
  lowv (relax u a t) x = if x == u then min (lowv t u) a else lowv t x.
Proof.
case/sized_inb=> _ _ H _; rewrite /lowv /= getd_zset //.
by rewrite (zget_getd 0 0 H).
Qed.

End Steps.

(** ** The traversal: discovery times and parents *)

(** No unmarked vertex has a parent. *)
Definition idle (t : Traversal) : Prop := forall x, ~~ tvis t x -> par t x = -1.

(** [t'] is a later state than [t]. *)
Definition tr_le (t t' : Traversal) : Prop :=
  [/\ forall x, tvis t x -> tvis t' x,
      forall x, tvis t x -> disc t' x = disc t x /\ par t' x = par t x,
      time t <= time t'
    & forall x, ~~ tvis t x -> tvis t' x -> time t <= disc t' x].

Lemma tr_le_refl t : tr_le t t.
Proof. by split=> // [|x /negbTE->//]; lia. Qed.

Lemma tr_le_trans t2 t1 t3 : tr_le t1 t2 -> tr_le t2 t3 -> tr_le t1 t3.
Proof.
move=> [V1 D1 T1 W1] [V2 D2 T2 W2]; split.
- by move=> x /V1/V2.
- by move=> x Hx; have [-> ->] := D2 x (V1 x Hx); apply: D1.
- lia.
- move=> x Hx Hx3; case Hx2: (tvis t2 x).
    by have [-> _] := D2 x Hx2; apply: W1.
  by have := W2 x (negbT Hx2) Hx3; lia.
Qed.

Lemma tr_le_relax t u a : tr_le t (relax u a t).
Proof.
split=> //; first by rewrite /=; lia.
by move=> x /negbTE Hx; rewrite /tvis /= -/(tvis t x) Hx.
Qed.

Section Basic.
Variable g : Graph.
Hypothesis Hg : adjacency_invariant g.
Let N := Vertices g.

(** What holds of every state of a traversal. *)
Record tr_inv (t : Traversal) : Prop := TrInv {
  ti_size : sized N t;
  ti_time : 0 <= time t;
  ti_disc : forall x, tvis t x -> 0 <= disc t x < time t;
  ti_inj : forall x y, tvis t x -> tvis t y -> disc t x = disc t y -> x = y;
  ti_par : forall x, tvis t x ->
    par t x = -1 \/
    [/\ tvis t (par t x), disc t (par t x) < disc t x & x \in adj g (par t x)];
  ti_low : forall x, tvis t x -> lowv t x <= disc t x
}.

(** [v] is about to be visited: its parent, if any, is set. *)
Definition pend (t : Traversal) (v : Z) : Prop :=
  [/\ ~~ tvis t v, 0 <= v < N,
      par t v = -1 \/ (tvis t (par t v) /\ v \in adj g (par t v))
    & forall x, ~~ tvis t x -> x <> v -> par t x = -1].

Lemma tr_le_set_parent t v p : ~~ tvis t v -> sized N t -> 0 <= v < N ->
  tr_le t (set_parent v p t).
Proof.
move=> Hv Ht Hr; split.
- by [].
- move=> x Hx; split=> //; rewrite (par_set_parent Ht) //.
  by case: eqP Hx Hv => // -> ->.
- by rewrite /=; lia.
- by move=> x /negbTE Hx; rewrite /tvis /= -/(tvis t x) Hx.
Qed.

Lemma tr_le_visit t u : sized N t -> 0 <= u < N -> ~~ tvis t u ->
  tr_le t (visit u t).
Proof.
move=> Ht Hr Hu; split.
- by move=> x Hx; rewrite (tvis_visit Ht) // Hx orbT.
- move=> x Hx; split=> //; rewrite (disc_visit Ht) //.
  by case: eqP Hx Hu => // -> ->.
- by rewrite /=; lia.
- move=> x Hx; rewrite (tvis_visit Ht) // (negbTE Hx) orbF => /eqP->.
  by rewrite (disc_visit Ht) // eqxx; lia.
Qed.

Lemma tr_inv_visit t u : tr_inv t -> pend t u -> tr_inv (visit u t).
Proof.
move=> [Hs Ht Hd Hi Hp Hl] [Hu Hr Hpu _].
have Hv x := tvis_visit Hs x Hr; have Hdv x := disc_visit Hs x Hr.
have Hne x : tvis t x -> (x == u) = false.
  by move=> Hx; apply/eqP => E; rewrite E (negbTE Hu) in Hx.
split.
- exact: sized_visit.
- by rewrite /=; lia.
- move=> x; rewrite Hv Hdv; case: eqP => [_ _|_ /= /Hd] /=; lia.
- move=> x y; rewrite !Hv !Hdv.
  case: (x =P u) => [->|_]; case: (y =P u) => [->|_] //=.
  + by move=> _ /Hd; lia.
  + by move=> /Hd; lia.
  + exact: Hi.
- move=> x; rewrite Hv /par /= -/(par t _) => Hx.
  have {Hx} [Ex|Hx] : x = u \/ tvis t x.
  + by case/orP: Hx => [/eqP|]; [left | right].
  + rewrite Ex; case: Hpu => [|[Hpv Hadj]]; [by left | right].
    by rewrite Hv Hpv orbT !Hdv eqxx (Hne _ Hpv); split=> //; have := Hd _ Hpv; lia.
  case: (Hp x Hx) => [|[Hpv Hlt Hadj]]; [by left | right].
  by rewrite Hv Hpv orbT !Hdv (Hne _ Hx) (Hne _ Hpv).
- move=> x; rewrite Hv (lowv_visit Hs) // Hdv.
  by case: eqP => [_ _|_ /= /Hl] //; lia.
Qed.

Lemma tr_inv_set_parent t v p :
  tr_inv t -> ~~ tvis t v -> 0 <= v < N -> tr_inv (set_parent v p t).
Proof.
move=> [Hs Ht Hd Hi Hp Hl] Hv Hr; split=> //.
- exact: sized_set_parent.
- move=> x Hx; rewrite (par_set_parent Hs) //.
  have -> : (x == v) = false.
    by apply/eqP => E; move: Hx; rewrite E /tvis /= -/(tvis t v) (negbTE Hv).
  exact: Hp.
Qed.

Lemma tr_inv_relax t u a : tr_inv t -> tvis t u -> tr_inv (relax u a t).
Proof.
move=> [Hs Ht Hd Hi Hp Hl] Hu; split=> //.
- exact: sized_relax.
- move=> x Hx; rewrite (lowv_relax Hs a x (tvis_range Hs Hu)).
  have := Hl x Hx; rewrite /disc /=; case: eqP => // ->.
  by have := min_le (lowv t u) a; lia.
Qed.

Variable strict : bool.

(** What a call of [dfs] on [u] has done when it returns. *)
Definition call_post (u : Z) (t t' : Traversal) : Prop :=
  [/\ tr_inv t', idle t', tr_le t t',
      [/\ tvis t' u, disc t' u = time t, par t' u = par t u
         & closed g (visited t') u]
    & forall x, tvis t x -> lowv t' x = lowv t x].

(** What the loop of [dfs] on [u] has done after the neighbours [l]. *)
Definition scan_post (u : Z) (l : seq Z) (t t' : Traversal) : Prop :=
  [/\ tr_inv t', idle t', tr_le t t',
      (forall x, tvis t x -> x <> u -> lowv t' x = lowv t x)
      /\ lowv t' u <= lowv t u
    & forall v, v \in l -> tvis t' v].

Lemma tr_le_unmarked t t' :
  sized N t -> sized N t' -> tr_le t t' ->
  (unmarked (visited t') <= unmarked (visited t))%N.
Proof.
move=> [H1 _ _ _] [H1' _ _ _] [HV _ _ _].
by apply: unmarked_le => //; rewrite H1 H1'.
Qed.

Lemma ll_scan_basic rec d :
  (forall v t, tr_inv t -> pend t v -> (unmarked (visited t) <= d)%N ->
     exists2 t', rec v t = Ok t' & call_post v t t') ->
  forall u l t, tr_inv t -> idle t -> tvis t u ->
    (forall v, v \in l -> v \in adj g u) ->
    (unmarked (visited t) <= d)%N ->
    exists2 t', ll_scan strict rec u l t = Ok t' & scan_post u l t t'.
Proof.
move=> Hrec u; elim=> [|v l IH] t Ht Hid Hu Hl Hd.
  by exists t => //; split=> //; [exact: tr_le_refl | split=> //; lia].
have Hs := ti_size Ht.
have Hvu : v \in adj g u by apply: Hl; rewrite mem_head.
have Hvr : 0 <= v < N := inv_rng Hg Hvu.
have Hur : 0 <= u < N := tvis_range Hs Hu.
have Hl' w : w \in l -> w \in adj g u by move=> Hw; apply: Hl; rewrite inE Hw orbT.
have [Hiv _ _ _] := sized_inb Hs Hvr.
have [_ _ _ Hiu] := sized_inb Hs Hur.
have Evis : zget false (visited t) v = tvis t v by rewrite /tvis /vis Hiv.
rewrite /= Hiv /= Evis; case Hv: (tvis t v) => /=; last first.
- (* a tree edge *)
  set t1 := set_parent v u t.
  have Ht1 : tr_inv t1 by apply: tr_inv_set_parent => //; rewrite Hv.
  have Hp1 : pend t1 v.
    split=> //; first by rewrite /tvis /= -/(tvis t v) Hv.
      by right; rewrite (par_set_parent Hs) // eqxx.
    move=> x Hx Hne; rewrite (par_set_parent Hs) //.
    by case: eqP => // _; apply: Hid.
  have [t2 -> [Ht2 Hid2 Hle2 [Hv2 _ _ _] Hlow2]] := Hrec v t1 Ht1 Hp1 Hd.
  have Hs2 := ti_size Ht2.
  have [_ _ Hilv _] := sized_inb Hs2 Hvr.
  rewrite /= (zget_getd 0 0 Hilv) -/(lowv t2 v).
  set t3 := relax u (lowv t2 v) t2.
  have Hle12 : tr_le t t2.
    by apply: tr_le_trans Hle2; apply: tr_le_set_parent => //; rewrite Hv.
  have Hu2 : tvis t2 u by case: Hle12 => H _ _ _; apply: H.
  have Ht3 : tr_inv t3 by apply: tr_inv_relax.
  have Hle3 : tr_le t t3 by apply: tr_le_trans Hle12 (tr_le_relax _ _ _).
  have Hd3 : (unmarked (visited t3) <= d)%N.
    by apply: leq_trans Hd; apply: tr_le_unmarked => //; exact: ti_size.
  have [t' -> [Ht' Hid' Hle' [Hlow' Hlu'] Hall']] := IH t3 Ht3 Hid2 Hu2 Hl' Hd3.
  exists t' => //; split=> //.
  + exact: tr_le_trans Hle3 Hle'.
  + have E3 x : lowv t3 x = if x == u then min (lowv t2 u) (lowv t2 v) else lowv t2 x.
      exact: (lowv_relax Hs2).
    have E2 x : tvis t x -> lowv t2 x = lowv t x by move=> Hx; rewrite Hlow2.
    split=> [x Hx Hne|].
      have Hx3 : tvis t3 x by case: Hle3 => H _ _ _; apply: H.
      by rewrite (Hlow' x Hx3 Hne) E3 -(E2 x Hx); case: eqP.
    rewrite -(E2 u Hu); have := min_le (lowv t2 u) (lowv t2 v).
    by move: Hlu'; rewrite E3 eqxx; lia.
  + move=> w; rewrite inE => /orP[/eqP->|/Hall' //].
    by case: Hle' => H _ _ _; apply: H.
- (* an edge to a marked vertex *)
  have [_ Hidv _ _] := sized_inb Hs Hvr.
  rewrite (zget_getd 0 0 Hidv) -/(disc t v).
  have Hfin t1 : tr_inv t1 -> idle t1 -> tr_le t t1 ->
      (unmarked (visited t1) <= d)%N ->
      (forall x, tvis t x -> x <> u -> lowv t1 x = lowv t x) ->
      lowv t1 u <= lowv t u ->
      exists2 t', ll_scan strict rec u l t1 = Ok t' & scan_post u (v :: l) t t'.
    move=> Ht1 Hid1 Hle1 Hd1 Hlow1 Hlu1.
    have Hu1 : tvis t1 u by case: Hle1 => H _ _ _; apply: H.
    have [t' -> [Ht' Hid' Hle' [Hlow' Hlu'] Hall']] := IH t1 Ht1 Hid1 Hu1 Hl' Hd1.
    exists t' => //; split=> //.
    + exact: tr_le_trans Hle1 Hle'.
    + split=> [x Hx Hne|]; last lia.
      have Hx1 : tvis t1 x by case: Hle1 => H _ _ _; apply: H.
      by rewrite (Hlow' x Hx1 Hne) Hlow1.
    + move=> w; rewrite inE => /orP[/eqP->|/Hall' //].
      by case: (tr_le_trans Hle1 Hle') => H _ _ _; apply: H.
  case: ifP => _; last first.
    by apply: Hfin => //; [exact: tr_le_refl | lia].
  apply: Hfin => //.
  + exact: tr_inv_relax.
  + exact: tr_le_relax.
  + by move=> x Hx Hne; rewrite (lowv_relax Hs) //; case: eqP.
  + by rewrite (lowv_relax Hs) // eqxx; have := min_le (lowv t u) (disc t v); lia.
Qed.

Lemma ll_dfs_basic d u t :
  tr_inv t -> pend t u -> (unmarked (visited t) <= d)%N ->
  exists2 t', ll_dfs g strict d u t = Ok t' & call_post u t t'.
Proof.
elim: d u t => [|d IH] u t Ht Hp Hd; case: (Hp) => Hu Hur _ Hoth.
  have Hs := ti_size Ht; have [Hiu _ _ _] := sized_inb Hs Hur.
  by move: Hd; rewrite (unmarked_zset Hiu Hu).
have Hs := ti_size Ht; have [Hiu _ _ _] := sized_inb Hs Hur.
have HA : inb (AdjList g) u by rewrite /inb (inv_len Hg); z_lia.
rewrite /= Hiu HA /=.
set t1 := visit u t.
have Ht1 : tr_inv t1 by apply: tr_inv_visit.
have Hu1 : tvis t1 u by rewrite (tvis_visit Hs) // eqxx.
have Hid1 : idle t1.
  move=> x; rewrite (tvis_visit Hs) // negb_or => /andP[/eqP Hne Hx].
  by rewrite /par /= -/(par t x); apply: Hoth.
have Hd1 : (unmarked (visited t1) <= d)%N.
  by move: Hd; rewrite (unmarked_zset Hiu Hu) ltnS.
have Eadj : zget [::] (AdjList g) u = adj g u by rewrite /adj HA.
have [|t' -> [Ht' Hid' Hle' [Hlow' Hlu'] Hall']] :=
  @ll_scan_basic _ d IH u (zget [::] (AdjList g) u) t1 Ht1 Hid1 Hu1 _ Hd1.
  by move=> v; rewrite Eadj.
have Hle1 : tr_le t t1 by apply: tr_le_visit.
exists t' => //; split=> //.
- exact: tr_le_trans Hle1 Hle'.
- case: Hle' => HV HD _ _; have [-> ->] := HD u Hu1; split=> //.
  + exact: HV.
  + by rewrite (disc_visit Hs) // eqxx.
  + by move=> y; rewrite -Eadj => /Hall'.
- move=> x Hx; have Hne : x <> u by move=> E; rewrite E (negbTE Hu) in Hx.
  have Hx1 : tvis t1 x by case: Hle1 => H _ _ _; apply: H.
  by rewrite (Hlow' x Hx1 Hne) (lowv_visit Hs) //; case: eqP.
Qed.

End Basic.

(** ** More depth changes nothing *)

Section Depth.
Variables (g : Graph) (strict : bool).

Lemma ll_scan_mono (rec rec' : Z -> Traversal -> outcome Traversal) :
  (forall v t t', rec v t = Ok t' -> rec' v t = Ok t') ->
  forall u l t t', ll_scan strict rec u l t = Ok t' ->
                   ll_scan strict rec' u l t = Ok t'.
Proof.
move=> Hrec u; elim=> [|v l IH] t t' //=.
case: (inb _ v) => //=; case: (zget false _ v) => /=.
  by case: ifP => _; apply: IH.
by case E: (rec v _) => [t1| |] //=; rewrite (Hrec _ _ _ E) /=; apply: IH.
Qed.

Lemma ll_dfs_mono d d' u t t' :
  (d <= d')%N -> ll_dfs g strict d u t = Ok t' -> ll_dfs g strict d' u t = Ok t'.
Proof.
elim: d d' u t t' => [|d IH] [|d'] u t t' //= Hd.
case: (inb _ u) => //=; case: (inb _ u) => //=.
by apply: ll_scan_mono => v t1 t2; apply: IH.
Qed.

End Depth.

(** ** The loop of [dfs], step by step *)

Section Rule.
Variable g : Graph.
Hypothesis Hg : adjacency_invariant g.
Variable strict : bool.
Let N := Vertices g.

Lemma ll_dfs_call d u t t' :
  tr_inv g t -> pend g t u -> ll_dfs g strict d u t = Ok t' ->
  call_post g u t t'.
Proof.
move=> Ht Hp E.
have [t'' E'' H] := ll_dfs_basic Hg strict Ht Hp (leq_maxr d (unmarked (visited t))).
by move: (ll_dfs_mono (leq_maxl d (unmarked (visited t))) E); rewrite E'' => -[<-].
Qed.

(** The state [t] of the loop of [dfs] on [u] relates to the state [t1]
    the loop started in. *)
Definition scan_rel (u : Z) (t1 t : Traversal) : Prop :=
  [/\ tr_le t1 t, forall x, tvis t1 x -> x <> u -> lowv t x = lowv t1 x
    & lowv t u <= lowv t1 u].

(** [t] is a state of the loop of the call of [dfs] on [u] that started
    in [t0]. *)
Definition base (u : Z) (t0 t : Traversal) : Prop :=
  [/\ tr_inv g t0, pend g t0 u, tr_inv g t, idle t
    & scan_rel u (visit u t0) t].

(** The update of [low] on an edge to a marked vertex. *)
Definition back (u v : Z) (t : Traversal) : Traversal :=
  if (v != par t u) && (~~ strict || (disc t v <? disc t u))
  then relax u (disc t v) t else t.

Lemma base_vis u t0 t : base u t0 t ->
  [/\ tvis t u, disc t u = time t0, par t u = par t0 u, 0 <= u < N
    & forall x, tvis t0 x -> tvis t x].
Proof.
move=> [Ht0 [Hu Hur _ _] Ht Hid [[HV HD _ _] _ _]].
have Hs := ti_size Ht0.
have Hu1 : tvis (visit u t0) u by rewrite (tvis_visit Hs) // eqxx.
have [-> ->] := HD u Hu1; split=> //.
- exact: HV.
- by rewrite (disc_visit Hs) // eqxx.
- by move=> x Hx; apply: HV; rewrite (tvis_visit Hs) // Hx orbT.
Qed.

Lemma base_init u t0 : tr_inv g t0 -> pend g t0 u -> base u t0 (visit u t0).
Proof.
move=> Ht0 Hp; case: (Hp) => Hu Hur _ Hoth; have Hs := ti_size Ht0.
split=> //; first exact: tr_inv_visit.
  move=> x; rewrite (tvis_visit Hs) // negb_or => /andP[/eqP Hne Hx].
  by rewrite /par /= -/(par t0 x); apply: Hoth.
by split=> //; [exact: tr_le_refl | lia].
Qed.

Lemma base_pre u t0 t v :
  base u t0 t -> v \in adj g u -> ~~ tvis t v ->
  tr_inv g (set_parent v u t) /\ pend g (set_parent v u t) v.
Proof.
move=> Hb Hvu Hv; have [Hu _ _ Hur _] := base_vis Hb.
case: Hb => _ _ Ht Hid _; have Hs := ti_size Ht.
have Hvr : 0 <= v < N := inv_rng Hg Hvu.
split; first exact: tr_inv_set_parent.
split=> //.
  by right; rewrite (par_set_parent Hs) // eqxx.
move=> x Hx Hne; rewrite (par_set_parent Hs) //.
by case: eqP => // _; apply: Hid.
Qed.

Lemma scan_rel_relax u t1 t a :
  tr_inv g t -> tvis t u -> scan_rel u t1 t -> scan_rel u t1 (relax u a t).
Proof.
move=> Ht Hu [Hle Hlow Hlu]; have Hs := ti_size Ht.
have Hur := tvis_range Hs Hu.
split.
- exact: tr_le_trans Hle (tr_le_relax _ _ _).
- by move=> x Hx Hne; rewrite (lowv_relax Hs) // -Hlow //; case: eqP.
- by rewrite (lowv_relax Hs) // eqxx; have := min_le (lowv t u) a; lia.
Qed.

Lemma base_relax u t0 t a : base u t0 t -> base u t0 (relax u a t).
Proof.
move=> Hb; have [Hu _ _ _ _] := base_vis Hb.
case: Hb => Ht0 Hp Ht Hid Hrel; split=> //.
- exact: tr_inv_relax.
- exact: scan_rel_relax.
Qed.

Lemma base_back u t0 t v : base u t0 t -> base u t0 (back u v t).
Proof. by rewrite /back; case: ifP => _ // Hb; apply: base_relax. Qed.

Lemma base_tree u t0 t v t' :
  base u t0 t -> v \in adj g u -> ~~ tvis t v ->
  call_post g v (set_parent v u t) t' ->
  base u t0 (relax u (lowv t' v) t').
Proof.
move=> Hb Hvu Hv [Ht' Hid' Hle' _ Hlow'].
have [Hu _ _ Hur _] := base_vis Hb.
case: Hb => Ht0 Hp Ht Hid [Hle Hlow Hlu]; have Hs := ti_size Ht.
have Hvr : 0 <= v < N := inv_rng Hg Hvu.
have Hle2 : tr_le t t' by apply: tr_le_trans Hle'; apply: (@tr_le_set_parent g).
have Hu' : tvis t' u by case: Hle2 => H _ _ _; apply: H.
apply: base_relax; split=> //; split.
- exact: tr_le_trans Hle Hle2.
- move=> x Hx Hne.
  have Hxt : tvis t x by case: Hle => H _ _ _; apply: H.
  by rewrite (Hlow' x Hxt) -(Hlow x Hx Hne).
- by rewrite (Hlow' u Hu).
Qed.

Variables (P : Z -> Traversal -> Prop) (Q : Z -> Traversal -> Traversal -> Prop).
Variable I : Z -> Traversal -> seq Z -> Traversal -> Prop.

Hypothesis HP : forall u t, P u t -> tr_inv g t /\ pend g t u.

Hypothesis Hinit : forall u t, P u t -> I u t [::] (visit u t).

Hypothesis Htree : forall u t0 l v t,
  base u t0 t -> I u t0 l t -> (exists l', adj g u = rcons l v ++ l') ->
  ~~ tvis t v ->
  P v (set_parent v u t) /\
  forall t', call_post g v (set_parent v u t) t' -> Q v (set_parent v u t) t' ->
             I u t0 (rcons l v) (relax u (lowv t' v) t').

Hypothesis Hback : forall u t0 l v t,
  base u t0 t -> I u t0 l t -> (exists l', adj g u = rcons l v ++ l') ->
  tvis t v -> I u t0 (rcons l v) (back u v t).

Hypothesis Hexit : forall u t0 t,
  base u t0 t -> call_post g u t0 t -> I u t0 (adj g u) t -> Q u t0 t.

Lemma tr_le_back u v t : tr_le t (back u v t).
Proof. by rewrite /back; case: ifP => _; [exact: tr_le_relax | exact: tr_le_refl]. Qed.

Lemma ll_scan_rule rec :
  (forall v t t', P v t -> rec v t = Ok t' -> call_post g v t t' /\ Q v t t') ->
  forall u t0 l2 l1 t t',
    adj g u = l1 ++ l2 -> base u t0 t -> I u t0 l1 t ->
    ll_scan strict rec u l2 t = Ok t' ->
    [/\ base u t0 t', I u t0 (adj g u) t', tr_le t t'
      & forall v, v \in l2 -> tvis t' v].
Proof.
move=> Hrec u t0; elim=> [|v l2 IH] l1 t t' Hadj Hb HI.
  rewrite cats0 in Hadj; rewrite Hadj => -[<-]; split=> //.
  exact: tr_le_refl.
have Hadj' : adj g u = rcons l1 v ++ l2 by rewrite cat_rcons.
have Hvu : v \in adj g u by rewrite Hadj mem_cat mem_head orbT.
have Hvr : 0 <= v < N := inv_rng Hg Hvu.
have [Hu _ _ Hur _] := base_vis Hb.
have Ht : tr_inv g t by case: Hb.
have Hs := ti_size Ht.
have [Hiv Hidv _ _] := sized_inb Hs Hvr.
have [_ Hidu _ Hipu] := sized_inb Hs Hur.
have Evis : zget false (visited t) v = tvis t v by rewrite /tvis /vis Hiv.
have Hex : exists l', adj g u = rcons l1 v ++ l' by exists l2.
rewrite /= Hiv /= Evis; case Hv: (tvis t v) => /=.
- rewrite (zget_getd 0 0 Hidv) (zget_getd 0 0 Hidu) (zget_getd (-1) 0 Hipu).
  rewrite -/(disc t v) -/(disc t u) -/(par t u) => E0.
  have E : ll_scan strict rec u l2 (back u v t) = Ok t'.
    by move: E0; rewrite /back; case: ifP.
  have [Hb' HI' Hle' Hall] :=
    IH _ _ _ Hadj' (base_back v Hb) (Hback Hb HI Hex Hv) E.
  have Hle : tr_le t t' := tr_le_trans (tr_le_back u v t) Hle'.
  split=> // w; rewrite inE => /orP[/eqP->|/Hall //].
  by case: Hle => H _ _ _; apply: H.
- have Hnv : ~~ tvis t v by rewrite Hv.
  have [HPv Hnext] := Htree Hb HI Hex Hnv.
  case E1: (rec v _) => [t1| |] //=.
  have [Hc1 HQ1] := Hrec _ _ _ HPv E1.
  have Hs1 : sized N t1 by case: Hc1 => /ti_size.
  have [_ _ Hilv _] := sized_inb Hs1 Hvr.
  rewrite (zget_getd 0 0 Hilv) -/(lowv t1 v) => E.
  have Hb1 := base_tree Hb Hvu Hnv Hc1.
  have [Hb' HI' Hle' Hall] := IH _ _ _ Hadj' Hb1 (Hnext _ Hc1 HQ1) E.
  have Hle1 : tr_le t t1.
    case: Hc1 => _ _ Hle1 _ _; apply: tr_le_trans Hle1.
    exact: (@tr_le_set_parent g).
  have Hle : tr_le t t'.
    exact: tr_le_trans (tr_le_trans Hle1 (tr_le_relax _ _ _)) Hle'.
  split=> // w; rewrite inE => /orP[/eqP->|/Hall //].
  case: Hle' => H _ _ _; apply: H.
  by case: Hc1 => _ _ _ [].
Qed.

Theorem ll_dfs_rule d u t t' :
  P u t -> ll_dfs g strict d u t = Ok t' -> call_post g u t t' /\ Q u t t'.
Proof.
elim: d u t t' => [|d IH] u t t' // HPu E.
have [Ht Hp] := HP HPu.
have Hc := ll_dfs_call Ht Hp E; split=> //.
case: (Hp) => Hu Hur _ _; have Hs := ti_size Ht.
have [Hiu _ _ _] := sized_inb Hs Hur.
have HA : inb (AdjList g) u by rewrite /inb (inv_len Hg); z_lia.
have Eadj : zget [::] (AdjList g) u = adj g u by rewrite /adj HA.
move: E; rewrite /= Hiu HA /= Eadj => E.
have [Hb HI _ _] :=
  @ll_scan_rule _ IH u t (adj g u) [::] _ _ erefl (base_init Ht Hp) (Hinit HPu) E.
exact: Hexit.
Qed.

End Rule.

(** ** The forest of parents *)

(** [desc t a x]: following [parent] from [x] leads to [a]. *)
Inductive desc (t : Traversal) (a : Z) : Z -> Prop :=
| desc_refl : desc t a a
| desc_up x : tvis t x -> par t x <> -1 -> desc t a (par t x) -> desc t a x.

Lemma desc_trans t b a c : desc t a b -> desc t b c -> desc t a c.
Proof. by move=> Hab; elim=> // x Hx Hp _ IH; apply: desc_up. Qed.

Lemma desc_ext t t' a x :
  (forall y, tvis t y = tvis t' y) -> (forall y, par t y = par t' y) ->
  desc t a x -> desc t' a x.
Proof.
move=> HV HP; elim=> [|y Hy Hp _ IH]; first exact: desc_refl.
by apply: desc_up; rewrite -?HV -?HP.
Qed.

Lemma desc_mono t t' a x : tr_le t t' -> desc t a x -> desc t' a x.
Proof.
move=> [HV HD _ _]; elim=> [|y Hy Hp _ IH]; first exact: desc_refl.
by have [_ E] := HD y Hy; apply: desc_up; rewrite ?E //; apply: HV.
Qed.

Lemma desc_parent t a x :
  desc t a x -> x <> a -> [/\ tvis t x, par t x <> -1 & desc t a (par t x)].
Proof. by case. Qed.

Lemma desc_chain t a z y : desc t a y -> desc t z y -> desc t a z \/ desc t z a.
Proof.
move=> Ha Hz; elim: Hz Ha => [|x Hx Hp Hz IH] Ha; first by left.
case: (x =P a) => [E|Hne]; first by right; rewrite -E; apply: desc_up.
by have [_ _ /IH] := desc_parent Ha Hne.
Qed.

Lemma desc_child t a y :
  desc t a y -> y <> a -> exists c, [/\ tvis t c, par t c = a, par t c <> -1 & desc t c y].
Proof.
elim=> // x Hx Hp Ha IH _; case: (par t x =P a) => [E|/IH[c [Hc Ec Hc1 Hcx]]].
  by exists x; split=> //; exact: desc_refl.
by exists c; split=> //; apply: desc_trans Hcx _; apply: desc_up => //; exact: desc_refl.
Qed.

Section Forest.
Variable g : Graph.
Hypothesis Hg : adjacency_invariant g.
Let N := Vertices g.

Lemma desc_disc t a x :
  tr_inv g t -> desc t a x ->
  a = x \/ [/\ tvis t a, tvis t x & disc t a < disc t x].
Proof.
move=> Ht; elim=> [|y Hy Hp _ IH]; first by left.
case: (ti_par Ht Hy) => // -[Hpv Hlt _]; right.
by case: IH => [->|[Ha _ Hlt']]; split=> //; lia.
Qed.

Lemma desc_le t a x : tr_inv g t -> desc t a x -> disc t a <= disc t x.
Proof. by move=> Ht /(desc_disc Ht)[->|[_ _]]; lia. Qed.

Lemma desc_antisym t a x : tr_inv g t -> desc t a x -> desc t x a -> a = x.
Proof.
move=> Ht /(desc_disc Ht)[//|[_ _ H1]] /(desc_disc Ht)[//|[_ _ H2]]; lia.
Qed.

Lemma desc_vis t a x : tr_inv g t -> tvis t x -> desc t a x -> tvis t a.
Proof. by move=> Ht Hx /(desc_disc Ht)[->|[]]. Qed.

Lemma desc_back t t' a x :
  tr_le t t' -> tr_inv g t -> tvis t x -> desc t' a x -> desc t a x.
Proof.
move=> [HV HD _ _] Ht Hx Hd; elim: Hd Hx => [|y Hy Hp _ IH] Hx.
  exact: desc_refl.
have [_ E] := HD y Hx; rewrite E in Hp IH.
case: (ti_par Ht Hx) => // -[Hpv _ _].
by apply: desc_up => //; apply: IH.
Qed.

(** A vertex below a vertex marked after [t] was marked after [t]. *)
Lemma desc_new t t' v y :
  tr_inv g t -> tr_inv g t' -> tr_le t t' -> ~~ tvis t v ->
  desc t' v y -> ~~ tvis t y.
Proof.
move=> Ht Ht' [HV HD _ _] Hv; elim=> // y' Hy Hp _ IH.
apply/negP => Hyt; have [_ E] := HD _ Hyt.
case: (ti_par Ht Hyt) => [E1|[Hpv _ _]]; first by rewrite E in Hp.
by rewrite -E (negbTE IH) in Hpv.
Qed.

(** Every marked vertex lies below a root. *)
Lemma desc_root t x :
  tr_inv g t -> tvis t x -> exists r, [/\ tvis t r, par t r = -1 & desc t r x].
Proof.
move=> Ht; move: {2}(Z.to_nat (disc t x)) (leqnn (Z.to_nat (disc t x))) => n.
elim: n x => [|n IH] x Hn Hx.
  case: (ti_par Ht Hx) => [E|[Hp Hlt _]].
    by exists x; split=> //; exact: desc_refl.
  by move/leP: Hn; have := ti_disc Ht Hx; have := ti_disc Ht Hp; lia.
case: (ti_par Ht Hx) => [E|[Hp Hlt Hadj]].
  by exists x; split=> //; exact: desc_refl.
have [|r [Hr Er Hrx]] := IH (par t x) _ Hp.
  by apply/leP; move/leP: Hn; have := ti_disc Ht Hx; have := ti_disc Ht Hp; lia.
exists r; split=> //; apply: desc_up => //.
by move=> E; have := tvis_range (ti_size Ht) Hp; rewrite E; lia.
Qed.

End Forest.

(** ** The traversal: every edge joins a vertex and one below it *)

Section Closure.
Variable g : Graph.
Hypothesis Hg : adjacency_invariant g.
Variable strict : bool.
Let N := Vertices g.

Definition closedv (t : Traversal) (x : Z) : Prop := closed g (visited t) x.

(** Every marked vertex has all its neighbours marked, or is [c] or
    above [c] ([c] is the vertex whose loop runs, [-1] between the
    calls from the loop over the roots). *)
Definition gray_ok (t : Traversal) (c : Z) : Prop :=
  forall x, tvis t x -> closedv t x \/ (c <> -1 /\ desc t x c).

(** An edge between marked vertices joins a vertex and one below it. *)
Definition edge_ok (t : Traversal) : Prop :=
  forall x y, tvis t x -> tvis t y -> y \in adj g x -> desc t x y \/ desc t y x.

Definition P2 (v : Z) (t : Traversal) : Prop :=
  [/\ tr_inv g t, pend g t v, gray_ok t (par t v) & edge_ok t].

Definition Q2 (v : Z) (t t' : Traversal) : Prop :=
  [/\ gray_ok t' (par t v), edge_ok t'
    & forall x, ~~ tvis t x -> tvis t' x -> desc t' v x /\ closedv t' x].

Definition I2 (u : Z) (t0 : Traversal) (l : seq Z) (t : Traversal) : Prop :=
  [/\ gray_ok t u, edge_ok t, forall y, y \in l -> tvis t y
    & forall x, ~~ tvis t0 x -> tvis t x -> desc t u x /\ (x <> u -> closedv t x)].

Lemma closedv_mono t t' x : tr_le t t' -> closedv t x -> closedv t' x.
Proof. by move=> [HV _ _ _]; apply: closed_mono. Qed.

Lemma gray_ok_mono t t' c :
  tr_le t t' -> (forall x, tvis t' x -> tvis t x) -> gray_ok t c -> gray_ok t' c.
Proof.
move=> Hle HV Hgr x /HV /Hgr[Hc|[Hc Hd]]; [left | right].
  exact: closedv_mono Hc.
by split=> //; apply: desc_mono Hd.
Qed.

Lemma edge_ok_mono t t' :
  tr_le t t' -> (forall x, tvis t' x -> tvis t x) -> edge_ok t -> edge_ok t'.
Proof.
move=> Hle HV He x y /HV Hx /HV Hy Hxy.
by case: (He x y Hx Hy Hxy) => H; [left | right]; apply: desc_mono H.
Qed.

Lemma I2_init u t : P2 u t -> I2 u t [::] (visit u t).
Proof.
move=> [Ht Hp Hgr He]; case: (Hp) => Hu Hur _ _; have Hs := ti_size Ht.
have Hle := tr_le_visit Hs Hur Hu.
have Hvis x : tvis (visit u t) x = (x == u) || tvis t x := tvis_visit Hs x Hur.
have Hu1 : tvis (visit u t) u by rewrite Hvis eqxx.
have Hup x : tvis t x -> ~ closedv t x -> desc (visit u t) x u.
  move=> Hx Hnc; case: (Hgr x Hx) => // -[Hpu Hd].
  by apply: desc_up => //; apply: desc_mono Hd.
have Hnc x : tvis t x -> x \in adj g u -> ~ closedv t x.
  by move=> Hx Hxu /(_ u); rewrite (inv_sym Hg Hxu) -/(tvis t u) (negbTE Hu) => /(_ isT).
split=> //.
- move=> x; rewrite Hvis => /orP[/eqP->|Hx].
    by right; split; [lia | exact: desc_refl].
  case: (Hgr x Hx) => [Hc|[Hpu Hd]]; [left | right].
    exact: closedv_mono Hc.
  by split; [lia | apply: desc_up => //; apply: desc_mono Hd].
- move=> x y; rewrite !Hvis.
  case: (x =P u) => [->|_]; case: (y =P u) => [->|_] //=.
  + by left; exact: desc_refl.
  + by move=> _ Hy Hyu; right; apply: Hup => //; apply: Hnc.
  + move=> Hx _ Hux; left; apply: Hup => //; apply: Hnc => //.
    exact: (inv_sym Hg).
  + by move=> Hx Hy Hxy; case: (He x y Hx Hy Hxy) => H; [left | right];
      apply: desc_mono H.
- move=> x Hx; rewrite Hvis (negbTE Hx) orbF => /eqP->.
  by split=> //; exact: desc_refl.
Qed.

Lemma adj_rcons u l v l' : adj g u = rcons l v ++ l' -> v \in adj g u.
Proof. by move=> ->; rewrite mem_cat mem_rcons mem_head. Qed.

Lemma I2_tree u t0 l v t :
  base g u t0 t -> I2 u t0 l t -> (exists l', adj g u = rcons l v ++ l') ->
  ~~ tvis t v ->
  P2 v (set_parent v u t) /\
  forall t', call_post g v (set_parent v u t) t' -> Q2 v (set_parent v u t) t' ->
             I2 u t0 (rcons l v) (relax u (lowv t' v) t').
Proof.
move=> Hb [Hgr He Hl Hnew] [l' /adj_rcons Hvu] Hv.
have [Hu Edu Epu Hur Hmono] := base_vis Hb.
have [Ht1 Hp1] := base_pre Hg Hb Hvu Hv.
have Ht : tr_inv g t by case: Hb.
have Hs := ti_size Ht.
have Hvr : 0 <= v < N := inv_rng Hg Hvu.
have Hle1 : tr_le t (set_parent v u t) by apply: (@tr_le_set_parent g).
have Epar1 : par (set_parent v u t) v = u by rewrite (par_set_parent Hs) // eqxx.
split.
  split=> //; first by rewrite Epar1; apply: gray_ok_mono Hgr.
  exact: edge_ok_mono He.
move=> t' [Ht' Hid' Hle' [Hv' _ Epv _] _] [Hgr' He' Hnew'].
have Hle2 := tr_le_relax t' u (lowv t' v).
have Hlet : tr_le t t' := tr_le_trans Hle1 Hle'.
rewrite Epar1 in Hgr' Epv.
split.
- exact: gray_ok_mono Hgr'.
- exact: edge_ok_mono He'.
- move=> y; rewrite mem_rcons inE => /orP[/eqP->//|/Hl Hy].
  by case: Hlet => H _ _ _; apply: H.
- move=> x Hx0 Hx2; have Hx' : tvis t' x by [].
  case Hxt: (tvis t x).
    have [Hd Hc] := Hnew x Hx0 Hxt; split.
      by apply: desc_mono Hd; apply: tr_le_trans Hlet Hle2.
    by move=> /Hc; apply: closedv_mono; apply: tr_le_trans Hlet Hle2.
  have [Hd Hc] := Hnew' x (negbT Hxt) Hx'; split; last first.
    by move=> _; apply: closedv_mono Hc.
  apply: desc_mono Hle2 _; apply: desc_trans Hd.
  by apply: desc_up; rewrite ?Epv //; [lia | exact: desc_refl].
Qed.

Lemma I2_back u t0 l v t :
  base g u t0 t -> I2 u t0 l t -> (exists l', adj g u = rcons l v ++ l') ->
  tvis t v -> I2 u t0 (rcons l v) (back strict u v t).
Proof.
move=> Hb [Hgr He Hl Hnew] _ Hv.
have Hle := tr_le_back strict u v t.
have HV x : tvis (back strict u v t) x = tvis t x by rewrite /back; case: ifP.
split.
- by apply: gray_ok_mono Hgr => // x; rewrite HV.
- by apply: edge_ok_mono He => // x; rewrite HV.
- by move=> y; rewrite HV mem_rcons inE => /orP[/eqP->|/Hl].
- move=> x Hx0; rewrite HV => Hx; have [Hd Hc] := Hnew x Hx0 Hx; split.
    exact: desc_mono Hd.
  by move=> /Hc; apply: closedv_mono.
Qed.

Lemma Q2_exit u t0 t :
  base g u t0 t -> call_post g u t0 t -> I2 u t0 (adj g u) t -> Q2 u t0 t.
Proof.
move=> Hb [Ht' Hid' Hle [Hu' Ed Ep Hcl] Hlow] [Hgr He Hl Hnew].
split=> //.
- move=> x Hx; case: (Hgr x Hx) => [Hc|[Hu1 Hd]]; first by left.
  case: (u =P x) => [<-|Hne]; first by left.
  by have [_ Hp Hd'] := desc_parent Hd Hne; right; rewrite -Ep.
- move=> x Hx0 Hx; have [Hd Hc] := Hnew x Hx0 Hx; split=> //.
  by case: (x =P u) => [->|/Hc].
Qed.

Theorem ll_dfs_closure d u t t' :
  P2 u t -> ll_dfs g strict d u t = Ok t' -> call_post g u t t' /\ Q2 u t t'.
Proof.
apply: (ll_dfs_rule Hg (P := P2) (Q := Q2) (I := I2)).
- by move=> v t1 [].
- exact: I2_init.
- exact: I2_tree.
- exact: I2_back.
- exact: Q2_exit.
Qed.

End Closure.

(** ** The traversal: a lower bound of the low-link values *)

Section LowBound.
Variable g : Graph.
Hypothesis Hg : adjacency_invariant g.
Variable strict : bool.
Variable b : Z.
Let N := Vertices g.

(** [c] and the vertices above it were discovered at [b] or later. *)
Definition anc_bound (t : Traversal) (c : Z) : Prop :=
  forall y, desc t y c -> tvis t c -> b <= disc t y.

Definition P3 (v : Z) (t : Traversal) : Prop :=
  [/\ P2 g v t, b <= time t & par t v <> -1 -> anc_bound t (par t v)].

Definition Q3 (v : Z) (t t' : Traversal) : Prop :=
  Q2 g v t t' /\ forall x, ~~ tvis t x -> tvis t' x -> b <= lowv t' x.

Definition I3 (u : Z) (t0 : Traversal) (l : seq Z) (t : Traversal) : Prop :=
  [/\ I2 g u t0 l t, anc_bound t u
    & forall x, ~~ tvis t0 x -> tvis t x -> b <= lowv t x].

Lemma anc_bound_back t t' c :
  tr_le t t' -> tr_inv g t -> tvis t c -> anc_bound t c -> anc_bound t' c.
Proof.
move=> Hle Ht Hc Hb y Hd _.
have Hd' := desc_back Hle Ht Hc Hd.
have Hy := desc_vis Ht Hc Hd'.
by case: Hle => _ HD _ _; have [-> _] := HD y Hy; apply: Hb.
Qed.

Lemma I3_init u t : P3 u t -> I3 u t [::] (visit u t).
Proof.
move=> [HP2 Hbt Hanc]; have HI2 := I2_init Hg HP2.
case: HP2 => Ht Hp _ _; case: (Hp) => Hu Hur Hpu _; have Hs := ti_size Ht.
have Hle := tr_le_visit Hs Hur Hu.
have Hvis x : tvis (visit u t) x = (x == u) || tvis t x := tvis_visit Hs x Hur.
split=> //.
- move=> y Hd _; case: (y =P u) => [->|Hne].
    by rewrite (disc_visit Hs) // eqxx.
  have [_ Hp1 Hd1] := desc_parent Hd (not_eq_sym Hne).
  case: Hpu => [//|[Hpv _]].
  have Hpv' : tvis (visit u t) (par t u) by case: Hle => HV _ _ _; apply: HV.
  exact: (anc_bound_back Hle Ht Hpv (Hanc Hp1) Hd1 Hpv').
- move=> x Hx; rewrite Hvis (negbTE Hx) orbF => /eqP->.
  by rewrite (lowv_visit Hs) // eqxx.
Qed.

Lemma I3_tree u t0 l v t :
  base g u t0 t -> I3 u t0 l t -> (exists l', adj g u = rcons l v ++ l') ->
  ~~ tvis t v ->
  P3 v (set_parent v u t) /\
  forall t', call_post g v (set_parent v u t) t' -> Q3 v (set_parent v u t) t' ->
             I3 u t0 (rcons l v) (relax u (lowv t' v) t').
Proof.
move=> Hb [HI2 Hanc Hlow] Hex Hv.
have [HP2 Hnext2] := I2_tree Hg Hb HI2 Hex Hv.
have [l' /(adj_rcons (g := g)) Hvu] := Hex.
have [Hu Edu Epu Hur Hmono] := base_vis Hb.
have Ht : tr_inv g t by case: Hb.
have Hs := ti_size Ht.
have Hvr : 0 <= v < N := inv_rng Hg Hvu.
have Hu0 : ~~ tvis t0 u by case: Hb => _ [].
have Hle1 : tr_le t (set_parent v u t) by apply: (@tr_le_set_parent g).
have Epar1 : par (set_parent v u t) v = u by rewrite (par_set_parent Hs) // eqxx.
have Hbu : b <= disc t u by apply: Hanc => //; exact: desc_refl.
split.
  split=> //; first by have := ti_disc Ht Hu; rewrite /=; lia.
  by rewrite Epar1 => _; apply: anc_bound_back Hanc.
move=> t' Hc [HQ2 Hlow']; case: (Hc) => Ht' _ Hle' [Hv' _ _ _] Hfr0.
have Hfr x : tvis t x -> lowv t' x = lowv t x := Hfr0 x.
have Hs' := ti_size Ht'.
have Hlet : tr_le t t' := tr_le_trans Hle1 Hle'.
have Hle2 : tr_le t (relax u (lowv t' v) t').
  exact: tr_le_trans Hlet (tr_le_relax _ _ _).
split.
- exact: Hnext2.
- exact: anc_bound_back Hanc.
- move=> x Hx0 Hx2; have Hx' : tvis t' x by [].
  rewrite (lowv_relax Hs') //; case: eqP => [_|Hne].
    have := Hlow' v Hv Hv'; have := Hlow u Hu0 Hu.
    rewrite -(Hfr u Hu); have := min_cases (lowv t' u) (lowv t' v); lia.
  case Hxt: (tvis t x); first by rewrite Hfr //; apply: Hlow.
  by apply: Hlow' => //; apply/negbT.
Qed.

Lemma I3_back u t0 l v t :
  base g u t0 t -> I3 u t0 l t -> (exists l', adj g u = rcons l v ++ l') ->
  tvis t v -> I3 u t0 (rcons l v) (back strict u v t).
Proof.
move=> Hb [HI2 Hanc Hlow] Hex Hv.
have HI2' := I2_back strict Hb HI2 Hex Hv.
have [l' /(adj_rcons (g := g)) Hvu] := Hex.
have [Hu Edu Epu Hur Hmono] := base_vis Hb.
have Ht : tr_inv g t by case: Hb.
have Hs := ti_size Ht.
have Hu0 : ~~ tvis t0 u by case: Hb => _ [].
have Hle := tr_le_back strict u v t.
have Hbv : b <= disc t v.
  case: HI2 => _ He _ _; case: (He u v Hu Hv Hvu) => Hd.
    by have := desc_le Ht Hd; have := Hanc u (desc_refl t u) Hu; lia.
  exact: Hanc.
split=> //; first exact: anc_bound_back Hanc.
move=> x Hx0; rewrite /back; case: ifP => _; last exact: Hlow.
move=> Hx; rewrite (lowv_relax Hs) //; case: eqP => [_|_]; last exact: Hlow.
by have := Hlow u Hu0 Hu; have := min_cases (lowv t u) (disc t v); lia.
Qed.

Lemma Q3_exit u t0 t :
  base g u t0 t -> call_post g u t0 t -> I3 u t0 (adj g u) t -> Q3 u t0 t.
Proof.
by move=> Hb Hc [HI2 _ Hlow]; split=> //; apply: Q2_exit Hb Hc HI2.
Qed.

Theorem ll_dfs_bound d u t t' :
  P3 u t -> ll_dfs g strict d u t = Ok t' -> call_post g u t t' /\ Q3 u t t'.
Proof.
apply: (ll_dfs_rule Hg (P := P3) (Q := Q3) (I := I3)).
- by move=> v t1 [[]].
- exact: I3_init.
- exact: I3_tree.
- exact: I3_back.
- exact: Q3_exit.
Qed.

End LowBound.

(** * Biconnected components *)

(** ** The loop that pops a component *)

Lemma pop_loop_cat u v rs c :
  (pop_loop u v rs c).2 ++ (pop_loop u v rs c).1 = c ++ rs.
Proof.
elim: rs c => [|e rs IH] c //=.
by case: ifP => _; rewrite ?IH /= cat_rcons.
Qed.

Lemma pop_loop_skip (u v : Z) (xs ys c : seq (Z * Z)) :
  (forall e, e \in xs -> e.1 != u) ->
  pop_loop u v (xs ++ (u, v) :: ys) c = (ys, rcons (c ++ xs) (u, v)).
Proof.
elim: xs c => [|e xs IH] c Hxs /=; first by rewrite !eqxx cats0.
have /negbTE-> /= : e.1 != u by apply: Hxs; rewrite mem_head.
rewrite IH ?cat_rcons // => e' He'.
by apply: Hxs; rewrite inE He' orbT.
Qed.

Lemma pop_component_count u v st (e : Z * Z) :
  (count_mem e (pop_component u v st).1 + count_mem e (pop_component u v st).2
   = count_mem e st)%N.
Proof.
rewrite /pop_component /= count_rev addnC -count_cat pop_loop_cat /=.
by rewrite count_rev.
Qed.

Lemma pop_component_found (u v : Z) (st rest : seq (Z * Z)) :
  (forall e, e \in rest -> e.1 != u) ->
  pop_component u v (st ++ (u, v) :: rest) = (st, rcons (rev rest) (u, v)).
Proof.
move=> Hrest; rewrite /pop_component rev_cat rev_cons -cats1 -catA /=.
rewrite pop_loop_skip /= ?revK ?cats1 //.
by move=> e; rewrite mem_rev; apply: Hrest.
Qed.

(** ** Emptying the stack after each root (all graphs) *)

Lemma stack_bcc_flush s : stack (bcc_flush s) = [::].
Proof. by rewrite /bcc_flush; case: ifP => //; case: (stack s). Qed.

Lemma stack_bcc_root g depth s u s' :
  stack s = [::] -> bcc_root g depth s u = Ok s' -> stack s' = [::].
Proof.
rewrite /bcc_root => Hs; case: ifP => _; last by case=> <-.
by case: (bcc_dfs g depth u s) => //= s1 [<-]; exact: stack_bcc_flush.
Qed.

Lemma stack_bcc_fold g depth l s s' :
  stack s = [::] -> foldM (bcc_root g depth) s l = Ok s' -> stack s' = [::].
Proof.
elim: l s => [|u l IH] s Hs /=; first by case=> <-.
case E: (bcc_root g depth s u) => [s1| |] //=.
by apply: IH; apply: stack_bcc_root E.
Qed.

(** C8. In [BiconnectedComponents], when the [dfs] launched from a root
    returns, the edges still on the stack, if any, are appended to the
    result as one more component and the stack is emptied; so every
    iteration of the loop over the roots starts with an empty stack. *)
Theorem bcc_root_flush (g : Graph) (depth : nat) :
  (forall s u s1,
     ~~ zget false (visited (bcc_tr s)) u -> bcc_dfs g depth u s = Ok s1 ->
     exists s',
       [/\ bcc_root g depth s u = Ok s', stack s' = [::], bcc_tr s' = bcc_tr s1
         & bcc s' = if stack s1 is [::] then bcc s1
                    else rcons (bcc s1) (stack s1)]) /\
  (forall k s,
     foldM (bcc_root g depth)
           (mkBCC (init_traversal (Z.to_nat (Vertices g))) [::] [::])
           (zrange k) = Ok s ->
     stack s = [::]).
Proof.
split=> [s u s1 Hu E|k s]; last exact: stack_bcc_fold.
exists (bcc_flush s1); rewrite /bcc_root Hu E /= stack_bcc_flush; split=> //.
  by rewrite /bcc_flush; case: (stack s1).
by rewrite /bcc_flush; case: (stack s1).
Qed.

(** Counts and truth values as unknowns of [lia]. *)
Ltac nat_atoms :=
  repeat match goal with
  | |- context [@count ?T ?p ?s] =>
      let n := fresh "n" in set n := (@count T p s); clearbody n
  | |- context [nat_of_bool ?b] =>
      let n := fresh "n" in set n := (nat_of_bool b); clearbody n
  end.

(** ** The edges pushed by a traversal *)

(** The edges on the stack and in the components found so far. *)
Definition edges_of (s : BCCState) : seq (Z * Z) := stack s ++ flatten (bcc s).

(** [dfs] on [a] pushes the edge [(a, b)]: it goes down to [b], or [b]
    was discovered before [a] and is not its parent. *)
Definition push_cond (t : Traversal) (a b : Z) : bool :=
  (par t b == a) || ((b != par t a) && (disc t b <? disc t a)).

(** [x] was marked between [t] and [t']. *)
Definition newv (t t' : Traversal) (x : Z) : bool := ~~ tvis t x && tvis t' x.

Lemma push_cond_le t t' a b :
  tr_le t t' -> tvis t a -> tvis t b -> push_cond t' a b = push_cond t a b.
Proof.
move=> [_ HD _ _] Ha Hb; rewrite /push_cond.
by have [-> ->] := HD a Ha; have [-> ->] := HD b Hb.
Qed.

Section BCCTheory.
Variable g : Graph.
Hypothesis Hg : adjacency_invariant g.
Hypothesis Huniq : forall u, uniq (adj g u).
Variable b : Z.
Let N := Vertices g.

(** The edges pushed by the call of [dfs] on a vertex marked between [t]
    and [t']: each once. *)
Definition pushed (t t' : Traversal) (e : Z * Z) : bool :=
  newv t t' e.1 && (e.2 \in adj g e.1) && push_cond t' e.1 e.2.

Definition PB (v : Z) (s : BCCState) : Prop := P3 g b v (bcc_tr s).

Definition QB (v : Z) (s s' : BCCState) : Prop :=
  [/\ call_post g v (bcc_tr s) (bcc_tr s'),
      Q3 g b v (bcc_tr s) (bcc_tr s'),
      exists2 rest, stack s' = stack s ++ rest
        & forall e, e \in rest -> newv (bcc_tr s) (bcc_tr s') e.1,
      par (bcc_tr s) v = -1 -> b = time (bcc_tr s) -> stack s = [::] ->
        stack s' = [::]
    & forall e, (count_mem e (edges_of s') =
                 count_mem e (edges_of s) + pushed (bcc_tr s) (bcc_tr s') e)%N].

(** The edges pushed so far by the call on [u] that started in [t0],
    after the neighbours [l]. *)
Definition pushed_loop (u : Z) (l : seq Z) (t0 t : Traversal) (e : Z * Z) : bool :=
  if e.1 == u then (e.2 \in l) && push_cond t u e.2 else pushed t0 t e.

Definition IB (u : Z) (s0 : BCCState) (l : seq Z) (s : BCCState) : Prop :=
  [/\ base g u (bcc_tr s0) (bcc_tr s) /\ I3 g b u (bcc_tr s0) l (bcc_tr s),
      exists2 rest, stack s = stack s0 ++ rest
        & forall e, e \in rest -> newv (bcc_tr s0) (bcc_tr s) e.1,
      par (bcc_tr s0) u = -1 -> b = time (bcc_tr s0) -> stack s0 = [::] ->
        stack s = [::],
      forall e, (count_mem e (edges_of s) =
                 count_mem e (edges_of s0)
                 + pushed_loop u l (bcc_tr s0) (bcc_tr s) e)%N
    & forall c, tvis (bcc_tr s) c -> par (bcc_tr s) c = u -> c \in l].

Lemma IB_init u s0 :
  PB u s0 -> IB u s0 [::] (mkBCC (visit u (bcc_tr s0)) (stack s0) (bcc s0)).
Proof.
move=> HP; have HI3 := I3_init Hg HP.
case: HP => -[Ht Hp _ _] _ _; case: (Hp) => Hu Hur Hpu _.
have Hs := ti_size Ht; set t0 := bcc_tr s0.
have Hvis x : tvis (visit u t0) x = (x == u) || tvis t0 x := tvis_visit Hs x Hur.
split=> //=.
- by split=> //; exact: base_init.
- by exists [::]; rewrite ?cats0.
- move=> e; rewrite /pushed_loop /pushed /newv Hvis /=.
  rewrite -/(edges_of s0) -/t0.
  by case: eqP => _ /=; rewrite ?addn0 //; case: (tvis t0 e.1); rewrite /= ?addn0.
- move=> c; rewrite Hvis /par /= -/(par t0 c) => /orP[/eqP->|Hc] Ec.
    case: Hpu => [|[Hpv _]]; first by rewrite Ec; lia.
    by rewrite Ec (negbTE Hu) in Hpv.
  case: (ti_par Ht Hc) => [|[Hpv _ _]]; first by rewrite Ec; lia.
  by rewrite Ec (negbTE Hu) in Hpv.
Qed.

Lemma newv_le t0 t t' x : tr_le t t' -> newv t0 t x -> newv t0 t' x.
Proof. by rewrite /newv => -[HV _ _ _] /andP[-> /HV ->]. Qed.

Lemma IB_tree u s0 l v s :
  IB u s0 l s -> (exists l', adj g u = rcons l v ++ l') ->
  ~~ tvis (bcc_tr s) v ->
  let s1 := mkBCC (set_parent v u (bcc_tr s)) (rcons (stack s) (u, v)) (bcc s) in
  PB v s1 /\
  forall s2, QB v s1 s2 ->
    let t3 := relax u (lowv (bcc_tr s2) v) (bcc_tr s2) in
    IB u s0 (rcons l v)
       (if lowv t3 v >=? disc t3 u
        then mkBCC t3 (pop_component u v (stack s2)).1
                   (rcons (bcc s2) (pop_component u v (stack s2)).2)
        else mkBCC t3 (stack s2) (bcc s2)).
Proof.
move=> [[Hb HI3] [rest Est Hrest] Hroot Hcnt Hkids] Hex Hv s1.
set t := bcc_tr s in Hb HI3 Hrest Hcnt Hkids Hv s1 *.
set t0 := bcc_tr s0 in Hb HI3 Hrest Hroot Hcnt *.
have [HP3 Hnext3] := I3_tree Hg Hb HI3 Hex Hv.
split=> // s2 [Hc HQ3 [rest2 Est2 Hrest2] _ Hcnt2] t3.
set t1 := set_parent v u t in HP3 Hnext3 Hc HQ3 Hrest2 Hcnt2.
set t2 := bcc_tr s2 in Hc HQ3 Hrest2 Hcnt2 t3 *.
have HI3' : I3 g b u t0 (rcons l v) t3 := Hnext3 t2 Hc HQ3.
have [l' Hadj] := Hex; have Hvu := adj_rcons Hadj.
have Hb' : base g u t0 t3 := base_tree Hg Hb Hvu Hv Hc.
have [Hu Edu Epu Hur Hmono] := base_vis Hb.
have Ht : tr_inv g t by case: Hb.
have Hs := ti_size Ht.
have Hvr : 0 <= v < N := inv_rng Hg Hvu.
have Hu0 : ~~ tvis t0 u by case: Hb => _ [].
have Hle1 : tr_le t t1 by apply: (@tr_le_set_parent g).
case: (Hc) => Ht2 _ Hle12 [Hv2 _ Epv _] Hfr.
have Hs2 := ti_size Ht2.
have Ht1 : tr_inv g t1 by case: HP3 => -[].
have Hle2 : tr_le t t2 := tr_le_trans Hle1 Hle12.
have Hle3 : tr_le t t3 := tr_le_trans Hle2 (tr_le_relax _ _ _).
have Hu1 : tvis t1 u by [].
have Hnl : v \notin l.
  by have := Huniq u; rewrite Hadj cat_uniq rcons_uniq => /andP[/andP[]].
have Hlv : forall y, y \in l -> tvis t y by case: HI3 => -[].
have Hclosed x : ~~ tvis t0 x -> tvis t x -> x <> u -> closedv g t x.
  by case: HI3 => -[_ _ _ H] _ _ Hx0 Hx; case: (H x Hx0 Hx).
have Epar3 : par t3 v = u.
  by rewrite /par /= -/(par t2 v) Epv (par_set_parent Hs) // eqxx.
have Hne : v <> u by move=> E; rewrite E Hu in Hv.
(* the count of every edge *)
have Hpl e : (pushed_loop u l t0 t e + ((u, v) == e) + pushed t1 t2 e
              = pushed_loop u (rcons l v) t0 t3 e)%N.
  case: e => a c; rewrite /pushed_loop /pushed /newv /= xpair_eqE [u == a]eq_sym.
  case: (a =P u) => [->|Hau] /=.
    rewrite Hu1 /= addn0 mem_rcons inE [v == c]eq_sym.
    case: (c =P v) => [->|_] /=.
      by rewrite (negbTE Hnl) /= /push_cond Epar3 eqxx.
    case Hcl: (c \in l) => //=; rewrite addn0.
    by rewrite (push_cond_le Hle3 Hu (Hlv _ Hcl)).
  rewrite addn0.
  case Hat: (tvis t a).
    have Ha3 : tvis t3 a by case: Hle3 => H _ _ _; apply: H.
    rewrite [tvis t1 a]Hat Ha3 /= addn0 !andbT.
    case Ha0: (tvis t0 a) => //=; case Hca: (c \in adj g a) => //=.
    have Hct : tvis t c by apply: (Hclosed a) => //; rewrite Ha0.
    by rewrite (push_cond_le Hle3 Hat Hct).
  rewrite [tvis t1 a]Hat andbF /= add0n.
  have -> : tvis t0 a = false.
    by apply/negbTE/negP => /Hmono; rewrite Hat.
  by [].
have Hcnt3 e : (count_mem e (stack s2 ++ flatten (bcc s2))
                = count_mem e (edges_of s0) + pushed_loop u (rcons l v) t0 t3 e)%N.
  rewrite -Hpl -/(edges_of s2) Hcnt2 /edges_of /= -cats1 !count_cat /=.
  by move: (Hcnt e); rewrite /edges_of !count_cat -/t1; nat_atoms; nat_lia.
have Hkids3 c : tvis t3 c -> par t3 c = u -> c \in rcons l v.
  rewrite /par /= -/(par t2 c) mem_rcons inE => Hc2 Ec.
  case Hct: (tvis t c).
    apply/orP; right; apply: Hkids => //.
    by case: Hle2 => _ HD _ _; have [_ <-] := HD c Hct.
  case: (c =P v) => //= Hcv.
  have [[_ _ Hnew] _] := HQ3; have [Hd _] := Hnew c (negbT Hct) Hc2.
  have [_ _ Hd'] := desc_parent Hd Hcv; rewrite Ec in Hd'.
  by have := desc_new Ht1 Ht2 Hle12 Hv Hd'; rewrite Hu1.
have Hrest2u e : e \in rest2 -> e.1 != u.
  by move=> /Hrest2 /andP[H _]; apply/eqP => E; rewrite E Hu1 in H.
have Est2' : stack s2 = stack s ++ (u, v) :: rest2 by rewrite Est2 /= cat_rcons.
have Hlow3 : lowv t3 v = lowv t2 v.
  by rewrite (lowv_relax Hs2) //; case: eqP.
have Hdisc3 : disc t3 u = disc t u.
  by case: Hle3 => _ HD _ _; have [] := HD u Hu.
case: ifP => Hcond.
- (* the component is popped *)
  rewrite Est2' (pop_component_found _ _ Hrest2u) /=; split=> //=.
  + exists rest => // e /Hrest; exact: newv_le.
  + move=> e; rewrite /edges_of /= -cats1 flatten_cat /= cats0 -Hcnt3 Est2'.
    rewrite !count_cat /= -cats1 count_cat count_rev /=.
    by nat_atoms; nat_lia.
- (* the edges stay on the stack *)
  split=> //=.
  + exists (rest ++ (u, v) :: rest2); first by rewrite Est2' Est catA.
    move=> e; rewrite mem_cat inE => /or3P[/Hrest|/eqP->|/Hrest2].
    * exact: newv_le.
    * by rewrite /newv /= Hu0; case: Hle3 => H _ _ _; apply: H.
    * rewrite /newv => /andP[H1 H2]; apply/andP; split=> //.
      by apply/negP => /Hmono H; rewrite [tvis t1 _]H in H1.
  + move=> Hp0 Hb0 Hs0; exfalso.
    have [_ Hlow] := HQ3; have := Hlow v Hv Hv2.
    move: Hcond; rewrite Hlow3 Hdisc3 Edu Hb0 Z.geb_leb => /Z.leb_gt.
    by rewrite -/t2 /t0; lia.
Qed.

Lemma IB_back u s0 l v s :
  IB u s0 l s -> (exists l', adj g u = rcons l v ++ l') ->
  tvis (bcc_tr s) v ->
  let t := bcc_tr s in
  IB u s0 (rcons l v)
     (if (v != par t u) && (disc t v <? disc t u)
      then mkBCC (relax u (disc t v) t) (rcons (stack s) (u, v)) (bcc s)
      else s).
Proof.
move=> [[Hb HI3] [rest Est Hrest] Hroot Hcnt Hkids] Hex Hv t.
have HI3' := I3_back true Hb HI3 Hex Hv.
have Hb' := base_back true v Hb.
rewrite -/t in Hb HI3 Hrest Hcnt Hkids Hv HI3' Hb'.
set t0 := bcc_tr s0 in Hb HI3 Hrest Hroot Hcnt HI3' Hb' *.
have [l' Hadj] := Hex; have Hvu := adj_rcons Hadj.
have [Hu Edu Epu Hur Hmono] := base_vis Hb.
have Ht : tr_inv g t by case: Hb.
have Hu0 : ~~ tvis t0 u by case: Hb => _ [].
have Hnl : v \notin l.
  by have := Huniq u; rewrite Hadj cat_uniq rcons_uniq => /andP[/andP[]].
have He : edge_ok g t by case: HI3 => -[].
move: HI3' Hb'; rewrite /back /=; case: ifP => Hcond HI3' Hb'.
- split=> //=.
  + exists (rcons rest (u, v)); first by rewrite Est rcons_cat.
    move=> e; rewrite mem_rcons inE => /orP[/eqP->|/Hrest //].
    by rewrite /newv /= Hu0.
  + move=> Hp0 _ _; exfalso; case/andP: Hcond => _ /Z.ltb_lt Hlt.
    case: (He u v Hu Hv Hvu) => Hd; first by have := desc_le Ht Hd; lia.
    have Hne : u <> v by move=> E; rewrite E in Hlt; lia.
    by have [_ Hp _] := desc_parent Hd Hne; rewrite Epu in Hp.
  + move=> e; rewrite /edges_of /= -cats1 !count_cat /=.
    move: (Hcnt e); rewrite /edges_of !count_cat.
    have -> : pushed_loop u (rcons l v) t0 (relax u (disc t v) t) e
              = (pushed_loop u l t0 t e + ((u, v) == e))%N :> nat.
      case: e => a c; rewrite /pushed_loop /= xpair_eqE [u == a]eq_sym.
      case: (a =P u) => [_|_] /=; last by rewrite addn0.
      rewrite mem_rcons inE [v == c]eq_sym; case: (c =P v) => [->|_] /=.
        by rewrite (negbTE Hnl) /= /push_cond [X in _ || X]Hcond orbT.
      by rewrite addn0.
    by nat_atoms; nat_lia.
  + by move=> c Hc Ec; rewrite mem_rcons inE (Hkids c Hc Ec) orbT.
- split=> //; first by exists rest.
  + move=> e; rewrite Hcnt; congr (_ + _)%N.
    case: e => a c; rewrite /pushed_loop /=.
    case: (a =P u) => [_|//]; rewrite mem_rcons inE.
    case: (c =P v) => [->|//] /=; rewrite (negbTE Hnl) /= /push_cond.
    rewrite [X in _ || X]Hcond orbF.
    by case: eqP => // /(Hkids v Hv); rewrite (negbTE Hnl).
  + by move=> c Hc Ec; rewrite mem_rcons inE (Hkids c Hc Ec) orbT.
Qed.

Lemma QB_exit u s0 s :
  call_post g u (bcc_tr s0) (bcc_tr s) -> Q3 g b u (bcc_tr s0) (bcc_tr s) ->
  IB u s0 (adj g u) s -> QB u s0 s.
Proof.
move=> Hc HQ3 [[Hb HI3] Hext Hroot Hcnt Hkids]; split=> //.
move=> e; rewrite Hcnt; congr (_ + _)%N.
case: e => a c; rewrite /pushed_loop /pushed /newv /=.
case: (a =P u) => [->|//].
have [-> _ _ _ _] := base_vis Hb.
by case: Hb => _ [-> _ _ _] _ _ _.
Qed.

Lemma bcc_scan_spec rec :
  (forall v s s', PB v s -> rec v s = Ok s' -> QB v s s') ->
  forall u s0 l2 l1 s s',
    adj g u = l1 ++ l2 -> IB u s0 l1 s ->
    bcc_scan rec u l2 s = Ok s' -> IB u s0 (adj g u) s'.
Proof.
move=> Hrec u s0; elim=> [|v l2 IH] l1 s s' Hadj HI.
  by rewrite cats0 in Hadj; rewrite Hadj => -[<-].
have Hadj' : adj g u = rcons l1 v ++ l2 by rewrite cat_rcons.
have Hex : exists l', adj g u = rcons l1 v ++ l' by exists l2.
have Hvu := adj_rcons Hadj'.
have Hvr : 0 <= v < N := inv_rng Hg Hvu.
case: (HI) => -[Hb _] _ _ _ _.
have [Hu _ _ Hur _] := base_vis Hb.
have Ht : tr_inv g (bcc_tr s) by case: Hb.
have Hs := ti_size Ht.
have [Hiv Hidv _ _] := sized_inb Hs Hvr.
have [_ Hidu _ Hipu] := sized_inb Hs Hur.
have Evis : zget false (visited (bcc_tr s)) v = tvis (bcc_tr s) v.
  by rewrite /tvis /vis Hiv.
rewrite /= Hiv /= Evis; case Hv: (tvis (bcc_tr s) v) => /=.
- rewrite (zget_getd 0 0 Hidv) (zget_getd 0 0 Hidu) (zget_getd (-1) 0 Hipu).
  rewrite -/(disc _ v) -/(disc _ u) -/(par _ u) => E.
  have /= HI' := IB_back HI Hex Hv.
  by move: E HI'; case: ifP => _ E HI'; exact: (IH _ _ _ Hadj' HI' E).
- have Hnv : ~~ tvis (bcc_tr s) v by rewrite Hv.
  have [HPv Hnext] := IB_tree HI Hex Hnv.
  case E1: (rec v _) => [s2| |] //=.
  have HQ := Hrec _ _ _ HPv E1.
  have Hs2 : sized N (bcc_tr s2) by case: HQ => -[/ti_size].
  have [_ Hidu2 Hilv _] := sized_inb Hs2 Hvr.
  have [_ Hidu3 Hilu _] := sized_inb Hs2 Hur.
  have Hs3 := sized_relax Hs2 u (lowv (bcc_tr s2) v).
  have [_ _ Hilv3 _] := sized_inb Hs3 Hvr.
  have [_ Hidu3' _ _] := sized_inb Hs3 Hur.
  rewrite (zget_getd 0 0 Hilv) -/(lowv _ v).
  rewrite (zget_getd 0 0 Hilv3) (zget_getd 0 0 Hidu3') -/(lowv _ v) -/(disc _ u) => E.
  have /= HI' := Hnext _ HQ.
  by move: E HI'; case: ifP => _ E HI'; exact: (IH _ _ _ Hadj' HI' E).
Qed.

Theorem bcc_dfs_spec d u s s' :
  PB u s -> bcc_dfs g d u s = Ok s' -> QB u s s'.
Proof.
elim: d u s s' => [|d IH] u s s' // HPu E.
have El : ll_dfs g true d.+1 u (bcc_tr s) = Ok (bcc_tr s').
  by rewrite -bcc_dfs_ll E.
have [Hc HQ3] := ll_dfs_bound Hg HPu El.
apply: QB_exit => //.
case: (HPu) => -[Ht Hp _ _] _ _; case: (Hp) => Hu Hur _ _.
have Hs := ti_size Ht; have [Hiu _ _ _] := sized_inb Hs Hur.
have HA : inb (AdjList g) u by rewrite /inb (inv_len Hg); z_lia.
have Eadj : zget [::] (AdjList g) u = adj g u by rewrite /adj HA.
move: E; rewrite /= Hiu HA /= Eadj => E.
exact: (bcc_scan_spec IH (l1 := [::]) erefl (IB_init HPu) E).
Qed.

End BCCTheory.

(** ** Between the calls from the loop over the roots *)

Section Roots.
Variable g : Graph.
Hypothesis Hg : adjacency_invariant g.
Let N := Vertices g.

(** The state of a low-link traversal between two roots. *)
Definition root_inv (t : Traversal) : Prop :=
  [/\ tr_inv g t, idle t, gray_ok g t (-1) & edge_ok g t].

Lemma tvis_init n x : tvis (init_traversal n) x = false.
Proof. exact: vis_nseq. Qed.

Lemma root_inv_init : root_inv (init_traversal (Z.to_nat N)).
Proof.
have N0 : 0 < N := inv_pos Hg.
have Hlen (A : Type) (a : A) : zlen (nseq (Z.to_nat N) a) = N.
  by rewrite /zlen size_nseq Z2Nat.id //; lia.
split.
- split.
  + by split; apply: Hlen.
  + by rewrite /=; lia.
  + by move=> x; rewrite tvis_init.
  + by move=> x y; rewrite tvis_init.
  + by move=> x; rewrite tvis_init.
  + by move=> x; rewrite tvis_init.
- by move=> x _; rewrite /par /= getd_nseq; case: ifP.
- by move=> x; rewrite tvis_init.
- by move=> x y; rewrite tvis_init.
Qed.

Lemma closedv_root t x : gray_ok g t (-1) -> tvis t x -> closedv g t x.
Proof. by move=> H /H[//|[]]. Qed.

(** A root satisfies what a call of [dfs] asks for. *)
Lemma root_P3 t u :
  root_inv t -> 0 <= u < N -> ~~ tvis t u -> P3 g (time t) u t.
Proof.
move=> [Ht Hid Hgr He] Hur Hu; have Epu := Hid u Hu.
split; last by rewrite Epu.
  split=> //; last by rewrite Epu.
  by split=> //; [left | move=> x Hx _; apply: Hid].
lia.
Qed.

Lemma root_inv_call u t t' :
  root_inv t -> ~~ tvis t u -> call_post g u t t' -> Q2 g u t t' -> root_inv t'.
Proof.
move=> [Ht Hid Hgr He] Hu [Ht' Hid' _ _ _] [Hgr' He' _].
by split=> //; rewrite -(Hid u Hu).
Qed.

End Roots.

(** ** The loop over the roots of [BiconnectedComponents] *)

Section BCCRoots.
Variable g : Graph.
Hypothesis Hg : adjacency_invariant g.
Hypothesis Huniq : forall u, uniq (adj g u).
Let N := Vertices g.

(** Between two roots: the stack is empty and the components hold the
    pairs [(a, b)] with [a] marked, [b] a neighbour of [a], and [b] the
    child of [a] or found before [a] and not its parent. *)
Definition bcc_inv (s : BCCState) : Prop :=
  [/\ root_inv g (bcc_tr s), stack s = [::]
    & forall e, count_mem e (flatten (bcc s)) =
        (tvis (bcc_tr s) e.1 && (e.2 \in adj g e.1) && push_cond (bcc_tr s) e.1 e.2 : nat)].

Lemma bcc_inv_init :
  bcc_inv (mkBCC (init_traversal (Z.to_nat N)) [::] [::]).
Proof.
split=> //; first exact: root_inv_init.
by move=> e; rewrite /= tvis_init.
Qed.

Lemma bcc_dfs_total d u s :
  root_inv g (bcc_tr s) -> 0 <= u < N -> ~~ tvis (bcc_tr s) u ->
  (unmarked (visited (bcc_tr s)) <= d)%N ->
  exists s', bcc_dfs g d u s = Ok s'.
Proof.
move=> Hr Hur Hu Hd; have [[Ht Hp _ _] _ _] := root_P3 Hr Hur Hu.
have [t' E _] := ll_dfs_basic Hg true Ht Hp Hd.
by move: (bcc_dfs_ll g d u s); rewrite E; case: (bcc_dfs g d u s) => // s' _; exists s'.
Qed.

Lemma bcc_root_call d u s s1 :
  bcc_inv s -> 0 <= u < N -> ~~ tvis (bcc_tr s) u -> bcc_dfs g d u s = Ok s1 ->
  [/\ bcc_inv s1, stack s1 = [::], tr_le (bcc_tr s) (bcc_tr s1),
      tvis (bcc_tr s1) u /\ disc (bcc_tr s1) u = time (bcc_tr s)
    & forall x, ~~ tvis (bcc_tr s) x -> tvis (bcc_tr s1) x ->
        desc (bcc_tr s1) u x /\ disc (bcc_tr s1) u <= lowv (bcc_tr s1) x].
Proof.
move=> [Hr Hst Hcnt] Hur Hu E.
have HP := root_P3 Hr Hur Hu.
have [Hcp [HQ2 Hlow] _ Hroot Hc] := bcc_dfs_spec Hg Huniq HP E.
case: (Hr) => Ht Hid Hgr He.
have Est : stack s1 = [::] by apply: Hroot => //; apply: Hid.
case: (Hcp) => Ht1 Hid1 Hle [Hu1 Ed1 _ _] _.
have Hr1 := root_inv_call Hr Hu Hcp HQ2.
split=> //; last first.
  by move=> x Hx Hx1; case: HQ2 => _ _ /(_ x Hx Hx1)[Hd _]; split=> //; rewrite Ed1; apply: Hlow.
split=> // e; move: (Hc e); rewrite /edges_of Est Hst /= => ->.
rewrite Hcnt /pushed /newv; case Ha: (tvis (bcc_tr s) e.1) => /=.
  case: (Hle) => HV _ _ _; rewrite (HV _ Ha) /= addn0.
  case Hb: (e.2 \in adj g e.1) => //=.
  have Hb' : tvis (bcc_tr s) e.2 by apply: (closedv_root Hgr Ha).
  by rewrite (push_cond_le Hle).
by rewrite add0n.
Qed.

Lemma bcc_flush_empty s : stack s = [::] -> bcc_flush s = s.
Proof. by rewrite /bcc_flush => ->. Qed.

Lemma tvis_zget t u : sized N t -> 0 <= u < N ->
  tvis t u = zget false (visited t) u.
Proof. by move=> Hs Hur; have [Hi _ _ _] := sized_inb Hs Hur; rewrite /tvis /vis Hi. Qed.

Lemma bcc_root_spec d s u :
  (Z.to_nat N <= d)%N -> bcc_inv s -> 0 <= u < N ->
  exists s', [/\ bcc_root g d s u = Ok s', bcc_inv s', tvis (bcc_tr s') u
    & tr_le (bcc_tr s) (bcc_tr s')].
Proof.
move=> Hd Hi Hur; case: (Hi) => Hr _ _; case: (Hr) => Ht _ _ _.
have Hs := ti_size Ht.
rewrite /bcc_root -(tvis_zget Hs Hur).
case Hu: (tvis (bcc_tr s) u) => /=.
  by exists s; split=> //; apply: tr_le_refl.
have Hu' : ~~ tvis (bcc_tr s) u by rewrite Hu.
have Hdu : (unmarked (visited (bcc_tr s)) <= d)%N.
  apply: leq_trans Hd; apply: leq_trans (unmarked_size _) _.
  by case: Hs => Hv _ _ _; rewrite /N -Hv /zlen Nat2Z.id.
have [s1 E] := bcc_dfs_total Hr Hur Hu' Hdu.
have [Hi1 Est Hle [Hu1 _] _] := bcc_root_call Hi Hur Hu' E.
by exists s1; rewrite E /= bcc_flush_empty.
Qed.

Lemma bcc_fold_spec d l s :
  (Z.to_nat N <= d)%N -> bcc_inv s -> (forall u, u \in l -> 0 <= u < N) ->
  exists s', [/\ foldM (bcc_root g d) s l = Ok s', bcc_inv s',
    forall u, u \in l -> tvis (bcc_tr s') u & tr_le (bcc_tr s) (bcc_tr s')].
Proof.
move=> Hd; elim: l s => [|u l IH] s Hi Hl.
  by exists s; split=> //; apply: tr_le_refl.
have [|s1 [E1 Hi1 Hu1 Hle1]] := bcc_root_spec Hd Hi (u := u).
  by apply: Hl; rewrite inE eqxx.
have [|s2 [E2 Hi2 Hu2 Hle2]] := IH s1 Hi1.
  by move=> x Hx; apply: Hl; rewrite inE Hx orbT.
exists s2; split=> //=; first by rewrite E1.
  move=> x; rewrite inE => /orP[/eqP->|]; last exact: Hu2.
  by case: Hle2 => HV _ _ _; apply: HV.
exact: tr_le_trans Hle1 Hle2.
Qed.

End BCCRoots.

(** Of the two orientations of an edge between marked vertices, [dfs]
    pushes exactly one. *)
Lemma push_cond_once g t a b :
  tr_inv g t -> tvis t a -> tvis t b -> a <> b ->
  (push_cond t a b + push_cond t b a = 1)%N.
Proof.
move=> Ht.
have H x y : tvis t x -> tvis t y -> disc t x < disc t y ->
    (push_cond t x y + push_cond t y x = 1)%N.
  move=> Hx Hy Hlt; rewrite /push_cond.
  have -> : (disc t y <? disc t x) = false by apply/Z.ltb_ge; lia.
  have -> : (disc t x <? disc t y) = true by apply/Z.ltb_lt.
  rewrite andbF andbT orbF.
  have -> : (par t x == y) = false.
    apply/eqP => E; case: (ti_par Ht Hx) => [E1|[_ Hd _]].
      by have := tvis_range (ti_size Ht) Hy; lia.
    by move: Hd; rewrite E; lia.
  by rewrite /= eq_sym; case: (x == par t y).
move=> Ha Hb Hab.
have [Hlt|Hlt] : disc t a < disc t b \/ disc t b < disc t a.
- by have := ti_inj Ht Ha Hb; lia.
- exact: H.
- by rewrite addnC; apply: H.
Qed.

(** * Biconnected components: the claims *)

(** C10. On a graph that satisfies the adjacency invariant and whose
    adjacency lists hold no vertex twice, the call of [dfs] the loop of
    [BiconnectedComponents] makes on a root [u] returns with the stack of
    edges empty: the flush after it adds no component (the iteration ends
    in the state the call returned), because every child [c] of the root
    has [low[c] >= discovery[u]]. *)
Theorem bcc_root_stack_empty (g : Graph) (depth : nat) (u : Z) (s : BCCState) :
  adjacency_invariant g -> (forall x, uniq (adj g x)) ->
  (Z.to_nat (Vertices g) <= depth)%N ->
  0 <= u < Vertices g ->
  foldM (bcc_root g depth)
        (mkBCC (init_traversal (Z.to_nat (Vertices g))) [::] [::])
        (zrange u) = Ok s ->
  ~~ zget false (visited (bcc_tr s)) u ->
  exists s1,
    [/\ bcc_dfs g depth u s = Ok s1, stack s1 = [::],
        bcc_root g depth s u = Ok s1
      & forall c, tvis (bcc_tr s1) c -> par (bcc_tr s1) c = u ->
          lowv (bcc_tr s1) c >= disc (bcc_tr s1) u].
Proof.
move=> Hg Huniq Hd Hur E Hu.
have [|s' [E' Hi _ _]] := bcc_fold_spec (l := zrange u) Hg Huniq Hd (bcc_inv_init Hg).
  by move=> x /zrangeP; lia.
move: E; rewrite E' => -[Es]; subst s'.
case: (Hi) => -[Ht _ _ _] _ _; have Hs := ti_size Ht.
have Hu' : ~~ tvis (bcc_tr s) u by rewrite (tvis_zget Hs Hur).
have Hdu : (unmarked (visited (bcc_tr s)) <= depth)%N.
  apply: leq_trans Hd; apply: leq_trans (unmarked_size _) _.
  by case: Hs => Hv _ _ _; rewrite -Hv /zlen Nat2Z.id.
have [s1 E1] := bcc_dfs_total Hg (proj1 (and3_rect (fun a b c => conj a b) Hi)) Hur Hu' Hdu.
have [[[Ht1 _ _ _] _ _] Est Hle [Hu1 _] Hnew] := bcc_root_call Hg Huniq Hi Hur Hu' E1.
exists s1; split=> //.
  by rewrite /bcc_root Hu E1 /= bcc_flush_empty.
move=> c Hc Hpc.
apply: Z.le_ge.
case Hc0: (tvis (bcc_tr s) c).
  case: (Hle) => _ /(_ c Hc0)[_ Ep] _ _.
  case: (ti_par Ht Hc0) => [E0|[Hpu _ _]].
    by move: Ep; rewrite Hpc E0; lia.
  by move: Hpu Hu'; rewrite -Ep Hpc => ->.
by have [] := Hnew c (negbT Hc0) Hc.
Qed.

Lemma bcc_root_stack_empty_path4 :
  exists s1,
    [/\ bcc_dfs path4_graph 4 0 (mkBCC (init_traversal 4) [::] [::]) = Ok s1,
        stack s1 = [::],
        bcc_root path4_graph 4 (mkBCC (init_traversal 4) [::] [::]) 0 = Ok s1
      & forall c, tvis (bcc_tr s1) c -> par (bcc_tr s1) c = 0 ->
          lowv (bcc_tr s1) c >= disc (bcc_tr s1) 0].
Proof.
apply: (@bcc_root_stack_empty path4_graph 4 0 (mkBCC (init_traversal 4) [::] [::])).
- exact: (ReadGraph_invariant ReadGraph_path4).
- by move=> x; case: (ReadGraph_simple ReadGraph_path4 x).
- by [].
- by [].
- by [].
- by [].
Defined.

(** C3. For a graph loaded by [ReadGraph], [BiconnectedComponents]
    returns a list of components that partitions the edges: a pair of a
    component is an edge of the graph, and an edge between [a] and [b],
    counted in both orientations over all the components, occurs exactly
    once. *)
Theorem BiconnectedComponents_partition file g :
  ReadGraph file = Ok (inr g) ->
  exists comps,
    [/\ BiconnectedComponents g = Ok comps,
        forall a b, (a, b) \in flatten comps -> b \in adj g a
      & forall a b, b \in adj g a ->
          (count_mem (a, b) (flatten comps) + count_mem (b, a) (flatten comps) = 1)%N].
Proof.
move=> E; have Hg := ReadGraph_invariant E; have Hsim := ReadGraph_simple E.
have Huniq x : uniq (adj g x) by case: (Hsim x).
have [|s [Es Hi Hall _]] :=
  bcc_fold_spec (l := zrange (Vertices g)) Hg Huniq (leqnn _) (bcc_inv_init Hg).
  by move=> x /zrangeP.
case: (Hi) => -[Ht _ _ _] _ Hc.
exists (bcc s); split.
- rewrite /BiconnectedComponents /bcc_run Es.
  by have /Z.ltb_ge-> : 0 <= Vertices g by have := inv_pos Hg; lia.
- move=> a b; rewrite -has_pred1 has_count Hc /=.
  by case: (tvis _ a) => //=; case: (b \in adj g a).
- move=> a b Hab; have [Ha Hb] := edge_range Hg Hab.
  have Hba : a \in adj g b by apply: (inv_sym Hg).
  have Hne : a <> b by move=> Eab; case: (Hsim a) => _; move: Hab; rewrite Eab => ->.
  have Hva := Hall a (introT (zrangeP _ _) Ha).
  have Hvb := Hall b (introT (zrangeP _ _) Hb).
  by rewrite !Hc /= Hva Hvb Hab Hba /=; apply: (push_cond_once Ht).
Qed.

Lemma BiconnectedComponents_partition_path4 :
  exists comps,
    [/\ BiconnectedComponents path4_graph = Ok comps,
        forall a b, (a, b) \in flatten comps -> b \in adj path4_graph a
      & forall a b, b \in adj path4_graph a ->
          (count_mem (a, b) (flatten comps) + count_mem (b, a) (flatten comps) = 1)%N].
Proof. exact: (BiconnectedComponents_partition ReadGraph_path4). Defined.

(** * The depth of the native recursion *)

Section Totality.
Variable g : Graph.
Hypothesis Hg : adjacency_invariant g.
Let N := Vertices g.

Lemma unmarked_depth t d :
  sized N t -> (Z.to_nat N <= d)%N -> (unmarked (visited t) <= d)%N.
Proof.
move=> [Hv _ _ _] Hd; apply: leq_trans Hd; apply: leq_trans (unmarked_size _) _.
by rewrite -Hv /zlen Nat2Z.id.
Qed.

Lemma pend_root t u : idle t -> 0 <= u < N -> ~~ tvis t u -> pend g t u.
Proof. by move=> Hid Hur Hu; split=> //; [left; apply: Hid | move=> x Hx _; apply: Hid]. Qed.

Lemma ll_root_total strict d u t :
  tr_inv g t -> idle t -> 0 <= u < N -> ~~ tvis t u -> (Z.to_nat N <= d)%N ->
  exists t', [/\ ll_dfs g strict d u t = Ok t', tr_inv g t' & idle t'].
Proof.
move=> Ht Hid Hur Hu Hd.
have [t' E [Ht' Hid' _ _ _]] :=
  ll_dfs_basic Hg strict Ht (pend_root Hid Hur Hu) (unmarked_depth (ti_size Ht) Hd).
by exists t'.
Qed.

Lemma NltF : (N <? 0) = false.
Proof. by apply/Z.ltb_ge; have := inv_pos Hg; rewrite -/N; lia. Qed.

Lemma tr_inv_init : tr_inv g (init_traversal (Z.to_nat N)) /\ idle (init_traversal (Z.to_nat N)).
Proof. by case: (root_inv_init Hg). Qed.

Lemma apb_run_depth d : (Z.to_nat N <= d)%N -> exists s, apb_run g d = Ok s.
Proof.
move=> Hd; rewrite /apb_run -/N NltF.
set s0 := mkAPB _ _ _.
have : tr_inv g (apb_tr s0) /\ idle (apb_tr s0) by exact: tr_inv_init.
have : forall u, u \in zrange N -> 0 <= u < N by move=> u /zrangeP.
elim: (zrange N) s0 => [|u l IH] s Hl [Ht Hid]; first by exists s.
have Hur : 0 <= u < N by apply: Hl; rewrite inE eqxx.
have Hl' : forall x, x \in l -> 0 <= x < N by move=> x Hx; apply: Hl; rewrite inE Hx orbT.
rewrite /= -(tvis_zget (ti_size Ht) Hur).
case Hu: (tvis (apb_tr s) u) => /=; first exact: IH.
have [t' [E Ht' Hid']] := ll_root_total false Ht Hid Hur (negbT Hu) Hd.
move: (apb_dfs_ll g d u s); rewrite E; case: (apb_dfs g d u s) => //= s' [Es'].
by apply: IH => //; rewrite Es'.
Qed.

Lemma bcc_run_depth d : (Z.to_nat N <= d)%N -> exists s, bcc_run g d = Ok s.
Proof.
move=> Hd; rewrite /bcc_run -/N NltF.
set s0 := mkBCC _ _ _.
have : tr_inv g (bcc_tr s0) /\ idle (bcc_tr s0) by exact: tr_inv_init.
have : forall u, u \in zrange N -> 0 <= u < N by move=> u /zrangeP.
elim: (zrange N) s0 => [|u l IH] s Hl [Ht Hid]; first by exists s.
have Hur : 0 <= u < N by apply: Hl; rewrite inE eqxx.
have Hl' : forall x, x \in l -> 0 <= x < N by move=> x Hx; apply: Hl; rewrite inE Hx orbT.
rewrite /= /bcc_root -(tvis_zget (ti_size Ht) Hur).
case Hu: (tvis (bcc_tr s) u) => /=; first exact: IH.
have [t' [E Ht' Hid']] := ll_root_total true Ht Hid Hur (negbT Hu) Hd.
move: (bcc_dfs_ll g d u s); rewrite E; case: (bcc_dfs g d u s) => //= s' [Es'].
apply: IH => //; suff -> : bcc_tr (bcc_flush s') = t' by [].
by rewrite -Es' /bcc_flush; case: ifP.
Qed.

Lemma cc_run_depth d : (Z.to_nat N <= d)%N -> exists s, cc_run g d = Ok s.
Proof.
move=> Hd.
have [|V [comps [E _ _ _]]] := @cc_fold_spec g Hg d (zrange N) _ _ Hd (cc_inv_init Hg).
  by move=> u /zrangeP.
by exists (V, comps); rewrite /cc_run -/N NltF.
Qed.

End Totality.

(** C9, as the code has it.  The three analyses run their search as a
    closure [dfs] that calls itself: there is no work stack of frames.
    The nesting of the calls never exceeds the number of vertices: on a
    graph that satisfies the adjacency invariant, each analysis returns
    its result as soon as [Vertices] nested calls are available. *)
Theorem analyses_recursion_depth (g : Graph) (depth : nat) :
  adjacency_invariant g -> (Z.to_nat (Vertices g) <= depth)%N ->
  [/\ exists s, apb_run g depth = Ok s,
      exists s, bcc_run g depth = Ok s
    & exists s, cc_run g depth = Ok s].
Proof.
move=> Hg Hd; split.
- exact: apb_run_depth.
- exact: bcc_run_depth.
- exact: cc_run_depth.
Qed.

Lemma analyses_recursion_depth_path4 :
  [/\ exists s, apb_run path4_graph 4 = Ok s,
      exists s, bcc_run path4_graph 4 = Ok s
    & exists s, cc_run path4_graph 4 = Ok s].
Proof.
apply: (@analyses_recursion_depth path4_graph 4).
- exact: (ReadGraph_invariant ReadGraph_path4).
- by [].
Defined.

(** ** A path of any length *)

(** The neighbours of the vertex [i] on the path 0 - 1 - ... - (n-1), in
    the order in which [AddEdge] stores them when the edges are added from
    the left. *)
Definition path_adj (n i : Z) : seq Z :=
  (if 0 <? i then [:: i - 1] else [::]) ++ (if i + 1 <? n then [:: i + 1] else [::]).

Definition path_graph (n : nat) : Graph :=
  mkGraph (Z.of_nat n) [seq path_adj (Z.of_nat n) i | i <- zrange (Z.of_nat n)].

Lemma path_graph_len n : zlen (AdjList (path_graph n)) = Z.of_nat n.
Proof. by rewrite /zlen /= size_map size_zrange Nat2Z.id. Qed.

Lemma path_graph_get n u :
  0 <= u < Z.of_nat n ->
  zget [::] (AdjList (path_graph n)) u = path_adj (Z.of_nat n) u.
Proof.
move=> Hu; rewrite /zget /= /zrange Nat2Z.id -map_comp.
have Hlt : (Z.to_nat u < n)%N by apply/ltP; lia.
rewrite (nth_map 0%N) ?size_iota // nth_iota // add0n /=.
by rewrite Z2Nat.id //; case: Hu.
Qed.

Lemma path_graph_adj n u :
  adj (path_graph n) u = if (0 <=? u) && (u <? Z.of_nat n) then path_adj (Z.of_nat n) u else [::].
Proof.
rewrite /adj /inb path_graph_len; case: ifP => // /andP[/Z.leb_le H0 /Z.ltb_lt H1].
exact: path_graph_get.
Qed.

Lemma mem_path_adj n u v :
  (v \in path_adj n u) = ((0 <? u) && (v == u - 1)) || ((u + 1 <? n) && (v == u + 1)).
Proof.
by rewrite /path_adj mem_cat; case: (0 <? u); case: (u + 1 <? n); rewrite /= ?inE ?orbF.
Qed.

Lemma path_graph_invariant n : (0 < n)%N -> adjacency_invariant (path_graph n).
Proof.
move=> n0; split.
- by rewrite /=; move/ltP: n0; lia.
- exact: path_graph_len.
- move=> u v; rewrite !path_graph_adj.
  case: ifP => // /andP[/Z.leb_le Hu0 /Z.ltb_lt Hu1].
  rewrite !mem_path_adj => /orP[] /andP[H /eqP Ev]; subst v.
    move/Z.ltb_lt: H => H.
    have -> : (0 <=? u - 1) && (u - 1 <? Z.of_nat n).
      by apply/andP; split; [apply/Z.leb_le | apply/Z.ltb_lt]; lia.
    rewrite mem_path_adj; apply/orP; right; apply/andP.
    by split; [apply/Z.ltb_lt | apply/eqP]; lia.
  move/Z.ltb_lt: H => H.
  have -> : (0 <=? u + 1) && (u + 1 <? Z.of_nat n).
    by apply/andP; split; [apply/Z.leb_le | apply/Z.ltb_lt]; lia.
  rewrite mem_path_adj; apply/orP; left; apply/andP.
  by split; [apply/Z.ltb_lt | apply/eqP]; lia.
- move=> u v; rewrite path_graph_adj.
  case: ifP => // /andP[/Z.leb_le Hu0 /Z.ltb_lt Hu1].
  rewrite mem_path_adj => /orP[] /andP[H /eqP ->] /=.
    by move/Z.ltb_lt: H; lia.
  by move/Z.ltb_lt: H; lia.
Qed.

Lemma path_graph_simple n : simple_graph (path_graph n).
Proof.
move=> u; rewrite path_graph_adj; case: ifP => // _.
rewrite mem_path_adj /path_adj; split.
  case: (0 <? u); case: (u + 1 <? Z.of_nat n) => //=.
  by rewrite inE andbT; apply/eqP; lia.
by apply/negP => /orP[] /andP[_ /eqP]; lia.
Qed.

Lemma path_graph_4 : path_graph 4 = path4_graph.
Proof. by []. Qed.

(** ** The nesting of [dfs] on a path

    The traversals reach the vertex [u] of the path with exactly the
    vertices before [u] marked; the call at [u] then calls [dfs] at
    [u + 1], and so on to the end of the path. *)

Definition marked_below (n : nat) (V : seq bool) (u : Z) : Prop :=
  zlen V = Z.of_nat n /\
  forall x, 0 <= x < Z.of_nat n -> zget false V x = (x <? u).

Lemma marked_below_zset n V u :
  0 <= u < Z.of_nat n -> marked_below n V u -> marked_below n (zset V u true) (u + 1).
Proof.
move=> Hu [L H]; split; first by rewrite zlen_zset.
move=> x Hx; have Hin : inb V u by apply/inbP; rewrite L.
have Hx0 : 0 <= x by case: Hx.
rewrite (zget_zset _ _ Hin Hx0).
case: eqP => [->|Hne].
  by apply/esym/Z.ltb_lt; lia.
rewrite H //; apply/idP/idP => /Z.ltb_lt ?; apply/Z.ltb_lt; lia.
Qed.

Lemma marked_below_init n : marked_below n (nseq n false) 0.
Proof.
split; first by rewrite /zlen size_nseq.
by move=> x Hx; rewrite /zget nth_nseq if_same; apply/esym/Z.ltb_ge; lia.
Qed.

Lemma cc_dfs_path n d u s :
  marked_below n (cc_visited s) u -> 0 <= u -> u + Z.of_nat d < Z.of_nat n ->
  cc_dfs (path_graph n) d u s = DepthExceeded.
Proof.
elim: d u s => [|d IH] u s // Hm Hu0 Hud.
have Hu : 0 <= u < Z.of_nat n by lia.
have Hu1 : 0 <= u + 1 < Z.of_nat n by lia.
have [L HV] := Hm.
have Hin : inb (cc_visited s) u by apply/inbP; rewrite L.
have HA : inb (AdjList (path_graph n)) u by apply/inbP; rewrite path_graph_len.
rewrite [cc_dfs _ _ _ _]/= Hin HA /= path_graph_get // /path_adj.
have -> : (u + 1 <? Z.of_nat n) = true by apply/Z.ltb_lt; lia.
set s1 := mkCC _ _.
have Hm1 : marked_below n (cc_visited s1) (u + 1) by apply: marked_below_zset.
have [L1 HV1] := Hm1.
have Hnext : cc_scan (cc_dfs (path_graph n) d) [:: u + 1] s1 = DepthExceeded.
  have Hin1 : inb (cc_visited s1) (u + 1) by apply/inbP; rewrite L1.
  rewrite /= Hin1 /= HV1 // Z.ltb_irrefl /= IH //; lia.
case: Z.ltb_spec => H0 //=.
have Hin0 : inb (cc_visited s1) (u - 1) by apply/inbP; rewrite L1; lia.
have -> : zget false (zset (cc_visited s) u true) (u - 1) = true.
  by rewrite -/(cc_visited s1) HV1; lia.
by move: Hin0 Hnext; rewrite /= => -> /=.
Qed.

Lemma ll_scan_marked strict rec u v l t :
  inb (visited t) v -> zget false (visited t) v ->
  exists2 t1, visited t1 = visited t
            & ll_scan strict rec u (v :: l) t = ll_scan strict rec u l t1.
Proof.
move=> /= -> -> /=; case: ifP => _; last by exists t.
by exists (relax u (zget 0 (discovery t) v) t).
Qed.

Lemma ll_dfs_path n strict d u t :
  marked_below n (visited t) u -> 0 <= u -> u + Z.of_nat d < Z.of_nat n ->
  ll_dfs (path_graph n) strict d u t = DepthExceeded.
Proof.
elim: d u t => [|d IH] u t // Hm Hu0 Hud.
have Hu : 0 <= u < Z.of_nat n by lia.
have Hu1 : 0 <= u + 1 < Z.of_nat n by lia.
have [L HV] := Hm.
have Hin : inb (visited t) u by apply/inbP; rewrite L.
have HA : inb (AdjList (path_graph n)) u by apply/inbP; rewrite path_graph_len.
rewrite [ll_dfs _ _ _ _ _]/= Hin HA /= path_graph_get // /path_adj.
have -> : (u + 1 <? Z.of_nat n) = true by apply/Z.ltb_lt; lia.
have Hm1 : marked_below n (visited (visit u t)) (u + 1) by apply: marked_below_zset.
have Hnext t1 : visited t1 = visited (visit u t) ->
    ll_scan strict (ll_dfs (path_graph n) strict d) u [:: u + 1] t1 = DepthExceeded.
  move=> E1; have [L1 HV1] := Hm1; rewrite -E1 in L1 HV1 Hm1.
  have Hin1 : inb (visited t1) (u + 1) by apply/inbP; rewrite L1.
  rewrite /= Hin1 /= HV1 // Z.ltb_irrefl /= IH //; lia.
case: Z.ltb_spec => H0; last exact: (Hnext (visit u t)).
have [L1 HV1] := Hm1.
have Hin0 : inb (visited (visit u t)) (u - 1) by apply/inbP; rewrite L1; lia.
have Hv0 : zget false (visited (visit u t)) (u - 1).
  by rewrite HV1; try lia; apply/Z.ltb_lt; lia.
have [t1 E1 E] := ll_scan_marked strict (ll_dfs (path_graph n) strict d) u [:: u + 1] Hin0 Hv0.
by rewrite [_ ++ _]/= E; apply: Hnext.
Qed.

(** The loop over the roots of the low-link traversal. *)
Definition ll_run (g : Graph) (strict : bool) (depth : nat) : outcome Traversal :=
  if Vertices g <? 0 then Panic else
  foldM (fun t u => if ~~ zget false (visited t) u
                    then ll_dfs g strict depth u t else Ok t)
        (init_traversal (Z.to_nat (Vertices g))) (zrange (Vertices g)).

Lemma apb_run_ll g d : omap apb_tr (apb_run g d) = ll_run g false d.
Proof.
rewrite /apb_run /ll_run; case: ifP => // _.
set s0 := mkAPB _ _ _; rewrite -[init_traversal _]/(apb_tr s0).
elim: (zrange _) s0 => [|u l IH] s //=.
case: ifP => _ /=; last exact: IH.
rewrite -apb_dfs_ll; case: (apb_dfs g d u s) => //= s1; exact: IH.
Qed.

Lemma bcc_run_ll g d : omap bcc_tr (bcc_run g d) = ll_run g true d.
Proof.
rewrite /bcc_run /ll_run; case: ifP => // _.
set s0 := mkBCC _ _ _; rewrite -[init_traversal _]/(bcc_tr s0).
elim: (zrange _) s0 => [|u l IH] s //=.
rewrite /bcc_root; case: ifP => _ /=; last exact: IH.
rewrite -bcc_dfs_ll; case: (bcc_dfs g d u s) => //= s1; rewrite IH.
by rewrite /bcc_flush; case: ifP.
Qed.

Lemma zrange_succ n : zrange (Z.of_nat n.+1) = 0 :: [seq Z.of_nat k | k <- iota 1 n].
Proof. by rewrite /zrange Nat2Z.id. Qed.

Lemma cc_run_path n d : (d < n)%N -> cc_run (path_graph n) d = DepthExceeded.
Proof.
case: n => // n Hd; rewrite /cc_run.
have -> : (Vertices (path_graph n.+1) <? 0) = false by apply/Z.ltb_ge => /=; lia.
rewrite -[Vertices _]/(Z.of_nat n.+1) zrange_succ Nat2Z.id [foldM _ _ _]/= /cc_root /=.
rewrite cc_dfs_path //=; first exact: (marked_below_init n.+1).
by move/ltP: Hd; lia.
Qed.

Lemma ll_run_path n strict d : (d < n)%N -> ll_run (path_graph n) strict d = DepthExceeded.
Proof.
case: n => // n Hd; rewrite /ll_run.
have -> : (Vertices (path_graph n.+1) <? 0) = false by apply/Z.ltb_ge => /=; lia.
rewrite -[Vertices _]/(Z.of_nat n.+1) zrange_succ Nat2Z.id [foldM _ _ _]/=.
rewrite ll_dfs_path //=; first exact: (marked_below_init n.+1).
by move/ltP: Hd; lia.
Qed.

Lemma apb_run_path n d : (d < n)%N -> apb_run (path_graph n) d = DepthExceeded.
Proof.
by move=> Hd; have := apb_run_ll (path_graph n) d; rewrite ll_run_path //; case: (apb_run _ _).
Qed.

Lemma bcc_run_path n d : (d < n)%N -> bcc_run (path_graph n) d = DepthExceeded.
Proof.
by move=> Hd; have := bcc_run_ll (path_graph n) d; rewrite ll_run_path //; case: (bcc_run _ _).
Qed.

(** The nesting is not bounded independently of the graph.  On the path
    of [n] vertices the calls of [dfs] nest [n] deep: whatever number [d]
    of nested calls is available, each of the three analyses runs out of
    them on every path of more than [d] vertices.  The paths satisfy the
    adjacency invariant, and [NewGraph] and [AddEdge] build them (see
    [path_graph_built]). *)
Lemma analyses_depth_exceeded_path :
  [/\ forall n d, (d < n)%N -> apb_run (path_graph n) d = DepthExceeded,
      forall n d, (d < n)%N -> bcc_run (path_graph n) d = DepthExceeded,
      forall n d, (d < n)%N -> cc_run (path_graph n) d = DepthExceeded
    & forall n, (0 < n)%N -> adjacency_invariant (path_graph n)].
Proof.
split; [exact: apb_run_path | exact: bcc_run_path | exact: cc_run_path |].
exact: path_graph_invariant.
Qed.

(** ** The traversal: what the low-link values are *)

(** [low[x]] is at most the low-link value of every child of [x]. *)
Definition low_kids (t : Traversal) (x : Z) : Prop :=
  forall c, tvis t c -> par t c = x -> lowv t x <= lowv t c.

(** [low[x]] is at most the discovery time of every neighbour in [l],
    the parent apart. *)
Definition low_adj (t : Traversal) (x : Z) (l : seq Z) : Prop :=
  forall z, z \in l -> z <> par t x -> lowv t x <= disc t z.

Section LowSem.
Variable g : Graph.
Hypothesis Hg : adjacency_invariant g.
Variable strict : bool.
Let N := Vertices g.

(** [low[x]] is the discovery time of [x], the low-link value of a child,
    or the discovery time of a neighbour that is not the parent. *)
Definition low_wit (t : Traversal) (x : Z) : Prop :=
  [\/ lowv t x = disc t x,
      exists c, [/\ tvis t c, par t c = x & lowv t x = lowv t c]
    | exists z, [/\ z \in adj g x, z <> par t x, tvis t z & lowv t x = disc t z]].

Definition low_upto (t : Traversal) (x : Z) (l : seq Z) : Prop :=
  [/\ low_kids t x, low_adj t x l & low_wit t x].

(** The call of [dfs] on [x] has returned. *)
Definition fin (t : Traversal) (x : Z) : Prop := low_upto t x (adj g x).

Definition Q4 (v : Z) (t t' : Traversal) : Prop :=
  Q2 g v t t' /\ forall x, ~~ tvis t x -> tvis t' x -> fin t' x.

Definition I4 (u : Z) (t0 : Traversal) (l : seq Z) (t : Traversal) : Prop :=
  [/\ I2 g u t0 l t, low_upto t u l
    & forall x, ~~ tvis t0 x -> tvis t x -> x <> u -> fin t x].

Lemma low_upto_mono t t' x l :
  tr_le t t' -> tvis t x -> (forall z, z \in l -> tvis t z) ->
  lowv t' x = lowv t x ->
  (forall c, tvis t c -> par t c = x -> lowv t' c = lowv t c) ->
  (forall c, tvis t' c -> par t' c = x -> tvis t c) ->
  low_upto t x l -> low_upto t' x l.
Proof.
move=> [HV HD _ _] Hx Hl El Ec Hnc [Hk Ha Hw].
have [Edx Epx] := HD x Hx.
split.
- move=> c Hc' Epc'; have Hc := Hnc c Hc' Epc'.
  have [_ Epc] := HD c Hc; rewrite Epc' in Epc.
  by rewrite El (Ec c Hc (esym Epc)); apply: Hk.
- move=> z Hz; rewrite Epx => Hne; have Hzt := Hl z Hz.
  by have [-> _] := HD z Hzt; rewrite El; exact: Ha.
- case: Hw => [E|[c [Hc Epc E]]|[z [Hz Hne Hzt E]]].
  + by apply: Or31; rewrite El E Edx.
  + apply: Or32; exists c; have [_ Epc'] := HD c Hc.
    by split; [exact: HV | rewrite Epc' | rewrite El (Ec c Hc Epc)].
  + apply: Or33; exists z; have [Edz _] := HD z Hzt.
    by split=> //; [rewrite Epx | exact: HV | rewrite El Edz].
Qed.

(** The parent of the vertex [u] whose loop runs was marked before the
    call on [u]. *)
Lemma base_par_old u t0 t x :
  base g u t0 t -> ~~ tvis t0 x -> tvis t x -> par t u <> x.
Proof.
move=> Hb Hx0 Hx; have [_ _ Epu _ _] := base_vis Hb.
case: Hb => Ht0 [_ _ Hpu _] Ht _ _; rewrite Epu => E.
case: Hpu => [E1|[Hp _]]; last by rewrite E (negbTE Hx0) in Hp.
by have := tvis_range (ti_size Ht) Hx; rewrite -E E1; lia.
Qed.

Lemma I4_init u t : P2 g u t -> I4 u t [::] (visit u t).
Proof.
move=> HP; split; first exact: I2_init.
  case: HP => Ht [Hu Hur Hpu _] _ _; have Hs := ti_size Ht.
  split.
  - move=> c; rewrite (tvis_visit Hs) // => Hc Epc.
    have {}Epc : par t c = u by [].
    case/orP: Hc => [/eqP Ec|Hc].
      case: Hpu => [E1|[Hp _]]; first by move: Epc; rewrite Ec E1; lia.
      by move: Hp; rewrite -Ec Epc Ec (negbTE Hu).
    case: (ti_par Ht Hc) => [E1|[Hp _ _]]; first by move: E1; rewrite Epc; lia.
    by move: Hp; rewrite Epc (negbTE Hu).
  - by [].
  - by apply: Or31; rewrite (lowv_visit Hs) // (disc_visit Hs) // eqxx.
case: HP => Ht [Hu Hur _ _] _ _; have Hs := ti_size Ht.
by move=> x /negbTE Hx; rewrite (tvis_visit Hs) // Hx orbF => /eqP.
Qed.

(** A vertex marked by the call on [v] has [u] or a vertex marked by the
    call as its parent. *)
Lemma new_parent v t1 t' c :
  tr_inv g t1 -> ~~ tvis t1 v -> call_post g v t1 t' -> Q2 g v t1 t' ->
  ~~ tvis t1 c -> tvis t' c -> c = v \/ ~~ tvis t1 (par t' c).
Proof.
move=> Ht1 Hv [Ht' _ Hle' _ _] [_ _ Hnew'] Hc Hc'.
have [Hd _] := Hnew' c Hc Hc'.
case: (c =P v) => [|Hne]; [by left | right].
have [_ _ Hdp] := desc_parent Hd Hne.
exact: (desc_new Ht1 Ht' Hle' Hv Hdp).
Qed.

Lemma I4_tree u t0 l v t :
  base g u t0 t -> I4 u t0 l t -> (exists l', adj g u = rcons l v ++ l') ->
  ~~ tvis t v ->
  P2 g v (set_parent v u t) /\
  forall t', call_post g v (set_parent v u t) t' -> Q4 v (set_parent v u t) t' ->
             I4 u t0 (rcons l v) (relax u (lowv t' v) t').
Proof.
move=> Hb [HI2 [Hk Ha Hw] Hfin] Hex Hv.
have [HP2 Hnext] := I2_tree Hg Hb HI2 Hex Hv.
split=> // t' Hcp [HQ2 Hfin'].
have HI2' := Hnext t' Hcp HQ2.
have [Hu Edu Epu Hur Hmono] := base_vis Hb.
have Ht : tr_inv g t by case: Hb.
have Hs := ti_size Ht.
case: Hex => l' /(adj_rcons (g := g)) Hvu.
have Hvr : 0 <= v < N := inv_rng Hg Hvu.
have [Ht1 Hp1] := base_pre Hg Hb Hvu Hv.
have Hle1 : tr_le t (set_parent v u t) by apply: (@tr_le_set_parent g).
case: (Hcp) => Ht' Hid' Hle' [Hv' _ Epv _] Hfr0.
have Hfr x : tvis t x -> lowv t' x = lowv t x := Hfr0 x.
have {}Epv : par t' v = u by rewrite Epv (par_set_parent Hs) // eqxx.
have Hs' := ti_size Ht'.
have Hlet : tr_le t t' := tr_le_trans Hle1 Hle'.
have Hle3 : tr_le t' (relax u (lowv t' v) t') := tr_le_relax _ _ _.
have Hlet3 := tr_le_trans Hlet Hle3.
case: (Hlet) => HVt HDt _ _.
set t3 := relax u (lowv t' v) t'.
have Elow3 x : lowv t3 x = if x == u then min (lowv t' u) (lowv t' v) else lowv t' x.
  exact: (lowv_relax Hs').
have Ed3 x : disc t3 x = disc t' x by [].
have Ep3 x : par t3 x = par t' x by [].
have Ev3 x : tvis t3 x = tvis t' x by [].
have Hnewp c : ~~ tvis t c -> tvis t' c -> c = v \/ ~~ tvis t (par t' c).
  exact: (new_parent Ht1 Hv Hcp HQ2).
have Hvu_ne : v <> u by move=> E; rewrite E Hu in Hv.
have Hnu c : par t' c = u -> c <> u.
  move=> Epc Ec; have [_ Ep] := HDt u Hu.
  have E2 : par t u = u by rewrite -Ep -{1}Ec.
  case: (ti_par Ht Hu) => [E1|[_ Hlt _]]; first by move: E1; rewrite E2; lia.
  by move: Hlt; rewrite E2; lia.
have Hl : forall y, y \in l -> tvis t y by case: HI2.
have Hold : forall x, ~~ tvis t0 x -> tvis t x -> desc t u x /\ (x <> u -> closedv g t x).
  by case: HI2.
have Hnew' : forall x, ~~ tvis t x -> tvis t' x -> desc t' v x /\ closedv g t' x.
  by case: HQ2.
split=> //.
- split.
  + move=> c Hc Epc; have {Hc}Hc : tvis t' c by [].
    have {}Epc : par t' c = u by [].
    have Hcu := Hnu c Epc; rewrite !Elow3 eqxx; move/eqP/negbTE: (Hcu) => ->.
    have [H1 H2] := min_le (lowv t' u) (lowv t' v).
    case Hct: (tvis t c).
      have [_ Ep] := HDt c Hct; rewrite Epc in Ep.
      by have := Hk c Hct (esym Ep); have := Hfr c Hct; have := Hfr u Hu; lia.
    case: (Hnewp c (negbT Hct) Hc) => [->//|].
    by rewrite Epc Hu.
  + move=> z; rewrite mem_rcons inE Elow3 eqxx => Hz Hne.
    have {}Hne : z <> par t u by have [_ <-] := HDt u Hu.
    have [H1 H2] := min_le (lowv t' u) (lowv t' v).
    case/orP: Hz => [/eqP->|Hz].
      by have := ti_low Ht' Hv'; rewrite Ed3; lia.
    have Hzt := Hl z Hz; have [Edz _] := HDt z Hzt.
    by have := Ha z Hz Hne; have := Hfr u Hu; rewrite Ed3; lia.
  + case: (min_cases (lowv t' u) (lowv t' v)) => Em.
    * case: Hw => [E|[c [Hc Epc E]]|[z [Hz Hne Hzt E]]].
      - apply: Or31; rewrite Elow3 eqxx Em (Hfr u Hu) E.
        by have [Ed _] := HDt u Hu; rewrite Ed3 Ed.
      - apply: Or32; exists c; have [_ Epc'] := HDt c Hc.
        have Epc2 : par t' c = u by rewrite Epc'.
        split; [exact: HVt | exact: Epc2 |].
        rewrite !Elow3 eqxx; move/eqP/negbTE: (Hnu c Epc2) => ->.
        by rewrite Em (Hfr u Hu) (Hfr c Hc).
      - apply: Or33; exists z; have [Edz _] := HDt z Hzt.
        split=> //; [by have [_ Ep] := HDt u Hu; rewrite Ep3 Ep | exact: HVt |].
        by rewrite Elow3 eqxx Em (Hfr u Hu) E Ed3 Edz.
    * apply: Or32; exists v; split=> //.
      by rewrite !Elow3 eqxx Em; move/eqP/negbTE: Hvu_ne => ->.
- move=> x Hx0 Hx3 Hxu; have Hx' : tvis t' x by [].
  have Hpux : par t u <> x.
    by case Hxt: (tvis t x); [apply: (base_par_old Hb) | move=> E; case: (ti_par Ht Hu) => [E1|[Hp _ _]];
       [have := tvis_range Hs' Hx'; rewrite -E E1; lia | rewrite E Hxt in Hp]].
  have Hcu c : par t' c = x -> c <> u.
    by move=> Epc Ec; apply: Hpux; have [_ <-] := HDt u Hu; rewrite -Ec.
  have Elx c : c <> u -> lowv t3 c = lowv t' c.
    by move=> /eqP/negbTE Hc; rewrite Elow3 Hc.
  case Hxt: (tvis t x).
  + have [_ Hcl] := Hold x Hx0 Hxt.
    apply: (low_upto_mono Hlet3 Hxt (Hcl Hxu)) (Hfin x Hx0 Hxt Hxu).
    * by rewrite (Elx x Hxu) (Hfr x Hxt).
    * move=> c Hc Epc; have [_ Ep] := HDt c Hc.
      by rewrite (Elx c) ?(Hfr c Hc) //; apply: Hcu; rewrite Ep.
    * move=> c Hc Epc; have {Hc}Hc : tvis t' c by [].
      have {}Epc : par t' c = x by [].
      case Hct: (tvis t c) => //.
      case: (Hnewp c (negbT Hct) Hc) => [Ec|]; last by rewrite Epc Hxt.
      by case: Hxu; rewrite -Epc Ec.
  + have [_ Hcl] := Hnew' x (negbT Hxt) Hx'.
    apply: (low_upto_mono Hle3 Hx' Hcl) (Hfin' x (negbT Hxt) Hx').
    * exact: Elx.
    * by move=> c Hc Epc; apply: Elx; apply: Hcu.
    * by [].
Qed.

Lemma I4_back u t0 l v t :
  base g u t0 t -> I4 u t0 l t -> (exists l', adj g u = rcons l v ++ l') ->
  tvis t v -> I4 u t0 (rcons l v) (back strict u v t).
Proof.
move=> Hb [HI2 [Hk Ha Hw] Hfin] Hex Hv.
have HI2' := I2_back strict Hb HI2 Hex Hv.
have [Hu Edu Epu Hur Hmono] := base_vis Hb.
have Ht : tr_inv g t by case: Hb.
have Hs := ti_size Ht.
case: Hex => l' /(adj_rcons (g := g)) Hvu.
have Hl : forall y, y \in l -> tvis t y by case: HI2.
have Hold : forall x, ~~ tvis t0 x -> tvis t x -> desc t u x /\ (x <> u -> closedv g t x).
  by case: HI2.
have Hnu c : tvis t c -> par t c = u -> c <> u.
  move=> Hc Epc Ec; case: (ti_par Ht Hc) => [E1|[_ Hlt _]].
    by move: E1; rewrite Epc; lia.
  by move: Hlt; rewrite Epc Ec; lia.
split=> //.
- rewrite /back; case: ifP => Hcond; last first.
    split=> // z; rewrite mem_rcons inE => /orP[/eqP->|Hz] Hne; last exact: Ha.
    move: Hcond; have /eqP/negbTE-> /= : v <> par t u by [].
    case: strict => //= /Z.ltb_ge Hge.
    by have := ti_low Ht Hu; lia.
  set tb := relax u (disc t v) t.
  have Elow x : lowv tb x = if x == u then min (lowv t u) (disc t v) else lowv t x.
    exact: (lowv_relax Hs).
  have [H1 H2] := min_le (lowv t u) (disc t v).
  split.
  + move=> c Hc Epc; have {Hc}Hc : tvis t c by [].
    have {}Epc : par t c = u by [].
    rewrite !Elow eqxx; move/eqP/negbTE: (Hnu c Hc Epc) => ->.
    by have := Hk c Hc Epc; lia.
  + move=> z; rewrite mem_rcons inE Elow eqxx => Hz Hne.
    have {}Hne : z <> par t u by [].
    have Edb y : disc tb y = disc t y by [].
    case/orP: Hz => [/eqP->|Hz]; first by rewrite Edb; lia.
    by have := Ha z Hz Hne; rewrite Edb; lia.
  + case: (min_cases (lowv t u) (disc t v)) => Em.
    * case: Hw => [E|[c [Hc Epc E]]|[z [Hz Hne Hzt E]]].
      - by apply: Or31; rewrite Elow eqxx Em E.
      - apply: Or32; exists c; split=> //.
        by rewrite !Elow eqxx Em; move/eqP/negbTE: (Hnu c Hc Epc) => ->.
      - by apply: Or33; exists z; split=> //; rewrite Elow eqxx Em.
    * apply: Or33; exists v; split=> //; last by rewrite Elow eqxx Em.
      by case/andP: Hcond => /eqP.
- move=> x Hx0 Hxb Hxu.
  have Hx : tvis t x by move: Hxb; rewrite /back; case: ifP.
  have [_ Hcl] := Hold x Hx0 Hx.
  have Hpux := base_par_old Hb Hx0 Hx.
  have Elx c : c <> u -> lowv (back strict u v t) c = lowv t c.
    move=> /eqP/negbTE Hc; rewrite /back; case: ifP => // _.
    by rewrite (lowv_relax Hs) // Hc.
  apply: (low_upto_mono (tr_le_back strict u v t) Hx (Hcl Hxu)) (Hfin x Hx0 Hx Hxu).
  + exact: Elx.
  + by move=> c Hc Epc; apply: Elx => Ec; apply: Hpux; rewrite -Ec.
  + by move=> c; rewrite /back; case: ifP.
Qed.

Lemma Q4_exit u t0 t :
  base g u t0 t -> call_post g u t0 t -> I4 u t0 (adj g u) t -> Q4 u t0 t.
Proof.
move=> Hb Hcp [HI2 Hu Hfin]; split; first exact: Q2_exit Hb Hcp HI2.
by move=> x Hx0 Hx; case: (x =P u) => [->//|]; apply: Hfin.
Qed.

Theorem ll_dfs_low d u t t' :
  P2 g u t -> ll_dfs g strict d u t = Ok t' -> call_post g u t t' /\ Q4 u t t'.
Proof.
apply: (ll_dfs_rule Hg (P := P2 g) (Q := Q4) (I := I4)).
- by move=> v t1 [].
- exact: I4_init.
- exact: I4_tree.
- exact: I4_back.
- exact: Q4_exit.
Qed.

End LowSem.

(** * Articulation points and bridges: what [dfs] records *)

Lemma mark_ap_tr u s : apb_tr (mark_ap u s) = apb_tr s.
Proof. by rewrite /mark_ap; case: ifP. Qed.

Lemma mark_ap_br u s : br (mark_ap u s) = br s.
Proof. by rewrite /mark_ap; case: ifP. Qed.

Lemma mem_mark_ap u s x : (x \in ap (mark_ap u s)) = (x == u) || (x \in ap s).
Proof.
rewrite /mark_ap; case: ifP => [Hu|_] /=; last by rewrite mem_rcons inE.
by case: eqP => // ->; rewrite Hu.
Qed.

(** What the loop of [dfs] on [u] does when the call on the child [v]
    has returned in [s]; [children] is the counter, already incremented. *)
Definition apb_ret (u v children : Z) (s : APBState) : APBState :=
  let t := relax u (zget 0 (low (apb_tr s)) v) (apb_tr s) in
  let s := mkAPB t (ap s) (br s) in
  let s := if (zget 0 (parent t) u == -1) && (children >? 1)
           then mark_ap u s else s in
  let s := if (zget 0 (parent t) u != -1)
              && (zget 0 (low t) v >=? zget 0 (discovery t) u)
           then mark_ap u s else s in
  if zget 0 (low t) v >? zget 0 (discovery t) u
  then mkAPB (apb_tr s) (ap s) (rcons (br s) (u, v)) else s.

Lemma apb_scan_cons rec u v l children s :
  apb_scan rec u (v :: l) children s =
  if ~~ inb (visited (apb_tr s)) v then Panic else
  if ~~ zget false (visited (apb_tr s)) v then
    rec v (mkAPB (set_parent v u (apb_tr s)) (ap s) (br s)) >>= fun s' =>
    apb_scan rec u l (children + 1) (apb_ret u v (children + 1) s')
  else if v != zget 0 (parent (apb_tr s)) u then
    apb_scan rec u l children
      (mkAPB (relax u (zget 0 (discovery (apb_tr s)) v) (apb_tr s)) (ap s) (br s))
  else apb_scan rec u l children s.
Proof. by []. Qed.

(** The tree edge to [e.2] is a bridge: the test of [dfs] on the final
    values. *)
Definition bridge_at (t : Traversal) (e : Z * Z) : bool :=
  [&& tvis t e.1, tvis t e.2, par t e.2 == e.1 & disc t e.1 <? lowv t e.2].

(** The tests of [dfs] for an articulation point, over the neighbours
    [l] of [x]. *)
Definition art_upto (t : Traversal) (x : Z) (l : seq Z) : bool :=
  if par t x == -1 then (1 < count (fun c => par t c == x) l)%N
  else has (fun c => (par t c == x) && (disc t x <=? lowv t c)) l.

Section APBDefs.
Variable g : Graph.
Hypothesis Hg : adjacency_invariant g.
Let N := Vertices g.

Definition art (t : Traversal) (x : Z) : bool := art_upto t x (adj g x).

Lemma apb_ret_spec u v children s :
  sized N (apb_tr s) -> 0 <= u < N -> 0 <= v < N ->
  let t3 := relax u (lowv (apb_tr s) v) (apb_tr s) in
  let s3 := apb_ret u v children s in
  [/\ apb_tr s3 = t3,
      forall x, (x \in ap s3) = (x \in ap s) ||
        ((x == u) && (((par t3 u == -1) && (1 <? children))
                      || ((par t3 u != -1) && (disc t3 u <=? lowv t3 v))))
    & forall e, (e \in br s3) = (e \in br s) ||
        ((e == (u, v)) && (disc t3 u <? lowv t3 v))].
Proof.
move=> Hs Hur Hvr t3 s3.
have [_ _ Hilv _] := sized_inb Hs Hvr.
have Hs3 : sized N t3 := sized_relax Hs u _.
have [_ Hidu3 _ Hipu3] := sized_inb Hs3 Hur.
have [_ _ Hilv3 _] := sized_inb Hs3 Hvr.
rewrite /s3 /apb_ret (zget_getd 0 0 Hilv) -/(lowv _ v) -/t3.
rewrite (zget_getd (-1) 0 Hipu3) (zget_getd 0 0 Hidu3) (zget_getd 0 0 Hilv3).
rewrite -/(par t3 u) -/(disc t3 u) -/(lowv t3 v).
rewrite Z.gtb_ltb Z.geb_leb Z.gtb_ltb.
case: (par t3 u == -1) => /=; case: (1 <? children) => /=;
  case: (disc t3 u <=? lowv t3 v) => /=; case: (disc t3 u <? lowv t3 v) => /=;
  rewrite ?mark_ap_tr ?mark_ap_br /=; split=> // x;
  rewrite ?mem_mark_ap ?mem_rcons ?inE /= ?andbT ?andbF ?orbF //; by rewrite orbC.
Qed.

End APBDefs.

Section APBSteps.
Variable g : Graph.
Hypothesis Hg : adjacency_invariant g.
Let N := Vertices g.

Lemma bridge_at_relax t u a e :
  sized N t -> 0 <= u < N -> e.2 <> u ->
  bridge_at (relax u a t) e = bridge_at t e.
Proof.
move=> Hs Hur /eqP/negbTE Hne; rewrite /bridge_at (lowv_relax Hs) // Hne.
by [].
Qed.

Lemma art_upto_relax t u a x l :
  sized N t -> 0 <= u < N -> par t u <> x ->
  art_upto (relax u a t) x l = art_upto t x l.
Proof.
move=> Hs Hur /eqP/negbTE Hne; rewrite /art_upto.
have Ep c : par (relax u a t) c = par t c by [].
have Ed c : disc (relax u a t) c = disc t c by [].
rewrite Ep; congr (if _ then _ else _).
apply: eq_has => c; rewrite Ep Ed (lowv_relax Hs) //.
by case: (c =P u) => [->|//]; rewrite Hne.
Qed.

Lemma art_upto_le t t' x l :
  tr_le t t' -> tvis t x -> (forall c, c \in l -> tvis t c) ->
  (forall c, tvis t c -> par t c = x -> lowv t' c = lowv t c) ->
  art_upto t' x l = art_upto t x l.
Proof.
move=> [_ HD _ _] Hx Hl Hlow; rewrite /art_upto.
have [Edx ->] := HD x Hx; congr (if _ then _ else _).
  congr (_ < _)%N; apply: eq_in_count => c /Hl Hc.
  by have [_ ->] := HD c Hc.
apply: eq_in_has => c /Hl Hc; have [_ ->] := HD c Hc; rewrite Edx.
by case: eqP => //= /(Hlow c Hc) ->.
Qed.

Lemma bridge_at_le t t' e :
  tr_inv g t -> sized N t' -> tr_le t t' -> tvis t e.2 ->
  lowv t' e.2 = lowv t e.2 ->
  bridge_at t' e = bridge_at t e.
Proof.
move=> Ht Hs' [HV HD _ _] H2 El; rewrite /bridge_at El.
have [_ ->] := HD _ H2; rewrite H2 (HV _ H2) /=.
case H1: (tvis t e.1); first by have [-> _] := HD _ H1; rewrite (HV _ H1).
rewrite /=; case: eqP => [E|_]; last by rewrite andbF.
case: (ti_par Ht H2) => [E1|[]]; last by rewrite E H1.
case H1': (tvis t' e.1) => //.
by have := tvis_range Hs' H1'; rewrite -E E1; lia.
Qed.

End APBSteps.

Section APBTheory.
Variable g : Graph.
Hypothesis Hg : adjacency_invariant g.
Hypothesis Huniq : forall u, uniq (adj g u).
Let N := Vertices g.

Definition PA (v : Z) (s : APBState) : Prop := P2 g v (apb_tr s).

(** What a call of [dfs] on [v] adds to [ap] and [br]: the vertices it
    marked that pass the test, and the bridges below [v]. *)
Definition QA (v : Z) (s s' : APBState) : Prop :=
  [/\ call_post g v (apb_tr s) (apb_tr s'),
      Q4 g v (apb_tr s) (apb_tr s'),
      forall x, (x \in ap s') =
        (x \in ap s) || (newv (apb_tr s) (apb_tr s') x && art g (apb_tr s') x)
    & forall e, (e \in br s') =
        (e \in br s) ||
        [&& newv (apb_tr s) (apb_tr s') e.2, e.2 != v & bridge_at (apb_tr s') e]].

Definition IA (u : Z) (s0 : APBState) (l : seq Z) (children : Z) (s : APBState)
  : Prop :=
  [/\ base g u (apb_tr s0) (apb_tr s) /\ I4 g u (apb_tr s0) l (apb_tr s),
      children = Z.of_nat (count (fun c => par (apb_tr s) c == u) l)
      /\ (forall c, tvis (apb_tr s) c -> par (apb_tr s) c = u -> c \in l),
      forall x, (x \in ap s) =
        (x \in ap s0) || (newv (apb_tr s0) (apb_tr s) x &&
           (if x == u then art_upto (apb_tr s) u l else art g (apb_tr s) x))
    & forall e, (e \in br s) =
        (e \in br s0) ||
        [&& newv (apb_tr s0) (apb_tr s) e.2, e.2 != u & bridge_at (apb_tr s) e]].

Lemma IA_ext u s0 l children s s' :
  apb_tr s' = apb_tr s -> ap s' = ap s -> br s' = br s ->
  IA u s0 l children s -> IA u s0 l children s'.
Proof. by rewrite /IA => -> -> ->. Qed.

Lemma IA_init u s0 :
  PA u s0 -> IA u s0 [::] 0 (mkAPB (visit u (apb_tr s0)) (ap s0) (br s0)).
Proof.
move=> HP; have HI4 := I4_init Hg HP.
case: HP => Ht Hp _ _; case: (Hp) => Hu Hur Hpu _.
have Hs := ti_size Ht; set t0 := apb_tr s0 in HI4 Ht Hp Hu Hpu Hs *.
have Hvis x : tvis (visit u t0) x = (x == u) || tvis t0 x := tvis_visit Hs x Hur.
split=> //=.
- by split=> //; exact: base_init.
- split=> // c; rewrite Hvis /par /= -/(par t0 c) => /orP[/eqP->|Hc] Ec.
    case: Hpu => [|[Hpv _]]; first by rewrite Ec; lia.
    by rewrite Ec (negbTE Hu) in Hpv.
  case: (ti_par Ht Hc) => [|[Hpv _ _]]; first by rewrite Ec; lia.
  by rewrite Ec (negbTE Hu) in Hpv.
- move=> x; rewrite /newv Hvis; case: (x =P u) => [->|_] /=.
    by rewrite /art_upto /=; case: ifP; rewrite andbF orbF.
  by case: (tvis t0 x); rewrite /= ?orbF.
- move=> e; rewrite /newv Hvis; case: (e.2 =P u) => [->|_] /=.
    by rewrite andbF orbF.
  by case: (tvis t0 e.2); rewrite /= ?orbF.
Qed.

Lemma QA_exit u s0 children s :
  call_post g u (apb_tr s0) (apb_tr s) -> Q4 g u (apb_tr s0) (apb_tr s) ->
  IA u s0 (adj g u) children s -> QA u s0 s.
Proof.
move=> Hc HQ4 [[Hb HI4] _ Hap Hbr]; split=> // x.
by rewrite Hap; case: eqP => // ->.
Qed.

Lemma IA_tree u s0 l children v s :
  IA u s0 l children s -> (exists l', adj g u = rcons l v ++ l') ->
  ~~ tvis (apb_tr s) v ->
  let s1 := mkAPB (set_parent v u (apb_tr s)) (ap s) (br s) in
  PA v s1 /\
  forall s2, QA v s1 s2 ->
    IA u s0 (rcons l v) (children + 1) (apb_ret u v (children + 1) s2).
Proof.
move=> [[Hb HI4] [Ech Hkids] Hap Hbr] Hex Hv s1.
set t := apb_tr s in Hb HI4 Ech Hkids Hap Hbr Hv s1 *.
set t0 := apb_tr s0 in Hb HI4 Hap Hbr *.
have [HP2 Hnext4] := I4_tree Hg Hb HI4 Hex Hv.
split=> // s2 [Hc HQ4 Hap2 Hbr2].
set t1 := set_parent v u t in HP2 Hnext4 Hc HQ4 Hap2 Hbr2.
set t2 := apb_tr s2 in Hc HQ4 Hap2 Hbr2 *.
have HI4' := Hnext4 t2 Hc HQ4.
have [l' Hadj] := Hex; have Hvu := adj_rcons Hadj.
have Hb' := base_tree Hg Hb Hvu Hv Hc.
have [Hu Edu Epu Hur Hmono] := base_vis Hb.
have Ht : tr_inv g t by case: Hb.
have Hu0 : ~~ tvis t0 u by case: Hb => _ [].
have Hs := ti_size Ht.
have Hvr : 0 <= v < N := inv_rng Hg Hvu.
have [Ht1 Hp1] := base_pre Hg Hb Hvu Hv.
have Hle1 : tr_le t t1 by apply: (@tr_le_set_parent g).
case: (Hc) => Ht2 Hid2 Hle12 [Hv2 _ Epv _] Hfr0.
have Hfr x : tvis t x -> lowv t2 x = lowv t x := Hfr0 x.
have {}Epv : par t2 v = u by rewrite Epv (par_set_parent Hs) // eqxx.
have Hs2 := ti_size Ht2.
have Hlet : tr_le t t2 := tr_le_trans Hle1 Hle12.
case: (Hlet) => HVt HDt _ _.
have [] := @apb_ret_spec g u v (children + 1) s2 Hs2 Hur Hvr.
rewrite -/t2; set t3 := relax u (lowv t2 v) t2 in Hb' HI4' *.
move=> Etr Hap3 Hbr3.
have Elow3 x : lowv t3 x = if x == u then min (lowv t2 u) (lowv t2 v) else lowv t2 x.
  exact: (lowv_relax Hs2).
have Ed3 x : disc t3 x = disc t2 x by [].
have Ep3 x : par t3 x = par t2 x by [].
have Ev3 x : tvis t3 x = tvis t2 x by [].
have Ev1 x : tvis t1 x = tvis t x by [].
have HQ2 : Q2 g v t1 t2 by case: HQ4.
have Hnewp c : ~~ tvis t c -> tvis t2 c -> c = v \/ ~~ tvis t (par t2 c).
  exact: (new_parent Ht1 Hv Hc HQ2).
have Hvu_ne : (v == u) = false by apply/eqP => E; rewrite E Hu in Hv.
have Hpuu : par t u <> u.
  move=> E2; case: (ti_par Ht Hu) => [E1|[_ Hlt _]]; first by move: E1; rewrite E2; lia.
  by move: Hlt; rewrite E2; lia.
have Ep2u : par t2 u = par t u by have [_ ->] := HDt u Hu.
have Hl : forall y, y \in l -> tvis t y by case: HI4 => -[].
have Hold : forall x, ~~ tvis t0 x -> tvis t x -> desc t u x /\ (x <> u -> closedv g t x).
  by case: HI4 => -[].
have Hnl : v \notin l by apply/negP => /Hl; rewrite (negbTE Hv).
have Ecnt : count (fun c => par t3 c == u) (rcons l v)
            = (count (fun c => par t c == u) l + 1)%N.
  rewrite -cats1 count_cat /= Ep3 Epv eqxx; congr (_ + _)%N.
  by apply: eq_in_count => c /Hl Hc'; rewrite Ep3; have [_ ->] := HDt c Hc'.
have Hkid_low c : tvis t c -> par t c = u -> lowv t3 c = lowv t c.
  move=> Hc' Epc; rewrite Elow3 (Hfr c Hc').
  by case: eqP => // Ec; case: Hpuu; rewrite -{1}Ec.
have Epar_x x : ~~ tvis t0 x -> tvis t2 x -> par t2 u <> x.
  move=> Hx0 Hx2; rewrite Ep2u; case Hxt: (tvis t x).
    exact: (base_par_old Hb).
  move=> E; case: (ti_par Ht Hu) => [E1|[Hp _ _]]; last by rewrite E Hxt in Hp.
  by have := tvis_range Hs2 Hx2; rewrite -E E1; lia.
have Hnot0 x : ~~ tvis t x -> ~~ tvis t0 x.
  by apply: contra; apply: Hmono.
have Eart3 x : ~~ tvis t0 x -> tvis t2 x -> art g t3 x = art g t2 x.
  by move=> Hx0 Hx2; apply: (art_upto_relax _ _ Hs2 Hur); apply: Epar_x.
have Ebr3 e : e.2 <> u -> bridge_at t3 e = bridge_at t2 e.
  by move=> H; apply: (bridge_at_relax _ Hs2 Hur).
split.
- by rewrite Etr.
- rewrite Etr; split.
    by rewrite Ecnt Nat2Z.inj_add -Ech.
  move=> c Hc' Epc; have {Hc'}Hc' : tvis t2 c by [].
  have {}Epc : par t2 c = u by [].
  rewrite mem_rcons inE; case Hct: (tvis t c).
    have [_ Ep] := HDt c Hct; rewrite Epc in Ep.
    by rewrite (Hkids c Hct (esym Ep)) orbT.
  case: (Hnewp c (negbT Hct) Hc') => [->|]; first by rewrite eqxx.
  by rewrite Epc Hu.
- move=> x; rewrite Hap3 Hap2 /= Hap Etr -/t -/t0 -/t1 -/t2.
  case: (x =P u) => [->|Hxu] /=.
    have -> : newv t1 t2 u = false by rewrite /newv Ev1 Hu.
    have -> : newv t0 t u = true by rewrite /newv Hu0 Hu.
    have -> : newv t0 t3 u = true by rewrite /newv Hu0 Ev3 (HVt u Hu).
    rewrite /= orbF -orbA; congr (_ || _).
    rewrite /art_upto Ep3 Ep2u Ecnt Ech.
    case: (par t u == -1) => /=.
      rewrite orbF; set n := count _ l.
      have -> : (1 <? Z.of_nat n + 1) = (0 < n)%N.
        by case: Z.ltb_spec; case: n => [|n] //=; lia.
      by case: n => [|[|n]].
    rewrite has_rcons Ep3 Epv eqxx [LHS]orbC; congr (_ || _).
    apply: eq_in_has => c /Hl Hc'; have [_ Epc] := HDt c Hc'.
    rewrite Ep3 Epc Ed3; have [-> _] := HDt u Hu.
    by case: eqP => //= /(Hkid_low c Hc') ->.
  rewrite orbF -orbA; congr (_ || _).
  case Hxt: (tvis t x).
    have -> : newv t1 t2 x = false by rewrite /newv Ev1 Hxt.
    rewrite orbF /newv Hxt Ev3 (HVt x Hxt) !andbT.
    case Hx0: (tvis t0 x) => //=.
    have [_ Hcl] := Hold x (negbT Hx0) Hxt.
    rewrite (Eart3 x (negbT Hx0) (HVt x Hxt)).
    rewrite /art (art_upto_le Hlet Hxt (Hcl Hxu)) // => c Hc' _.
    exact: Hfr.
  rewrite /newv Hxt andbF /= Ev1 Hxt /= Ev3 (negbTE (Hnot0 x (negbT Hxt))) /=.
  case Hx2: (tvis t2 x) => //=.
  by rewrite (Eart3 x (Hnot0 x (negbT Hxt)) Hx2).
- case=> a c; rewrite Hbr3 Hbr2 /= Hbr Etr -/t -/t0 -/t1 -/t2 /=.
  rewrite -!orbA; congr (_ || _).
  case Hct: (tvis t c).
    have -> : newv t1 t2 c = false by rewrite /newv Ev1 Hct.
    have -> : ((a, c) == (u, v)) = false.
      by rewrite xpair_eqE; case: (c =P v) Hct Hv => [-> ->|]; rewrite ?andbF.
    rewrite /= orbF /newv Hct Ev3 (HVt c Hct) !andbT.
    case: (c =P u) => [_|Hcu]; first by rewrite !andbF.
    rewrite Ebr3 //.
    by rewrite (bridge_at_le Ht Hs2 Hlet) //; apply: Hfr.
  rewrite /newv Hct andbF /= Ev1 Hct /= Ev3 (negbTE (Hnot0 c (negbT Hct))) /=.
  have Hcu : c <> u by move=> E; rewrite E Hu in Hct.
  rewrite Ebr3 //.
  move/eqP/negbTE: (Hcu) => ->; rewrite /= xpair_eqE.
  case: (c =P v) => [->|_] /=; last by rewrite andbF orbF.
  rewrite /bridge_at /= Hv2 Epv /= andbT [u == a]eq_sym.
  case: (a =P u) => [->|_] /=; last by rewrite andbF.
  by rewrite (HVt u Hu) Ed3 Elow3 Hvu_ne.
Qed.

Lemma IA_back u s0 l children v s :
  IA u s0 l children s -> (exists l', adj g u = rcons l v ++ l') ->
  tvis (apb_tr s) v ->
  IA u s0 (rcons l v) children
     (mkAPB (back false u v (apb_tr s)) (ap s) (br s)).
Proof.
move=> [[Hb HI4] [Ech Hkids] Hap Hbr] Hex Hv.
have HI4' := I4_back false Hb HI4 Hex Hv.
have Hb' := base_back false v Hb.
set t := apb_tr s in Hb HI4 Ech Hkids Hap Hbr Hv HI4' Hb' *.
set t0 := apb_tr s0 in Hb HI4 Hap Hbr HI4' Hb' *.
have [l' Hadj] := Hex; have Hvu := adj_rcons Hadj.
have [Hu Edu Epu Hur Hmono] := base_vis Hb.
have Ht : tr_inv g t by case: Hb.
have Hs := ti_size Ht.
have Hnl : v \notin l.
  by have := Huniq u; rewrite Hadj cat_uniq rcons_uniq => /andP[/andP[]].
have Hpv : (par t v == u) = false.
  by apply/eqP => /(Hkids v Hv); rewrite (negbTE Hnl).
have Hpuu : par t u <> u.
  move=> E2; case: (ti_par Ht Hu) => [E1|[_ Hlt _]]; first by move: E1; rewrite E2; lia.
  by move: Hlt; rewrite E2; lia.
set tb := back false u v t in HI4' Hb' *.
have Epb x : par tb x = par t x by rewrite /tb /back; case: ifP.
have Evb x : tvis tb x = tvis t x by rewrite /tb /back; case: ifP.
have Eartb x l1 : par t u <> x -> art_upto tb x l1 = art_upto t x l1.
  by move=> H; rewrite /tb /back; case: ifP => // _; apply: (art_upto_relax _ _ Hs Hur).
have Ebrb e : e.2 <> u -> bridge_at tb e = bridge_at t e.
  by move=> H; rewrite /tb /back; case: ifP => // _; apply: (bridge_at_relax _ Hs Hur).
have Ecnt : count (fun c => par tb c == u) (rcons l v)
            = count (fun c => par t c == u) l.
  rewrite -cats1 count_cat /= Epb Hpv !addn0.
  by apply: eq_count => c; rewrite Epb.
split=> //=.
- by rewrite -/tb Ecnt; split=> // c; rewrite Evb Epb mem_rcons inE => Hc /(Hkids c Hc) ->; rewrite orbT.
- move=> x; rewrite Hap -/tb -/t0; congr (_ || _).
  have -> : newv t0 tb x = newv t0 t x by rewrite /newv Evb.
  case Hn: (newv t0 t x) => //=.
  case: (x =P u) => [_|Hxu]; last first.
    case/andP: Hn => Hx0 Hx.
    by rewrite /art Eartb //; apply: (base_par_old Hb).
  rewrite (Eartb u (rcons l v) Hpuu) /art_upto; case: ifP => _.
    by rewrite -cats1 count_cat /= Hpv !addn0.
  by rewrite has_rcons Hpv.
- move=> e; rewrite Hbr -/tb -/t0; congr (_ || _).
  have -> : newv t0 tb e.2 = newv t0 t e.2 by rewrite /newv Evb.
  by case: (e.2 =P u) => [_|/Ebrb ->] //=; rewrite !andbF.
Qed.

Lemma apb_scan_spec rec :
  (forall v s s', PA v s -> rec v s = Ok s' -> QA v s s') ->
  forall u s0 l2 l1 children s s',
    adj g u = l1 ++ l2 -> IA u s0 l1 children s ->
    apb_scan rec u l2 children s = Ok s' ->
    exists children', IA u s0 (adj g u) children' s'.
Proof.
move=> Hrec u s0; elim=> [|v l2 IH] l1 children s s' Hadj HI.
  by rewrite cats0 in Hadj; rewrite Hadj => -[<-]; exists children.
have Hadj' : adj g u = rcons l1 v ++ l2 by rewrite cat_rcons.
have Hex : exists l', adj g u = rcons l1 v ++ l' by exists l2.
have Hvu := adj_rcons Hadj'.
have Hvr : 0 <= v < N := inv_rng Hg Hvu.
case: (HI) => -[Hb _] _ _ _.
have [Hu _ _ Hur _] := base_vis Hb.
have Ht : tr_inv g (apb_tr s) by case: Hb.
have Hs := ti_size Ht.
have [Hiv Hidv _ _] := sized_inb Hs Hvr.
have [_ Hidu _ Hipu] := sized_inb Hs Hur.
have Evis : zget false (visited (apb_tr s)) v = tvis (apb_tr s) v.
  by rewrite /tvis /vis Hiv.
rewrite apb_scan_cons Hiv /= Evis; case Hv: (tvis (apb_tr s) v) => /=.
- rewrite (zget_getd 0 0 Hidv) (zget_getd (-1) 0 Hipu).
  rewrite -/(disc _ v) -/(par _ u) => E.
  have HI' := IA_back HI Hex Hv.
  move: E HI'; rewrite /back /= andbT; case: ifP => _ E HI'.
    exact: (IH _ _ _ _ Hadj' HI' E).
  apply: (IH _ _ _ _ Hadj' _ E).
  exact: IA_ext HI'.
- have Hnv : ~~ tvis (apb_tr s) v by rewrite Hv.
  have [HPv Hnext] := IA_tree HI Hex Hnv.
  case E1: (rec v _) => [s2| |] //= E.
  have HQ := Hrec _ _ _ HPv E1.
  exact: (IH _ _ _ _ Hadj' (Hnext _ HQ) E).
Qed.

Theorem apb_dfs_spec d u s s' :
  PA u s -> apb_dfs g d u s = Ok s' -> QA u s s'.
Proof.
elim: d u s s' => [|d IH] u s s' // HPu E.
have El : ll_dfs g false d.+1 u (apb_tr s) = Ok (apb_tr s').
  by rewrite -apb_dfs_ll E.
have [Hc HQ4] := ll_dfs_low Hg HPu El.
case: (HPu) => Ht Hp _ _; case: (Hp) => Hu Hur _ _.
have Hs := ti_size Ht; have [Hiu _ _ _] := sized_inb Hs Hur.
have HA : inb (AdjList g) u by rewrite /inb (inv_len Hg); z_lia.
have Eadj : zget [::] (AdjList g) u = adj g u by rewrite /adj HA.
move: E; rewrite /= Hiu HA /= Eadj => E.
have [children' HI] := apb_scan_spec IH (l1 := [::]) erefl (IA_init HPu) E.
exact: QA_exit HI.
Qed.

End APBTheory.

(** ** The loop over the roots of [ArticulationPointsAndBridges] *)

Section APBRoots.
Variable g : Graph.
Hypothesis Hg : adjacency_invariant g.
Hypothesis Huniq : forall u, uniq (adj g u).
Let N := Vertices g.

(** Between two roots: every call has returned, [ap] holds the marked
    vertices that pass the test and [br] the tree edges that pass the
    test. *)
Definition apb_inv (s : APBState) : Prop :=
  [/\ root_inv g (apb_tr s),
      forall x, tvis (apb_tr s) x -> fin g (apb_tr s) x,
      forall x, (x \in ap s) = tvis (apb_tr s) x && art g (apb_tr s) x
    & forall e, (e \in br s) = bridge_at (apb_tr s) e].

Lemma apb_inv_init :
  apb_inv (mkAPB (init_traversal (Z.to_nat N)) [::] [::]).
Proof.
split=> /=.
- exact: root_inv_init.
- by move=> x; rewrite tvis_init.
- by move=> x; rewrite tvis_init.
- by move=> e; rewrite /bridge_at tvis_init.
Qed.

Lemma apb_dfs_total d u s :
  root_inv g (apb_tr s) -> 0 <= u < N -> ~~ tvis (apb_tr s) u ->
  (Z.to_nat N <= d)%N ->
  exists s', apb_dfs g d u s = Ok s'.
Proof.
move=> [Ht Hid _ _] Hur Hu Hd.
have [t' [E _ _]] := ll_root_total Hg false Ht Hid Hur Hu Hd.
by move: (apb_dfs_ll g d u s); rewrite E; case: (apb_dfs g d u s) => // s' _; exists s'.
Qed.

Lemma apb_root_call d u s s1 :
  apb_inv s -> 0 <= u < N -> ~~ tvis (apb_tr s) u -> apb_dfs g d u s = Ok s1 ->
  [/\ apb_inv s1, tr_le (apb_tr s) (apb_tr s1) & tvis (apb_tr s1) u].
Proof.
move=> [Hr Hfin Hap Hbr] Hur Hu E.
have [HP2 _ _] := root_P3 Hr Hur Hu.
have [Hcp [HQ2 Hfin1] Hap1 Hbr1] := apb_dfs_spec Hg Huniq HP2 E.
case: (Hr) => Ht Hid Hgr He.
case: (Hcp) => Ht1 Hid1 Hle [Hu1 _ Epu _] Hfr.
have Hr1 := root_inv_call Hr Hu Hcp HQ2.
set t := apb_tr s in Hr Hfin Hap Hbr Hu HP2 Hcp HQ2 Hfin1 Hap1 Hbr1 Ht Hid Hgr He Hle Epu Hfr *.
set t1 := apb_tr s1 in Hcp HQ2 Hfin1 Hap1 Hbr1 Ht1 Hid1 Hle Hu1 Epu Hfr Hr1 *.
have Hs1 := ti_size Ht1.
case: (Hle) => HV HD _ _.
have Hnk x c : tvis t x -> tvis t1 c -> par t1 c = x -> tvis t c.
  move=> Hx Hc1 Epc; case Hc: (tvis t c) => //.
  case: (new_parent Ht Hu Hcp HQ2 (negbT Hc) Hc1) => [Ec|]; last by rewrite Epc Hx.
  have := tvis_range (ti_size Ht) Hx.
  by rewrite -Epc Ec Epu (Hid u Hu); lia.
split=> //; split=> //.
- move=> x Hx1; case Hx: (tvis t x); last exact: Hfin1 (negbT Hx) Hx1.
  apply: (low_upto_mono Hle Hx (closedv_root Hgr Hx)) (Hfin x Hx).
  + exact: Hfr.
  + by move=> c Hc _; apply: Hfr.
  + by move=> c; apply: Hnk.
- move=> x; rewrite Hap1 Hap /newv; case Hx: (tvis t x) => /=.
    rewrite (HV x Hx) orbF /art (art_upto_le Hle Hx (closedv_root Hgr Hx)) //.
    by move=> c Hc _; apply: Hfr.
  by [].
- move=> e; rewrite Hbr1 Hbr /newv; case H2: (tvis t e.2) => /=.
    by rewrite orbF (bridge_at_le Ht Hs1 Hle H2) //; apply: Hfr.
  have -> : bridge_at t e = false by rewrite /bridge_at H2 andbF.
  rewrite /= /bridge_at; case H21: (tvis t1 e.2); rewrite /= ?andbF //.
  case: (e.2 =P u) => [E2|_] //=.
  rewrite E2 Epu (Hid u Hu).
  case H1: (tvis t1 e.1) => //=.
  by case: eqP => // E1; have := tvis_range Hs1 H1; rewrite -E1; lia.
Qed.

Lemma apb_fold_spec d l s :
  (Z.to_nat N <= d)%N -> apb_inv s -> (forall u, u \in l -> 0 <= u < N) ->
  exists s',
    [/\ foldM (fun s u => if ~~ zget false (visited (apb_tr s)) u
                          then apb_dfs g d u s else Ok s) s l = Ok s',
        apb_inv s', forall u, u \in l -> tvis (apb_tr s') u
      & tr_le (apb_tr s) (apb_tr s')].
Proof.
move=> Hd; elim: l s => [|u l IH] s Hi Hl.
  by exists s; split=> //; apply: tr_le_refl.
have Hur : 0 <= u < N by apply: Hl; rewrite inE eqxx.
have Hl' : forall x, x \in l -> 0 <= x < N by move=> x Hx; apply: Hl; rewrite inE Hx orbT.
case: (Hi) => Hr _ _ _; case: (Hr) => Ht _ _ _.
rewrite /= -(tvis_zget (ti_size Ht) Hur).
have [s1 [E1 Hi1 Hu1 Hle1]] : exists s1,
    [/\ (if ~~ tvis (apb_tr s) u then apb_dfs g d u s else Ok s) = Ok s1,
        apb_inv s1, tvis (apb_tr s1) u & tr_le (apb_tr s) (apb_tr s1)].
  case Hu: (tvis (apb_tr s) u) => /=.
    by exists s; split=> //; apply: tr_le_refl.
  have [s1 E] := apb_dfs_total Hr Hur (negbT Hu) Hd.
  have [Hi1 Hle Hu1] := apb_root_call Hi Hur (negbT Hu) E.
  by exists s1.
have [s2 [E2 Hi2 Hu2 Hle2]] := IH s1 Hi1 Hl'.
exists s2; split=> //; first by rewrite E1.
  move=> x; rewrite inE => /orP[/eqP->|]; last exact: Hu2.
  by case: Hle2 => HV _ _ _; apply: HV.
exact: tr_le_trans Hle1 Hle2.
Qed.

(** The result of [ArticulationPointsAndBridges], by the final values of
    [discovery], [low] and [parent]. *)
Lemma apb_run_spec :
  exists s,
    [/\ apb_run g (Z.to_nat N) = Ok s, apb_inv s
      & forall x, 0 <= x < N -> tvis (apb_tr s) x].
Proof.
have [|s [E Hi Hall _]] :=
  apb_fold_spec (l := zrange N) (leqnn _) apb_inv_init.
  by move=> u /zrangeP.
exists s; split=> //; first by rewrite /apb_run -/N (NltF Hg).
by move=> x /zrangeP; apply: Hall.
Qed.

End APBRoots.

(** * Removing an edge, removing a vertex *)

(** The edges of the graph, the edge between [a] and [b] apart. *)
Definition del_edge (g : Graph) (a b : Z) : rel Z :=
  [rel x y | edge g x y && ~~ ((x == a) && (y == b) || (x == b) && (y == a))].

(** The edges of the graph that do not touch [v]. *)
Definition del_vertex (g : Graph) (v : Z) : rel Z :=
  [rel x y | [&& edge g x y, x != v & y != v]].

Lemma del_edge_sym g a b : adjacency_invariant g -> symmetric (del_edge g a b).
Proof.
move=> Hg x y; rewrite /del_edge /= -/(edge g x y) -/(edge g y x) (edge_sym Hg).
by case: (x == a); case: (y == b); case: (x == b); case: (y == a).
Qed.

Lemma del_vertex_sym g v : adjacency_invariant g -> symmetric (del_vertex g v).
Proof.
move=> Hg x y; rewrite /del_vertex /= -/(edge g x y) -/(edge g y x) (edge_sym Hg).
by case: (x == v); case: (y == v); rewrite ?andbF.
Qed.

Lemma del_edge_sub g a b : subrel (del_edge g a b) (edge g).
Proof. by move=> x y /andP[]. Qed.

Lemma del_vertex_sub g v : subrel (del_vertex g v) (edge g).
Proof. by move=> x y /and3P[]. Qed.

Lemma del_edgeC g a b : del_edge g a b =2 del_edge g b a.
Proof. by move=> x y; rewrite /del_edge /= orbC. Qed.

(** * The forest of a finished traversal *)

Section FinalForest.
Variable g : Graph.
Hypothesis Hg : adjacency_invariant g.
Variable t : Traversal.
Hypothesis Ht : tr_inv g t.
Hypothesis Hall : forall x, 0 <= x < Vertices g -> tvis t x.
Hypothesis He : edge_ok g t.
Hypothesis Hfin : forall x, tvis t x -> fin g t x.

Lemma edge_vis x y : edge g x y -> tvis t x /\ tvis t y.
Proof. by move=> /(edge_range Hg)[Hx Hy]; split; apply: Hall. Qed.

Lemma tree_edge y : tvis t y -> par t y <> -1 ->
  [/\ tvis t (par t y), disc t (par t y) < disc t y & edge g (par t y) y].
Proof. by move=> Hy Hp; case: (ti_par Ht Hy). Qed.

Lemma desc_lt a x : desc t a x -> a <> x -> disc t a < disc t x.
Proof. by move=> /(desc_disc Ht)[//|[]]. Qed.

Lemma desc_tvis a x : desc t a x -> tvis t a -> tvis t x.
Proof. by move=> /(desc_disc Ht)[<-//|[]]. Qed.

Lemma low_desc x y : desc t x y -> tvis t y -> lowv t x <= lowv t y.
Proof.
elim=> [|z Hz Hp Hd IH] _; first lia.
have [Hpz _ _] := tree_edge Hz Hp.
have [Hk _ _] := Hfin Hpz.
by have := Hk z Hz erefl; have := IH Hpz; lia.
Qed.

(** [low[x]] is the discovery time of [x] or of a neighbour, not the
    parent, of a vertex below [x]. *)
Lemma low_reach x : tvis t x ->
  exists y z, [/\ desc t x y, tvis t y, tvis t z, lowv t x = disc t z
    & z = y \/ (z \in adj g y /\ z <> par t y)].
Proof.
move: {2}(Z.to_nat (time t - disc t x)) (leqnn (Z.to_nat (time t - disc t x))) => n.
elim: n x => [|n IH] x Hn Hx.
  by have := ti_disc Ht Hx; move/leP: Hn; lia.
have [_ _ Hw] := Hfin Hx.
case: Hw => [E|[c [Hc Epc E]]|[z [Hz Hne Hzt E]]].
- by exists x, x; split=> //; [exact: desc_refl | left].
- have Hp : par t c <> -1 by rewrite Epc; have := tvis_range (ti_size Ht) Hx; lia.
  have [_ Hlt _] := tree_edge Hc Hp; rewrite Epc in Hlt.
  have [|y [z [Hd Hy Hz El Hyz]]] := IH c _ Hc.
    by apply/leP; move/leP: Hn; have := ti_disc Ht Hc; lia.
  exists y, z; split=> //; last by rewrite E.
  apply: desc_trans Hd; apply: desc_up => //; rewrite Epc; exact: desc_refl.
- by exists x, z; split=> //; [exact: desc_refl | right].
Qed.

(** The tree path from [a] down to [x]. *)
Lemma tree_path (r : rel Z) a x :
  desc t a x ->
  (forall w, tvis t w -> par t w <> -1 -> desc t a (par t w) -> desc t w x ->
     r (par t w) w) ->
  connects r a x.
Proof.
elim=> [|y Hy Hp Hd IH] Hr; first exact: connects_refl.
apply: (connects_trans (v := par t y)).
  apply: IH => w Hw Hpw Hdw Hwy; apply: Hr => //.
  by apply: desc_trans Hwy _; apply: desc_up => //; exact: desc_refl.
by apply: connects1; apply: Hr => //; exact: desc_refl.
Qed.

Lemma root_top r z : par t r = -1 -> desc t z r -> z = r.
Proof. by move=> Er Hd; case: (z =P r) => // /nesym /(desc_parent Hd)[_]. Qed.

(** An edge stays within the tree of a root. *)
Lemma same_root r x y :
  par t r = -1 -> desc t r x -> edge g x y -> desc t r y.
Proof.
move=> Er Hd Hxy; have [Hx Hy] := edge_vis Hxy.
case: (He Hx Hy Hxy) => Hd'; first exact: desc_trans Hd Hd'.
case: (desc_chain Hd Hd') => // /(root_top Er) ->; exact: desc_refl.
Qed.

Lemma comp_root r u x :
  par t r = -1 -> desc t r u -> connects (edge g) u x -> desc t r x.
Proof.
move=> Er Hd; apply: connects_ind => // a b Ha Hab.
exact: same_root Ha Hab.
Qed.

(** An edge from a vertex below [c] stays below [c], unless it is the
    tree edge above [c] or a back edge that bounds [low[c]]. *)
Lemma sub_edge c y z :
  tvis t c -> desc t c y -> edge g y z ->
  desc t c z \/
  [/\ z <> c, par t c <> -1, desc t z (par t c)
    & (y = c /\ z = par t c) \/ lowv t c <= disc t z].
Proof.
move=> Hc Hd Hyz; have [Hy Hz] := edge_vis Hyz.
case: (He Hy Hz Hyz) => Hd'; first by left; exact: desc_trans Hd Hd'.
case: (desc_chain Hd Hd') => [|Hzc]; first by left.
case: (z =P c) => [->|Hne]; first by left; exact: desc_refl.
have [_ Hp Hzp] := desc_parent Hzc (nesym Hne).
right; split=> //.
case: (z =P par t y) => [E|Hzy]; [left | right].
  case: (y =P c) => [Ey|Hyc]; first by rewrite E Ey.
  have [_ _ Hcp] := desc_parent Hd Hyc.
  by case: Hne; apply: (desc_antisym Ht Hzc); rewrite E.
have [_ Ha _] := Hfin Hy.
by have := Ha z Hyz Hzy; have := low_desc Hd Hy; lia.
Qed.

Hypothesis Hsim : simple_graph g.

Lemma edge_neq a b : edge g a b -> a <> b.
Proof. by move=> Hab E; case: (Hsim a) => _; move: Hab; rewrite /edge /= -E => ->. Qed.

Lemma vis_nonneg x : tvis t x -> x <> -1.
Proof. by move=> /(tvis_range (ti_size Ht)); lia. Qed.

(** The bridge test cuts: without the tree edge from [a] to [c], nothing
    leads from [a] to [c]. *)
Lemma bridge_cut a c :
  bridge_at t (a, c) -> ~ connects (del_edge g a c) a c.
Proof.
move=> /and4P[/= Ha Hc /eqP Ep /Z.ltb_lt Hlt] Hcon.
have Hcl y z : desc t c y -> del_edge g a c y z -> desc t c z.
  move=> Hd /andP[Hyz Hn]; case: (sub_edge Hc Hd Hyz) => // -[Hzc Hp Hz [[Ey Ez]|Hl]].
    by move: Hn; rewrite Ey Ez Ep !eqxx orbT.
  by have := desc_le Ht Hz; rewrite Ep; lia.
have Hca : desc t c a.
  apply: (connects_ind (e := del_edge g a c) (P := desc t c)) (connects_sym (del_edge_sym a c Hg) Hcon).
    exact: desc_refl.
  by move=> x y Hx Hxy; apply: Hcl Hxy.
have Hp : par t c <> -1 by rewrite Ep; apply: vis_nonneg.
have [_ Hl _] := tree_edge Hc Hp.
by have := desc_le Ht Hca; rewrite Ep in Hl; lia.
Qed.

Lemma no_bridge_down a b :
  edge g a b -> desc t a b -> ~~ bridge_at t (a, b) ->
  connects (del_edge g a b) a b.
Proof.
move=> Hab Hd Hnb; have [Ha Hb] := edge_vis Hab.
have Hne := edge_neq Hab.
have Hlt := desc_lt Hd Hne.
have Hpa : par t a <> b.
  move=> E; have Hp : par t a <> -1 by rewrite E; apply: vis_nonneg.
  by have [_ Hl _] := tree_edge Ha Hp; rewrite E in Hl; lia.
have Hnda : ~ desc t b a by move=> /(desc_le Ht); lia.
have Hsym := del_edge_sym a b Hg.
case: (par t b =P a) => [Epb|Hpb]; last first.
  apply: tree_path Hd _ => w Hw Hpw Hdw Hwb.
  have [_ _ Hew] := tree_edge Hw Hpw.
  rewrite /del_edge /= -/(edge g _ _) Hew /=.
  apply/negP => /orP[/andP[/eqP E1 /eqP E2]|/andP[/eqP E1 /eqP E2]].
    by case: Hpb; rewrite -E2.
  by case: Hpa; rewrite -E2.
have Hlow : lowv t b <= disc t a.
  by move: Hnb; rewrite /bridge_at /= Ha Hb Epb eqxx /= => /negbTE/Z.ltb_ge.
have [y [z [Hdy Hy Hz El Hyz]]] := low_reach Hb.
have Hdy_le := desc_le Ht Hdy.
case: Hyz => [Ezy|[Hzy Hzp]]; first by rewrite Ezy in El; lia.
have Hdz : desc t z a.
  case: (He Hy Hz Hzy) => [Hdyz|Hdzy]; first by have := desc_le Ht Hdyz; lia.
  case: (desc_chain (desc_trans Hd Hdy) Hdzy) => // Haz.
  have Ez : z = a by apply: (ti_inj Ht) => //; have := desc_le Ht Haz; lia.
  by rewrite Ez; exact: desc_refl.
have Hya : y <> a by move=> E; apply: Hnda; rewrite -E.
have H1 : connects (del_edge g a b) z a.
  apply: tree_path Hdz _ => w Hw Hpw Hdw Hwa.
  have [_ _ Hew] := tree_edge Hw Hpw.
  rewrite /del_edge /= -/(edge g _ _) Hew /=.
  apply/negP => /orP[/andP[/eqP E1 /eqP E2]|/andP[/eqP E1 /eqP E2]].
    by apply: Hnda; rewrite -E2.
  by case: Hpa; rewrite -E2.
have H2 : del_edge g a b y z.
  have Hez : edge g y z := Hzy.
  rewrite /del_edge /= -/(edge g _ _) Hez /=.
  apply/negP => /orP[/andP[/eqP E1 _]|/andP[/eqP E1 /eqP E2]] //.
  by case: Hzp; rewrite E1 Epb.
have H3 : connects (del_edge g a b) b y.
  apply: tree_path Hdy _ => w Hw Hpw Hdw Hwy.
  have [_ _ Hew] := tree_edge Hw Hpw.
  rewrite /del_edge /= -/(edge g _ _) Hew /=.
  apply/negP => /orP[/andP[/eqP E1 /eqP E2]|/andP[/eqP E1 /eqP E2]].
    by apply: Hnda; rewrite -E1.
  by apply: Hnda; rewrite -E2; apply: desc_up.
apply: connects_sym => //.
apply: connects_trans H3 _; apply: connects_step H2 _.
exact: H1.
Qed.

Lemma no_bridge_path a b :
  edge g a b -> ~~ bridge_at t (a, b) -> ~~ bridge_at t (b, a) ->
  connects (del_edge g a b) a b.
Proof.
move=> Hab Hn1 Hn2; have [Ha Hb] := edge_vis Hab.
case: (He Ha Hb Hab) => Hd; first exact: no_bridge_down.
have Hba : edge g b a by rewrite (edge_sym Hg).
apply: connects_sym; first exact: del_edge_sym.
apply: connects_sub (no_bridge_down Hba Hd Hn2).
by move=> x y; rewrite del_edgeC.
Qed.

Lemma count_gt1 (T : eqType) (P : pred T) (l : seq T) :
  uniq l -> (1 < count P l)%N ->
  exists a b, [/\ a \in l, b \in l, a <> b, P a & P b].
Proof.
move=> Hu; rewrite -size_filter.
have := filter_uniq P Hu; have Hm x : x \in filter P l -> x \in l /\ P x.
  by rewrite mem_filter => /andP[].
case: (filter P l) Hm => [|a [|b l']] //= Hm /andP[Hab _] _.
have [Ha Pa] := Hm a (mem_head _ _).
have [Hb Pb] : b \in l /\ P b by apply: Hm; rewrite !inE eqxx orbT.
exists a, b; split=> // E; move: Hab; rewrite E inE eqxx.
by [].
Qed.

Lemma count_le1 (T : eqType) (P : pred T) (l : seq T) a b :
  uniq l -> (count P l <= 1)%N -> a \in l -> b \in l -> P a -> P b -> a = b.
Proof.
move=> Hu Hc Ha Hb Pa Pb; apply/eqP/negPn/negP => Hne.
have Hsub : {subset [:: a; b] <= filter P l}.
  by move=> x; rewrite !inE mem_filter => /orP[] /eqP->; rewrite ?Pa ?Pb.
have := uniq_leq_size _ Hsub; rewrite /= inE Hne size_filter => /(_ isT).
by move=> H; have := leq_trans H Hc.
Qed.

(** The tree path below [c] does not touch a vertex that is not below
    [c]. *)
Lemma tree_path_avoid u c x :
  desc t c x -> ~ desc t c u -> connects (del_vertex g u) c x.
Proof.
move=> Hd Hu; apply: tree_path Hd _ => w Hw Hpw Hdw Hwx.
have [_ _ Hew] := tree_edge Hw Hpw.
rewrite /del_vertex /= -/(edge g _ _) Hew /=.
apply/andP; split; apply/eqP => E; apply: Hu; rewrite -E //.
exact: desc_up.
Qed.

(** The tree path from [r] down to [x] does not touch a vertex that is
    not above [x]. *)
Lemma tree_path_above u r x :
  desc t r x -> ~ desc t u x -> connects (del_vertex g u) r x.
Proof.
move=> Hd Hu; apply: tree_path Hd _ => w Hw Hpw Hdw Hwx.
have [_ _ Hew] := tree_edge Hw Hpw.
rewrite /del_vertex /= -/(edge g _ _) Hew /=.
apply/andP; split; apply/eqP => E; apply: Hu; rewrite -E //.
by apply: desc_trans Hwx; apply: desc_up => //; exact: desc_refl.
Qed.

Lemma art_cut_inner u c :
  tvis t u -> par t u <> -1 -> tvis t c -> par t c = u ->
  disc t u <= lowv t c ->
  ~ connects (del_vertex g u) c (par t u).
Proof.
move=> Hu Hpu Hc Epc Hlow Hcon.
have Hcl y z : desc t c y -> del_vertex g u y z -> desc t c z.
  move=> Hd /and3P[Hyz /eqP Hyu /eqP Hzu].
  case: (sub_edge Hc Hd Hyz) => // -[Hzc Hp Hz [[Ey Ez]|Hl]].
    by case: Hzu; rewrite Ez.
  by rewrite Epc in Hz; have := desc_lt Hz Hzu; lia.
have Hcp : desc t c (par t u).
  apply: (connects_ind (e := del_vertex g u) (P := desc t c)) Hcon.
    exact: desc_refl.
  by move=> x y Hx Hxy; apply: Hcl Hxy.
have [_ Hl1 _] := tree_edge Hu Hpu.
have Hpc : par t c <> -1 by rewrite Epc; apply: vis_nonneg.
have [_ Hl2 _] := tree_edge Hc Hpc; rewrite Epc in Hl2.
by have := desc_le Ht Hcp; lia.
Qed.

Lemma art_cut_root u c1 c2 :
  par t u = -1 -> tvis t c1 -> tvis t c2 -> par t c1 = u -> par t c2 = u ->
  c1 <> c2 -> ~ connects (del_vertex g u) c1 c2.
Proof.
move=> Eu H1 H2 E1 E2 Hne Hcon.
have Hcl y z : desc t c1 y -> del_vertex g u y z -> desc t c1 z.
  move=> Hd /and3P[Hyz /eqP Hyu /eqP Hzu].
  case: (sub_edge H1 Hd Hyz) => // -[Hzc Hp Hz _].
  by case: Hzu; apply: (root_top Eu); rewrite -E1.
have Hd : desc t c1 c2.
  apply: (connects_ind (e := del_vertex g u) (P := desc t c1)) Hcon.
    exact: desc_refl.
  by move=> x y Hx Hxy; apply: Hcl Hxy.
have [_ _ Hdu] := desc_parent Hd (nesym Hne); rewrite E2 in Hdu.
have Hp1 : par t c1 <> -1.
  by rewrite E1 => E; have [] := desc_parent Hd (nesym Hne); rewrite E2.
have [_ Hl _] := tree_edge H1 Hp1; rewrite E1 in Hl.
by have := desc_le Ht Hdu; lia.
Qed.

(** The test for an articulation point cuts. *)
Lemma art_cut u :
  tvis t u -> art g t u ->
  exists x y, [/\ x <> u, y <> u, connects (edge g) u x, connects (edge g) u y
    & ~ connects (del_vertex g u) x y].
Proof.
move=> Hu; rewrite /art /art_upto; case: eqP => [Eu|Hpu].
  case/(count_gt1 (proj1 (Hsim u))) => c1 [c2 [Hc1 Hc2 Hne /eqP E1 /eqP E2]].
  have [_ H1] := edge_vis (x := u) Hc1; have [_ H2] := edge_vis (x := u) Hc2.
  exists c1, c2; split.
  - exact: nesym (edge_neq (a := u) Hc1).
  - exact: nesym (edge_neq (a := u) Hc2).
  - exact: connects1.
  - exact: connects1.
  - exact: art_cut_root.
case/hasP=> c Hc /andP[/eqP Epc /Z.leb_le Hlow].
have [_ Hcv] := edge_vis (x := u) Hc.
have [Hpv _ Hpe] := tree_edge Hu Hpu.
exists c, (par t u); split.
- exact: nesym (edge_neq (a := u) Hc).
- exact: (edge_neq Hpe).
- exact: connects1.
- by apply: connects1; rewrite (edge_sym Hg).
- exact: art_cut_inner.
Qed.

Lemma desc_dec u z : tvis t z -> desc t u z \/ ~ desc t u z.
Proof.
move: {2}(Z.to_nat (disc t z)) (leqnn (Z.to_nat (disc t z))) => n.
elim: n z => [|n IH] z Hn Hz.
  case: (z =P u) => [->|Hne]; first by left; exact: desc_refl.
  right=> Hd; have [_ Hp _] := desc_parent Hd Hne.
  have [Hpv Hl _] := tree_edge Hz Hp.
  by move/leP: Hn; have := ti_disc Ht Hz; have := ti_disc Ht Hpv; lia.
case: (z =P u) => [->|Hne]; first by left; exact: desc_refl.
case: (par t z =P -1) => [E|Hp].
  by right=> Hd; have [_ Hp _] := desc_parent Hd Hne.
have [Hpv Hl _] := tree_edge Hz Hp.
have [|Hd|Hnd] := IH (par t z) _ Hpv.
- by apply/leP; move/leP: Hn; have := ti_disc Ht Hz; have := ti_disc Ht Hpv; lia.
- by left; apply: desc_up.
- by right=> Hd; have [_ _ Hd'] := desc_parent Hd Hne.
Qed.

(** When the test fails, the vertices that [u] connects stay connected
    without [u]. *)
Lemma art_join u x y :
  tvis t u -> ~~ art g t u -> x <> u -> y <> u ->
  connects (edge g) u x -> connects (edge g) u y ->
  connects (del_vertex g u) x y.
Proof.
move=> Hu Hna.
have Hsym := del_vertex_sym u Hg.
have [r [Hr Er Hru]] := desc_root Ht Hu.
have Hchild z : z <> u -> desc t u z ->
    exists c, [/\ tvis t c, par t c = u, c \in adj g u, desc t c z
      & connects (del_vertex g u) c z].
  move=> Hzu Hd; have [c [Hc Epc Hpc Hcz]] := desc_child Hd Hzu.
  have [_ Hl Hec] := tree_edge Hc Hpc; rewrite Epc in Hl Hec.
  by exists c; split=> //; apply: tree_path_avoid => // /(desc_le Ht); lia.
move: Hna; rewrite /art /art_upto; case: eqP => [Eu|Hpu] Hna.
  have Hone : forall z, z <> u -> connects (edge g) u z ->
      exists c, [/\ par t c = u, c \in adj g u & connects (del_vertex g u) c z].
    move=> z Hzu Hz; have Hd : desc t u z.
      by apply: (comp_root Eu) Hz; exact: desc_refl.
    by have [c [_ Epc Hc _ Hcz]] := Hchild z Hzu Hd; exists c.
  move=> Hxu Hyu /(Hone x Hxu)[c1 [E1 H1 Hc1]] /(Hone y Hyu)[c2 [E2 H2 Hc2]].
  have Ec : c1 = c2.
    apply: (count_le1 (P := fun c => par t c == u) (proj1 (Hsim u)) _ H1 H2);
      rewrite ?E1 ?E2 //.
    by rewrite leqNgt.
  rewrite -Ec in Hc2; apply: connects_trans Hc2.
  exact: connects_sym.
have [Hpv Hlp Hpe] := tree_edge Hu Hpu.
have Hrp : desc t r (par t u).
  have Hne : u <> r by move=> E; rewrite E in Hpu.
  by have [] := desc_parent Hru Hne.
have Hnup : ~ desc t u (par t u) by move=> /(desc_le Ht); lia.
have Hrp' : connects (del_vertex g u) r (par t u) by apply: tree_path_above.
have Hout z : desc t r z -> ~ desc t u z -> connects (del_vertex g u) z (par t u).
  move=> Hrz Huz; apply: connects_trans Hrp'; apply: connects_sym => //.
  exact: tree_path_above.
have Hhub : forall z, z <> u -> connects (edge g) u z ->
    connects (del_vertex g u) z (par t u).
  move=> z Hzu Hz; have Hrz : desc t r z by apply: (comp_root Er Hru).
  have Hzv : tvis t z := desc_tvis Hrz Hr.
  case: (desc_dec u Hzv) => [Huz|]; last exact: Hout.
  have [c [Hc Epc Hcu Hcz Hcon]] := Hchild z Hzu Huz.
  have Hpc : par t c <> -1 by rewrite Epc; apply: vis_nonneg.
  have [_ Hlc _] := tree_edge Hc Hpc; rewrite Epc in Hlc.
  have Hlow : lowv t c < disc t u.
    move/hasPn: Hna => /(_ c Hcu); rewrite Epc eqxx /= => /negbTE/Z.leb_gt.
    by [].
  have [y' [z' [Hdy Hy Hz' El Hyz]]] := low_reach Hc.
  have Hdy_le := desc_le Ht Hdy.
  case: Hyz => [Ezy|[Hzy Hzp]]; first by rewrite Ezy in El; lia.
  have Hez : edge g y' z' := Hzy.
  have Huc : desc t u c by apply: desc_up => //; rewrite Epc; exact: desc_refl.
  have Hry : desc t r y' := desc_trans Hru (desc_trans Huc Hdy).
  have Hrz' : desc t r z' := same_root Er Hry Hez.
  have H1 : connects (del_vertex g u) c y'.
    by apply: tree_path_avoid => // /(desc_le Ht); lia.
  have H2 : del_vertex g u y' z'.
    rewrite /del_vertex /= -/(edge g _ _) Hez /=.
    by apply/andP; split; apply/eqP => E; move: El Hdy_le; rewrite E; lia.
  have H3 : connects (del_vertex g u) z' (par t u).
    by apply: Hout => // /(desc_le Ht); lia.
  apply: connects_trans (connects_sym Hsym Hcon) _.
  by apply: connects_trans H1 _; apply: connects_step H2 _.
move=> Hxu Hyu /(Hhub x Hxu) Hx /(Hhub y Hyu) Hy.
by apply: connects_trans Hx _; apply: connects_sym.
Qed.

End FinalForest.

(** * Counting connected components *)

Section Components.
Variable T : finType.
Implicit Types (e : rel T) (a b : {pred T}).

(** The count over [a] depends on the paths from [a] only. *)
Lemma n_comp_local e e' a :
  (forall x, x \in a -> connect e x =1 connect e' x) ->
  n_comp e a = n_comp e' a.
Proof.
move=> H; apply: eq_card => x; rewrite !inE /=.
case Hx: (x \in a); rewrite ?andbF // !andbT.
by rewrite /roots /root (eq_pick (H x Hx)).
Qed.

Lemma n_comp_split e a b :
  (forall x, x \in a -> x \in b -> False) ->
  n_comp e [predU a & b] = (n_comp e a + n_comp e b)%N.
Proof.
move=> Hd; rewrite /n_comp_mem.
rewrite -(cardUI [predI roots e & a] [predI roots e & b]).
have -> : #|[predI [predI roots e & a] & [predI roots e & b]]| = 0%N.
  apply: eq_card0 => x; rewrite !inE.
  by apply/negP => /andP[/andP[_ Ha] /andP[_ Hb]]; apply: (Hd x).
rewrite addn0; apply: eq_card => x; rewrite !inE /=.
by case: (roots e x).
Qed.

Lemma n_comp_gt1 e a :
  connect_sym e -> closed_mem e (mem a) ->
  (1 < n_comp e a)%N <->
  exists x y, [/\ x \in a, y \in a & ~~ connect e x y].
Proof.
move=> Hs Hc; split.
  case/card_gt1P=> x [y [/andP[/= /eqP Rx Hx] /andP[/= /eqP Ry Hy] Hne]].
  exists x, y; split=> //; apply/negP => /(rootP Hs) E.
  by case/eqP: Hne; rewrite -Rx -Ry.
case=> x [y [Hx Hy Hn]]; apply/card_gt1P.
exists (root e x), (root e y); split.
- rewrite inE /= roots_root //=.
  by rewrite -(closed_connect Hc (connect_root e x)).
- rewrite inE /= roots_root //=.
  by rewrite -(closed_connect Hc (connect_root e y)).
- by rewrite (root_connect Hs).
Qed.

Section Removal.
Variables e e' : rel T.
Hypothesis sym_e : symmetric e.
Hypothesis sym_e' : symmetric e'.
Hypothesis sub_e : subrel e' e.
Variable v : T.

Let C : {pred T} := connect e v.

Hypothesis loc_e : forall x y, e x y -> x \notin C -> e' x y.

Lemma connect_away x : x \notin C -> connect e x =1 connect e' x.
Proof.
move=> Hx y; apply/idP/idP; last first.
  by apply: connect_sub => a b /sub_e; apply: connect1.
case/connectP=> p Hp ->; elim: p x Hx Hp => [|z p IH] x Hx //=.
case/andP=> Hxz Hp; apply: connect_trans (connect1 (loc_e Hxz Hx)) _.
apply: IH Hp.
by rewrite -(connect_closed (sym_connect_sym sym_e) v Hxz).
Qed.

Lemma n_comp_away : n_comp e [predC C] = n_comp e' [predC C].
Proof. by apply: n_comp_local => x; rewrite inE => /connect_away. Qed.

Lemma n_comp_whole : n_comp e T = (n_comp e' [predC C]).+1.
Proof.
rewrite (n_compC C) (n_comp_connect (sym_connect_sym sym_e)) add1n.
by rewrite n_comp_away.
Qed.

Lemma closed_sub a : closed_mem e (mem a) -> closed_mem e' (mem a).
Proof. by move=> Hc x y /sub_e; apply: Hc. Qed.

Lemma ltn_add_gt1 (m k : nat) : (m.+1 < k + m)%N = (1 < k)%N.
Proof. by rewrite -[m.+1]add1n ltn_add2r. Qed.

(** Removing the edge between [v] and [b] adds a component exactly when
    nothing else connects [v] and [b]. *)
Lemma n_comp_del_edge (b : T) :
  e v b ->
  (forall x y, e x y -> [\/ e' x y, x = v /\ y = b | x = b /\ y = v]) ->
  (n_comp e T < n_comp e' T)%N <-> ~~ connect e' v b.
Proof.
move=> Hvb Hcase.
have Hcl : closed_mem e' (mem C).
  by apply: closed_sub; apply: connect_closed; apply: sym_connect_sym.
rewrite n_comp_whole (n_compC C e') ltn_add_gt1.
rewrite (n_comp_gt1 (sym_connect_sym sym_e') Hcl); split.
  case=> x [y [Hx Hy Hn]]; apply/negP => Hc; case/negP: Hn.
  have Hgen p : forall z, path e z p -> connect e' v z -> connect e' v (last z p).
    elim: p => [|w p IH] z //= /andP[Hzw Hp] Hz.
    apply: IH Hp _; case: (Hcase z w Hzw) => [H|[_ ->]|[_ ->]] //.
    exact: connect_trans Hz (connect1 H).
  have Hall z : z \in C -> connect e' v z.
    by rewrite inE => /connectP[p Hp ->]; apply: Hgen.
  apply: connect_trans (Hall y Hy).
  by rewrite (sym_connect_sym sym_e'); apply: Hall.
move=> Hn; exists v, b; split=> //; first exact: connect0.
exact: connect1.
Qed.

(** Removing [v] adds a component exactly when [v] connects two
    vertices that nothing else connects. *)
Lemma n_comp_del_vertex :
  (forall x y, e' x y = [&& e x y, x != v & y != v]) ->
  (n_comp e T < n_comp e' (predC1 v))%N <->
  exists x y, [/\ x != v, y != v, connect e v x, connect e v y
    & ~~ connect e' x y].
Proof.
move=> He'.
have Hcl : closed_mem e' (mem [predD1 C & v]).
  move=> x y; rewrite He' => /and3P[Hxy Hx Hy]; rewrite !inE Hx Hy /=.
  exact: (connect_closed (sym_connect_sym sym_e) v Hxy).
have -> : n_comp e' (predC1 v) = n_comp e' [predU [predD1 C & v] & [predC C]].
  apply: eq_n_comp_r => x; rewrite !inE; case: eqP => [->|_] /=.
    by rewrite /C connect0.
  by case: (C x).
have Hdisj x : x \in [predD1 C & v] -> x \in [predC C] -> False.
  by rewrite !inE => /andP[_ ->].
rewrite (n_comp_split _ Hdisj).
rewrite n_comp_whole ltn_add_gt1 (n_comp_gt1 (sym_connect_sym sym_e') Hcl).
split=> -[x [y H]]; exists x, y.
  by case: H => /andP[Hx Cx] /andP[Hy Cy] Hn; split.
by case: H => Hx Hy Cx Cy Hn; split=> //; rewrite inE /= ?Hx ?Hy.
Qed.

End Removal.

End Components.

(** * The components of a graph *)

(** The vertices [[0, n)] as a finite type. *)
Definition zv (n : nat) (x : 'I_n) : Z := Z.of_nat x.

Definition ord_rel (n : nat) (r : rel Z) : rel 'I_n :=
  [rel x y | r (zv x) (zv y)].
Arguments ord_rel n r : clear implicits.

(** The number of connected components of the relation [r] among the
    vertices of [[0, n)] that satisfy [a]. *)
Definition components (n : nat) (r : rel Z) (a : pred Z) : nat :=
  n_comp (ord_rel n r) [pred x | a (zv x)].
Arguments components n r a : clear implicits.

Section Ordinals.
Variable n : nat.

Lemma zv_inj : injective (@zv n).
Proof. by move=> x y /Nat2Z.inj/val_inj. Qed.

Lemma zv_range (x : 'I_n) : 0 <= zv x < Z.of_nat n.
Proof. by rewrite /zv; have /ltP := ltn_ord x; lia. Qed.

Lemma zv_surj z : 0 <= z < Z.of_nat n -> exists x : 'I_n, zv x = z.
Proof.
move=> Hz; have Hlt : (Z.to_nat z < n)%N by apply/ltP; lia.
by exists (Ordinal Hlt); rewrite /zv /= Z2Nat.id; lia.
Qed.

Lemma zv_eq (x y : 'I_n) : (zv x == zv y) = (x == y).
Proof. exact: (inj_eq zv_inj). Qed.

Lemma connect_ordP (r : rel Z) (x y : 'I_n) :
  (forall a b, r a b -> 0 <= b < Z.of_nat n) ->
  reflect (connects r (zv x) (zv y)) (connect (ord_rel n r) x y).
Proof.
move=> Hr; apply: (iffP idP).
  case/connectP=> p Hp ->; exists (map (@zv n) p); last by rewrite last_map.
  elim: p x Hp => [|z p IH] x //= /andP[Hxz /IH ->]; rewrite andbT.
  exact: Hxz.
move=> H.
have : exists2 y', zv y' = zv y & connect (ord_rel n r) x y'.
  apply: (connects_ind (e := r)
            (P := fun z => exists2 y', zv y' = z & connect (ord_rel n r) x y')) H.
    by exists x.
  move=> a b [a' Ea Ha] Hab; have [b' Eb] := zv_surj (Hr a b Hab).
  exists b' => //; apply: connect_trans Ha (connect1 _).
  by rewrite /ord_rel /= Ea Eb.
by case=> y' /zv_inj ->.
Qed.

Lemma ord_rel_sym (r : rel Z) : symmetric r -> symmetric (ord_rel n r).
Proof. by move=> Hs x y; rewrite /ord_rel /= Hs. Qed.

Lemma components_all (r : rel Z) :
  components n r predT = n_comp (ord_rel n r) 'I_n.
Proof. by apply: eq_n_comp_r. Qed.

Lemma eq_components (r r' : rel Z) a : r =2 r' -> components n r a = components n r' a.
Proof.
move=> Hr; rewrite /components.
have Ho : ord_rel n r =2 ord_rel n r' by move=> x y; rewrite /ord_rel /= Hr.
exact: (eq_n_comp (eq_connect Ho)).
Qed.

End Ordinals.

Section GraphComponents.
Variable g : Graph.
Hypothesis Hg : adjacency_invariant g.
Let n := Z.to_nat (Vertices g).

Lemma Vertices_n : Z.of_nat n = Vertices g.
Proof. by rewrite /n Z2Nat.id //; have := inv_pos Hg; lia. Qed.

Lemma edge_rng a b : edge g a b -> 0 <= b < Z.of_nat n.
Proof. by rewrite Vertices_n => /(edge_range Hg)[]. Qed.

Lemma connects_range a b :
  0 <= a < Vertices g -> connects (edge g) a b -> 0 <= b < Vertices g.
Proof.
move=> Ha; apply: (connects_ind (P := fun z => 0 <= z < Vertices g)) => //.
by move=> x y _ /(edge_range Hg)[].
Qed.

(** Removing the edge between [a] and [c] adds a component exactly when
    no other path joins [a] and [c]. *)
Lemma del_edge_components a c :
  edge g a c ->
  (components n (edge g) predT < components n (del_edge g a c) predT)%N <->
  ~ connects (del_edge g a c) a c.
Proof.
move=> Hac; have [Ha Hc] := edge_range Hg Hac.
rewrite -Vertices_n in Ha Hc.
have [a' Ea] := zv_surj Ha; have [c' Ec] := zv_surj Hc.
subst a c.
have Hr' x y : del_edge g (zv a') (zv c') x y -> 0 <= y < Z.of_nat n.
  by move=> /del_edge_sub; apply: edge_rng.
set e := ord_rel n (edge g); set e' := ord_rel n (del_edge g (zv a') (zv c')).
have sym_e : symmetric e by apply: ord_rel_sym; apply: edge_sym.
have sym_e' : symmetric e' by apply: ord_rel_sym; apply: del_edge_sym.
have sub_e : subrel e' e by move=> x y /del_edge_sub.
have Hcase x y : e x y -> [\/ e' x y, x = a' /\ y = c' | x = c' /\ y = a'].
  rewrite /e /e' /ord_rel /del_edge /= -/(edge g _ _) => ->.
  rewrite !zv_eq /=.
  case: (x =P a') => [->|_]; case: (y =P c') => [->|_] /=;
    try by [apply: Or32 | apply: Or31].
  + by case: eqP => [->|_]; case: eqP => [->|_]; try by [apply: Or33 | apply: Or31].
  + by case: eqP => [->|_]; case: eqP => [->|_]; try by [apply: Or33 | apply: Or31].
  by case: (x =P c') => [->|_]; case: (y =P a') => [->|_];
    try by [apply: Or33 | apply: Or31].
have Eac : e a' c' by [].
have loc_e x y : e x y -> x \notin connect e a' -> e' x y.
  move=> Hxy Hx; case: (Hcase x y Hxy) => // -[Ex _]; case/negP: Hx; rewrite Ex inE //.
  exact: connect1.
rewrite !components_all (n_comp_del_edge sym_e sym_e' sub_e loc_e Eac Hcase).
split=> [/negP H Hcon|H].
  by apply: H; apply: (introT (connect_ordP a' c' Hr')).
by apply/negP => Hcon; apply: H; apply: (elimT (connect_ordP a' c' Hr')).
Qed.

(** Removing the vertex [v] adds a component exactly when [v] connects
    two vertices that no path without [v] joins. *)
Lemma del_vertex_components v :
  0 <= v < Vertices g ->
  (components n (edge g) predT < components n (del_vertex g v) (predC1 v))%N <->
  exists x y, [/\ x <> v, y <> v, connects (edge g) v x, connects (edge g) v y
    & ~ connects (del_vertex g v) x y].
Proof.
move=> Hv; have Hv' := Hv; rewrite -Vertices_n in Hv'.
have [v' Ev] := zv_surj Hv'; subst v.
have Hr' x y : del_vertex g (zv v') x y -> 0 <= y < Z.of_nat n.
  by move=> /del_vertex_sub; apply: edge_rng.
set e := ord_rel n (edge g); set e' := ord_rel n (del_vertex g (zv v')).
have sym_e : symmetric e by apply: ord_rel_sym; apply: edge_sym.
have sym_e' : symmetric e' by apply: ord_rel_sym; apply: del_vertex_sym.
have sub_e : subrel e' e by move=> x y /del_vertex_sub.
have He' x y : e' x y = [&& e x y, x != v' & y != v'].
  by rewrite /e' /e /ord_rel /del_vertex /= !zv_eq.
have loc_e x y : e x y -> x \notin connect e v' -> e' x y.
  move=> Hxy Hx; rewrite He' Hxy /=; apply/andP; split; apply/eqP => E; case/negP: Hx.
    by rewrite E inE.
  by rewrite inE; apply: connect1; rewrite sym_e -E.
have -> : components n (del_vertex g (zv v')) (predC1 (zv v')) = n_comp e' (predC1 v').
  by apply: eq_n_comp_r => x; rewrite !inE zv_eq.
rewrite components_all (n_comp_del_vertex sym_e sym_e' sub_e loc_e He').
split.
  case=> x [y [/eqP Hx /eqP Hy Cx Cy Hn]]; exists (zv x), (zv y); split.
  - by move=> /zv_inj.
  - by move=> /zv_inj.
  - exact: (elimT (connect_ordP v' x edge_rng)).
  - exact: (elimT (connect_ordP v' y edge_rng)).
  - by move=> Hcon; case/negP: Hn; apply: (introT (connect_ordP x y Hr')).
case=> x [y [Hx Hy Cx Cy Hn]].
have Hxr := connects_range Hv Cx; have Hyr := connects_range Hv Cy.
rewrite -Vertices_n in Hxr Hyr.
have [x' Ex] := zv_surj Hxr; have [y' Ey] := zv_surj Hyr.
exists x', y'; split.
- by apply/eqP => E; case: Hx; rewrite -Ex E.
- by apply/eqP => E; case: Hy; rewrite -Ey E.
- by apply: (introT (connect_ordP v' x' edge_rng)); rewrite Ex.
- by apply: (introT (connect_ordP v' y' edge_rng)); rewrite Ey.
- apply/negP => Hcon; apply: Hn; rewrite -Ex -Ey.
  exact: (elimT (connect_ordP x' y' Hr')).
Qed.

End GraphComponents.

(** * Articulation points and bridges: the claims *)

(** C2. For a graph loaded by [ReadGraph], [ArticulationPointsAndBridges]
    returns, and its list of bridges holds the pair [(u, v)] exactly when
    [v] was reached from [u] by a tree edge ([parent[v] = u]) and
    [low[v] > discovery[u]], the test [dfs] makes when the call on [v]
    returns ([low[v]] and [discovery[u]] keep their values from then on);
    and an edge between [u] and [v] is reported, in one of the two
    orientations, exactly when the graph without it has more connected
    components than the graph. *)
Theorem bridges_correct file g :
  ReadGraph file = Ok (inr g) ->
  exists s,
    [/\ apb_run g (Z.to_nat (Vertices g)) = Ok s,
        ArticulationPointsAndBridges g = Ok (ap s, br s),
        forall u v, ((u, v) \in br s) = bridge_at (apb_tr s) (u, v)
      & forall u v,
          ((u, v) \in br s \/ (v, u) \in br s) <->
          (edge g u v /\
           (components (Z.to_nat (Vertices g)) (edge g) predT
            < components (Z.to_nat (Vertices g)) (del_edge g u v) predT)%N)].
Proof.
move=> E; have Hg := ReadGraph_invariant E; have Hsim := ReadGraph_simple E.
have Huniq x : uniq (adj g x) by case: (Hsim x).
have [s [Es [Hr Hfin Hap Hbr] Hall]] := apb_run_spec Hg Huniq.
case: (Hr) => Ht Hid Hgr He.
exists s; split=> //; first by rewrite /ArticulationPointsAndBridges Es.
set n := Z.to_nat (Vertices g).
have Hb1 a c : bridge_at (apb_tr s) (a, c) ->
    edge g a c /\ (components n (edge g) predT
                   < components n (del_edge g a c) predT)%N.
  move=> Hb; have Hac : edge g a c.
    case/and4P: (Hb) => /= Ha Hc /eqP Ep _.
    have Hp : par (apb_tr s) c <> -1.
      by rewrite Ep; have := tvis_range (ti_size Ht) Ha; lia.
    by have [_ _] := tree_edge Ht Hc Hp; rewrite Ep.
  split=> //; apply/(del_edge_components Hg Hac).
  exact: (bridge_cut Hg Ht Hall He Hfin).
move=> u v; split.
  case; rewrite Hbr => /Hb1[Huv Hinc] //.
  split; first by rewrite (edge_sym Hg).
  by rewrite (eq_components n predT (del_edgeC g u v)).
case=> Huv /(del_edge_components Hg Huv) Hn.
case H1: ((u, v) \in br s); first by left.
case H2: ((v, u) \in br s); first by right.
case: Hn; apply: (no_bridge_path Hg Ht Hall He Hfin Hsim) => //.
  by rewrite -Hbr H1.
by rewrite -Hbr H2.
Qed.

Lemma bridges_correct_path4 :
  exists s,
    [/\ apb_run path4_graph 4 = Ok s,
        ArticulationPointsAndBridges path4_graph = Ok (ap s, br s),
        forall u v, ((u, v) \in br s) = bridge_at (apb_tr s) (u, v)
      & forall u v,
          ((u, v) \in br s \/ (v, u) \in br s) <->
          (edge path4_graph u v /\
           (components 4 (edge path4_graph) predT
            < components 4 (del_edge path4_graph u v) predT)%N)].
Proof. exact: (bridges_correct ReadGraph_path4). Defined.

(** C1. For a graph loaded by [ReadGraph], [ArticulationPointsAndBridges]
    returns, and its list of articulation points holds [v] exactly when
    [v] is a vertex and the graph without [v] (and without the edges at
    [v]) has more connected components than the graph. *)
Theorem articulation_points_correct file g :
  ReadGraph file = Ok (inr g) ->
  exists aps brs,
    ArticulationPointsAndBridges g = Ok (aps, brs) /\
    forall v, v \in aps <->
      (0 <= v < Vertices g /\
       (components (Z.to_nat (Vertices g)) (edge g) predT
        < components (Z.to_nat (Vertices g)) (del_vertex g v) (predC1 v))%N).
Proof.
move=> E; have Hg := ReadGraph_invariant E; have Hsim := ReadGraph_simple E.
have Huniq x : uniq (adj g x) by case: (Hsim x).
have [s [Es [Hr Hfin Hap Hbr] Hall]] := apb_run_spec Hg Huniq.
case: (Hr) => Ht Hid Hgr He.
exists (ap s), (br s); split; first by rewrite /ArticulationPointsAndBridges Es.
move=> v; rewrite Hap; split.
  case/andP=> Hv Ha; have Hvr := tvis_range (ti_size Ht) Hv.
  split=> //; apply/(del_vertex_components Hg Hvr).
  exact: (art_cut Hg Ht Hall He Hfin Hsim).
case=> Hvr /(del_vertex_components Hg Hvr)[x [y [Hx Hy Cx Cy Hn]]].
rewrite (Hall v Hvr) /=; apply/negPn/negP => Ha; apply: Hn.
exact: (art_join Hg Ht Hall He Hfin Hsim (Hall v Hvr) Ha).
Qed.

Lemma articulation_points_correct_path4 :
  exists aps brs,
    ArticulationPointsAndBridges path4_graph = Ok (aps, brs) /\
    forall v, v \in aps <->
      (0 <= v < 4 /\
       (components 4 (edge path4_graph) predT
        < components 4 (del_vertex path4_graph v) (predC1 v))%N).
Proof. exact: (articulation_points_correct ReadGraph_path4). Defined.

(** * Building a graph: [NewGraph] and [AddEdge] *)

(** Two graphs with the same number of vertices, as many adjacency lists
    and the same neighbours are the same graph. *)
Lemma graph_ext (g g' : Graph) :
  Vertices g = Vertices g' -> zlen (AdjList g) = zlen (AdjList g') ->
  (forall w, adj g w = adj g' w) -> g = g'.
Proof.
case: g g' => [V L] [V' L'] /= -> HL Hadj; congr mkGraph.
have Hs : size L = size L' by apply: Nat2Z.inj.
apply: (eq_from_nth (x0 := [::])) => // i Hi.
have Hi' : (i < size L')%N by rewrite -Hs.
have := Hadj (Z.of_nat i); rewrite /adj /inb /zlen /zget /= Nat2Z.id.
have -> : (0 <=? Z.of_nat i) = true by apply/Z.leb_le; lia.
have -> : (Z.of_nat i <? Z.of_nat (size L)) = true by apply/Z.ltb_lt; move/ltP: Hi; lia.
have -> : (Z.of_nat i <? Z.of_nat (size L')) = true by apply/Z.ltb_lt; move/ltP: Hi'; lia.
by [].
Qed.

Lemma NewGraph_Ok n : 0 <= n ->
  exists g, [/\ NewGraph n = Ok g, Vertices g = n, zlen (AdjList g) = n
    & forall u, adj g u = [::]].
Proof.
move=> n0; rewrite /NewGraph; have -> : (n <? 0) = false by apply/Z.ltb_ge.
eexists; split; [reflexivity | by [] | by rewrite /zlen /= size_nseq Z2Nat.id |].
by move=> u; rewrite -{1}(Z2Nat.id n) // adj_nseq.
Qed.

(** X1. [NewGraph] panics when the number of vertices is negative, and
    returns for every number from 0 to 32767, the sizes [ReadGraph] passes
    among them.  A graph it returns has that many vertices, as many
    adjacency lists and no edge; when the number is positive the graph
    satisfies the adjacency invariant and is simple. *)
Theorem NewGraph_outcome (n : Z) :
  [/\ n < 0 -> NewGraph n = Panic,
      0 <= n <= 32767 -> exists g, NewGraph n = Ok g
    & forall g, NewGraph n = Ok g ->
        [/\ 0 <= n, Vertices g = n, zlen (AdjList g) = n,
            forall u, adj g u = [::]
          & 0 < n -> adjacency_invariant g /\ simple_graph g]].
Proof.
split=> [Hn|[Hn _]|g].
- by rewrite /NewGraph; have -> : (n <? 0) = true by apply/Z.ltb_lt.
- by have [g [-> _ _ _]] := NewGraph_Ok Hn; exists g.
case: (Z.ltb_spec n 0) => Hn.
  by rewrite /NewGraph; have -> : (n <? 0) = true by apply/Z.ltb_lt.
have [g' [-> V L A]] := NewGraph_Ok Hn; case=> <-; split=> // n0; split.
  by split; rewrite ?V ?L // => u v; rewrite A.
by move=> u; rewrite A.
Qed.

Lemma NewGraph_outcome_4 :
  exists g, [/\ NewGraph 4 = Ok g, Vertices g = 4, zlen (AdjList g) = 4,
                forall u, adj g u = [::] & adjacency_invariant g /\ simple_graph g].
Proof.
have [_ H1 H2] := NewGraph_outcome 4.
have [g E] : exists g, NewGraph 4 = Ok g by apply: H1; lia.
have [_ V L A H] := H2 g E.
by exists g; split=> //; apply: H; lia.
Defined.

Lemma AddEdge_Panic g u v :
  ~~ (inb (AdjList g) u && inb (AdjList g) v) -> AddEdge g u v = Panic.
Proof.
rewrite /AddEdge; case: (inb _ u) => //=; rewrite inb_zset.
by case: (inb _ v).
Qed.

(** X2. [AddEdge] panics exactly when [u] or [v] is no index of the
    adjacency list.  Otherwise the number of vertices and of lists stays,
    [v] is appended to the neighbours of [u] and [u] to the neighbours of
    [v], and nothing else changes. *)
Theorem AddEdge_outcome (g : Graph) (u v : Z) :
  match AddEdge g u v with
  | Ok g' =>
      [/\ inb (AdjList g) u /\ inb (AdjList g) v, Vertices g' = Vertices g,
          zlen (AdjList g') = zlen (AdjList g),
          forall w, adj g' w =
            adj g w ++ (if w == u then [:: v] else [::])
                    ++ (if w == v then [:: u] else [::])
        & v \in adj g' u /\ u \in adj g' v]
  | Panic => ~~ (inb (AdjList g) u && inb (AdjList g) v)
  | DepthExceeded => False
  end.
Proof.
case Hb: (inb (AdjList g) u && inb (AdjList g) v); last first.
  by rewrite AddEdge_Panic ?Hb.
case/andP: Hb => Hu Hv; have [g' [-> V L A]] := AddEdge_spec Hu Hv.
split=> //; split; rewrite A /ends /= !mem_cat eqxx ?inE ?eqxx ?orbT //.
Qed.

Lemma AddEdge_adj g u v g' :
  AddEdge g u v = Ok g' ->
  [/\ Vertices g' = Vertices g, zlen (AdjList g') = zlen (AdjList g)
    & forall w, adj g' w = adj g w ++ ends w (u, v)].
Proof.
move=> E; have [Hu Hv] := AddEdge_Ok E.
by have [g1 [E1 V L A]] := AddEdge_spec Hu Hv; move: E; rewrite E1 => -[<-].
Qed.

(** X3. [AddEdge] does not look for the edge it adds: on a simple graph
    the result is simple exactly when the edge is no loop and was not
    there (a loop is stored twice in the list of its vertex, an edge
    added again is stored again). *)
Theorem AddEdge_simple (g g' : Graph) (u v : Z) :
  simple_graph g -> AddEdge g u v = Ok g' ->
  simple_graph g' <-> [/\ u <> v, v \notin adj g u & u \notin adj g v].
Proof.
move=> Hs /AddEdge_adj[_ _ A]; split.
  move=> Hs'; have [Hu1 Hu2] := Hs' u; have [Hv1 Hv2] := Hs' v.
  rewrite A /ends /= eqxx in Hu1 Hu2; rewrite A /ends /= eqxx in Hv1.
  case: (u =P v) Hu1 Hu2 Hv1 => [E|Hne] Hu1 Hu2 Hv1.
    by move: Hu2; rewrite !mem_cat !inE eqxx !orbT.
  have Hvu : (v == u) = false by apply/eqP => E; case: Hne.
  move: Hu1 Hv1; rewrite Hvu /= !cat_uniq /= !orbF !andbT.
  by move=> /andP[_ H1] /andP[_ H2]; split.
move=> [Hne Hv Hu] w; rewrite A /ends /=.
have Hvu : (v == u) = false by apply/eqP => E; case: Hne.
have Huv : (u == v) = false by apply/eqP.
case Ewu: (w == u); case Ewv: (w == v) => /=.
- by move/eqP: Ewu Ewv => ->; rewrite Huv.
- move/eqP: Ewu => ->; have [H1 H2] := Hs u.
  by rewrite cat_uniq H1 /= orbF andbT Hv mem_cat inE Huv orbF.
- move/eqP: Ewv => ->; have [H1 H2] := Hs v.
  by rewrite cat_uniq H1 /= orbF andbT Hu mem_cat inE Hvu orbF.
- by rewrite cats0; apply: Hs.
Qed.

Lemma AddEdge_simple_path4 :
  simple_graph (mkGraph 4 [:: [:: 1; 3]; [:: 0; 2]; [:: 1; 3]; [:: 2; 0]]) <->
  [/\ 0 <> 3, 3 \notin adj path4_graph 0 & 0 \notin adj path4_graph 3].
Proof.
apply: (@AddEdge_simple path4_graph _ 0 3) => //.
exact: (ReadGraph_simple ReadGraph_path4).
Defined.

(** X4. [AddEdge] treats its two arguments alike: [AddEdge(u, v)] and
    [AddEdge(v, u)] panic together and return the same graph. *)
Theorem AddEdge_sym (g : Graph) (u v : Z) : AddEdge g u v = AddEdge g v u.
Proof.
case Hb: (inb (AdjList g) u && inb (AdjList g) v); last first.
  by rewrite !AddEdge_Panic ?Hb // andbC Hb.
case/andP: Hb => Hu Hv.
have [g1 [E1 V1 L1 A1]] := AddEdge_spec Hu Hv.
have [g2 [E2 V2 L2 A2]] := AddEdge_spec Hv Hu.
rewrite E1 E2; congr Ok; apply: graph_ext; rewrite ?V1 ?V2 ?L1 ?L2 //.
move=> w; rewrite A1 A2 /ends /=; congr (_ ++ _).
case: (w =P u) => [Eu|_]; case: (w =P v) => [Ev|_] //=.
by rewrite -Eu -Ev.
Qed.

(** X5. Two calls of [AddEdge] in either order: they panic together, and
    otherwise the two graphs have the same number of vertices and
    neighbours that differ by their order at most; when the two edges
    share no end the graphs are the same. *)
Theorem AddEdge_comm (g : Graph) (a b c d : Z) :
  match AddEdge g a b >>= (fun g1 => AddEdge g1 c d),
        AddEdge g c d >>= (fun g2 => AddEdge g2 a b) with
  | Ok g12, Ok g21 =>
      [/\ Vertices g12 = Vertices g21,
          forall w, perm_eq (adj g12 w) (adj g21 w)
        & a <> c -> a <> d -> b <> c -> b <> d -> g12 = g21]
  | Panic, Panic => True
  | _, _ => False
  end.
Proof.
case Hab: (inb (AdjList g) a && inb (AdjList g) b); last first.
  rewrite (AddEdge_Panic (u := a) (v := b)) ?Hab //=.
  case Hcd: (inb (AdjList g) c && inb (AdjList g) d); last first.
    by rewrite AddEdge_Panic ?Hcd.
  case/andP: Hcd => Hc Hd; have [g2 [-> _ L2 _]] := AddEdge_spec Hc Hd.
  by rewrite /= AddEdge_Panic // /inb L2 -/(inb (AdjList g) a) -/(inb (AdjList g) b) Hab.
case/andP: Hab => Ha Hb; have [g1 [E1 V1 L1 A1]] := AddEdge_spec Ha Hb.
rewrite E1 /=.
case Hcd: (inb (AdjList g) c && inb (AdjList g) d); last first.
  rewrite (AddEdge_Panic (g := g)) ?Hcd //=.
  by rewrite AddEdge_Panic // /inb L1 -/(inb (AdjList g) c) -/(inb (AdjList g) d) Hcd.
case/andP: Hcd => Hc Hd; have [g2 [E2 V2 L2 A2]] := AddEdge_spec Hc Hd.
rewrite E2 /=.
have [|//|g12 [-> V12 L12 A12]] := @AddEdge_spec g1 c d; rewrite /inb ?L1 //.
have [|//|g21 [-> V21 L21 A21]] := @AddEdge_spec g2 a b; rewrite /inb ?L2 //.
split; first by rewrite V12 V21 V1 V2.
  move=> w; rewrite A12 A21 A1 A2.
  move: (ends w (a, b)) (ends w (c, d)) => ea ec.
  by rewrite -!catA perm_cat2l perm_catC.
move=> Hac Had Hbc Hbd; apply: graph_ext; rewrite ?V12 ?V21 ?V1 ?V2 ?L12 ?L21 ?L1 ?L2 //.
move=> w; rewrite A12 A21 A1 A2.
rewrite -[(_ ++ _) ++ ends w (c, d)]catA -[(_ ++ _) ++ ends w (a, b)]catA.
congr (_ ++ _); rewrite /ends /=.
by case: (w =P a) => [Ea|_]; case: (w =P b) => [Eb|_]; case: (w =P c) => [Ec|_];
  case: (w =P d) => [Ed|_] //=; subst.
Qed.

(** * More on what [ReadGraph] returns *)

Section PairwiseFlatten.
Variables (A B : eqType) (rA : rel A) (rB : rel B) (f : A -> seq B).

Lemma pairwise_flatten_map (ps : seq A) :
  (forall p, p \in ps -> pairwise rB (f p)) ->
  (forall p q, p \in ps -> q \in ps -> rA p q -> allrel rB (f p) (f q)) ->
  pairwise rA ps -> pairwise rB (flatten [seq f p | p <- ps]).
Proof.
elim: ps => [|p ps IH] //= H1 H2 /andP[Hp Hps].
rewrite pairwise_cat; apply/and3P; split.
- apply/allrelP => x y Hx /flattenP[s /mapP[q Hq ->] Hy].
  have Hq' : q \in p :: ps by rewrite inE Hq orbT.
  by have /allrelP := H2 p q (mem_head _ _) Hq' (allP Hp q Hq); apply.
- by apply: H1; exact: mem_head.
- apply: IH => // [a Ha|a b Ha Hb]; first by apply: H1; rewrite inE Ha orbT.
  by apply: H2; rewrite inE ?Ha ?Hb orbT.
Qed.

End PairwiseFlatten.

(** The order in which the conversion loop meets the pairs. *)
Definition lexlt (p q : Z * Z) : bool :=
  (p.1 <? q.1) || ((p.1 == q.1) && (p.2 <? q.2)).

Lemma ltb_trans : transitive Z.ltb.
Proof. by move=> y x z /Z.ltb_lt H1 /Z.ltb_lt H2; apply/Z.ltb_lt; lia. Qed.

Lemma pairwise_zrange n : pairwise Z.ltb (zrange n).
Proof.
have Htr : transitive (relpre Z.of_nat Z.ltb).
  by move=> y x z /= /Z.ltb_lt H1 /Z.ltb_lt H2; apply/Z.ltb_lt; lia.
rewrite /zrange pairwise_map -(sorted_pairwise Htr).
apply: (sub_sorted _ (iota_ltn_sorted 0 _)) => x y /ltP H /=.
by apply/Z.ltb_lt; lia.
Qed.

Lemma pairwise_allpairs (s t : seq Z) :
  pairwise Z.ltb s -> pairwise Z.ltb t ->
  pairwise lexlt [seq (i, j) | i <- s, j <- t].
Proof.
move=> Hs Ht.
apply: (pairwise_flatten_map (rA := Z.ltb) (f := fun i => [seq (i, j) | j <- t])) => //.
- move=> i _; rewrite pairwise_map; apply: sub_pairwise Ht => x y /= H.
  by rewrite /lexlt /= eqxx H orbT.
- move=> i i' _ _ Hi; apply/allrelP => p q /mapP[x _ ->] /mapP[y _ ->].
  by rewrite /lexlt /= Hi.
Qed.

Lemma pairwise_upper_pairs sz M : pairwise lexlt (upper_pairs sz M).
Proof.
by apply: pairwise_filter; apply: pairwise_allpairs; apply: pairwise_zrange.
Qed.

Lemma pairwise_loaded_adj bs w : pairwise Z.ltb (loaded_adj bs w).
Proof.
apply: (pairwise_flatten_map (rA := lexlt)); last exact: pairwise_upper_pairs.
- move=> [a b]; rewrite mem_upper_pairs => /and4P[_ _ _ /Z.ltb_lt Hab].
  rewrite /ends /=; case: (w =P a) => [->|_]; case: eqP => [E|_] //=.
  by exfalso; lia.
- move=> [a b] [c d]; rewrite !mem_upper_pairs.
  move=> /and4P[_ _ _ /Z.ltb_lt Hab] /and4P[_ _ _ /Z.ltb_lt Hcd].
  rewrite /lexlt /= => Hlt; apply/allrelP => x y.
  rewrite !mem_ends !xpair_eqE.
  move=> /orP[] /andP[/eqP E1 /eqP E2] /orP[] /andP[/eqP E3 /eqP E4];
    subst; apply/Z.ltb_lt;
    by case/orP: Hlt => [/Z.ltb_lt|/andP[/eqP ? /Z.ltb_lt]]; lia.
Qed.

(** X6. The adjacency lists of a graph loaded by [ReadGraph] are strictly
    increasing: the neighbours of a vertex come in the order of their
    ids, each once. *)
Theorem ReadGraph_sorted file g :
  ReadGraph file = Ok (inr g) ->
  forall u, sorted Z.ltb (adj g u) /\ uniq (adj g u).
Proof.
move=> /ReadGraph_inr[bs [_ _ _ _ A]] u; rewrite A; split.
  by rewrite (sorted_pairwise ltb_trans); apply: pairwise_loaded_adj.
exact: uniq_loaded_adj.
Qed.

Lemma ReadGraph_sorted_path4 :
  sorted Z.ltb (adj path4_graph 1) /\ uniq (adj path4_graph 1).
Proof. exact: (ReadGraph_sorted ReadGraph_path4 1). Defined.

Lemma ReadGraph_loads bs :
  (2 <= size bs)%N -> 0 < file_size bs ->
  2 + 2 * file_size bs * file_size bs <= zlen bs ->
  exists g, ReadGraph (Some bs) = Ok (inr g).
Proof.
move=> H2 N0 Hlen; rewrite ReadGraph_spec ltnNge H2 /=.
have -> : (file_size bs <=? 0) = false by apply/Z.leb_gt.
set n := Z.to_nat (file_size bs).
have -> : (size bs < 2 + (n * n).*2)%N = false.
  by apply/negbTE; rewrite -leqNgt; move: Hlen; rewrite /zlen /n => Hlen; nat_norm; nia.
have [g [-> _ _ _]] := @matrix_to_graph_spec (file_size bs)
  (mkseq (fun k => mkseq (fun j => word_at bs (k * n + j).+1) n) n) N0.
by exists g.
Qed.

Lemma word_at_cat bs extra k :
  (k.*2.+1 < size bs)%N -> word_at (bs ++ extra) k = word_at bs k.
Proof.
move=> Hk; rewrite /word_at !nth_cat Hk.
by have -> : (k.*2 < size bs)%N by apply: ltn_trans Hk.
Qed.

Lemma file_entry_cat bs extra i j :
  0 < file_size bs -> 2 + 2 * file_size bs * file_size bs <= zlen bs ->
  0 <= i < file_size bs -> 0 <= j < file_size bs ->
  file_size (bs ++ extra) = file_size bs /\
  file_entry (bs ++ extra) i j = file_entry bs i j.
Proof.
move=> N0 Hlen Hi Hj.
have E : file_size (bs ++ extra) = file_size bs.
  by apply: word_at_cat; move: Hlen; rewrite /zlen => Hlen; nat_norm; nia.
split=> //; rewrite /file_entry E; apply: word_at_cat.
move: Hlen; rewrite /zlen; move: (file_size bs) N0 Hi Hj => N N0 Hi Hj Hlen.
set k := Z.to_nat _.
have Hk : Z.of_nat k = 1 + i * N + j by rewrite /k Z2Nat.id; nia.
by nat_norm; nia.
Qed.

(** X7. [ReadGraph] does not look past the matrix: bytes that follow it
    in the file change nothing. *)
Theorem ReadGraph_trailing bs g extra :
  ReadGraph (Some bs) = Ok (inr g) ->
  ReadGraph (Some (bs ++ extra)) = Ok (inr g).
Proof.
move=> E; have [_ [[<-] N0 Hlen [V L] A]] := ReadGraph_inr E.
have Hc i j := @file_entry_cat bs extra i j N0 Hlen.
have EN : file_size (bs ++ extra) = file_size bs.
  by have [] := Hc 0 0; lia.
have [|||g' E'] := @ReadGraph_loads (bs ++ extra).
- rewrite size_cat; apply: leq_trans (leq_addr _ _).
  by apply/leP; move: Hlen; rewrite /zlen; nia.
- by rewrite EN.
- by rewrite EN /zlen size_cat Nat2Z.inj_add; move: Hlen; rewrite /zlen; lia.
rewrite E'; congr (Ok (inr _)).
have [_ [[<-] _ _ [V' L'] A']] := ReadGraph_inr E'.
apply: graph_ext; rewrite ?V ?V' ?L ?L' ?EN // => w.
rewrite A A' /loaded_adj EN; congr (flatten (map _ _)).
by apply: upper_pairs_ext => i j Hi Hj; have [] := Hc i j Hi Hj.
Qed.

Lemma ReadGraph_trailing_path4 :
  ReadGraph (Some (path4_file ++ [:: xff; x00; x2a])) = Ok (inr path4_graph).
Proof. exact: (ReadGraph_trailing _ ReadGraph_path4). Defined.

(** X8. The graph [ReadGraph] returns depends on the size and on which
    entries above the diagonal are zero, on nothing else: a file of the
    same size that holds a whole matrix with zeros at the same places
    above the diagonal loads the same graph, whatever the values of the
    other entries, on the diagonal and below it (the matrix need not be
    symmetric). *)
Theorem ReadGraph_upper_triangle bs bs' g :
  ReadGraph (Some bs) = Ok (inr g) ->
  file_size bs' = file_size bs ->
  2 + 2 * file_size bs * file_size bs <= zlen bs' ->
  (forall i j, 0 <= i < j -> j < file_size bs ->
     file_entry bs i j = 0 <-> file_entry bs' i j = 0) ->
  ReadGraph (Some bs') = Ok (inr g).
Proof.
move=> E EN Hlen' Hz.
have [_ [[<-] N0 Hlen [V L] A]] := ReadGraph_inr E.
have [|||g' E'] := @ReadGraph_loads bs'; rewrite ?EN //.
  by apply/leP; move: Hlen'; rewrite /zlen; nia.
rewrite E'; congr (Ok (inr _)).
have [_ [[<-] _ _ [V' L'] A']] := ReadGraph_inr E'.
apply: graph_ext; rewrite ?V ?V' ?L ?L' ?EN // => w.
rewrite A A' /loaded_adj EN; congr (flatten (map _ _)).
apply: eq_in_filter => -[i j]; rewrite mem_pairs /= => /andP[/zrangeP Hi /zrangeP Hj].
case: (Z.ltb_spec i j) => Hij; rewrite ?andbF // !andbT.
have H := Hz i j (conj (proj1 Hi) Hij) (proj2 Hj).
by congr (~~ _); apply/eqP/eqP => /H.
Qed.

(** A file for the path 0 - 1 - 2 - 3 with other values above the
    diagonal, and entries on the diagonal and below it that are not those
    of a symmetric matrix. *)
Definition path4_upper_file : seq Byte.byte :=
  [:: x04; x00;
      x07; x00;  xff; xff;  x00; x00;  x00; x00;
      x00; x00;  x00; x00;  x02; x00;  x00; x00;
      x05; x00;  x00; x00;  x01; x00;  x00; x80;
      x00; x00;  x00; x00;  x00; x00;  x09; x00].

Lemma ReadGraph_upper_triangle_path4 :
  ReadGraph (Some path4_upper_file) = Ok (inr path4_graph).
Proof.
apply: (ReadGraph_upper_triangle ReadGraph_path4) => // i j Hi Hj.
have {}Hj : j < 4 := Hj.
have [Ei|[Ei|Ei]] : i = 0 \/ i = 1 \/ i = 2 by lia.
- have [Ej|[Ej|Ej]] : j = 1 \/ j = 2 \/ j = 3 by lia.
  + by rewrite Ei Ej; split.
  + by rewrite Ei Ej; split.
  + by rewrite Ei Ej; split.
- have [Ej|Ej] : j = 2 \/ j = 3 by lia.
  + by rewrite Ei Ej; split.
  + by rewrite Ei Ej; split.
- have Ej : j = 3 by lia.
  by rewrite Ei Ej; split.
Defined.

(** * Connected components: their number and their order *)

Lemma flatten_disjoint (T : eqType) (ss : seq (seq T)) (c c' : seq T) (x : T) :
  uniq (flatten ss) -> c \in ss -> c' \in ss -> x \in c -> x \in c' -> c = c'.
Proof.
elim: ss => [|s ss IH] //=; rewrite cat_uniq => /and3P[_ /hasPn Hd U].
rewrite !inE => /orP[/eqP->|Hc] /orP[/eqP->|Hc'] // Hx Hx'.
- by have /negP[] := Hd x (introT flattenP (ex_intro2 _ _ c' Hc' Hx')).
- by have /negP[] := Hd x (introT flattenP (ex_intro2 _ _ c Hc Hx)).
- exact: IH.
Qed.

Lemma flatten_uniq (T : eqType) (ss : seq (seq T)) :
  uniq (flatten ss) -> [::] \notin ss -> uniq ss.
Proof.
elim: ss => [|s ss IH] //=; rewrite cat_uniq inE negb_or.
case/and3P=> _ /hasPn Hd U /andP[Hs Hn]; rewrite IH // andbT.
apply/negP => Hin; case: s Hs Hd Hin => [|x s] // _ Hd Hin.
have /negP[] := Hd x (introT flattenP (ex_intro2 _ _ (x :: s) Hin (mem_head _ _))).
exact: mem_head.
Qed.

Section CCCount.
Variable g : Graph.
Hypothesis Hg : adjacency_invariant g.
Let n := Z.to_nat (Vertices g).
Let e := ord_rel n (edge g).

(** The root of the component [c], among the vertices of [c]. *)
Let pick_root (c : seq Z) : option 'I_n :=
  [pick x : 'I_n | (zv x \in c) && (x \in roots e)].

Lemma partition_count (comps : seq (seq Z)) :
  perm_eq (flatten comps) (zrange (Vertices g)) -> [::] \notin comps ->
  (forall u v, 0 <= u < Vertices g -> 0 <= v < Vertices g ->
     (exists c, [/\ c \in comps, u \in c & v \in c]) <-> connects (edge g) u v) ->
  size comps = components n (edge g) predT.
Proof.
move=> Hp Hne Hc.
have Hn : Z.of_nat n = Vertices g := Vertices_n Hg.
have Hr : forall a b, edge g a b -> 0 <= b < Z.of_nat n := edge_rng Hg.
have Hs : connect_sym e by apply/sym_connect_sym/ord_rel_sym/edge_sym.
have Hu : uniq (flatten comps) by rewrite (perm_uniq Hp) uniq_zrange.
have Hin c x : c \in comps -> x \in c -> 0 <= x < Vertices g.
  move=> Hcc Hx; apply/zrangeP; rewrite -(perm_mem Hp).
  by apply/flattenP; exists c.
have Hcl c (x y : 'I_n) : c \in comps -> zv x \in c ->
    (zv y \in c) = connect e x y.
  move=> Hcc Hx; apply/idP/idP => [Hy|/(connect_ordP x y Hr) Hxy].
    apply/(connect_ordP x y Hr)/Hc; rewrite -?Hn; try exact: zv_range.
    by exists c.
  have [||c' [Hc' Hx' Hy']] := proj2 (Hc (zv x) (zv y) _ _) Hxy;
    rewrite -?Hn; try exact: zv_range.
  by rewrite (flatten_disjoint Hu Hcc Hc' Hx Hx').
have Hpick c : c \in comps ->
    exists x, [/\ pick_root c = Some x, zv x \in c & x \in roots e].
  move=> Hcc; rewrite /pick_root; case: pickP => [x /andP[Hx Hrx]|Hno].
    by exists x.
  case: c Hcc Hno => [|y c] Hcc Hno; first by rewrite Hcc in Hne.
  have [|x Ex] := @zv_surj n y.
    by rewrite Hn; apply: (Hin _ _ Hcc); rewrite mem_head.
  have Hx : zv x \in y :: c by rewrite Ex mem_head.
  have := Hno (root e x).
  rewrite (Hcl _ x _ Hcc Hx) connect_root /=.
  by have -> : root e x \in roots e by exact: roots_root.
have Hmem : map pick_root comps =i map Some (enum (roots e)).
  move=> o; apply/mapP/mapP => [[c Hcc ->]|[x]].
    have [x [-> _ Hrx]] := Hpick c Hcc.
    by exists x => //; rewrite mem_enum.
  rewrite mem_enum => Hrx ->.
  have : zv x \in flatten comps.
    by rewrite (perm_mem Hp); apply/zrangeP; rewrite -Hn; exact: zv_range.
  case/flattenP=> c Hcc Hx; exists c => //.
  have [x' [-> Hx' Hrx']] := Hpick c Hcc; congr Some.
  have := Hcl c x x' Hcc Hx; rewrite Hx' => /esym/(rootP Hs).
  by rewrite (eqP Hrx) (eqP Hrx').
have Hinj : {in comps &, injective pick_root}.
  move=> c c' Hcc Hcc' E.
  have [x [Ex Hx _]] := Hpick c Hcc; have [x' [Ex' Hx' _]] := Hpick c' Hcc'.
  have Exx : x = x' by move: E; rewrite Ex Ex' => -[].
  by apply: (flatten_disjoint Hu Hcc Hcc' Hx); rewrite Exx.
have U1 : uniq (map pick_root comps).
  by rewrite (map_inj_in_uniq Hinj); apply: flatten_uniq.
have U2 : uniq (map Some (enum (roots e))).
  by rewrite map_inj_uniq ?enum_uniq // => a b [].
have := perm_size (uniq_perm U1 U2 Hmem); rewrite !size_map => ->.
rewrite components_all -cardE /n_comp_mem; apply: eq_card => x.
by rewrite !inE andbT.
Qed.

End CCCount.

(** ** The order of the components *)

Section CCOrder.
Variable g : Graph.

Lemma cc_scan_prefix (rec : Z -> CCState -> outcome CCState) l s s' :
  (forall v s s', rec v s = Ok s' -> exists r, component s' = component s ++ r) ->
  cc_scan rec l s = Ok s' -> exists r, component s' = component s ++ r.
Proof.
move=> Hrec; elim: l s => [|v l IH] s /=.
  by case=> <-; exists [::]; rewrite cats0.
case: ifP => // _; case: ifP => _; last exact: IH.
case E: (rec v s) => [s1| |] //= /IH[r2 ->].
by have [r1 ->] := Hrec _ _ _ E; exists (r1 ++ r2); rewrite catA.
Qed.

Lemma cc_dfs_prefix d u s s' :
  cc_dfs g d u s = Ok s' -> exists r, component s' = rcons (component s) u ++ r.
Proof.
elim: d u s s' => [|d IH] u s s' //=.
case: ifP => // _; case: ifP => // _ /cc_scan_prefix; apply.
by move=> v s1 s1' /IH[r ->]; exists (v :: r); rewrite cat_rcons.
Qed.

End CCOrder.

Section CCOrderTheory.
Variable g : Graph.
Hypothesis Hg : adjacency_invariant g.
Let n := Z.to_nat (Vertices g).

(** The state of the loop over the roots when it reaches the vertex [a]. *)
Definition cc_ord (a : nat) (V : seq bool) (comps : seq (seq Z)) : Prop :=
  [/\ cc_inv g V comps,
      forall x, 0 <= x < Z.of_nat a -> vis V x,
      forall c, c \in comps ->
        head 0 c < Z.of_nat a /\ forall x, x \in c -> head 0 c <= x
    & pairwise Z.ltb [seq head 0 c | c <- comps]].

Lemma cc_root_order a V comps :
  (a < n)%N -> cc_ord a V comps ->
  exists V' comps',
    cc_root g n (V, comps) (Z.of_nat a) = Ok (V', comps') /\ cc_ord a.+1 V' comps'.
Proof.
move=> Han [Hi Hlow Hc Hp].
have Hn : Z.of_nat n = Vertices g by exact: Vertices_n.
have Hu : 0 <= Z.of_nat a < Vertices g by rewrite -Hn; move/ltP: Han; lia.
have [V' [comps' [E Hi' Hva Hmono]]] := cc_root_spec Hg (leqnn _) Hi Hu.
exists V', comps'; split=> //.
have Hlow' x : 0 <= x < Z.of_nat a.+1 -> vis V' x.
  move=> Hx; have [->|Hne] := Z.eq_dec x (Z.of_nat a) => //.
  by apply/Hmono/Hlow; lia.
move: E; rewrite /cc_root /=; case Hvu: (zget false V (Z.of_nat a)) => /=.
  case=> EV Ec; split=> //; rewrite -Ec // => c Hcc.
  by have [H1 H2] := Hc c Hcc; split=> //; lia.
have L := cci_len Hi.
have Hin : inb V (Z.of_nat a) by rewrite /inb L; z_lia.
have Hnv : ~~ vis V (Z.of_nat a) by rewrite /vis Hin Hvu.
have [|s' [nw [Es St _ _]]] := @cc_dfs_spec _ Hg n (Z.of_nat a) (mkCC V [::]) L Hnv Hin.
  apply: leq_trans (count_size _ _) _.
  by move: L; rewrite /n /zlen => <-; rewrite Nat2Z.id.
rewrite Es /= => -[EV Ec]; subst comps'.
have [r Er] := cc_dfs_prefix Es; rewrite /= in Er.
have Enw : nw = Z.of_nat a :: r by rewrite -Er (cc_comp St).
have Hnew x : x \in component s' -> Z.of_nat a <= x.
  rewrite (cc_comp St) /= => Hx; have := cc_new St Hx => /= Hnx.
  have : vis (cc_visited s') x by rewrite (cc_vis St) Hx orbT.
  move/vis_inb; rewrite /inb => Hix.
  case: (Z.le_gt_cases (Z.of_nat a) x) => // Hlt.
  by rewrite Hlow // in Hnx; z_lia.
split=> //.
- move=> c; rewrite mem_rcons inE => /orP[/eqP->|Hcc].
    by rewrite Er /=; split; [lia | move=> x; rewrite -[_ :: r]Er => /Hnew].
  by have [H1 H2] := Hc c Hcc; split=> //; lia.
- rewrite map_rcons pairwise_rcons Hp andbT Er /=.
  by apply/allP => h /mapP[c Hcc ->]; have [H1 _] := Hc c Hcc; apply/Z.ltb_lt.
Qed.

Lemma cc_fold_order m a V comps :
  (a + m = n)%N -> cc_ord a V comps ->
  exists V' comps',
    foldM (cc_root g n) (V, comps) [seq Z.of_nat k | k <- iota a m]
      = Ok (V', comps') /\ cc_ord n V' comps'.
Proof.
elim: m a V comps => [|m IH] a V comps.
  by rewrite addn0 => <- H; exists V, comps.
rewrite addnS -addSn => Ham Ho.
have [|V1 [comps1 [E1 Ho1]]] := cc_root_order _ Ho.
  by rewrite -Ham ltnS leq_addr.
have [V2 [comps2 [E2 Ho2]]] := IH _ _ _ Ham Ho1.
by exists V2, comps2; rewrite /= E1.
Qed.

Lemma ConnectedComponents_order_spec :
  exists comps,
    [/\ ConnectedComponents g = Ok comps,
        forall c x, c \in comps -> x \in c -> head 0 c <= x
      & sorted Z.ltb [seq head 0 c | c <- comps]].
Proof.
have [||V [comps [E [_ _ Hc Hp]]]] := @cc_fold_order n 0 (nseq n false) [::].
- by [].
- by split=> //; [exact: cc_inv_init | move=> x; lia].
exists comps; split.
- rewrite /ConnectedComponents /cc_run /zrange -/n E /=.
  by have -> : (Vertices g <? 0) = false by have := inv_pos Hg => ?; z_lia.
- by move=> c x Hcc; have [_ H] := Hc c Hcc; exact: H.
- by rewrite (sorted_pairwise ltb_trans).
Qed.

End CCOrderTheory.

(** X9. On a graph that satisfies the adjacency invariant (every graph
    built by [NewGraph] and [AddEdge] with at least one vertex does), no
    component that [ConnectedComponents] returns is empty, no component is
    returned twice, and the number of components returned is the number
    of connected components of the graph. *)
Theorem ConnectedComponents_count (g : Graph) (comps : seq (seq Z)) :
  adjacency_invariant g -> ConnectedComponents g = Ok comps ->
  [/\ [::] \notin comps, uniq comps
    & size comps = components (Z.to_nat (Vertices g)) (edge g) predT].
Proof.
move=> Hg; have [comps' [-> Hp Hne Hc]] := ConnectedComponents_spec Hg.
case=> <-; split=> //; last exact: partition_count.
by apply: flatten_uniq => //; rewrite (perm_uniq Hp) uniq_zrange.
Qed.

Lemma ConnectedComponents_count_path4 :
  [/\ [::] \notin [:: [:: 0; 1; 2; 3]], uniq [:: [:: 0; 1; 2; 3]]
    & size [:: [:: 0; 1; 2; 3]] = components 4 (edge path4_graph) predT].
Proof.
exact: (ConnectedComponents_count (ReadGraph_invariant ReadGraph_path4) erefl).
Defined.

(** X10. On a graph that satisfies the adjacency invariant, every
    component [ConnectedComponents] returns begins with its least vertex,
    and the components come in the increasing order of these first
    vertices; the first component begins with the vertex 0. *)
Theorem ConnectedComponents_order (g : Graph) :
  adjacency_invariant g ->
  exists comps,
    [/\ ConnectedComponents g = Ok comps,
        forall c x, c \in comps -> x \in c -> head 0 c <= x,
        sorted Z.ltb [seq head 0 c | c <- comps]
      & head 0 (head [::] comps) = 0].
Proof.
move=> Hg; have [comps [E Hmin Hs]] := ConnectedComponents_order_spec Hg.
exists comps; split=> //.
have [comps' [E' Hp Hne _]] := ConnectedComponents_spec Hg.
move: E'; rewrite E => -[Ec]; subst comps'.
have Hrng c x : c \in comps -> x \in c -> 0 <= x.
  move=> Hc Hx; suff /zrangeP[] : x \in zrange (Vertices g) by [].
  by rewrite -(perm_mem Hp); apply/flattenP; exists c.
have Hhd c : c \in comps -> head 0 c \in c.
  by case: c => [|y l] Hc; [rewrite Hc in Hne | rewrite mem_head].
have : 0 \in flatten comps.
  by rewrite (perm_mem Hp); apply/zrangeP; have := inv_pos Hg; lia.
case/flattenP=> c Hc H0.
have Eh : head 0 c = 0.
  by have := Hmin c 0 Hc H0; have := Hrng c _ Hc (Hhd c Hc); lia.
case: comps Hc Hs Hrng Hhd {E Hp Hne Hmin} => [|c0 comps] //= Hc Hs Hrng Hhd.
move: Hc; rewrite inE => /orP[/eqP<- //|Hc].
have /allP/(_ (head 0 c)) := order_path_min ltb_trans Hs.
rewrite map_f // Eh => /(_ isT) /Z.ltb_lt.
by have := Hrng c0 _ (mem_head _ _) (Hhd c0 (mem_head _ _)); lia.
Qed.

Lemma ConnectedComponents_order_path4 :
  exists comps,
    [/\ ConnectedComponents path4_graph = Ok comps,
        forall c x, c \in comps -> x \in c -> head 0 c <= x,
        sorted Z.ltb [seq head 0 c | c <- comps]
      & head 0 (head [::] comps) = 0].
Proof.
exact: (ConnectedComponents_order (ReadGraph_invariant ReadGraph_path4)).
Defined.

(** * The size of a loaded graph *)

Lemma byteZ_range b : 0 <= byteZ b < 256.
Proof.
by rewrite /byteZ; have := Byte.to_N_bounded b; lia.
Qed.

Lemma le_int16_range b0 b1 : -32768 <= le_int16 b0 b1 <= 32767.
Proof.
rewrite /le_int16 /int16.
have [H0 H0'] := byteZ_range b0; have [H1 H1'] := byteZ_range b1.
set h := Z.shiftl _ _.
have Eh : h = byteZ b1 * 256 by rewrite /h Z.shiftl_mul_pow2.
have Hl : 0 <= Z.land (byteZ b0) h by apply/Z.land_nonneg; left.
have Ho : 0 <= Z.lor (byteZ b0) h by apply/Z.lor_nonneg; split=> //; lia.
have := Z.add_lor_land (byteZ b0) h.
by case: Z.ltb_spec; lia.
Qed.

(** X11. A graph loaded by [ReadGraph] has between 1 and 32767 vertices
    (the size field is an [int16]), the file it was loaded from holds at
    least [2 + 2 * N * N] bytes, and every vertex has fewer than [N]
    neighbours. *)
Theorem ReadGraph_bounds bs g :
  ReadGraph (Some bs) = Ok (inr g) ->
  [/\ 1 <= Vertices g <= 32767,
      2 + 2 * Vertices g * Vertices g <= zlen bs
    & forall u, Z.of_nat (size (adj g u)) < Vertices g].
Proof.
move=> E; have Hg := ReadGraph_invariant E; have Hs := ReadGraph_simple E.
have [_ [[<-] N0 Hlen [V L] A]] := ReadGraph_inr E.
split.
- rewrite V; split; first by lia.
  rewrite /file_size /word_at.
  by have := le_int16_range (nth x00 bs 0.*2) (nth x00 bs 0.*2.+1); lia.
- by rewrite V.
move=> u; have [Hu Hnu] := Hs u.
case Hin: (inb (AdjList g) u); last first.
  by rewrite adj_out ?Hin //=; have := inv_pos Hg; lia.
have : (size (u :: adj g u) <= size (zrange (Vertices g)))%N.
  apply: uniq_leq_size; first by rewrite /= Hnu.
  move=> x; rewrite inE => /orP[/eqP->|Hx]; last exact/zrangeP/(inv_rng Hg Hx).
  by apply/zrangeP; rewrite -(inv_len Hg); exact/inbP.
rewrite size_zrange /= => /ltP; have := inv_pos Hg; lia.
Qed.

Lemma ReadGraph_bounds_path4 :
  [/\ 1 <= Vertices path4_graph <= 32767,
      2 + 2 * Vertices path4_graph * Vertices path4_graph <= zlen path4_file
    & forall u, Z.of_nat (size (adj path4_graph u)) < Vertices path4_graph].
Proof. exact: (ReadGraph_bounds ReadGraph_path4). Defined.

(** * Articulation points and bridges: nothing is reported twice *)

(** A run from [s] to [s'] that appended the bridges [nw]: each of them
    ends in a vertex that the run marked. *)
Record apb_step (s s' : APBState) (nw : seq (Z * Z)) : Prop := APBStep {
  as_vis : forall x, tvis (apb_tr s) x -> tvis (apb_tr s') x;
  as_ap : uniq (ap s) -> uniq (ap s');
  as_br : br s' = br s ++ nw;
  as_new : forall e, e \in nw -> ~~ tvis (apb_tr s) e.2 /\ tvis (apb_tr s') e.2;
  as_uniq : uniq [seq e.2 | e <- nw]
}.

Lemma apb_step_refl s : apb_step s s [::].
Proof. by split=> //; rewrite cats0. Qed.

Lemma apb_step_trans s1 s2 s3 nw1 nw2 :
  apb_step s1 s2 nw1 -> apb_step s2 s3 nw2 -> apb_step s1 s3 (nw1 ++ nw2).
Proof.
move=> [V1 A1 B1 N1 U1] [V2 A2 B2 N2 U2]; split.
- by move=> x /V1/V2.
- by move=> /A1/A2.
- by rewrite B2 B1 catA.
- move=> e; rewrite mem_cat => /orP[/N1[H1 H2]|/N2[H1 H2]].
    by split=> //; apply: V2.
  by split=> //; apply: contra H1; apply: V1.
- rewrite map_cat cat_uniq U1 U2 andbT /=.
  apply/hasPn => x /mapP[e /N2[He _] ->]; apply/negP => /mapP[e' /N1[_ He'] E].
  by rewrite E He' in He.
Qed.

Lemma uniq_mark_ap u s : uniq (ap s) -> uniq (ap (mark_ap u s)).
Proof.
by rewrite /mark_ap; case: ifP => //= Hu; rewrite rcons_uniq Hu.
Qed.

Lemma apb_ret_facts u v children s :
  [/\ visited (apb_tr (apb_ret u v children s)) = visited (apb_tr s),
      uniq (ap s) -> uniq (ap (apb_ret u v children s))
    & exists b : bool,
        br (apb_ret u v children s) = br s ++ (if b then [:: (u, v)] else [::])].
Proof.
rewrite /apb_ret.
set t := relax _ _ _; set s0 := mkAPB t _ _.
set s1 := if _ && (children >? 1) then _ else _.
set s2 := if _ && (_ >=? _) then _ else _.
have A1 : uniq (ap s) -> uniq (ap s1).
  by rewrite /s1; case: ifP => // _; exact: (@uniq_mark_ap u s0).
have A2 : uniq (ap s) -> uniq (ap s2).
  by move/A1; rewrite /s2; case: ifP => // _; exact: (@uniq_mark_ap u s1).
have T1 : apb_tr s1 = t by rewrite /s1; case: ifP => // _; rewrite mark_ap_tr.
have T2 : apb_tr s2 = t by rewrite /s2; case: ifP => // _; rewrite mark_ap_tr.
have B1 : br s1 = br s by rewrite /s1; case: ifP => // _; rewrite mark_ap_br.
have B2 : br s2 = br s by rewrite /s2; case: ifP => // _; rewrite mark_ap_br.
case: ifP => _ /=; rewrite T2 B2; split=> //.
- by exists true; rewrite cats1.
- by exists false; rewrite cats0.
Qed.

Section APBUniq.
Variable g : Graph.

Lemma apb_scan_step (rec : Z -> APBState -> outcome APBState) :
  (forall v s s', rec v s = Ok s' ->
     exists nw, [/\ apb_step s s' nw, tvis (apb_tr s') v
                  & forall e, e \in nw -> e.2 <> v]) ->
  forall u l children s s',
    apb_scan rec u l children s = Ok s' -> exists nw, apb_step s s' nw.
Proof.
move=> Hrec u; elim=> [|v l IH] children s s'.
  by case=> <-; exists [::]; exact: apb_step_refl.
rewrite apb_scan_cons; case Hin: (inb _ v) => //=.
case Hv: (zget false _ v) => /=; last first.
  set s1 := mkAPB _ _ _.
  case E: (rec v s1) => [s2| |] //= /IH[nw3 St3].
  have [nw1 [St1 Hv2 Hne]] := Hrec _ _ _ E.
  have [EV HA [b Eb]] := apb_ret_facts u v (children + 1) s2.
  set s3 := apb_ret _ _ _ _ in EV HA Eb St3.
  have Hnv : ~~ tvis (apb_tr s) v by rewrite /tvis /vis Hin Hv.
  have St13 : apb_step s s3 (nw1 ++ if b then [:: (u, v)] else [::]).
    case: St1 => /= V1 A1 B1 N1 U1; split.
    - by move=> x /V1; rewrite /tvis EV.
    - by move=> /A1/HA.
    - by rewrite Eb B1 catA.
    - move=> e; rewrite mem_cat /tvis EV => /orP[/N1 //|].
      by case: (b) => //; rewrite inE => /eqP->.
    - rewrite map_cat cat_uniq U1 /=; case: (b) => //=; rewrite orbF andbT.
      by apply/negP => /mapP[e /Hne He /= Ev]; apply: He.
  by eexists; apply: apb_step_trans St13 St3.
case: ifP => _; last exact: IH.
set s1 := mkAPB _ _ _ => /IH[nw St]; exists nw.
by case: St => /= V A B N U; split.
Qed.

Lemma apb_dfs_step d u s s' :
  apb_dfs g d u s = Ok s' ->
  exists nw, [/\ apb_step s s' nw, tvis (apb_tr s') u
               & forall e, e \in nw -> e.2 <> u].
Proof.
elim: d u s s' => [|d IH] u s s' //=.
case Hin: (inb _ u) => //=; case: ifP => // _.
set s1 := mkAPB _ _ _ => /(apb_scan_step IH)[nw St]; exists nw.
have Hvis x : tvis (apb_tr s1) x = (x == u) || tvis (apb_tr s) x.
  by rewrite /tvis /= vis_zset.
case: St => V A B N U.
have Hu : tvis (apb_tr s') u by apply: V; rewrite Hvis eqxx.
split=> //; last first.
  by move=> e /N[]; rewrite Hvis negb_or => /andP[/eqP].
split=> //.
- by move=> x Hx; apply: V; rewrite Hvis Hx orbT.
- by move=> e /N[]; rewrite Hvis negb_or => /andP[].
Qed.

Lemma apb_run_step d s :
  apb_run g d = Ok s -> uniq (ap s) /\ uniq [seq e.2 | e <- br s].
Proof.
rewrite /apb_run; case: ifP => // _.
set s0 := mkAPB _ _ _ => E.
suff [nw [_ A B _ U]] : exists nw, apb_step s0 s nw by rewrite B; split=> //; exact: A.
elim: (zrange _) s0 E => [|u l IH] s0 /=.
  by case=> <-; exists [::]; exact: apb_step_refl.
case: ifP => _ /=; last exact: IH.
case E: (apb_dfs g d u s0) => [s1| |] //= /IH[nw2 St2].
have [nw1 [St1 _ _]] := apb_dfs_step E.
by eexists; apply: apb_step_trans St1 St2.
Qed.

End APBUniq.

(** X12. Whatever the graph, when [ArticulationPointsAndBridges] returns,
    no vertex occurs twice in the list of articulation points, and no
    vertex is the second end of two bridges of the list: in particular no
    bridge is listed twice. *)
Theorem ArticulationPointsAndBridges_uniq (g : Graph) aps brs :
  ArticulationPointsAndBridges g = Ok (aps, brs) ->
  [/\ uniq aps, uniq [seq e.2 | e <- brs] & uniq brs].
Proof.
rewrite /ArticulationPointsAndBridges.
case E: (apb_run g _) => [s| |] //= [<- <-].
have [Ha Hb] := apb_run_step E; split=> //.
exact: map_uniq Hb.
Qed.

Lemma ArticulationPointsAndBridges_uniq_path4 :
  [/\ uniq [:: 2; 1], uniq [seq e.2 | e <- [:: (2, 3); (1, 2); (0, 1)]]
    & uniq [:: (2, 3); (1, 2); (0, 1)]].
Proof.
apply: (@ArticulationPointsAndBridges_uniq path4_graph).
by vm_compute.
Defined.

(** * Bridges and articulation points agree *)

Section BridgeEnds.
Variable g : Graph.
Hypothesis Hg : adjacency_invariant g.
Variable t : Traversal.
Hypothesis Ht : tr_inv g t.
Hypothesis Hall : forall x, 0 <= x < Vertices g -> tvis t x.
Hypothesis He : edge_ok g t.
Hypothesis Hfin : forall x, tvis t x -> fin g t x.
Hypothesis Hsim : simple_graph g.

(** The only neighbour of [x] is [y]. *)
Lemma adj_single x y :
  y \in adj g x -> (forall w, w \in adj g x -> w = y) -> adj g x = [:: y].
Proof.
have [Hu _] := Hsim x; case: (adj g x) Hu => [|a [|b l]] //=.
  by rewrite inE => _ /eqP->.
rewrite inE negb_or => /andP[/andP[/eqP Hab _] _] _ H; case: Hab.
have Ea : a = y by apply: H; rewrite mem_head.
have Eb : b = y by apply: H; rewrite !inE eqxx orbT.
by rewrite Ea Eb.
Qed.

(** A bridge is not listed in the other orientation. *)
Lemma bridge_at_asym u v : bridge_at t (u, v) -> ~~ bridge_at t (v, u).
Proof.
case/and4P=> /= Hu Hv /eqP Ev _; apply/negP => /and4P[/= _ _ /eqP Eu _].
have Hpv : par t v <> -1.
  by rewrite Ev; have := tvis_range (ti_size Ht) Hu; lia.
have Hpu : par t u <> -1.
  by rewrite Eu; have := tvis_range (ti_size Ht) Hv; lia.
have [_ H1 _] := tree_edge Ht Hv Hpv; have [_ H2 _] := tree_edge Ht Hu Hpu.
by move: H1 H2; rewrite Ev Eu; lia.
Qed.

(** The upper end of a bridge passes the test of an articulation point,
    or has no other neighbour. *)
Lemma bridge_upper u v :
  bridge_at t (u, v) -> art g t u \/ adj g u = [:: v].
Proof.
case/and4P=> /= Hu Hv /eqP Ev /Z.ltb_lt Hlow.
have Hur := tvis_range (ti_size Ht) Hu.
have Hpv : par t v <> -1 by rewrite Ev; lia.
have [_ Hlt Huv] := tree_edge Ht Hv Hpv; rewrite Ev in Hlt Huv.
have [Huq _] := Hsim u.
rewrite /art /art_upto; case: eqP => [Eu|Hpu]; last first.
  by left; apply/hasP; exists v => //; rewrite Ev eqxx /=; apply/Z.leb_le; lia.
case: ltnP => [_|Hcnt]; [by left | right].
apply: adj_single => // w Hw; apply/eqP/negPn/negP => /eqP Hwv.
have [_ Hwt] := edge_vis Hg Hall Hw.
have Hwu : w <> u by apply/nesym/(edge_neq Hsim Hw).
have Hdw : desc t u w.
  case: (He Hu Hwt Hw) => // /(root_top Eu) E; by case: Hwu.
have [c [Hc Ec Hpc Hcw]] := desc_child Hdw Hwu.
have [_ _ Huc] := tree_edge Ht Hc Hpc; rewrite Ec in Huc.
have Ecv : c = v.
  by apply: (count_le1 Huq Hcnt) => //; rewrite ?Ec ?Ev.
rewrite Ecv in Hcw.
have Hpw : par t w <> u.
  move=> Epw; case: Hwv.
  by apply: (count_le1 Huq Hcnt) => //; rewrite ?Epw ?Ev.
have [_ Ha _] := Hfin Hwt.
have := Ha u (inv_sym Hg Hw) (nesym Hpw).
by have := low_desc Ht Hfin Hcw Hwt; lia.
Qed.

(** The lower end of a bridge passes the test of an articulation point,
    or has no other neighbour. *)
Lemma bridge_lower u v :
  bridge_at t (u, v) -> art g t v \/ adj g v = [:: u].
Proof.
case/and4P=> /= Hu Hv /eqP Ev /Z.ltb_lt Hlow.
have Hur := tvis_range (ti_size Ht) Hu.
have Hpv : par t v <> -1 by rewrite Ev; lia.
have [_ Hlt Huv] := tree_edge Ht Hv Hpv; rewrite Ev in Hlt Huv.
have Hvu : u \in adj g v by apply: (inv_sym Hg).
case Ha: (art g t v); [by left | right].
apply: adj_single => // w Hw; apply/eqP/negPn/negP => /eqP Hwu.
have [_ Hwt] := edge_vis Hg Hall Hw.
have Hwv : w <> v by apply/nesym/(edge_neq Hsim Hw).
have [_ Hadj _] := Hfin Hv.
case: (He Hv Hwt Hw) => Hd; last first.
  have [_ _ Hdp] := desc_parent Hd (nesym Hwv); rewrite Ev in Hdp.
  have := desc_lt Ht Hdp Hwu.
  by have := Hadj w Hw; rewrite Ev => /(_ Hwu); lia.
have [c [Hc Ec Hpc Hcw]] := desc_child Hd Hwv.
have [_ Hvc Hec] := tree_edge Ht Hc Hpc; rewrite Ec in Hvc Hec.
case: (Z.le_gt_cases (disc t v) (lowv t c)) => Hlc.
  move: Ha; rewrite /art /art_upto; case: eqP => [E|_]; first by rewrite E in Hpv.
  move/negbT/hasPn/(_ c Hec); rewrite Ec eqxx /= => /Z.leb_spec0.
  by [].
have [Hk _ _] := Hfin Hv.
have Hvc' := Hk c Hc Ec.
have [y [z [Hcy Hy Hz El Hyz]]] := low_reach Ht Hfin Hc.
have Hle := desc_le Ht Hcy.
case: Hyz => [E|[Hzy Hzp]]; first by rewrite E in El; lia.
case: (sub_edge Hg Ht Hall He Hfin Hc Hcy Hzy) => [Hcz|[_ _ Hzv _]].
  by have := desc_le Ht Hcz; lia.
rewrite Ec in Hzv.
have Hzv' : v <> z by move=> E; rewrite -E in El; lia.
have [_ _ Hzu] := desc_parent Hzv Hzv'; rewrite Ev in Hzu.
by have := desc_le Ht Hzu; lia.
Qed.

(** A vertex that passes the test has two neighbours. *)
Lemma art_degree x : tvis t x -> art g t x -> (1 < size (adj g x))%N.
Proof.
move=> Hx; rewrite /art /art_upto; case: eqP => [_|Hp].
  by move=> H; apply: leq_trans H (count_size _ _).
case/hasP=> c Hc /andP[/eqP Ec _].
have [Hpx Hlt Hpe] := tree_edge Ht Hx Hp.
have Hpa : par t x \in adj g x by apply: (inv_sym Hg).
have [_ Hct] := edge_vis Hg Hall Hc.
have Hpc : par t c <> -1 by rewrite Ec; have := tvis_range (ti_size Ht) Hx; lia.
have [_ Hlt' _] := tree_edge Ht Hct Hpc; rewrite Ec in Hlt'.
have Hne : c != par t x by apply/eqP => E; move: Hlt; rewrite -E; lia.
have Hsub : {subset [:: c; par t x] <= adj g x}.
  by move=> z; rewrite !inE => /orP[] /eqP->.
by have := uniq_leq_size _ Hsub; rewrite /= inE Hne; apply.
Qed.

End BridgeEnds.

(** X13. On a simple graph that satisfies the adjacency invariant (every
    loaded graph is one), [ArticulationPointsAndBridges] returns; every
    articulation point it lists has at least two neighbours; a bridge
    [(u, v)] it lists is not listed as [(v, u)]; and each end of a bridge
    is listed as an articulation point unless the other end is its only
    neighbour. *)
Theorem bridges_articulation_points (g : Graph) :
  adjacency_invariant g -> simple_graph g ->
  exists aps brs,
    [/\ ArticulationPointsAndBridges g = Ok (aps, brs),
        forall x, x \in aps -> (1 < size (adj g x))%N,
        forall u v, (u, v) \in brs -> (v, u) \notin brs
      & forall u v, (u, v) \in brs ->
          (u \in aps \/ adj g u = [:: v]) /\ (v \in aps \/ adj g v = [:: u])].
Proof.
move=> Hg Hsim.
have Huniq x : uniq (adj g x) by case: (Hsim x).
have [s [Es [Hr Hfin Hap Hbr] Hall]] := apb_run_spec Hg Huniq.
case: (Hr) => Ht Hid Hgr He.
exists (ap s), (br s); split.
- by rewrite /ArticulationPointsAndBridges Es.
- by move=> x; rewrite Hap => /andP[Hx]; exact: (art_degree Hg Ht Hall).
- by move=> u v; rewrite !Hbr; exact: (bridge_at_asym Ht).
move=> u v; rewrite Hbr => Hb; case/and4P: (Hb) => /= Hu Hv _ _.
rewrite !Hap Hu Hv /=; split.
  exact: (bridge_upper Hg Ht Hall He Hfin Hsim).
exact: (bridge_lower Hg Ht Hall He Hfin Hsim).
Qed.

Lemma bridges_articulation_points_path4 :
  exists aps brs,
    [/\ ArticulationPointsAndBridges path4_graph = Ok (aps, brs),
        forall x, x \in aps -> (1 < size (adj path4_graph x))%N,
        forall u v, (u, v) \in brs -> (v, u) \notin brs
      & forall u v, (u, v) \in brs ->
          (u \in aps \/ adj path4_graph u = [:: v]) /\
          (v \in aps \/ adj path4_graph v = [:: u])].
Proof.
exact: (bridges_articulation_points (ReadGraph_invariant ReadGraph_path4)
          (ReadGraph_simple ReadGraph_path4)).
Defined.

(** * Biconnected components: no component is empty *)

(** The loop that pops a component stops at the latest when it meets the
    edge [(u, v)], and it pops at least one edge. *)
Lemma pop_loop_stop (u v : Z) (xs ys c : seq (Z * Z)) :
  exists zs cs,
    pop_loop u v (xs ++ (u, v) :: ys) c = (zs ++ ys, c ++ cs) /\ cs <> [::].
Proof.
elim: xs c => [|e xs IH] c /=.
  by rewrite !eqxx /=; exists [::], [:: (u, v)]; rewrite cats1.
case: ifP => _.
  by exists (xs ++ [:: (u, v)]), [:: e]; rewrite -catA /= cats1.
have [zs [cs [-> Hcs]]] := IH (rcons c e).
exists zs, (e :: cs); rewrite cat_rcons; split=> //.
Qed.

Lemma pop_component_stop (u v : Z) (st rest : seq (Z * Z)) :
  exists zs cs,
    pop_component u v (st ++ (u, v) :: rest) = (st ++ zs, cs) /\ cs <> [::].
Proof.
rewrite /pop_component rev_cat rev_cons -cats1 -catA /=.
have [zs [cs [-> Hcs]]] := pop_loop_stop u v (rev rest) (rev st) [::].
by exists (rev zs), cs; rewrite /= rev_cat revK.
Qed.

(** A run from [s] to [s'] leaves the edges that were on the stack, and
    adds no empty component. *)
Definition bcc_step (s s' : BCCState) : Prop :=
  (exists rest, stack s' = stack s ++ rest) /\
  ([::] \notin bcc s -> [::] \notin bcc s').

Lemma bcc_step_refl s : bcc_step s s.
Proof. by split=> //; exists [::]; rewrite cats0. Qed.

Lemma bcc_step_trans s2 s1 s3 : bcc_step s1 s2 -> bcc_step s2 s3 -> bcc_step s1 s3.
Proof.
move=> [[r1 E1] H1] [[r2 E2] H2]; split; last by move/H1/H2.
by exists (r1 ++ r2); rewrite E2 E1 catA.
Qed.

Section BCCNonEmpty.
Variable g : Graph.

Lemma bcc_scan_step (rec : Z -> BCCState -> outcome BCCState) :
  (forall v s s', rec v s = Ok s' -> bcc_step s s') ->
  forall u l s s', bcc_scan rec u l s = Ok s' -> bcc_step s s'.
Proof.
move=> Hrec u; elim=> [|v l IH] s s' /=; first by case=> <-; exact: bcc_step_refl.
case: ifP => // _; case: ifP => _.
  set s1 := mkBCC _ _ _.
  case E: (rec v s1) => [s2| |] //= /IH; apply: bcc_step_trans.
  have [[r2 E2] H2] := Hrec _ _ _ E; rewrite /= in E2 H2.
  case: ifP => _; last first.
    by split=> //=; exists ((u, v) :: r2); rewrite E2 -cats1 -catA.
  have E2' : stack s2 = stack s ++ (u, v) :: r2 by rewrite E2 -cats1 -catA.
  have [zs [cs [Ep Hcs]]] := pop_component_stop u v (stack s) r2.
  move: Ep; rewrite -E2' /pop_component /= => -[Ep1 Ep2].
  split=> /=; rewrite ?Ep1 ?Ep2; first by exists zs.
  move=> /H2; rewrite mem_rcons inE negb_or => ->; rewrite andbT.
  by case: (cs) Hcs.
case: ifP => _ /IH; apply: bcc_step_trans; last exact: bcc_step_refl.
by split=> //=; exists [:: (u, v)]; rewrite cats1.
Qed.

Lemma bcc_dfs_step d u s s' : bcc_dfs g d u s = Ok s' -> bcc_step s s'.
Proof.
elim: d u s s' => [|d IH] u s s' //=.
case: ifP => // _; case: ifP => // _ /(bcc_scan_step IH).
by apply: bcc_step_trans; exact: bcc_step_refl.
Qed.

Lemma bcc_run_nonempty d s : bcc_run g d = Ok s -> [::] \notin bcc s.
Proof.
rewrite /bcc_run; case: ifP => // _.
set s0 := mkBCC _ _ _.
have : [::] \notin bcc s0 by [].
elim: (zrange _) s0 => [|u l IH] s0 H0 /=; first by case=> <-.
rewrite /bcc_root; case: ifP => _ /=; last exact: IH.
case E: (bcc_dfs g d u s0) => [s1| |] //=; apply: IH.
have [_ /(_ H0) H1] := bcc_dfs_step E.
rewrite /bcc_flush; case: ifP => //=.
by rewrite mem_rcons inE negb_or H1 andbT; case: (stack s1).
Qed.

End BCCNonEmpty.

(** X14. Whatever the graph, when [BiconnectedComponents] returns, none of
    the components it returns is empty: the loop that pops a component
    never finds the stack empty on its first turn. *)
Theorem BiconnectedComponents_nonempty (g : Graph) comps :
  BiconnectedComponents g = Ok comps -> [::] \notin comps.
Proof.
rewrite /BiconnectedComponents.
by case E: (bcc_run g _) => [s| |] //= [<-]; apply: bcc_run_nonempty E.
Qed.

Lemma BiconnectedComponents_nonempty_path4 :
  [::] \notin [:: [:: (2, 3)]; [:: (1, 2)]; [:: (0, 1)]].
Proof.
apply: (@BiconnectedComponents_nonempty path4_graph).
by vm_compute.
Defined.

(** * When the analyses return: well-formed graphs *)

(** The vertex [x] has an adjacency list, and the list holds vertices of
    [[0, n)] only. *)
Definition good_vertex (g : Graph) (x : Z) : bool :=
  inb (AdjList g) x
  && all (fun v => (0 <=? v) && (v <? Vertices g)) (zget [::] (AdjList g) x).

(** The indices the analyses use are within the slices: [Vertices] is not
    negative and every vertex below [Vertices] is good. *)
Definition well_formed (g : Graph) : bool :=
  (0 <=? Vertices g) && all (good_vertex g) (zrange (Vertices g)).

Lemma adjacency_invariant_well_formed g : adjacency_invariant g -> well_formed g.
Proof.
move=> Hg; rewrite /well_formed; have N0 := inv_pos Hg.
have -> /= : (0 <=? Vertices g) = true by apply/Z.leb_le; lia.
apply/allP => x /zrangeP Hx; rewrite /good_vertex.
have Hin : inb (AdjList g) x by rewrite /inb (inv_len Hg); z_lia.
rewrite Hin /=; apply/allP => v Hv.
have := inv_rng Hg (u := x) (v := v); rewrite /adj Hin => /(_ Hv) H.
by z_lia.
Qed.

Section AnalysesOutcome.
Variable g : Graph.
Let N := Vertices g.

(** Some vertex is not good. *)
Definition bad_graph : Prop := exists2 x, 0 <= x < N & ~~ good_vertex g x.

Definition in_range (v : Z) : bool := (0 <=? v) && (v <? N).

(** What a run from [V] to [V'] keeps. *)
Definition vis_safe (V V' : seq bool) : Prop :=
  [/\ zlen V' = N, forall x, vis V x -> vis V' x
    & forall x, vis V' x -> vis V x \/ good_vertex g x].

Lemma vis_safe_refl V : zlen V = N -> vis_safe V V.
Proof. by move=> L; split=> // x; left. Qed.

Lemma vis_safe_trans V2 V1 V3 : vis_safe V1 V2 -> vis_safe V2 V3 -> vis_safe V1 V3.
Proof.
move=> [L1 M1 G1] [L2 M2 G2]; split=> // [x /M1/M2 //|x /G2[/G1|]] //.
by right.
Qed.

Lemma vis_safe_unmarked V V' :
  zlen V = N -> vis_safe V V' -> (unmarked V' <= unmarked V)%N.
Proof. by move=> L [L' M _]; apply: unmarked_le => //; rewrite L. Qed.

(** What a call of [dfs] at [u] gives when [d] nested calls are available:
    it returns, or it panics and some vertex is not good, or it needs more
    than [d] nested calls and more than [d] vertices were not marked. *)
Definition cc_dfs_res (d : nat) (u : Z) (s : CCState) (o : outcome CCState) : Prop :=
  match o with
  | Ok s' => vis_safe (cc_visited s) (cc_visited s') /\ vis (cc_visited s') u
  | Panic => bad_graph
  | DepthExceeded => (d < unmarked (cc_visited s))%N
  end.

Definition cc_scan_res (d : nat) (l : seq Z) (s : CCState) (o : outcome CCState) : Prop :=
  match o with
  | Ok s' => vis_safe (cc_visited s) (cc_visited s') /\ all in_range l
  | Panic => bad_graph \/ ~~ all in_range l
  | DepthExceeded => (d < unmarked (cc_visited s))%N
  end.

Lemma cc_scan_outcome (rec : Z -> CCState -> outcome CCState) (d : nat) :
  (forall v s, zlen (cc_visited s) = N -> ~~ vis (cc_visited s) v ->
     inb (cc_visited s) v -> cc_dfs_res d v s (rec v s)) ->
  forall l s, zlen (cc_visited s) = N -> cc_scan_res d l s (cc_scan rec l s).
Proof.
move=> Hrec; elim=> [|v l IH] s L /=; first by split=> //; exact: vis_safe_refl.
have Ein : inb (cc_visited s) v = in_range v by rewrite /inb L.
rewrite Ein; case Hv: (in_range v); rewrite /= ?Hv /=; last by right.
case Hvis: (zget false (cc_visited s) v) => /=.
  by have := IH s L; case: (cc_scan rec l s) => [s2| |] //=; rewrite Hv.
have := Hrec v s L; rewrite /vis Ein Hv Hvis => /(_ isT isT).
case: (rec v s) => [s1| |] //=; last by left.
case=> St1 _.
have L1 : zlen (cc_visited s1) = N by case: St1.
have := IH s1 L1.
case: (cc_scan rec l s1) => [s2| |] //=; rewrite ?Hv //=.
  by case=> St2 Hl; split=> //; exact: vis_safe_trans St1 St2.
by move=> H; apply: leq_trans H (vis_safe_unmarked L St1).
Qed.

Lemma cc_dfs_outcome d u s :
  zlen (cc_visited s) = N -> ~~ vis (cc_visited s) u -> inb (cc_visited s) u ->
  cc_dfs_res d u s (cc_dfs g d u s).
Proof.
elim: d u s => [|d IH] u s L Hu Hin /=; first by rewrite (unmarked_zset Hin Hu).
have Hur : 0 <= u < N by move/inbP: Hin; rewrite L.
rewrite Hin /=; case HA: (inb (AdjList g) u) => /=; last first.
  by exists u => //; rewrite /good_vertex HA.
set s1 := mkCC _ _.
have L1 : zlen (cc_visited s1) = N by rewrite /= zlen_zset.
have Hv1 x : vis (cc_visited s1) x = (x == u) || vis (cc_visited s) x.
  by rewrite /= vis_zset.
have := cc_scan_outcome IH (zget [::] (AdjList g) u) L1.
case: (cc_scan _ _ s1) => [s'| |] //=.
- case=> -[L' M G] Hl; split; last by apply: M; rewrite Hv1 eqxx.
  split=> // [x Hx|x /G[]]; first by apply: M; rewrite Hv1 Hx orbT.
    by rewrite Hv1 => /orP[/eqP->|]; [right; rewrite /good_vertex HA | left].
  by right.
- by case=> // Hl; exists u => //; rewrite /good_vertex HA.
- by rewrite (unmarked_zset Hin Hu) ltnS.
Qed.

Lemma cc_fold_outcome d l V comps :
  zlen V = N -> (forall x, vis V x -> good_vertex g x) ->
  (forall u, u \in l -> 0 <= u < N) ->
  match foldM (cc_root g d) (V, comps) l with
  | Ok s' => [/\ zlen s'.1 = N, forall x, vis s'.1 x -> good_vertex g x,
                 forall x, vis V x -> vis s'.1 x & forall u, u \in l -> vis s'.1 u]
  | Panic => bad_graph
  | DepthExceeded => (d < Z.to_nat N)%N
  end.
Proof.
elim: l V comps => [|u l IH] V comps L HG Hl //=.
have Hur : 0 <= u < N by apply: Hl; rewrite mem_head.
have Hin : inb V u by apply/inbP; rewrite L.
have Hl' x : x \in l -> 0 <= x < N by move=> Hx; apply: Hl; rewrite inE Hx orbT.
rewrite /cc_root /=; case Hvu: (zget false V u) => /=.
  have := IH V comps L HG Hl'.
  case: (foldM _ _ l) => [s'| |] //= [L' G' M' A']; split=> // x.
  by rewrite inE => /orP[/eqP->|/A' //]; apply: M'; rewrite /vis Hin.
have Hd : (unmarked V <= Z.to_nat N)%N.
  by apply: leq_trans (unmarked_size V) _; rewrite -L /zlen Nat2Z.id.
have := @cc_dfs_outcome d u (mkCC V [::]) L _ Hin.
rewrite /vis Hin Hvu => /(_ isT).
case: (cc_dfs _ _ _ _) => [s1| |] //=; last by move=> H; apply: leq_trans H Hd.
case=> -[L1 M1 G1] Hu1.
have := IH (cc_visited s1) (rcons comps (component s1)) L1 _ Hl'.
case: (foldM _ _ l) => [s'| |] //=.
- case=> [x /G1[/HG|] //|L' G' M' A']; split=> // x.
    by move/M1/M'.
  by rewrite inE => /orP[/eqP->|/A' //]; apply: M'.
- by apply=> x /G1[/HG|].
- by apply=> x /G1[/HG|].
Qed.

(** The same for the low-link traversal. *)
Variable strict : bool.

Definition ll_dfs_res (d : nat) (u : Z) (t : Traversal) (o : outcome Traversal) : Prop :=
  match o with
  | Ok t' => vis_safe (visited t) (visited t') /\ tvis t' u
  | Panic => bad_graph
  | DepthExceeded => (d < unmarked (visited t))%N
  end.

Definition ll_scan_res (d : nat) (l : seq Z) (t : Traversal) (o : outcome Traversal) : Prop :=
  match o with
  | Ok t' => vis_safe (visited t) (visited t') /\ all in_range l
  | Panic => bad_graph \/ ~~ all in_range l
  | DepthExceeded => (d < unmarked (visited t))%N
  end.

Lemma ll_scan_outcome (rec : Z -> Traversal -> outcome Traversal) (d : nat) u :
  (forall v t, zlen (visited t) = N -> ~~ tvis t v -> inb (visited t) v ->
     ll_dfs_res d v t (rec v t)) ->
  forall l t, zlen (visited t) = N -> ll_scan_res d l t (ll_scan strict rec u l t).
Proof.
move=> Hrec; elim=> [|v l IH] t L /=; first by split=> //; exact: vis_safe_refl.
have Ein : inb (visited t) v = in_range v by rewrite /inb L.
rewrite Ein; case Hv: (in_range v); rewrite /= ?Hv /=; last by right.
have Hnext t1 : zlen (visited t1) = N -> vis_safe (visited t) (visited t1) ->
    ll_scan_res d (v :: l) t (ll_scan strict rec u l t1).
  move=> L1 St1.
  have := IH t1 L1.
  case: (ll_scan strict rec u l t1) => [t2| |] //=; rewrite ?Hv //=.
    by case=> St2 Hl; split=> //; exact: vis_safe_trans St1 St2.
  by move=> H; apply: leq_trans H (vis_safe_unmarked L St1).
case Hvis: (zget false (visited t) v) => /=.
  by case: ifP => _; apply: Hnext => //; exact: vis_safe_refl.
have := Hrec v (set_parent v u t) L.
rewrite /tvis /vis /= Ein Hv Hvis => /(_ isT isT).
case: (rec v _) => [t1| |] //=; last by left.
by case=> St1 _; apply: Hnext => //; case: St1.
Qed.

Lemma ll_dfs_outcome d u t :
  zlen (visited t) = N -> ~~ tvis t u -> inb (visited t) u ->
  ll_dfs_res d u t (ll_dfs g strict d u t).
Proof.
elim: d u t => [|d IH] u t L Hu Hin /=; first by rewrite (unmarked_zset Hin Hu).
have Hur : 0 <= u < N by move/inbP: Hin; rewrite L.
rewrite Hin /=; case HA: (inb (AdjList g) u) => /=; last first.
  by exists u => //; rewrite /good_vertex HA.
set t1 := visit u t.
have L1 : zlen (visited t1) = N by rewrite /= zlen_zset.
have Hv1 x : vis (visited t1) x = (x == u) || vis (visited t) x.
  by rewrite /= vis_zset.
have := ll_scan_outcome u IH (zget [::] (AdjList g) u) L1.
case: (ll_scan _ _ _ _ t1) => [t'| |] //=.
- case=> -[L' M G] Hl; split; last by apply: M; rewrite Hv1 eqxx.
  split=> // [x Hx|x /G[]]; first by apply: M; rewrite Hv1 Hx orbT.
    by rewrite Hv1 => /orP[/eqP->|]; [right; rewrite /good_vertex HA | left].
  by right.
- by case=> // Hl; exists u => //; rewrite /good_vertex HA.
- by rewrite (unmarked_zset Hin Hu) ltnS.
Qed.

Lemma ll_fold_outcome d l t :
  zlen (visited t) = N -> (forall x, tvis t x -> good_vertex g x) ->
  (forall u, u \in l -> 0 <= u < N) ->
  match foldM (fun t u => if ~~ zget false (visited t) u
                          then ll_dfs g strict d u t else Ok t) t l with
  | Ok t' => [/\ zlen (visited t') = N, forall x, tvis t' x -> good_vertex g x,
                 forall x, tvis t x -> tvis t' x & forall u, u \in l -> tvis t' u]
  | Panic => bad_graph
  | DepthExceeded => (d < Z.to_nat N)%N
  end.
Proof.
elim: l t => [|u l IH] t L HG Hl //=.
have Hur : 0 <= u < N by apply: Hl; rewrite mem_head.
have Hin : inb (visited t) u by apply/inbP; rewrite L.
have Hl' x : x \in l -> 0 <= x < N by move=> Hx; apply: Hl; rewrite inE Hx orbT.
case Hvu: (zget false (visited t) u) => /=.
  have := IH t L HG Hl'.
  case: (foldM _ _ l) => [t'| |] //= [L' G' M' A']; split=> // x.
  by rewrite inE => /orP[/eqP->|/A' //]; apply: M'; rewrite /tvis /vis Hin.
have Hd : (unmarked (visited t) <= Z.to_nat N)%N.
  by apply: leq_trans (unmarked_size _) _; rewrite -L /zlen Nat2Z.id.
have := @ll_dfs_outcome d u t L _ Hin.
rewrite /tvis /vis Hin Hvu => /(_ isT).
case: (ll_dfs _ _ _ _ _) => [t1| |] //=; last by move=> H; apply: leq_trans H Hd.
case=> -[L1 M1 G1] Hu1.
have HG1 x : tvis t1 x -> good_vertex g x by move=> /G1[/HG|].
have := IH t1 L1 HG1 Hl'.
case: (foldM _ _ l) => [t'| |] //= [L' G' M' A']; split=> // x.
  by move/M1/M'.
by rewrite inE => /orP[/eqP->|/A' //]; apply: M'.
Qed.

End AnalysesOutcome.

Lemma bad_graph_wf g : 0 <= Vertices g -> bad_graph g -> ~~ well_formed g.
Proof.
move=> N0 [x Hx Hb]; rewrite /well_formed negb_and; apply/orP; right.
by apply/allPn; exists x => //; apply/zrangeP.
Qed.

Lemma cc_run_outcome g depth :
  match cc_run g depth with
  | Ok _ => is_true (well_formed g)
  | Panic => is_true (~~ well_formed g)
  | DepthExceeded => is_true (depth < Z.to_nat (Vertices g))%N
  end.
Proof.
rewrite /cc_run /well_formed.
case: Z.ltb_spec => [Hlt|N0] /=.
  by have -> : (0 <=? Vertices g) = false by apply/Z.leb_gt.
have L0 : zlen (nseq (Z.to_nat (Vertices g)) false) = Vertices g.
  by rewrite /zlen size_nseq Z2Nat.id.
have G0 x : vis (nseq (Z.to_nat (Vertices g)) false) x -> good_vertex g x.
  by rewrite vis_nseq.
have R0 u : u \in zrange (Vertices g) -> 0 <= u < Vertices g by move/zrangeP.
have := cc_fold_outcome depth [::] L0 G0 R0.
case: (foldM _ _ _) => [s| |] //=; last exact: bad_graph_wf.
case=> _ G _ A.
have -> /= : (0 <=? Vertices g) = true by apply/Z.leb_le.
by apply/allP => x /A/G.
Qed.

Lemma ll_run_outcome g strict depth :
  match ll_run g strict depth with
  | Ok _ => is_true (well_formed g)
  | Panic => is_true (~~ well_formed g)
  | DepthExceeded => is_true (depth < Z.to_nat (Vertices g))%N
  end.
Proof.
rewrite /ll_run /well_formed.
case: Z.ltb_spec => [Hlt|N0] /=.
  by have -> : (0 <=? Vertices g) = false by apply/Z.leb_gt.
set t0 := init_traversal _.
have L0 : zlen (visited t0) = Vertices g by rewrite /zlen size_nseq Z2Nat.id.
have G0 x : tvis t0 x -> good_vertex g x by rewrite tvis_init.
have R0 u : u \in zrange (Vertices g) -> 0 <= u < Vertices g by move/zrangeP.
have := ll_fold_outcome strict depth L0 G0 R0.
case: (foldM _ _ _) => [s| |] //=; last exact: bad_graph_wf.
case=> _ G _ A.
have -> /= : (0 <=? Vertices g) = true by apply/Z.leb_le.
by apply/allP => x /A/G.
Qed.

Lemma well_formed_ll_run g strict :
  well_formed g -> exists t, ll_run g strict (Z.to_nat (Vertices g)) = Ok t.
Proof.
move=> Hw; have := ll_run_outcome g strict (Z.to_nat (Vertices g)).
by case: (ll_run _ _ _) => [t| |] //=; [exists t | rewrite Hw | rewrite ltnn].
Qed.

Lemma well_formed_cc_run g :
  well_formed g -> exists s, cc_run g (Z.to_nat (Vertices g)) = Ok s.
Proof.
move=> Hw; have := cc_run_outcome g (Z.to_nat (Vertices g)).
by case: (cc_run _ _) => [t| |] //=; [exists t | rewrite Hw | rewrite ltnn].
Qed.

(** ** More nested calls change nothing *)

Section DepthMono.
Variable g : Graph.

Lemma cc_scan_mono (rec rec' : Z -> CCState -> outcome CCState) :
  (forall v s s', rec v s = Ok s' -> rec' v s = Ok s') ->
  forall l s s', cc_scan rec l s = Ok s' -> cc_scan rec' l s = Ok s'.
Proof.
move=> Hrec; elim=> [|v l IH] s s' //=.
case: (inb _ v) => //=; case: (zget false _ v) => /=; first exact: IH.
by case E: (rec v _) => [s1| |] //=; rewrite (Hrec _ _ _ E) /=; apply: IH.
Qed.

Lemma cc_dfs_mono d d' u s s' :
  (d <= d')%N -> cc_dfs g d u s = Ok s' -> cc_dfs g d' u s = Ok s'.
Proof.
elim: d d' u s s' => [|d IH] [|d'] u s s' //= Hd.
case: (inb _ u) => //=; case: (inb _ u) => //=.
by apply: cc_scan_mono => v s1 s2; apply: IH.
Qed.

Lemma apb_scan_mono (rec rec' : Z -> APBState -> outcome APBState) :
  (forall v s s', rec v s = Ok s' -> rec' v s = Ok s') ->
  forall u l c s s', apb_scan rec u l c s = Ok s' -> apb_scan rec' u l c s = Ok s'.
Proof.
move=> Hrec u; elim=> [|v l IH] c s s' //=.
case: (inb _ v) => //=; case: (zget false _ v) => /=.
  by case: ifP => _; apply: IH.
by case E: (rec v _) => [s1| |] //=; rewrite (Hrec _ _ _ E) /=; apply: IH.
Qed.

Lemma apb_dfs_mono d d' u s s' :
  (d <= d')%N -> apb_dfs g d u s = Ok s' -> apb_dfs g d' u s = Ok s'.
Proof.
elim: d d' u s s' => [|d IH] [|d'] u s s' //= Hd.
case: (inb _ u) => //=; case: (inb _ u) => //=.
by apply: apb_scan_mono => v s1 s2; apply: IH.
Qed.

Lemma bcc_scan_mono (rec rec' : Z -> BCCState -> outcome BCCState) :
  (forall v s s', rec v s = Ok s' -> rec' v s = Ok s') ->
  forall u l s s', bcc_scan rec u l s = Ok s' -> bcc_scan rec' u l s = Ok s'.
Proof.
move=> Hrec u; elim=> [|v l IH] s s' //=.
case: (inb _ v) => //=; case: (zget false _ v) => /=.
  by case: ifP => _; apply: IH.
by case E: (rec v _) => [s1| |] //=; rewrite (Hrec _ _ _ E) /=; apply: IH.
Qed.

Lemma bcc_dfs_mono d d' u s s' :
  (d <= d')%N -> bcc_dfs g d u s = Ok s' -> bcc_dfs g d' u s = Ok s'.
Proof.
elim: d d' u s s' => [|d IH] [|d'] u s s' //= Hd.
case: (inb _ u) => //=; case: (inb _ u) => //=.
by apply: bcc_scan_mono => v s1 s2; apply: IH.
Qed.

Lemma foldM_mono (A S : Type) (f f' : S -> A -> outcome S) :
  (forall s x s', f s x = Ok s' -> f' s x = Ok s') ->
  forall l s s', foldM f s l = Ok s' -> foldM f' s l = Ok s'.
Proof.
move=> Hf; elim=> [|x l IH] s s' //=.
by case E: (f s x) => [s1| |] //=; rewrite (Hf _ _ _ E) /=; apply: IH.
Qed.

Lemma cc_run_mono d d' s :
  (d <= d')%N -> cc_run g d = Ok s -> cc_run g d' = Ok s.
Proof.
move=> Hd; rewrite /cc_run; case: ifP => // _; apply: foldM_mono => V u V'.
rewrite /cc_root; case: ifP => // _.
by case E: (cc_dfs g d u _) => [c| |] //=; rewrite (cc_dfs_mono Hd E).
Qed.

Lemma apb_run_mono d d' s :
  (d <= d')%N -> apb_run g d = Ok s -> apb_run g d' = Ok s.
Proof.
move=> Hd; rewrite /apb_run; case: ifP => // _; apply: foldM_mono => s0 u s1.
by case: ifP => // _; apply: apb_dfs_mono.
Qed.

Lemma bcc_run_mono d d' s :
  (d <= d')%N -> bcc_run g d = Ok s -> bcc_run g d' = Ok s.
Proof.
move=> Hd; rewrite /bcc_run; case: ifP => // _; apply: foldM_mono => s0 u s1.
rewrite /bcc_root; case: ifP => // _.
by case E: (bcc_dfs g d u _) => [c| |] //=; rewrite (bcc_dfs_mono Hd E).
Qed.

(** A run that returns gives what the run with [Vertices] nested calls
    gives, however many nested calls it had. *)
Lemma cc_run_any d s : cc_run g d = Ok s -> cc_run g (Z.to_nat (Vertices g)) = Ok s.
Proof.
move=> E; case: (leqP d (Z.to_nat (Vertices g))) => [Hd|/ltnW Hd].
  exact: cc_run_mono Hd E.
have Hw : well_formed g by have := cc_run_outcome g d; rewrite E.
have [s' E'] := well_formed_cc_run Hw.
by move: (cc_run_mono Hd E'); rewrite E => -[->].
Qed.

Lemma apb_run_any d s : apb_run g d = Ok s -> apb_run g (Z.to_nat (Vertices g)) = Ok s.
Proof.
move=> E; case: (leqP d (Z.to_nat (Vertices g))) => [Hd|/ltnW Hd].
  exact: apb_run_mono Hd E.
have Hw : well_formed g.
  by have := ll_run_outcome g false d; rewrite -apb_run_ll E.
have [t] := well_formed_ll_run false Hw; rewrite -apb_run_ll.
case E': (apb_run g _) => [s'| |] //= _.
by move: (apb_run_mono Hd E'); rewrite E => -[->].
Qed.

Lemma bcc_run_any d s : bcc_run g d = Ok s -> bcc_run g (Z.to_nat (Vertices g)) = Ok s.
Proof.
move=> E; case: (leqP d (Z.to_nat (Vertices g))) => [Hd|/ltnW Hd].
  exact: bcc_run_mono Hd E.
have Hw : well_formed g.
  by have := ll_run_outcome g true d; rewrite -bcc_run_ll E.
have [t] := well_formed_ll_run true Hw; rewrite -bcc_run_ll.
case E': (bcc_run g _) => [s'| |] //= _.
by move: (bcc_run_mono Hd E'); rewrite E => -[->].
Qed.

End DepthMono.

(** X15. [ConnectedComponents], whatever number [depth] of nested calls
    of its closure [dfs] is available.  When it returns, the graph is
    well-formed: [Vertices] is not negative, every vertex below [Vertices]
    has an adjacency list, and the lists hold vertices below [Vertices]
    only (the lists need not be symmetric); and what it returns does not
    depend on the number of nested calls that were available.  When it
    panics, the graph is not well-formed.  It runs out of nested calls
    only when fewer than [Vertices] are available; so on a well-formed
    graph it returns as soon as [Vertices] nested calls are available. *)
Theorem ConnectedComponents_outcome (g : Graph) (depth : nat) :
  match cc_run g depth with
  | Ok s => well_formed g /\ ConnectedComponents g = Ok s.2
  | Panic => ~~ well_formed g
  | DepthExceeded => (depth < Z.to_nat (Vertices g))%N
  end.
Proof.
have := cc_run_outcome g depth; case E: (cc_run g depth) => [s| |] //= Hw.
by split=> //; rewrite /ConnectedComponents (cc_run_any E).
Qed.

(** X16. [ArticulationPointsAndBridges], whatever number [depth] of
    nested calls of its closure [dfs] is available: when it returns, the
    graph is well-formed and what it returns does not depend on the number
    of nested calls that were available; when it panics, the graph is not
    well-formed; and it runs out of nested calls only when fewer than
    [Vertices] are available. *)
Theorem ArticulationPointsAndBridges_outcome (g : Graph) (depth : nat) :
  match apb_run g depth with
  | Ok s => well_formed g /\ ArticulationPointsAndBridges g = Ok (ap s, br s)
  | Panic => ~~ well_formed g
  | DepthExceeded => (depth < Z.to_nat (Vertices g))%N
  end.
Proof.
have := ll_run_outcome g false depth; rewrite -apb_run_ll.
case E: (apb_run g depth) => [s| |] //= Hw.
by split=> //; rewrite /ArticulationPointsAndBridges (apb_run_any E).
Qed.

(** X17. [BiconnectedComponents], whatever number [depth] of nested calls
    of its closure [dfs] is available: when it returns, the graph is
    well-formed and what it returns does not depend on the number of
    nested calls that were available; when it panics, the graph is not
    well-formed; and it runs out of nested calls only when fewer than
    [Vertices] are available. *)
Theorem BiconnectedComponents_outcome (g : Graph) (depth : nat) :
  match bcc_run g depth with
  | Ok s => well_formed g /\ BiconnectedComponents g = Ok (bcc s)
  | Panic => ~~ well_formed g
  | DepthExceeded => (depth < Z.to_nat (Vertices g))%N
  end.
Proof.
have := ll_run_outcome g true depth; rewrite -bcc_run_ll.
case E: (bcc_run g depth) => [s| |] //= Hw.
by split=> //; rewrite /BiconnectedComponents (bcc_run_any E).
Qed.

(** * Graphs built by [NewGraph] and [AddEdge] *)

(** The adjacency lists are as many as the vertices and hold vertices
    only; loops and edges stored twice are allowed, and so is a graph
    without vertices. *)
Definition closed_graph (g : Graph) : Prop :=
  [/\ 0 <= Vertices g, zlen (AdjList g) = Vertices g
    & forall u v, v \in adj g u -> 0 <= v < Vertices g].

Lemma closed_well_formed g : closed_graph g -> well_formed g.
Proof.
move=> [N0 L R]; rewrite /well_formed.
have -> /= : (0 <=? Vertices g) = true by apply/Z.leb_le.
apply/allP => x /zrangeP Hx; rewrite /good_vertex.
have Hin : inb (AdjList g) x by apply/inbP; rewrite L.
rewrite Hin /=; apply/allP => v Hv.
have := R x v; rewrite /adj Hin => /(_ Hv) H.
by z_lia.
Qed.

Lemma NewGraph_closed n g : NewGraph n = Ok g -> closed_graph g.
Proof.
rewrite /NewGraph; case: Z.ltb_spec => // N0 [<-]; split=> //=.
  by rewrite /zlen size_nseq Z2Nat.id.
by move=> u v; rewrite -{1}(Z2Nat.id n) // adj_nseq.
Qed.

Lemma AddEdge_closed g u v g' :
  closed_graph g -> AddEdge g u v = Ok g' -> closed_graph g'.
Proof.
move=> [N0 L R] E; have [V' L' A'] := AddEdge_adj E.
have Huv : inb (AdjList g) u && inb (AdjList g) v.
  by apply/negPn/negP => /AddEdge_Panic; rewrite E.
case/andP: Huv => /inbP Hu /inbP Hv; rewrite L in Hu Hv.
split; rewrite ?V' ?L' // => a b; rewrite A' mem_cat => /orP[/R //|].
by rewrite mem_ends !xpair_eqE => /orP[/andP[_ /eqP->]|/andP[/eqP-> _]].
Qed.

Lemma add_edges_closed g ps g' :
  closed_graph g -> add_edges g ps = Ok g' -> closed_graph g'.
Proof.
rewrite /add_edges; elim: ps g => [|p ps IH] g Hg /=; first by case=> <-.
case E: (AddEdge g p.1 p.2) => [g1| |] //=; apply: IH.
exact: AddEdge_closed Hg E.
Qed.

(** X18. A graph built by [NewGraph] and any calls of [AddEdge] that
    return, loops and repeated edges included, is well-formed.  Whatever
    number [depth] of nested calls of [dfs] is available, none of the
    three analyses panics on it, and each of them returns when at least
    [Vertices] nested calls are available. *)
Theorem built_graph_analyses (n : Z) (ps : seq (Z * Z)) (g : Graph) (depth : nat) :
  (NewGraph n >>= fun g0 => add_edges g0 ps) = Ok g ->
  [/\ well_formed g,
      apb_run g depth <> Panic, bcc_run g depth <> Panic, cc_run g depth <> Panic
    & (Z.to_nat (Vertices g) <= depth)%N ->
      [/\ exists s, apb_run g depth = Ok s, exists s, bcc_run g depth = Ok s
        & exists s, cc_run g depth = Ok s]].
Proof.
case E0: (NewGraph n) => [g0| |] //= E.
have Hw : well_formed g.
  exact/closed_well_formed/(add_edges_closed (NewGraph_closed E0) E).
have HA := ll_run_outcome g false depth; rewrite -apb_run_ll in HA.
have HB := ll_run_outcome g true depth; rewrite -bcc_run_ll in HB.
have HC := cc_run_outcome g depth.
split=> //.
- by move=> EA; move: HA; rewrite EA /= Hw.
- by move=> EB; move: HB; rewrite EB /= Hw.
- by move=> EC; move: HC; rewrite EC /= Hw.
move=> Hd; split.
- by case: (apb_run g depth) HA => [s| |] /=; [exists s | rewrite Hw | rewrite ltnNge Hd].
- by case: (bcc_run g depth) HB => [s| |] /=; [exists s | rewrite Hw | rewrite ltnNge Hd].
- by case: (cc_run g depth) HC => [s| |] /=; [exists s | rewrite Hw | rewrite ltnNge Hd].
Qed.

(** Three vertices, the edge between 0 and 1 stored twice, a loop at 1. *)
Definition loops_graph : Graph := mkGraph 3 [:: [:: 1; 1]; [:: 0; 1; 1; 0]; [::]].

Lemma built_graph_analyses_loops :
  [/\ well_formed loops_graph,
      apb_run loops_graph 3 <> Panic, bcc_run loops_graph 3 <> Panic,
      cc_run loops_graph 3 <> Panic
    & [/\ exists s, apb_run loops_graph 3 = Ok s,
          exists s, bcc_run loops_graph 3 = Ok s
        & exists s, cc_run loops_graph 3 = Ok s]].
Proof.
have [Hw HA HB HC H] :=
  @built_graph_analyses 3 [:: (0, 1); (1, 1); (1, 0)] loops_graph 3 erefl.
by split=> //; apply: H.
Defined.

(** ** The path as [NewGraph] and [AddEdge] build it *)

Ltac zcmp :=
  repeat match goal with
  | |- context [?a <? ?b] => case: (Z.ltb_spec a b) => ?
  | |- context [?a <=? ?b] => case: (Z.leb_spec a b) => ?
  end; rewrite /=; try by []; try lia.

(** The edges of the path, from the left. *)
Definition path_edges (n : nat) : seq (Z * Z) :=
  [seq (Z.of_nat i, Z.of_nat i + 1) | i <- iota 0 n.-1].

Lemma path_edges_ends m w :
  flatten [seq ends w p | p <- [seq (Z.of_nat i, Z.of_nat i + 1) | i <- iota 0 m]] =
  (if (0 <? w) && (w <=? Z.of_nat m) then [:: w - 1] else [::])
  ++ (if (0 <=? w) && (w <? Z.of_nat m) then [:: w + 1] else [::]).
Proof.
elim: m => [|m IH].
  have -> : (0 <? w) && (w <=? Z.of_nat 0) = false.
    by apply/negbTE/negP => /andP[/Z.ltb_lt H1 /Z.leb_le /= H2]; lia.
  have -> // : (0 <=? w) && (w <? Z.of_nat 0) = false.
  by apply/negbTE/negP => /andP[/Z.leb_le H1 /Z.ltb_lt /= H2]; lia.
rewrite -addn1 iotaD add0n /= !map_cat flatten_cat IH /= cats0 /ends /=.
have Em : Z.of_nat (m + 1) = Z.of_nat m + 1 by rewrite addn1 Nat2Z.inj_succ; lia.
rewrite Em.
case: (Z.compare_spec w (Z.of_nat m)) => Hw.
- rewrite Hw eqxx.
  have -> : (Z.of_nat m == Z.of_nat m + 1) = false by apply/negbTE; apply/eqP; lia.
  have -> : (Z.of_nat m <=? Z.of_nat m) = true by apply/Z.leb_le; lia.
  have -> : (Z.of_nat m <? Z.of_nat m) = false by apply/Z.ltb_ge; lia.
  have -> : (Z.of_nat m <=? Z.of_nat m + 1) = true by apply/Z.leb_le; lia.
  have -> : (0 <=? Z.of_nat m) = true by apply/Z.leb_le; lia.
  have -> : (Z.of_nat m <? Z.of_nat m + 1) = true by apply/Z.ltb_lt; lia.
  by rewrite andbF andbT /= cats0.
- have -> : (w == Z.of_nat m) = false by apply/negbTE; apply/eqP; lia.
  have -> : (w == Z.of_nat m + 1) = false by apply/negbTE; apply/eqP; lia.
  have -> : (w <=? Z.of_nat m) = true by apply/Z.leb_le; lia.
  have -> : (w <? Z.of_nat m) = true by apply/Z.ltb_lt; lia.
  have -> : (w <=? Z.of_nat m + 1) = true by apply/Z.leb_le; lia.
  have -> : (w <? Z.of_nat m + 1) = true by apply/Z.ltb_lt; lia.
  by rewrite /= !cats0.
- have -> : (w == Z.of_nat m) = false by apply/negbTE; apply/eqP; lia.
  have -> : (w <=? Z.of_nat m) = false by apply/Z.leb_gt; lia.
  have -> : (w <? Z.of_nat m) = false by apply/Z.ltb_ge; lia.
  have -> : (w <? Z.of_nat m + 1) = false by apply/Z.ltb_ge; lia.
  rewrite !andbF /=; case: eqP => [->|Hne] /=.
    have -> : (0 <? Z.of_nat m + 1) = true by apply/Z.ltb_lt; lia.
    have -> : (Z.of_nat m + 1 <=? Z.of_nat m + 1) = true by apply/Z.leb_le; lia.
    by rewrite /=; congr [:: _]; lia.
  have -> : (w <=? Z.of_nat m + 1) = false by apply/Z.leb_gt; lia.
  by rewrite andbF.
Qed.

(** [NewGraph(n)] followed by [AddEdge(i, i+1)] for [i = 0, ..., n-2]
    builds the path, when [NewGraph] returns. *)
Lemma path_graph_built n g0 :
  NewGraph (Z.of_nat n) = Ok g0 -> add_edges g0 (path_edges n) = Ok (path_graph n).
Proof.
have n0 : 0 <= Z.of_nat n by lia.
have [g1 [-> V1 L1 A1]] := NewGraph_Ok n0; case=> <-.
have [|g2 [-> V2 L2 A2]] := @add_edges_spec g1 (path_edges n).
  move=> p /mapP[i]; rewrite mem_iota add0n => /andP[_ Hi] -> /=.
  have Hlt : (i.+1 < n)%N by case: n Hi {n0 g1 V1 L1 A1}.
  by split; apply/inbP; rewrite L1; move/ltP: Hlt; lia.
congr Ok; apply: graph_ext; rewrite ?V2 ?L2 ?V1 ?L1 ?path_graph_len //.
move=> w; rewrite A2 A1 /= path_edges_ends path_graph_adj /path_adj.
have En : Z.of_nat n.-1 = if (0 < n)%N then Z.of_nat n - 1 else 0.
  by case: n {n0 g1 V1 L1 A1 g2 V2 L2 A2} => // n; rewrite Nat2Z.inj_succ /=; lia.
rewrite En; case: ltnP => [_|]; first by zcmp.
by rewrite leqn0 => /eqP->; zcmp.
Qed.

(** * The analyses on graphs that were not loaded from a file

    The graphs [ReadGraph] returns have increasing adjacency lists and at
    most 32767 vertices.  What follows holds of every graph that satisfies
    the adjacency invariant, whatever the order in which [AddEdge] stored
    its edges. *)

(** The cycle 0 - 1 - 2 - 3 - 0, the edge between 3 and 0 added last. *)
Definition cycle4_graph : Graph :=
  mkGraph 4 [:: [:: 1; 3]; [:: 0; 2]; [:: 1; 3]; [:: 2; 0]].

Lemma cycle4_invariant : adjacency_invariant cycle4_graph.
Proof.
have H : AddEdge path4_graph 0 3 = Ok cycle4_graph by [].
exact: AddEdge_invariant (ReadGraph_invariant ReadGraph_path4) H.
Defined.

Lemma cycle4_simple : simple_graph cycle4_graph.
Proof.
move=> u; rewrite /adj; case: ifP => // /inbP; rewrite /zlen /= => Hu.
have [->|[->|[->|->]]] : u = 0 \/ u = 1 \/ u = 2 \/ u = 3 by lia.
all: by [].
Defined.

(** X19. On every simple graph that satisfies the adjacency invariant,
    [ArticulationPointsAndBridges] returns the vertices and the edges
    whose removal leaves more connected components: a vertex is listed
    exactly when the graph without it has more components, and an edge is
    listed, in one orientation, exactly when the graph without it has. *)
Theorem cut_vertices_and_edges (g : Graph) :
  adjacency_invariant g -> simple_graph g ->
  exists aps brs,
    [/\ ArticulationPointsAndBridges g = Ok (aps, brs),
        forall v, v \in aps <->
          (0 <= v < Vertices g /\
           (components (Z.to_nat (Vertices g)) (edge g) predT
            < components (Z.to_nat (Vertices g)) (del_vertex g v) (predC1 v))%N)
      & forall u v,
          ((u, v) \in brs \/ (v, u) \in brs) <->
          (edge g u v /\
           (components (Z.to_nat (Vertices g)) (edge g) predT
            < components (Z.to_nat (Vertices g)) (del_edge g u v) predT)%N)].
Proof.
move=> Hg Hsim.
have Huniq x : uniq (adj g x) by case: (Hsim x).
have [s [Es [Hr Hfin Hap Hbr] Hall]] := apb_run_spec Hg Huniq.
case: (Hr) => Ht Hid Hgr He.
exists (ap s), (br s); split; first by rewrite /ArticulationPointsAndBridges Es.
  move=> v; rewrite Hap; split.
    case/andP=> Hv Ha; have Hvr := tvis_range (ti_size Ht) Hv.
    split=> //; apply/(del_vertex_components Hg Hvr).
    exact: (art_cut Hg Ht Hall He Hfin Hsim).
  case=> Hvr /(del_vertex_components Hg Hvr)[x [y [Hx Hy Cx Cy Hn]]].
  rewrite (Hall v Hvr) /=; apply/negPn/negP => Ha; apply: Hn.
  exact: (art_join Hg Ht Hall He Hfin Hsim (Hall v Hvr) Ha).
set n := Z.to_nat (Vertices g).
have Hb1 a c : bridge_at (apb_tr s) (a, c) ->
    edge g a c /\ (components n (edge g) predT
                   < components n (del_edge g a c) predT)%N.
  move=> Hb; have Hac : edge g a c.
    case/and4P: (Hb) => /= Ha Hc /eqP Ep _.
    have Hp : par (apb_tr s) c <> -1.
      by rewrite Ep; have := tvis_range (ti_size Ht) Ha; lia.
    by have [_ _] := tree_edge Ht Hc Hp; rewrite Ep.
  split=> //; apply/(del_edge_components Hg Hac).
  exact: (bridge_cut Hg Ht Hall He Hfin).
move=> u v; split.
  case; rewrite Hbr => /Hb1[Huv Hinc] //.
  split; first by rewrite (edge_sym Hg).
  by rewrite (eq_components n predT (del_edgeC g u v)).
case=> Huv /(del_edge_components Hg Huv) Hn.
case H1: ((u, v) \in br s); first by left.
case H2: ((v, u) \in br s); first by right.
case: Hn; apply: (no_bridge_path Hg Ht Hall He Hfin Hsim) => //.
  by rewrite -Hbr H1.
by rewrite -Hbr H2.
Qed.

Lemma cut_vertices_and_edges_cycle4 :
  exists aps brs,
    [/\ ArticulationPointsAndBridges cycle4_graph = Ok (aps, brs),
        forall v, v \in aps <->
          (0 <= v < 4 /\
           (components 4 (edge cycle4_graph) predT
            < components 4 (del_vertex cycle4_graph v) (predC1 v))%N)
      & forall u v,
          ((u, v) \in brs \/ (v, u) \in brs) <->
          (edge cycle4_graph u v /\
           (components 4 (edge cycle4_graph) predT
            < components 4 (del_edge cycle4_graph u v) predT)%N)].
Proof. exact: (cut_vertices_and_edges cycle4_invariant cycle4_simple). Defined.

(** X20. On every simple graph that satisfies the adjacency invariant,
    the components [BiconnectedComponents] returns partition the edges:
    every pair of a component is an edge, and every edge occurs once, in
    one orientation, in one component. *)
Theorem BiconnectedComponents_simple (g : Graph) :
  adjacency_invariant g -> simple_graph g ->
  exists comps,
    [/\ BiconnectedComponents g = Ok comps,
        forall a b, (a, b) \in flatten comps -> b \in adj g a
      & forall a b, b \in adj g a ->
          (count_mem (a, b) (flatten comps) + count_mem (b, a) (flatten comps) = 1)%N].
Proof.
move=> Hg Hsim.
have Huniq x : uniq (adj g x) by case: (Hsim x).
have [|s [Es Hi Hall _]] :=
  bcc_fold_spec (l := zrange (Vertices g)) Hg Huniq (leqnn _) (bcc_inv_init Hg).
  by move=> x /zrangeP.
case: (Hi) => -[Ht _ _ _] _ Hc.
exists (bcc s); split.
- rewrite /BiconnectedComponents /bcc_run Es.
  by have /Z.ltb_ge-> : 0 <= Vertices g by have := inv_pos Hg; lia.
- move=> a b; rewrite -has_pred1 has_count Hc /=.
  by case: (tvis _ a) => //=; case: (b \in adj g a).
- move=> a b Hab; have [Ha Hb] := edge_range Hg Hab.
  have Hba : a \in adj g b by apply: (inv_sym Hg).
  have Hne : a <> b by move=> Eab; case: (Hsim a) => _; move: Hab; rewrite Eab => ->.
  have Hva := Hall a (introT (zrangeP _ _) Ha).
  have Hvb := Hall b (introT (zrangeP _ _) Hb).
  by rewrite !Hc /= Hva Hvb Hab Hba /=; apply: (push_cond_once Ht).
Qed.

Lemma BiconnectedComponents_simple_cycle4 :
  exists comps,
    [/\ BiconnectedComponents cycle4_graph = Ok comps,
        forall a b, (a, b) \in flatten comps -> b \in adj cycle4_graph a
      & forall a b, b \in adj cycle4_graph a ->
          (count_mem (a, b) (flatten comps) + count_mem (b, a) (flatten comps) = 1)%N].
Proof. exact: (BiconnectedComponents_simple cycle4_invariant cycle4_simple). Defined.

(** X21. On every graph that satisfies the adjacency invariant, loops and
    edges stored twice included, the components [ConnectedComponents]
    returns partition the vertices, and two vertices lie in one component
    exactly when a path connects them. *)
Theorem ConnectedComponents_invariant (g : Graph) :
  adjacency_invariant g ->
  exists comps,
    [/\ ConnectedComponents g = Ok comps,
        perm_eq (flatten comps) (zrange (Vertices g))
      & forall u v, 0 <= u < Vertices g -> 0 <= v < Vertices g ->
          (exists c, [/\ c \in comps, u \in c & v \in c]) <->
          connects (edge g) u v].
Proof.
by move=> Hg; have [comps [E P _ H]] := ConnectedComponents_spec Hg; exists comps.
Qed.

Lemma ConnectedComponents_invariant_cycle4 :
  exists comps,
    [/\ ConnectedComponents cycle4_graph = Ok comps,
        perm_eq (flatten comps) (zrange 4)
      & forall u v, 0 <= u < 4 -> 0 <= v < 4 ->
          (exists c, [/\ c \in comps, u \in c & v \in c]) <->
          connects (edge cycle4_graph) u v].
Proof. exact: (ConnectedComponents_invariant cycle4_invariant). Defined.

(** * The program: from the file to the results

    [main] reads the graph, stops with the error when [ReadGraph] returns
    one, and otherwise runs the three analyses in this order, before it
    opens the output file. *)

Definition results : Type :=
  ((seq Z * seq (Z * Z)) * seq (seq (Z * Z)) * seq (seq Z))%type.

Definition main_analyses (file : option (seq Byte.byte))
  : outcome (read_error + results) :=
  ReadGraph file >>= fun r =>
  match r with
  | inl err => Ok (inl err)
  | inr graph =>
      ArticulationPointsAndBridges graph >>= fun apb =>
      BiconnectedComponents graph >>= fun bcc =>
      ConnectedComponents graph >>= fun cc =>
      Ok (inr (apb, bcc, cc))
  end.

Lemma ReadGraph_returns file : exists r, ReadGraph file = Ok r.
Proof.
case: file => [bs|]; last by eexists.
rewrite ReadGraph_spec; case: ltnP => _; first by eexists.
case: Z.leb_spec => N0; first by eexists.
case: ltnP => _; first by eexists.
have [g [-> _ _ _]] := @matrix_to_graph_spec (file_size bs)
  (mkseq (fun k => mkseq (fun j => word_at bs (k * Z.to_nat (file_size bs) + j).+1)
     (Z.to_nat (file_size bs))) (Z.to_nat (file_size bs))) N0.
by eexists.
Qed.

(** X22. No input file makes the program panic before it writes: either
    [ReadGraph] returns an error and no analysis runs, or the graph loads
    and the three analyses return their results. *)
Theorem main_analyses_total (file : option (seq Byte.byte)) :
  match main_analyses file with
  | Ok (inl err) => ReadGraph file = Ok (inl err)
  | Ok (inr (apb, bcc, cc)) =>
      exists g, [/\ ReadGraph file = Ok (inr g),
                    ArticulationPointsAndBridges g = Ok apb,
                    BiconnectedComponents g = Ok bcc
                  & ConnectedComponents g = Ok cc]
  | Panic | DepthExceeded => False
  end.
Proof.
rewrite /main_analyses; have [[e|g] E] := ReadGraph_returns file; rewrite E //=.
have Hw := adjacency_invariant_well_formed (ReadGraph_invariant E).
have [apb EA] : exists apb, ArticulationPointsAndBridges g = Ok apb.
  have [t] := well_formed_ll_run false Hw.
  rewrite -apb_run_ll /ArticulationPointsAndBridges.
  by case: (apb_run g _) => //= s _; eexists.
have [bcc EB] : exists bcc, BiconnectedComponents g = Ok bcc.
  have [t] := well_formed_ll_run true Hw.
  rewrite -bcc_run_ll /BiconnectedComponents.
  by case: (bcc_run g _) => //= s _; eexists.
have [cc EC] : exists cc, ConnectedComponents g = Ok cc.
  have [s Es] := well_formed_cc_run Hw.
  by rewrite /ConnectedComponents Es /=; eexists.
by rewrite EA EB EC /=; exists g.
Qed.

(** * The two traversals are one

    [BiconnectedComponents] updates [low[u]] on an edge to a marked vertex
    only when the vertex was discovered before [u];
    [ArticulationPointsAndBridges] has no such test, and then writes the
    value [low[u]] already has.  Both leave the same [visited],
    [discovery], [low] and [parent]. *)

Lemma upd_same (A : Type) (d : A) (s : seq A) (n : nat) : upd s n (nth d s n) = s.
Proof. by elim: s n => [|h t IH] [|n] //=; rewrite IH. Qed.

Lemma zset_same (A : Type) (d : A) (s : seq A) (i : Z) : zset s i (zget d s i) = s.
Proof. exact: upd_same. Qed.

Lemma relax_same g t u a :
  tr_inv g t -> tvis t u -> disc t u <= a -> relax u a t = t.
Proof.
move=> Ht Hu Ha; have Hs := ti_size Ht; have Hur := tvis_range Hs Hu.
have [_ _ Hil _] := sized_inb Hs Hur.
have Hl := ti_low Ht Hu; rewrite /lowv -(zget_getd 0 0 Hil) in Hl.
case: t Ht Hu Ha Hs Hil Hl => V D L P T /= Ht Hu Ha Hs Hil Hl.
rewrite /relax /=; congr mkTraversal.
have -> : min (zget 0 L u) a = zget 0 L u.
  by rewrite /min; case: Z.ltb_spec => //; lia.
exact: zset_same.
Qed.

Section Strict.
Variable g : Graph.
Hypothesis Hg : adjacency_invariant g.
Let N := Vertices g.

Lemma ll_scan_strict (rec rec' : Z -> Traversal -> outcome Traversal) :
  (forall v t, tr_inv g t -> pend g t v -> rec v t = rec' v t) ->
  (forall v t t', tr_inv g t -> pend g t v -> rec' v t = Ok t' ->
     call_post g v t t') ->
  forall u l t, tr_inv g t -> idle t -> tvis t u ->
    (forall v, v \in l -> v \in adj g u) ->
    ll_scan true rec u l t = ll_scan false rec' u l t.
Proof.
move=> Hrec Hpost u; elim=> [|v l IH] t Ht Hid Hu Hl //.
have Hs := ti_size Ht.
have Hvu : v \in adj g u by apply: Hl; rewrite mem_head.
have Hvr : 0 <= v < N := inv_rng Hg Hvu.
have Hur : 0 <= u < N := tvis_range Hs Hu.
have Hl' w : w \in l -> w \in adj g u by move=> Hw; apply: Hl; rewrite inE Hw orbT.
have [Hiv Hidv _ _] := sized_inb Hs Hvr.
have [_ Hidu _ Hipu] := sized_inb Hs Hur.
have Evis : zget false (visited t) v = tvis t v by rewrite /tvis /vis Hiv.
rewrite /= Hiv /= Evis; case Hv: (tvis t v) => /=; last first.
- set t1 := set_parent v u t.
  have Ht1 : tr_inv g t1 by apply: tr_inv_set_parent => //; rewrite Hv.
  have Hp1 : pend g t1 v.
    split=> //; first by rewrite /tvis /= -/(tvis t v) Hv.
      by right; rewrite (par_set_parent Hs) // eqxx.
    move=> x Hx Hne; rewrite (par_set_parent Hs) //.
    by case: eqP => // _; apply: Hid.
  rewrite (Hrec v t1 Ht1 Hp1).
  case E: (rec' v t1) => [t2| |] //=.
  have [Ht2 Hid2 Hle2 _ _] := Hpost _ _ _ Ht1 Hp1 E.
  have Hu2 : tvis t2 u by case: Hle2 => H _ _ _; apply: H.
  by apply: IH => //; apply: tr_inv_relax.
- rewrite (zget_getd 0 0 Hidv) (zget_getd 0 0 Hidu) (zget_getd (-1) 0 Hipu).
  rewrite -/(disc t v) -/(disc t u) -/(par t u).
  case: (v != par t u) => /=; last exact: IH.
  case: Z.ltb_spec => Hlt.
    by apply: IH => //; apply: tr_inv_relax.
  by rewrite (relax_same Ht Hu Hlt); apply: IH.
Qed.

Lemma ll_dfs_strict d u t :
  tr_inv g t -> pend g t u -> ll_dfs g true d u t = ll_dfs g false d u t.
Proof.
elim: d u t => [|d IH] u t Ht Hp //; case: (Hp) => Hu Hur _ Hoth.
have Hs := ti_size Ht; have [Hiu _ _ _] := sized_inb Hs Hur.
have HA : inb (AdjList g) u by rewrite /inb (inv_len Hg); z_lia.
rewrite /= Hiu HA /=.
set t1 := visit u t.
have Ht1 : tr_inv g t1 by apply: tr_inv_visit.
have Hu1 : tvis t1 u by rewrite (tvis_visit Hs) // eqxx.
have Hid1 : idle t1.
  move=> x; rewrite (tvis_visit Hs) // negb_or => /andP[/eqP Hne Hx].
  by rewrite /par /= -/(par t x); apply: Hoth.
apply: ll_scan_strict => //.
- by move=> v t0 t' Ht0 Hp0; apply: ll_dfs_call.
- by move=> v; rewrite /adj HA.
Qed.

Lemma ll_run_strict d : ll_run g true d = ll_run g false d.
Proof.
rewrite /ll_run; case: ifP => // _.
have : tr_inv g (init_traversal (Z.to_nat N)) /\ idle (init_traversal (Z.to_nat N)).
  exact: tr_inv_init.
have : forall u, u \in zrange N -> 0 <= u < N by move=> u /zrangeP.
rewrite -/N; elim: (zrange N) (init_traversal _) => [|u l IH] t Hl [Ht Hid] //=.
have Hur : 0 <= u < N by apply: Hl; rewrite mem_head.
have Hl' x : x \in l -> 0 <= x < N by move=> Hx; apply: Hl; rewrite inE Hx orbT.
rewrite -(tvis_zget (ti_size Ht) Hur).
case Hu: (tvis t u) => /=; first exact: IH.
have Hp := pend_root Hid Hur (negbT Hu).
rewrite (ll_dfs_strict d Ht Hp).
case E: (ll_dfs g false d u t) => [t'| |] //=.
have [Ht' Hid' _ _ _] := ll_dfs_call Hg Ht Hp E.
exact: IH.
Qed.

End Strict.

(** * Biconnected components: which edges a component holds *)

(** The call of [dfs] on [w] closed a component when it returned: [w] has
    a parent and [low[w] >= discovery[parent[w]]]. *)
Definition closes (t : Traversal) (w : Z) : bool :=
  (par t w != -1) && (disc t (par t w) <=? lowv t w).

(** [opn t v x]: [x] lies below [v], and no call on a vertex from [x] up
    to the child of [v] closed a component. *)
Inductive opn (t : Traversal) (v : Z) : Z -> Prop :=
| opn_refl : opn t v v
| opn_up x : tvis t x -> par t x <> -1 -> ~~ closes t x ->
             opn t v (par t x) -> opn t v x.

(** The lower end of a pushed edge: the child for a tree edge, the vertex
    that pushed it for an edge to a vertex above. *)
Definition hd (t : Traversal) (e : Z * Z) : Z :=
  if par t e.2 == e.1 then e.2 else e.1.

Lemma opn_desc t v x : opn t v x -> desc t v x.
Proof. by elim=> [|y Hy Hp _ _ IH]; [exact: desc_refl | exact: desc_up]. Qed.

Lemma opn_trans t b a c : opn t a b -> opn t b c -> opn t a c.
Proof. by move=> Hab; elim=> // x Hx Hp Hc _ IH; apply: opn_up. Qed.

(** Two vertices that closed a component above [x], with nothing closed
    in between, are one. *)
Lemma opn_uniq t v w x :
  opn t v x -> opn t w x -> closes t v -> closes t w -> v = w.
Proof.
move=> Hv; elim: Hv w => [|y Hy Hp Hc _ IH] w Hw Cv Cw.
  by inversion Hw as [|y Hy Hp Hc Ho] => //; rewrite Cv in Hc.
inversion Hw as [E|y' Hy' Hp' Hc' Ho]; last exact: IH.
by rewrite -E Cw in Hc.
Qed.

Section OpnLe.
Variable g : Graph.
Hypothesis Hg : adjacency_invariant g.

(** From [t] to [t'] only [low[u]] changed among the marked vertices. *)
Definition low_frame (u : Z) (t t' : Traversal) : Prop :=
  tr_le t t' /\ forall y, tvis t y -> y <> u -> lowv t' y = lowv t y.

Lemma low_frame_trans u t2 t1 t3 :
  low_frame u t1 t2 -> low_frame u t2 t3 -> low_frame u t1 t3.
Proof.
move=> [L1 F1] [L2 F2]; split; first exact: tr_le_trans L1 L2.
by move=> y Hy Hne; rewrite F2 ?F1 //; case: L1 => H _ _ _; apply: H.
Qed.

Lemma closes_le u t t' w :
  tr_inv g t -> low_frame u t t' -> tvis t w -> w <> u ->
  closes t' w = closes t w.
Proof.
move=> Ht [[HV HD _ _] HF] Hw Hne; rewrite /closes.
have [_ Ep] := HD w Hw; rewrite Ep (HF w Hw Hne).
case: eqP => //= Hp.
case: (ti_par Ht Hw) => // -[Hpw _ _].
by have [-> _] := HD _ Hpw.
Qed.

Lemma opn_le u t t' v x :
  tr_inv g t -> low_frame u t t' -> (desc t v u -> u = v) ->
  opn t v x -> opn t' v x.
Proof.
move=> Ht HF Hvu; elim=> [|y Hy Hp Hc Ho IH]; first exact: opn_refl.
case: (HF) => -[HV HD _ _] _; have [_ Ep] := HD y Hy.
have Hyu : y <> u.
  move=> E; rewrite E in Hy Hp Ho.
  have Hd : desc t v u by apply: desc_up => //; exact: opn_desc.
  have Euv := Hvu Hd; rewrite Euv in Hp Ho Hy.
  have := desc_le Ht (opn_desc Ho).
  by case: (ti_par Ht Hy) => // -[_]; lia.
apply: opn_up; rewrite ?Ep ?(closes_le Ht HF) //.
exact: HV.
Qed.

Lemma hd_le t t' e : tr_le t t' -> tvis t e.2 -> hd t' e = hd t e.
Proof. by move=> [_ HD _ _] /HD[_ E]; rewrite /hd E. Qed.

End OpnLe.

Section BCCContent.
Variable g : Graph.
Hypothesis Hg : adjacency_invariant g.
Hypothesis Huniq : forall u, uniq (adj g u).
Variable b : Z.
Let N := Vertices g.

(** The edge [e] is in the open part below [v]. *)
Definition on_chain (t : Traversal) (v : Z) (e : Z * Z) : Prop :=
  [/\ tvis t e.1, tvis t e.2 & opn t v (hd t e)].

(** The component [c] was closed by the call on a vertex [w] marked since
    [t0]: it holds the tree edge to [w] and edges of the open part below
    [w] only. *)
Definition comp_at (t0 t : Traversal) (u : Z) (c : seq (Z * Z)) : Prop :=
  exists w, [/\ newv t0 t w, w <> u, closes t w, (par t w, w) \in c
               & forall e, e \in c -> on_chain t w e].

(** What the call of [dfs] on [u] that started in [s0] has put on the
    stack and into the components. *)
Definition cont (u : Z) (s0 s : BCCState) : Prop :=
  exists rest cs,
    [/\ stack s = stack s0 ++ rest, bcc s = bcc s0 ++ cs,
        forall e, e \in rest -> on_chain (bcc_tr s) u e
      & forall c, c \in cs -> comp_at (bcc_tr s0) (bcc_tr s) u c].

Lemma on_chain_le u t t' v e :
  tr_inv g t -> low_frame u t t' -> (desc t v u -> u = v) ->
  on_chain t v e -> on_chain t' v e.
Proof.
move=> Ht HF Hvu [H1 H2 Ho]; case: (HF) => Hle _; case: (Hle) => HV _ _ _.
split; [exact: HV | exact: HV |].
by rewrite (hd_le Hle H2); exact: (opn_le Ht HF Hvu Ho).
Qed.

Lemma comp_at_le u t0 t t' c :
  tr_inv g t -> low_frame u t t' ->
  (forall w, newv t0 t w -> w <> u -> ~ desc t w u) ->
  comp_at t0 t u c -> comp_at t0 t' u c.
Proof.
move=> Ht HF Hnd [w [Hw Hne Hc Hin Hall]]; exists w.
case: (HF) => Hle _; case: (Hle) => HV HD _ _.
have Hwt : tvis t w by case/andP: Hw.
have [_ Ep] := HD w Hwt.
split=> //.
- exact: newv_le Hw.
- by rewrite (closes_le Ht HF Hwt Hne).
- by rewrite Ep.
- move=> e /Hall; apply: (on_chain_le Ht HF) => Hd.
  by case: (Hnd w Hw Hne).
Qed.

Lemma cont_init u s0 :
  cont u s0 (mkBCC (visit u (bcc_tr s0)) (stack s0) (bcc s0)).
Proof. by exists [::], [::]; split=> //=; rewrite cats0. Qed.


Lemma cont_back u s0 l v s :
  IB g b u s0 l s -> cont u s0 s ->
  (exists l', adj g u = rcons l v ++ l') -> tvis (bcc_tr s) v ->
  let t := bcc_tr s in
  cont u s0
     (if (v != par t u) && (disc t v <? disc t u)
      then mkBCC (relax u (disc t v) t) (rcons (stack s) (u, v)) (bcc s)
      else s).
Proof.
move=> [[Hb HI3] _ _ _ _] [rest [cs [Est Ebc Hrest Hcs]]] Hex Hv t.
rewrite -/t in Hb HI3 Hrest Hcs Hv.
set t0 := bcc_tr s0 in Hb HI3 Hcs *.
case: ifP => [/andP[Hvp /Z.ltb_lt Hlt]|_]; last by exists rest, cs.
have [Hu Edu Epu Hur Hmono] := base_vis Hb.
have Ht : tr_inv g t by case: Hb.
have Hs := ti_size Ht.
case: (HI3) => -[_ _ _ Hnew] _ _.
set t' := relax u (disc t v) t.
have HF : low_frame u t t'.
  split; first exact: tr_le_relax.
  by move=> y Hy Hne; rewrite (lowv_relax Hs) //; case: eqP.
exists (rcons rest (u, v)), cs; split=> //=.
- by rewrite Est rcons_cat.
- move=> e; rewrite mem_rcons inE => /orP[/eqP->|/Hrest]; last first.
    exact: (on_chain_le Ht HF).
  split=> //=; rewrite /hd /=.
  have -> : (par t' v == u) = false.
    apply/eqP => E; case: (ti_par Ht Hv) => [|[_ Hd _]].
      by rewrite [par t v]E; lia.
    by move: Hd; rewrite [par t v]E; lia.
  exact: opn_refl.
- move=> c /Hcs; apply: (comp_at_le Ht HF) => w Hw Hne Hd.
  case/andP: Hw => Hw0 Hw.
  have [Hd' _] := Hnew w Hw0 Hw.
  exact/Hne/(desc_antisym Ht Hd).
Qed.


Lemma cont_tree u s0 l v s :
  IB g b u s0 l s -> cont u s0 s ->
  (exists l', adj g u = rcons l v ++ l') -> ~~ tvis (bcc_tr s) v ->
  let s1 := mkBCC (set_parent v u (bcc_tr s)) (rcons (stack s) (u, v)) (bcc s) in
  forall s2, QB g b v s1 s2 -> cont v s1 s2 ->
    let t3 := relax u (lowv (bcc_tr s2) v) (bcc_tr s2) in
    cont u s0
       (if lowv t3 v >=? disc t3 u
        then mkBCC t3 (pop_component u v (stack s2)).1
                   (rcons (bcc s2) (pop_component u v (stack s2)).2)
        else mkBCC t3 (stack s2) (bcc s2)).
Proof.
move=> HI [rest [cs [Est Ebc Hrest Hcs]]] Hex Hv s1 s2 HQ.
move=> [rest2 [cs2 [Est2 Ebc2 Hrest2 Hcs2]]] t3.
case: (HI) => -[Hb HI3] _ _ _ _.
set t := bcc_tr s in Hb HI3 Hrest Hcs Hv s1 HQ Est2 Ebc2 Hcs2 *.
set t0 := bcc_tr s0 in Hb HI3 Hcs *.
set t1 := set_parent v u t in s1 HQ Est2 Ebc2 Hcs2 *.
set t2 := bcc_tr s2 in HQ Hrest2 Hcs2 t3 *.
have [l' Hadj] := Hex; have Hvu := adj_rcons Hadj.
have [Hu Edu Epu Hur Hmono] := base_vis Hb.
have Ht : tr_inv g t by case: Hb.
have Hs := ti_size Ht.
have Hvr : 0 <= v < N := inv_rng Hg Hvu.
case: HQ => Hc HQ3 [rest2q Est2q Hrest2q] _ _.
case: (Hc) => Ht2 _ Hle12 [Hv2 _ Epv _] Hfr.
have Hs2 := ti_size Ht2.
have Hle1 : tr_le t t1 by apply: (@tr_le_set_parent g).
have Hle2 : tr_le t t2 := tr_le_trans Hle1 Hle12.
have Epar2 : par t2 v = u by rewrite Epv (par_set_parent Hs) // eqxx.
have Hne : v <> u by move=> E; rewrite E Hu in Hv.
have Hu2 : tvis t2 u by case: Hle2 => H _ _ _; apply: H.
have Hun1 : u <> -1 by lia.
have Ep3 x : par t3 x = par t2 x by [].
have Ev3 x : tvis t3 x = tvis t2 x by [].
have Ed3 x : disc t3 x = disc t2 x by [].
have HF23 : low_frame u t2 t3.
  split; first exact: tr_le_relax.
  by move=> y Hy Hny; rewrite (lowv_relax Hs2) //; case: eqP.
have HF13 : low_frame u t t3.
  split; first exact: tr_le_trans Hle2 (tr_le_relax _ _ _).
  move=> y Hy Hny; rewrite (lowv_relax Hs2) //; case: eqP => // _.
  by rewrite -/t2 (Hfr y Hy).
case: (HI3) => -[_ _ _ Hnew] _ _.
case: HQ3 => -[_ _ Hnew2] _.
have Hduv : desc t2 u v.
  by apply: desc_up => //; rewrite Epar2 //; exact: desc_refl.
have Hold w : newv t0 t w -> w <> u -> ~ desc t w u.
  move=> /andP[Hw0 Hw] Hwu Hd; have [Hd' _] := Hnew w Hw0 Hw.
  exact/Hwu/(desc_antisym Ht Hd).
have Hrest3 e : e \in rest -> on_chain t3 u e.
  by move/Hrest; apply: (on_chain_le Ht HF13).
have Hcs3 c : c \in cs -> comp_at t0 t3 u c.
  by move/Hcs; apply: (comp_at_le Ht HF13).
have Hrest23 e : e \in rest2 -> on_chain t3 v e.
  move/Hrest2; apply: (on_chain_le Ht2 HF23) => Hd.
  exact: (desc_antisym Ht2 Hduv Hd).
have Hcs23 c : c \in cs2 -> comp_at t0 t3 u c.
  move/Hcs2 => [w [Hw Hwv Hcl Hin Hall]]; exists w.
  case/andP: (Hw) => Hw1 Hw2.
  have Hwu : w <> u by move=> E; rewrite E [tvis t1 u]Hu in Hw1.
  have [Hdw _] := Hnew2 w Hw1 Hw2.
  split=> //.
  - rewrite /newv Ev3 Hw2 andbT; apply: contra Hw1 => /Hmono.
    by [].
  - by rewrite (closes_le Ht2 HF23 Hw2 Hwu).
  - move=> e /Hall; apply: (on_chain_le Ht2 HF23) => Hd.
    exact: (desc_antisym Ht2 (desc_trans Hduv Hdw) Hd).
have Hv0 : ~~ tvis t0 v by apply: contra Hv => /Hmono.
have Est2' : stack s2 = stack s ++ (u, v) :: rest2 by rewrite Est2 /= cat_rcons.
have Ebc2' : bcc s2 = bcc s0 ++ (cs ++ cs2) by rewrite Ebc2 /= Ebc catA.
have Hhd : hd t3 (u, v) = v by rewrite /hd /= Ep3 Epar2 eqxx.
have Ecl : closes t3 v = (lowv t3 v >=? disc t3 u).
  rewrite /closes Ep3 Epar2 Z.geb_leb.
  by case: eqP.
rewrite -Ecl; case Hcond: (closes t3 v).
- have Er : rest2q = rest2.
    move: Est2q; rewrite Est2 => /(congr1 (drop (size (stack s1)))).
    by rewrite !drop_size_cat.
  have Hrest2u e : e \in rest2 -> e.1 != u.
    rewrite -Er => /Hrest2q /andP[H _]; apply/eqP => E.
    by rewrite E [tvis t1 u]Hu in H.
  rewrite Est2' (pop_component_found _ _ Hrest2u) /=.
  exists rest, (cs ++ cs2 ++ [:: rcons (rev rest2) (u, v)]); split=> //.
  + by rewrite Ebc2' -cats1 -!catA.
  + move=> c; rewrite !mem_cat inE => /or3P[/Hcs3|/Hcs23|/eqP->] //.
    exists v; split=> //.
    * by rewrite /newv Hv0 Ev3.
    * by rewrite Ep3 Epar2 mem_rcons mem_head.
    * move=> e; rewrite mem_rcons inE mem_rev => /orP[/eqP->|/Hrest23 //].
      by split; rewrite ?Ev3 ?Hhd //; exact: opn_refl.
- have Hov : opn t3 u v.
    apply: opn_up; rewrite ?Ev3 ?Ep3 ?Epar2 ?Hcond //.
    exact: opn_refl.
  exists (rest ++ (u, v) :: rest2), (cs ++ cs2); split=> //=.
  + by rewrite Est2' Est catA.
  + move=> e; rewrite mem_cat inE => /or3P[/Hrest3|/eqP->|/Hrest23] //.
      by split; rewrite ?Ev3 ?Hhd.
    by case=> H1 H2 Ho; split=> //; apply: opn_trans Ho.
  + by move=> c; rewrite mem_cat => /orP[/Hcs3|/Hcs23].
Qed.


Lemma bcc_scan_cont rec :
  (forall v s s', PB g b v s -> rec v s = Ok s' -> QB g b v s s' /\ cont v s s') ->
  forall u s0 l2 l1 s s',
    adj g u = l1 ++ l2 -> IB g b u s0 l1 s -> cont u s0 s ->
    bcc_scan rec u l2 s = Ok s' -> cont u s0 s'.
Proof.
move=> Hrec u s0; elim=> [|v l2 IH] l1 s s' Hadj HI HC.
  by case=> <-.
have Hadj' : adj g u = rcons l1 v ++ l2 by rewrite cat_rcons.
have Hex : exists l', adj g u = rcons l1 v ++ l' by exists l2.
have Hvu := adj_rcons Hadj'.
have Hvr : 0 <= v < N := inv_rng Hg Hvu.
case: (HI) => -[Hb _] _ _ _ _.
have [Hu _ _ Hur _] := base_vis Hb.
have Ht : tr_inv g (bcc_tr s) by case: Hb.
have Hs := ti_size Ht.
have [Hiv Hidv _ _] := sized_inb Hs Hvr.
have [_ Hidu _ Hipu] := sized_inb Hs Hur.
have Evis : zget false (visited (bcc_tr s)) v = tvis (bcc_tr s) v.
  by rewrite /tvis /vis Hiv.
rewrite /= Hiv /= Evis; case Hv: (tvis (bcc_tr s) v) => /=.
- rewrite (zget_getd 0 0 Hidv) (zget_getd 0 0 Hidu) (zget_getd (-1) 0 Hipu).
  rewrite -/(disc _ v) -/(disc _ u) -/(par _ u) => E.
  have /= HI' := IB_back Huniq HI Hex Hv.
  have /= HC' := cont_back HI HC Hex Hv.
  by move: E HI' HC'; case: ifP => _ E HI' HC'; exact: (IH _ _ _ Hadj' HI' HC' E).
- have Hnv : ~~ tvis (bcc_tr s) v by rewrite Hv.
  have [HPv Hnext] := IB_tree Hg Huniq HI Hex Hnv.
  case E1: (rec v _) => [s2| |] //=.
  have [HQ HC2] := Hrec _ _ _ HPv E1.
  have Hs2 : sized N (bcc_tr s2) by case: HQ => -[/ti_size].
  have [_ Hidu2 Hilv _] := sized_inb Hs2 Hvr.
  have [_ Hidu3 Hilu _] := sized_inb Hs2 Hur.
  have Hs3 := sized_relax Hs2 u (lowv (bcc_tr s2) v).
  have [_ _ Hilv3 _] := sized_inb Hs3 Hvr.
  have [_ Hidu3' _ _] := sized_inb Hs3 Hur.
  rewrite (zget_getd 0 0 Hilv) -/(lowv _ v).
  rewrite (zget_getd 0 0 Hilv3) (zget_getd 0 0 Hidu3') -/(lowv _ v) -/(disc _ u) => E.
  have /= HI' := Hnext _ HQ.
  have /= HC' := cont_tree HI HC Hex Hnv HQ HC2.
  by move: E HI' HC'; case: ifP => _ E HI' HC'; exact: (IH _ _ _ Hadj' HI' HC' E).
Qed.

Theorem bcc_dfs_cont d u s s' :
  PB g b u s -> bcc_dfs g d u s = Ok s' -> QB g b u s s' /\ cont u s s'.
Proof.
elim: d u s s' => [|d IH] u s s' // HPu E.
have HQ := bcc_dfs_spec Hg Huniq HPu E; split=> //.
case: (HPu) => -[Ht Hp _ _] _ _; case: (Hp) => Hu Hur _ _.
have Hs := ti_size Ht; have [Hiu _ _ _] := sized_inb Hs Hur.
have HA : inb (AdjList g) u by rewrite /inb (inv_len Hg); z_lia.
have Eadj : zget [::] (AdjList g) u = adj g u by rewrite /adj HA.
move: E; rewrite /= Hiu HA /= Eadj => E.
exact: (bcc_scan_cont IH (l1 := [::]) erefl (IB_init Hg HPu) (cont_init u s) E).
Qed.

End BCCContent.

(** ** The components of a run *)

Section BCCContentRun.
Variable g : Graph.
Hypothesis Hg : adjacency_invariant g.
Hypothesis Huniq : forall u, uniq (adj g u).
Let N := Vertices g.

(** The component [c] was closed by the call on [w]. *)
Definition closed_by (t : Traversal) (w : Z) (c : seq (Z * Z)) : Prop :=
  [/\ tvis t w, closes t w, (par t w, w) \in c
    & forall e, e \in c -> on_chain t w e].

Definition bcc_cont (s : BCCState) : Prop :=
  forall c, c \in bcc s -> exists w, closed_by (bcc_tr s) w c.

Lemma closed_by_le t t' w c :
  tr_inv g t -> tr_le t t' -> (forall x, tvis t x -> lowv t' x = lowv t x) ->
  closed_by t w c -> closed_by t' w c.
Proof.
move=> Ht Hle Hfr [Hw Hc Hin Hall].
have HF : low_frame (-1) t t' by split=> // y Hy _; apply: Hfr.
have Hw1 : w <> -1 by have := tvis_range (ti_size Ht) Hw; lia.
case: (Hle) => HV HD _ _; have [_ Ep] := HD w Hw.
split.
- exact: HV.
- by rewrite (closes_le Ht HF Hw Hw1).
- by rewrite Ep.
- move=> e /Hall; apply: (on_chain_le Ht HF) => Hd.
  by inversion Hd as [E|x Hx Hp Hd'] => //; have := tvis_range (ti_size Ht) Hx; lia.
Qed.

Lemma bcc_root_cont d u s s1 :
  bcc_inv g s -> bcc_cont s -> 0 <= u < N -> ~~ tvis (bcc_tr s) u ->
  bcc_dfs g d u s = Ok s1 -> bcc_cont s1.
Proof.
move=> Hi HC Hur Hu E; case: (Hi) => Hr _ _.
have HP := root_P3 Hr Hur Hu.
have [HQ [rest [cs [_ Ebc _ Hcs]]]] := bcc_dfs_cont Hg Huniq HP E.
case: HQ => -[Ht1 _ Hle _ Hfr] _ _ _ _.
case: (Hr) => Ht _ _ _.
move=> c; rewrite Ebc mem_cat => /orP[/HC[w Hw]|/Hcs[w [Hw _ Hcl Hin Hall]]].
  by exists w; apply: closed_by_le Hw.
by exists w; split=> //; case/andP: Hw.
Qed.

Lemma bcc_fold_cont d l s :
  (Z.to_nat N <= d)%N -> bcc_inv g s -> bcc_cont s ->
  (forall u, u \in l -> 0 <= u < N) ->
  forall s', foldM (bcc_root g d) s l = Ok s' -> bcc_cont s'.
Proof.
move=> Hd; elim: l s => [|u l IH] s Hi HC Hl s' /=; first by case=> <-.
have Hur : 0 <= u < N by apply: Hl; rewrite mem_head.
have Hl' x : x \in l -> 0 <= x < N by move=> Hx; apply: Hl; rewrite inE Hx orbT.
have [s1 [E1 Hi1 _ _]] := bcc_root_spec Hg Huniq Hd Hi Hur.
rewrite E1 /=; apply: IH => //.
case: (Hi) => -[/ti_size Hs _ _ _] _ _.
move: E1; rewrite /bcc_root -(tvis_zget Hs Hur).
case Hu: (tvis (bcc_tr s) u) => /=; first by case=> <-.
case E: (bcc_dfs g d u s) => [s2| |] //= [<-].
have [_ Est _ _ _] := bcc_root_call Hg Huniq Hi Hur (negbT Hu) E.
by rewrite (bcc_flush_empty Est); apply: bcc_root_cont E => //; rewrite Hu.
Qed.

Lemma bcc_run_cont :
  exists s, [/\ bcc_run g (Z.to_nat N) = Ok s, bcc_inv g s, bcc_cont s
              & forall x, 0 <= x < N -> tvis (bcc_tr s) x].
Proof.
have [|s [Es Hi Hall _]] :=
  bcc_fold_spec (l := zrange N) Hg Huniq (leqnn _) (bcc_inv_init Hg).
  by move=> x /zrangeP.
exists s; split=> //.
- by rewrite /bcc_run -/N (NltF Hg).
- apply: (bcc_fold_cont (leqnn _) (bcc_inv_init Hg) _ _ Es) => //.
  by move=> x /zrangeP.
- by move=> x Hx; apply: Hall; apply/zrangeP.
Qed.

End BCCContentRun.

(** * Bridges, articulation points and biconnected components *)

Lemma count_flatten_mem (T : eqType) (ss : seq (seq T)) (c : seq T) (x : T) :
  c \in ss -> (count_mem x c <= count_mem x (flatten ss))%N.
Proof.
elim: ss => [|s ss IH] //=; rewrite inE count_cat => /orP[/eqP->|/IH H].
  exact: leq_addr.
exact: leq_trans H (leq_addl _ _).
Qed.

Lemma flatten_once (T : eqType) (ss : seq (seq T)) (c c' : seq T) (x : T) :
  (count_mem x (flatten ss) <= 1)%N ->
  c \in ss -> c' \in ss -> x \in c -> x \in c' -> c = c'.
Proof.
elim: ss => [|s ss IH] //=; rewrite count_cat !inE => Hc.
have Hin d : d \in ss -> x \in d -> (0 < count_mem x (flatten ss))%N.
  move=> Hd Hx; rewrite -has_count has_pred1.
  by apply/flattenP; exists d.
have Hs : x \in s -> (0 < count_mem x s)%N by rewrite -has_count has_pred1.
case/orP=> [/eqP->|H1] /orP[/eqP->|H2] // Hx Hx'.
- by exfalso; move: (Hs Hx) (Hin _ H2 Hx') Hc; nat_atoms => A1 A2 A3; nat_lia.
- by exfalso; move: (Hs Hx') (Hin _ H1 Hx) Hc; nat_atoms => A1 A2 A3; nat_lia.
- apply: IH => //; apply: leq_trans Hc; exact: leq_addl.
Qed.

Lemma single_seq (T : eqType) (c : seq T) (x : T) :
  x \in c -> (forall e, e \in c -> e = x) -> (count_mem x c <= 1)%N -> c = [:: x].
Proof.
case: c => [|a [|a' c]] //= Hx Hall.
  by have -> : a = x by apply: Hall; rewrite mem_head.
have Ea : a = x by apply: Hall; rewrite mem_head.
have Ea' : a' = x by apply: Hall; rewrite !inE eqxx orbT.
by rewrite Ea Ea' /= eqxx.
Qed.

(** The vertex [x] is an end of an edge of the component [c]. *)
Definition touches (x : Z) (c : seq (Z * Z)) : bool :=
  has (fun e => (e.1 == x) || (e.2 == x)) c.

Section FinalBCC.
Variable g : Graph.
Hypothesis Hg : adjacency_invariant g.
Hypothesis Hsim : simple_graph g.
Variable t : Traversal.
Variable comps : seq (seq (Z * Z)).
Hypothesis Ht : tr_inv g t.
Hypothesis Hall : forall x, 0 <= x < Vertices g -> tvis t x.
Hypothesis He : edge_ok g t.
Hypothesis Hfin : forall x, tvis t x -> fin g t x.
Hypothesis Hcnt : forall e, count_mem e (flatten comps) =
  (tvis t e.1 && (e.2 \in adj g e.1) && push_cond t e.1 e.2 : nat).
Hypothesis Hcont : forall c, c \in comps -> exists w, closed_by t w c.

Lemma mem_comps e :
  (e \in flatten comps) = tvis t e.1 && (e.2 \in adj g e.1) && push_cond t e.1 e.2.
Proof. by rewrite -has_pred1 has_count Hcnt; case: (_ && _). Qed.

Lemma cnt_le1 e : (count_mem e (flatten comps) <= 1)%N.
Proof. by rewrite Hcnt; case: (_ && _). Qed.

Lemma comps_inj c c' e :
  c \in comps -> c' \in comps -> e \in c -> e \in c' -> c = c'.
Proof. exact: (flatten_once (cnt_le1 e)). Qed.

Lemma closed_by_uniq w c c' :
  c \in comps -> closed_by t w c -> c' \in comps -> closed_by t w c' -> c = c'.
Proof.
move=> Hc [_ _ Hin _] Hc' [_ _ Hin' _]; exact: comps_inj Hin Hin'.
Qed.

(** A pushed edge of the open part below a vertex that closed a component
    is in that component. *)
Lemma comp_of_edge e w c :
  e \in flatten comps -> opn t w (hd t e) -> c \in comps -> closed_by t w c ->
  e \in c.
Proof.
case/flattenP=> c' Hc' He' Ho Hc Hw.
have [w' Hw'] := Hcont Hc'.
case: (Hw') => _ Cw' _ /(_ e He')[_ _ Ho']; case: (Hw) => _ Cw _ _.
have E := opn_uniq Ho' Ho Cw' Cw; rewrite E in Hw'.
by rewrite (closed_by_uniq Hc Hw Hc' Hw').
Qed.

Lemma tree_pushed w : tvis t w -> par t w <> -1 -> (par t w, w) \in flatten comps.
Proof.
move=> Hw Hp; have [Hpw _ Hadj] := tree_edge Ht Hw Hp.
have Hadj' : w \in adj g (par t w) := Hadj.
by rewrite mem_comps /= Hpw Hadj' /push_cond eqxx.
Qed.

Lemma hd_tree w : hd t (par t w, w) = w.
Proof. by rewrite /hd /= eqxx. Qed.

(** Every vertex that closed a component has its component. *)
Lemma comp_exists w :
  tvis t w -> closes t w -> exists2 c, c \in comps & closed_by t w c.
Proof.
move=> Hw Cw; have Hp : par t w <> -1 by case/andP: Cw => /eqP.
case/flattenP: (tree_pushed Hw Hp) => c Hc Hin; exists c => //.
have [w' Hw'] := Hcont Hc.
case: (Hw') => _ Cw' _ /(_ _ Hin)[_ _]; rewrite hd_tree => Ho.
by rewrite -(opn_uniq Ho (opn_refl t w) Cw' Cw).
Qed.


(** ** A bridge is a component of its own *)

(** Below the lower end of a bridge, every child closed a component. *)
Lemma bridge_opn u v x : bridge_at t (u, v) -> opn t v x -> x = v.
Proof.
case/and4P=> /= Hu Hv /eqP Ev /Z.ltb_lt Hlow.
elim=> // y Hy Hp Hc _ Ey; exfalso.
move: Hc; rewrite /closes Ey; case: eqP => [E|_] /=; first by rewrite Ey in Hp.
move/negbTE/Z.leb_gt => Hly.
have Hpv : par t v <> -1 by rewrite Ev; have := tvis_range (ti_size Ht) Hu; lia.
have [_ Hlt _] := tree_edge Ht Hv Hpv; rewrite Ev in Hlt.
have [Hk _ _] := Hfin Hv; have Hvy := Hk y Hy Ey.
have [y' [z [Hd Hy' Hz El Hyz]]] := low_reach Ht Hfin Hy.
have Hdy : disc t v < disc t y.
  by case: (ti_par Ht Hy) => // -[_]; rewrite Ey.
have Hle := desc_le Ht Hd.
case: Hyz => [E|[Hzy Hzp]]; first by rewrite E in El; lia.
have Hvy' : desc t v y'.
  by apply: desc_trans Hd; apply: desc_up => //; rewrite Ey; exact: desc_refl.
case: (sub_edge Hg Ht Hall He Hfin Hv Hvy' Hzy) => [Hvz|[_ _ Hzu _]].
  by have := desc_le Ht Hvz; lia.
by rewrite Ev in Hzu; have := desc_le Ht Hzu; lia.
Qed.

Lemma bridge_single u v : bridge_at t (u, v) -> [:: (u, v)] \in comps.
Proof.
move=> Hb; case/and4P: (Hb) => /= Hu Hv /eqP Ev /Z.ltb_lt Hlow.
have Hun : u <> -1 by have := tvis_range (ti_size Ht) Hu; lia.
have Hpv : par t v <> -1 by rewrite Ev.
have [_ Hlt Huv] := tree_edge Ht Hv Hpv; rewrite Ev in Hlt Huv.
have Cv : closes t v.
  by rewrite /closes Ev; case: eqP => //= _; apply/Z.leb_le; lia.
have [c Hc Hw] := comp_exists Hv Cv.
suff -> : [:: (u, v)] = c by [].
case: (Hw) => _ _ Hin Hch; rewrite Ev in Hin.
apply/esym/single_seq => //; last first.
  exact: leq_trans (count_flatten_mem _ Hc) (cnt_le1 _).
move=> [a c'] Hec; have [/= He1 He2 Ho] := Hch _ Hec.
have Hpe : (a, c') \in flatten comps by apply/flattenP; exists c.
move: Hpe; rewrite mem_comps /= => /andP[/andP[_ Hadj] Hpush].
have := bridge_opn Hb Ho; rewrite /hd /=; case: eqP => [Ep E2|Hnp E1].
  by rewrite -Ep E2 Ev.
move: Hpush; rewrite /push_cond; case: eqP => //= _ /andP[/eqP Hne /Z.ltb_lt Hd].
rewrite E1 Ev in Hne Hd Hadj.
have [_ Hla _] := Hfin Hv; have := Hla c' Hadj; rewrite Ev => /(_ Hne) Hl2.
case: (He Hv He2 Hadj) => Hd'; first by have := desc_le Ht Hd'; lia.
have Hne2 : v <> c' by move=> E; rewrite -E in Hd; lia.
have [_ _ Hdu] := desc_parent Hd' Hne2; rewrite Ev in Hdu.
by have := desc_le Ht Hdu; lia.
Qed.

(** Below [v], along a path from which an edge leads to the parent of
    [v], nothing closed a component. *)
Lemma opn_low v y :
  tvis t v -> par t v <> -1 -> desc t v y -> lowv t y <= disc t (par t v) ->
  opn t v y.
Proof.
move=> Hv Hpv Hd Hl.
have [_ Hlt _] := tree_edge Ht Hv Hpv.
elim: Hd Hl => [|x Hx Hp Hd IH] Hl; first exact: opn_refl.
case: (x =P v) => [->|Hxv]; first exact: opn_refl.
have [Hpx Hltx _] := tree_edge Ht Hx Hp.
have [Hk _ _] := Hfin Hpx; have Hlx := Hk x Hx erefl.
apply: opn_up => //; last by apply: IH; lia.
rewrite /closes; case: eqP => //= _; apply/negbT/Z.leb_gt.
by have := desc_le Ht Hd; lia.
Qed.

Lemma single_bridge u v : [:: (u, v)] \in comps -> bridge_at t (u, v).
Proof.
move=> Hc; have [w Hw] := Hcont Hc.
case: (Hw) => Hwv Cw; rewrite inE => /eqP[Eu Ev] _; subst w.
case/andP: (Cw) => /eqP Hpv /Z.leb_le Hle; rewrite Eu in Hle.
have [Hu Hlt Huv] := tree_edge Ht Hwv Hpv; rewrite Eu in Hu Hlt Huv.
rewrite /bridge_at /= Hu Hwv Eu eqxx /=; apply/Z.ltb_lt.
case: (Z.le_gt_cases (lowv t v) (disc t u)) => // Hlow.
have [y [z [Hd Hy Hz El Hyz]]] := low_reach Ht Hfin Hwv.
have Hdy := desc_le Ht Hd.
case: Hyz => [E|[Hzy Hzp]]; first by rewrite E in El; lia.
have Ez : z = u by apply: (ti_inj Ht) => //; lia.
rewrite Ez in Hzy Hzp.
have Hly : lowv t y <= disc t (par t v).
  by have [_ Ha _] := Hfin Hy; have := Ha u Hzy Hzp; rewrite Eu.
have Ho := opn_low Hwv Hpv Hd Hly.
have Hhd : hd t (y, u) = y.
  rewrite /hd /=; case: eqP => // Epu.
  case: (ti_par Ht Hu) => [E|[_ Hd' _]].
    by have := tvis_range (ti_size Ht) Hy; rewrite -Epu E; lia.
  by move: Hd'; rewrite Epu; lia.
have Hpe : (y, u) \in flatten comps.
  rewrite mem_comps /= Hy Hzy /push_cond /=.
  have -> : (u != par t y) by apply/eqP.
  have -> : (disc t u <? disc t y) = true by apply/Z.ltb_lt; lia.
  by rewrite orbT.
have := comp_of_edge Hpe _ Hc Hw; rewrite Hhd => /(_ Ho).
rewrite inE => /eqP[Eyu _]; rewrite Eyu in Hdy; lia.
Qed.

(** ** An articulation point joins two components *)

Lemma root_child_closes x c :
  tvis t x -> tvis t c -> par t c = x -> par t x = -1 -> closes t c.
Proof.
move=> Hx Hc Ec Ex.
have Hxn : x <> -1 by have := tvis_range (ti_size Ht) Hx; lia.
have Hp : par t c <> -1 by rewrite Ec.
have [_ Hlt _] := tree_edge Ht Hc Hp; rewrite Ec in Hlt.
rewrite /closes Ec; case: eqP => //= _; apply/Z.leb_le.
have [y [z [Hd Hy Hz El Hyz]]] := low_reach Ht Hfin Hc.
have Hle := desc_le Ht Hd.
case: Hyz => [E|[Hzy Hzp]]; first by rewrite E in El; lia.
case: (sub_edge Hg Ht Hall He Hfin Hc Hd Hzy) => [Hcz|[_ _ Hzx _]].
  by have := desc_le Ht Hcz; lia.
by rewrite Ec in Hzx; rewrite El (root_top Ex Hzx); lia.
Qed.

Lemma opn_mid w a x : opn t w a -> desc t x a -> desc t w x -> opn t w x.
Proof.
elim=> [|y Hy Hp Hc Ho IH] Hxa Hwx.
  by rewrite (desc_antisym Ht Hxa Hwx); exact: opn_refl.
case: (y =P x) => [<-|Hne]; first exact: opn_up.
by have [_ _ Hd] := desc_parent Hxa Hne; apply: IH.
Qed.

(** An edge at [x] lies in the component of the open part [x] is in, or
    in the component that a child of [x] closed. *)
Lemma touch_cases x e w c :
  c \in comps -> closed_by t w c -> e \in c -> (e.1 == x) || (e.2 == x) ->
  opn t w x \/ par t w = x.
Proof.
case: e => a b /= Hc Hw Hec Hx.
case: (Hw) => Hwv Cw _ /(_ _ Hec)[/= Ha Hb Ho].
have : (a, b) \in flatten comps by apply/flattenP; exists c.
rewrite mem_comps /= => /andP[/andP[_ Hab] Hpush].
move: Ho Hpush; rewrite /hd /push_cond /=; case: eqP => [Ep|Hnp] /= Ho.
  move=> _; case/orP: Hx => /eqP Ex; last by left; rewrite -Ex.
  inversion Ho as [E|y Hy Hp Hcl Ho']; first by right; rewrite Ep.
  by left; rewrite -Ex -Ep.
case/andP=> /eqP Hbp /Z.ltb_lt Hlt.
case/orP: Hx => /eqP Ex; first by left; rewrite -Ex.
rewrite -Ex.
have Hba : desc t b a.
  by case: (He Ha Hb Hab) => // Hd; have := desc_le Ht Hd; lia.
case: (desc_chain (opn_desc Ho) Hba) => Hd; first by left; apply: opn_mid Ho _ _.
case: (b =P w) => [->|Hbw]; first by left; exact: opn_refl.
have [c0 [Hc0 Ec0 Hpc0 Hd0]] := desc_child Hd (nesym Hbw).
case: (w =P c0) => [->|Hwc]; first by right.
exfalso.
have [_ _ Hd1] := desc_parent Hd0 Hwc.
have [_ Hltc _] := tree_edge Ht Hc0 Hpc0; rewrite Ec0 in Hltc.
case/andP: Cw => _ /Z.leb_le Hcw.
have Hlw := low_desc Ht Hfin (opn_desc Ho) Ha.
have [_ Hla _] := Hfin Ha; have Hlb := Hla b Hab Hbp.
by have := desc_le Ht Hd1; lia.
Qed.

Lemma touches_tree w c : (par t w, w) \in c -> touches (par t w) c /\ touches w c.
Proof.
by move=> Hin; split; apply/hasP; exists (par t w, w); rewrite //= eqxx ?orbT.
Qed.

Lemma art_touches x :
  tvis t x -> art g t x ->
  exists c1 c2, [/\ c1 \in comps, c2 \in comps, c1 <> c2,
                    touches x c1 & touches x c2].
Proof.
move=> Hx; have [Huq _] := Hsim x.
have Hxn : x <> -1 by have := tvis_range (ti_size Ht) Hx; lia.
rewrite /art /art_upto; case: eqP => [Ex|Hp].
  case/(count_gt1 Huq) => a [b [Ha Hb Hab /eqP Ea /eqP Eb]].
  have [_ Hat] := edge_vis Hg Hall Ha; have [_ Hbt] := edge_vis Hg Hall Hb.
  have [ca Hca Hwa] := comp_exists Hat (root_child_closes Hx Hat Ea Ex).
  have [cb Hcb Hwb] := comp_exists Hbt (root_child_closes Hx Hbt Eb Ex).
  exists ca, cb; split=> //.
  - move=> E; case: (Hwb) => _ _ Hin _; rewrite -E in Hin.
    case: (Hwa) => _ _ _ /(_ _ Hin)[_ _]; rewrite hd_tree => /opn_desc Hd.
    have [_ _ Hd'] := desc_parent Hd (nesym Hab); rewrite Eb in Hd'.
    have Hpa : par t a <> -1 by rewrite Ea.
    have [_ Hlt _] := tree_edge Ht Hat Hpa; rewrite Ea in Hlt.
    by have := desc_le Ht Hd'; lia.
  - by case: (Hwa) => _ _ /touches_tree[]; rewrite Ea.
  - by case: (Hwb) => _ _ /touches_tree[]; rewrite Eb.
case/hasP=> c Hc /andP[/eqP Ec /Z.leb_le Hl].
have [_ Hct] := edge_vis Hg Hall Hc.
have Cc : closes t c by rewrite /closes Ec; case: eqP => //= _; apply/Z.leb_le.
have [cc Hcc Hwc] := comp_exists Hct Cc.
case/flattenP: (tree_pushed Hx Hp) => c2 Hc2 Hin2.
exists cc, c2; split=> //.
- move=> E; rewrite -E in Hin2.
  case: (Hwc) => _ _ _ /(_ _ Hin2)[_ _]; rewrite hd_tree => /opn_desc Hd.
  have Hpc : par t c <> -1 by rewrite Ec.
  have [_ Hlt _] := tree_edge Ht Hct Hpc; rewrite Ec in Hlt.
  by have := desc_le Ht Hd; lia.
- by case: (Hwc) => _ _ /touches_tree[]; rewrite Ec.
- by case: (touches_tree Hin2).
Qed.

Lemma closing_child_art x w w' :
  tvis t w -> closes t w -> par t w = x ->
  tvis t w' -> closes t w' -> w' <> w -> opn t w' x \/ par t w' = x ->
  art g t x.
Proof.
move=> Hw Cw Ew Hw' Cw' Hne Hx'.
have [Huq _] := Hsim x.
case/andP: (Cw) => /eqP Hp /Z.leb_le Hl; rewrite Ew in Hl.
have [Hx _ Hxw] := tree_edge Ht Hw Hp; rewrite Ew in Hx Hxw.
rewrite /art /art_upto; case: eqP => [Ex|_]; last first.
  by apply/hasP; exists w => //; rewrite Ew eqxx /=; apply/Z.leb_le.
case: Hx' => [/opn_desc Hd|Ew'].
  by case/andP: Cw' => /eqP; rewrite (root_top Ex Hd).
case/andP: (Cw') => /eqP Hp' _.
have [_ _ Hxw'] := tree_edge Ht Hw' Hp'; rewrite Ew' in Hxw'.
rewrite -size_filter.
have Hsub : {subset [:: w; w'] <= filter (fun c => par t c == x) (adj g x)}.
  move=> z; rewrite !inE mem_filter => /orP[/eqP->|/eqP->].
    by rewrite Ew eqxx.
  by rewrite Ew' eqxx.
have := uniq_leq_size _ Hsub; rewrite /= inE andbT; apply.
by apply/eqP => E; case: Hne.
Qed.

Lemma touches_art x c1 c2 :
  c1 \in comps -> c2 \in comps -> c1 <> c2 -> touches x c1 -> touches x c2 ->
  tvis t x && art g t x.
Proof.
move=> Hc1 Hc2 Hne /hasP[e1 He1 Hx1] /hasP[e2 He2 Hx2].
have [w1 Hw1] := Hcont Hc1; have [w2 Hw2] := Hcont Hc2.
have Hw12 : w1 <> w2.
  by move=> E; rewrite E in Hw1; case: Hne; apply: closed_by_uniq Hw1 _ Hw2.
have Hx : tvis t x.
  case: (Hw1) => _ _ _ /(_ _ He1)[H1 H2 _].
  by case/orP: Hx1 => /eqP <-.
rewrite Hx /=.
have T1 := touch_cases Hc1 Hw1 He1 Hx1.
have T2 := touch_cases Hc2 Hw2 He2 Hx2.
case: (Hw1) => Hv1 C1 _ _; case: (Hw2) => Hv2 C2 _ _.
case: T1 => [O1|E1]; last first.
  exact: (closing_child_art Hv1 C1 E1 Hv2 C2 (nesym Hw12) T2).
case: T2 => [O2|E2]; last first.
  by apply: (closing_child_art Hv2 C2 E2 Hv1 C1 Hw12); left.
by case: Hw12; apply: opn_uniq O1 O2 C1 C2.
Qed.

End FinalBCC.

Section TwoRuns.
Variable g : Graph.
Hypothesis Hg : adjacency_invariant g.
Hypothesis Hsim : simple_graph g.

(** The two analyses end with the same traversal; what holds of it. *)
Lemma two_runs :
  exists sa sb,
    [/\ apb_run g (Z.to_nat (Vertices g)) = Ok sa,
        bcc_run g (Z.to_nat (Vertices g)) = Ok sb,
        bcc_tr sb = apb_tr sa,
        apb_inv g sa /\ (forall x, 0 <= x < Vertices g -> tvis (apb_tr sa) x)
      & bcc_inv g sb /\ bcc_cont sb].
Proof.
have Huniq x : uniq (adj g x) by case: (Hsim x).
have [sa [Esa Hia Halla]] := apb_run_spec Hg Huniq.
have [sb [Esb Hib Hcb Hallb]] := bcc_run_cont Hg Huniq.
exists sa, sb; split=> //.
have := bcc_run_ll g (Z.to_nat (Vertices g)).
by rewrite Esb (ll_run_strict Hg) -apb_run_ll Esa /= => -[].
Qed.

End TwoRuns.

(** X23. On a simple graph that satisfies the adjacency invariant, the
    bridges [ArticulationPointsAndBridges] lists are the components of
    [BiconnectedComponents] that hold one edge: [(u, v)] is a listed
    bridge exactly when the list with the one pair [(u, v)] is a returned
    component. *)
Theorem bridges_are_single_edge_components (g : Graph) :
  adjacency_invariant g -> simple_graph g ->
  exists aps brs comps,
    [/\ ArticulationPointsAndBridges g = Ok (aps, brs),
        BiconnectedComponents g = Ok comps
      & forall u v, ((u, v) \in brs) = ([:: (u, v)] \in comps)].
Proof.
move=> Hg Hsim.
have [sa [sb [Esa Esb Et [[Hr Hfin Hap Hbr] Hall] [[_ _ Hcnt] Hcont]]]] :=
  two_runs Hg Hsim.
case: (Hr) => Ht _ _ He.
rewrite /bcc_cont Et in Hcont; rewrite Et in Hcnt.
exists (ap sa), (br sa), (bcc sb); split.
- by rewrite /ArticulationPointsAndBridges Esa.
- by rewrite /BiconnectedComponents Esb.
move=> u v; rewrite Hbr; apply/idP/idP.
  exact: (bridge_single Hg Ht Hall He Hfin Hcnt Hcont).
exact: (single_bridge Ht Hfin Hcnt Hcont).
Qed.

Lemma bridges_are_single_edge_components_path4 :
  exists aps brs comps,
    [/\ ArticulationPointsAndBridges path4_graph = Ok (aps, brs),
        BiconnectedComponents path4_graph = Ok comps
      & forall u v, ((u, v) \in brs) = ([:: (u, v)] \in comps)].
Proof.
exact: (bridges_are_single_edge_components (ReadGraph_invariant ReadGraph_path4)
          (ReadGraph_simple ReadGraph_path4)).
Defined.

(** X24. On a simple graph that satisfies the adjacency invariant, the
    articulation points [ArticulationPointsAndBridges] lists are the
    vertices at which two components of [BiconnectedComponents] meet: a
    vertex is listed exactly when it is an end of an edge in two different
    returned components. *)
Theorem articulation_points_join_components (g : Graph) :
  adjacency_invariant g -> simple_graph g ->
  exists aps brs comps,
    [/\ ArticulationPointsAndBridges g = Ok (aps, brs),
        BiconnectedComponents g = Ok comps
      & forall x, x \in aps <->
          exists c1 c2, [/\ c1 \in comps, c2 \in comps, c1 <> c2,
                            touches x c1 & touches x c2]].
Proof.
move=> Hg Hsim.
have [sa [sb [Esa Esb Et [[Hr Hfin Hap Hbr] Hall] [[_ _ Hcnt] Hcont]]]] :=
  two_runs Hg Hsim.
case: (Hr) => Ht _ _ He.
rewrite /bcc_cont Et in Hcont; rewrite Et in Hcnt.
exists (ap sa), (br sa), (bcc sb); split.
- by rewrite /ArticulationPointsAndBridges Esa.
- by rewrite /BiconnectedComponents Esb.
move=> x; rewrite Hap; split.
  case/andP=> Hx Ha.
  exact: (art_touches Hg Hsim Ht Hall He Hfin Hcnt Hcont Hx Ha).
case=> c1 [c2 [Hc1 Hc2 Hne T1 T2]].
exact: (touches_art Hsim Ht He Hfin Hcnt Hcont Hc1 Hc2 Hne T1 T2).
Qed.

Lemma articulation_points_join_components_path4 :
  exists aps brs comps,
    [/\ ArticulationPointsAndBridges path4_graph = Ok (aps, brs),
        BiconnectedComponents path4_graph = Ok comps
      & forall x, x \in aps <->
          exists c1 c2, [/\ c1 \in comps, c2 \in comps, c1 <> c2,
                            touches x c1 & touches x c2]].
Proof.
exact: (articulation_points_join_components (ReadGraph_invariant ReadGraph_path4)
          (ReadGraph_simple ReadGraph_path4)).
Defined.
